(** * Synth_NeuroDark23: pattern store, CSV codec, MIDI codec and scheduler

    A shallow embedding of the JavaScript sources
      - [TimeMatrix]  (grid data, block management, CSV import/export),
      - [MidiIO]      (Standard MIDI File writer and reader),
      - [AudioEngine] (look-ahead scheduler and synth list, in
                       [Synth/ui_controller.js]),
      - [UIController] (MIDI import and note editor, same file),
      - [DrumSynth]   (channel configuration, in [Synth/drum_synth.js]),
      - [BassSynth]   (parameters, and the calls of a voice that can
                       raise),
    followed by the properties established about them.

    Conventions of the embedding
      - JavaScript strings are [string]s; only ASCII text is considered.
      - Integer-valued JavaScript numbers are [Z]; a value that may be the
        not-a-number value is a [JS.num].  JavaScript agrees with [Z] for
        magnitudes below 2^53.
      - [null] and [undefined] entries of an array are both [None] (or the
        empty list for drum steps): every reader in the sources only tests
        them for truthiness.
      - Audio-clock times are exact rationals ([Q]).
      - Code wrapped in [try]/[catch] runs in the result type [Res], which
        keeps the state reached when an exception is raised. *)

From Stdlib Require Import ZArith QArith Qround Lia Lqa List String Ascii Bool.
From Stdlib Require Import DecimalString DecimalZ DecimalN DecimalPos.
From stdpp Require Import base gmap strings list.

Open Scope string_scope.
Open Scope Z_scope.

(* ================================================================== *)
(** * Part I.  The embedding                                           *)
(* ================================================================== *)

(** ** JavaScript built-ins used by the sources *)

Module JS.

(** An integer-valued number or NaN. *)
Inductive num : Type :=
| NaN : num
| Num (z : Z) : num.

Definition isNaN (n : num) : bool :=
  match n with NaN => true | Num _ => false end.

(** Template-literal rendering of an integer.  The decimal digits are
    what JavaScript prints for magnitudes below 2^53; from 10^21 on
    JavaScript switches to exponent notation, which this function does
    not follow.  The round trip of the CSV text and the variant control
    of the drum synth, which depend on the digits, carry the bound as a
    hypothesis. *)
Definition Z_to_string (z : Z) : string :=
  NilZero.string_of_int (Z.to_int z).

Definition num_to_string (n : num) : string :=
  match n with
  | NaN => "NaN"
  | Num z => Z_to_string z
  end.

(** [Math.max(0, Math.min(100, val))]; NaN is contagious. *)
Definition clamp100 (n : num) : num :=
  match n with
  | NaN => NaN
  | Num z => Num (Z.max 0 (Z.min 100 z))
  end.

(** White space removed by [String.prototype.trim] (ASCII part). *)
Definition is_ws (c : ascii) : bool :=
  match nat_of_ascii c with
  | 9%nat | 10%nat | 11%nat | 12%nat | 13%nat | 32%nat => true
  | _ => false
  end.

Fixpoint trimStart (s : string) : string :=
  match s with
  | EmptyString => EmptyString
  | String c r => if is_ws c then trimStart r else s
  end.

Definition is_empty (s : string) : bool :=
  match s with EmptyString => true | _ => false end.

Fixpoint trimEnd (s : string) : string :=
  match s with
  | EmptyString => EmptyString
  | String c r =>
      let r' := trimEnd r in
      if is_ws c && is_empty r' then EmptyString else String c r'
  end.

Definition trim (s : string) : string := trimEnd (trimStart s).

(** [s.split(sep)] for a one-character separator. *)
Fixpoint split (sep : ascii) (s : string) : list string :=
  match s with
  | EmptyString => [EmptyString]
  | String c r =>
      if Ascii.eqb c sep then EmptyString :: split sep r
      else match split sep r with
           | h :: t => String c h :: t
           | [] => [String c EmptyString]
           end
  end.

(** [s.includes(c)] for a one-character needle. *)
Fixpoint includes (c : ascii) (s : string) : bool :=
  match s with
  | EmptyString => false
  | String d r => Ascii.eqb d c || includes c r
  end.

(** [s.startsWith(p)]. *)
Fixpoint startsWith (p s : string) : bool :=
  match p, s with
  | EmptyString, _ => true
  | String a p', String b s' => Ascii.eqb a b && startsWith p' s'
  | String _ _, EmptyString => false
  end.

(** [s.replace(c, '')]: the first occurrence of [c] is removed. *)
Fixpoint remove_first (c : ascii) (s : string) : string :=
  match s with
  | EmptyString => EmptyString
  | String d r => if Ascii.eqb d c then r else String d (remove_first c r)
  end.

(** Value of a digit character in the given radix (10 or 16). *)
Definition digit_val (radix : Z) (c : ascii) : option Z :=
  let n := Z.of_nat (nat_of_ascii c) in
  let v :=
    if (48 <=? n) && (n <=? 57) then Some (n - 48)
    else if (97 <=? n) && (n <=? 122) then Some (n - 87)
    else if (65 <=? n) && (n <=? 90) then Some (n - 55)
    else None in
  match v with
  | Some d => if d <? radix then Some d else None
  | None => None
  end.

(** Longest prefix of digits, accumulated left to right; [None] while
    no digit has been read. *)
Fixpoint parse_digits (radix : Z) (s : string) (acc : option Z) : option Z :=
  match s with
  | EmptyString => acc
  | String c r =>
      match digit_val radix c with
      | Some d =>
          parse_digits radix r
            (Some (radix * (match acc with Some a => a | None => 0 end) + d))
      | None => acc
      end
  end.

(** [parseInt(s)] without a radix argument: leading white space, an
    optional sign, an optional [0x] prefix, then digits. *)
Definition parseInt (s : string) : num :=
  let s := trimStart s in
  let '(neg, s) :=
    match s with
    | String "-" r => (true, r)
    | String "+" r => (false, r)
    | _ => (false, s)
    end in
  let '(radix, s) :=
    match s with
    | String "0" (String "x" r) => (16, r)
    | String "0" (String "X" r) => (16, r)
    | _ => (10, s)
    end in
  match parse_digits radix s None with
  | None => NaN
  | Some v => Num (if neg : bool then - v else v)
  end.

(** [parseInt(x)] where [x] may be [undefined] (an absent array entry). *)
Definition parseInt_opt (o : option string) : num :=
  match o with
  | Some s => parseInt s
  | None => NaN
  end.

(** [parseInt(n)] applied to a number: it is rendered, then re-read
    (for magnitudes below 2^53, see [Z_to_string]). *)
Definition parseInt_num (n : num) : num := parseInt (num_to_string n).

(** [Math.ceil(a / b)] on integers, [b > 0]. *)
Definition ceil_div (a b : Z) : Z := - ((- a) / b).

(** [arr[i] = v]: in range the entry is replaced; past the end the
    array grows and the skipped entries are holes, read as [pad]. *)
Definition array_set {A} (pad : A) (l : list A) (i : nat) (v : A) : list A :=
  if (i <? length l)%nat then <[i := v]> l
  else l ++ replicate (i - length l) pad ++ [v].

(** [arr.splice(start, 1)]: a negative [start] counts from the end. *)
Definition splice1 {A} (start : Z) (l : list A) : list A :=
  let len := Z.of_nat (length l) in
  let s := if start <? 0 then Z.max (len + start) 0 else Z.min start len in
  delete (Z.to_nat s) l.

(** [arr.splice(start, 0, x)]: [x] is inserted before position
    [start]; a negative [start] counts from the end and a [start] past
    the end appends. *)
Definition splice_in {A} (start : Z) (x : A) (l : list A) : list A :=
  let len := Z.of_nat (length l) in
  let s := if start <? 0 then Z.max (len + start) 0 else Z.min start len in
  take (Z.to_nat s) l ++ x :: drop (Z.to_nat s) l.

(** Names that every object inherits from [Object.prototype]: reading
    such a key from an object that does not own it yields a truthy
    value. *)
Definition proto_member (k : string) : bool :=
  existsb (String.eqb k)
    ["constructor"; "toString"; "toLocaleString"; "valueOf";
     "hasOwnProperty"; "isPrototypeOf"; "propertyIsEnumerable";
     "__proto__"; "__defineGetter__"; "__defineSetter__";
     "__lookupGetter__"; "__lookupSetter__"].

End JS.

(** ** Exceptions inside [try]/[catch] *)

Inductive Res (S : Type) : Type :=
| Ok (s : S) : Res S
| Throw (s : S) : Res S.
Arguments Ok {S} s.
Arguments Throw {S} s.

Definition res_state {S} (r : Res S) : S :=
  match r with Ok s => s | Throw s => s end.

Definition res_ok {S} (r : Res S) : bool :=
  match r with Ok _ => true | Throw _ => false end.

Definition and_then {S} (r : Res S) (k : S -> Res S) : Res S :=
  match r with
  | Ok s => k s
  | Throw s => Throw s
  end.

Definition res_map {S T} (f : S -> T) (r : Res S) : Res T :=
  match r with
  | Ok s => Ok (f s)
  | Throw s => Throw (f s)
  end.

(** ** Floating-point values of the bass synth parameters

    The ten synth parameters are arbitrary JavaScript doubles (the cutoff
    slider produces fractions).  No property below depends on their
    values, so they are kept abstract: how a double is rendered in a
    template literal, how [Number] reads one, and which values the
    distortion chain of [BassDistortion] refuses (its setters hand their
    argument to Web Audio automation, which raises on a non-finite
    value), and which values the filter and the volume envelope of a
    voice refuse. *)

Inductive FxCall : Type := FxDistortion | FxTone | FxPostGain.

(** The last two fields tell when the automation calls of a voice
    raise: [filter_rejects cutoff resonance envMod decay accentInt slide
    accent] for the calls of [BassFilter.create] (a value that is not a
    finite number, or a negative time constant), and [vca_rejects volume
    accent] for the volume envelope of [BassSynth.play]. *)
Class FloatOps : Type := {
  float : Type;
  Number : string -> float;
  float_to_string : float -> string;
  float_of_Z : Z -> float;
  float_is_one : float -> bool;
  fx_rejects : FxCall -> float -> bool;
  filter_rejects : float -> float -> float -> float -> float -> bool -> bool -> bool;
  vca_rejects : float -> bool -> bool
}.

(** ** BassSynth: parameter record and setters *)

Module BassSynth.
Section WithFloat.
Context `{FloatOps}.

Record Params : Type := {
  volume : float;
  distortion : float;
  distTone : float;
  distGain : float;
  cutoff : float;
  resonance : float;
  envMod : float;
  decay : float;
  accentInt : float;
  waveform : string
}.

(** [fxChain] tells whether [init] has run: the synth then has its
    audio context, its output and its distortion chain.  [lastFreq] is
    kept as the MIDI note number whose frequency it holds, [None] for
    the 0 set by the constructor. *)
Record t : Type := {
  sid : string;
  params : Params;
  fxChain : bool;
  lastFreq : option JS.num
}.

Definition defaultParams : Params :=
  {| volume := float_of_Z 85; distortion := float_of_Z 20;
     distTone := float_of_Z 100; distGain := float_of_Z 60;
     cutoff := float_of_Z 40; resonance := float_of_Z 8;
     envMod := float_of_Z 60; decay := float_of_Z 40;
     accentInt := float_of_Z 50; waveform := "sawtooth" |}.

Definition with_params (s : t) (p : Params) : t :=
  {| sid := sid s; params := p; fxChain := fxChain s; lastFreq := lastFreq s |}.

(** A setter that forwards to the distortion chain when there is one. *)
Definition fx_forward (call : FxCall) (val : float) (s : t) : Res t :=
  if fxChain s && fx_rejects call val then Throw s else Ok s.

Definition setVolume (val : float) (s : t) : Res t :=
  let p := params s in
  Ok (with_params s
        {| volume := val; distortion := distortion p; distTone := distTone p;
           distGain := distGain p; cutoff := cutoff p; resonance := resonance p;
           envMod := envMod p; decay := decay p; accentInt := accentInt p;
           waveform := waveform p |}).

Definition setDistortion (val : float) (s : t) : Res t :=
  let p := params s in
  fx_forward FxDistortion val
    (with_params s
        {| volume := volume p; distortion := val; distTone := distTone p;
           distGain := distGain p; cutoff := cutoff p; resonance := resonance p;
           envMod := envMod p; decay := decay p; accentInt := accentInt p;
           waveform := waveform p |}).

Definition setDistTone (val : float) (s : t) : Res t :=
  let p := params s in
  fx_forward FxTone val
    (with_params s
        {| volume := volume p; distortion := distortion p; distTone := val;
           distGain := distGain p; cutoff := cutoff p; resonance := resonance p;
           envMod := envMod p; decay := decay p; accentInt := accentInt p;
           waveform := waveform p |}).

Definition setDistGain (val : float) (s : t) : Res t :=
  let p := params s in
  fx_forward FxPostGain val
    (with_params s
        {| volume := volume p; distortion := distortion p; distTone := distTone p;
           distGain := val; cutoff := cutoff p; resonance := resonance p;
           envMod := envMod p; decay := decay p; accentInt := accentInt p;
           waveform := waveform p |}).

Definition setCutoff (val : float) (s : t) : Res t :=
  let p := params s in
  Ok (with_params s
        {| volume := volume p; distortion := distortion p; distTone := distTone p;
           distGain := distGain p; cutoff := val; resonance := resonance p;
           envMod := envMod p; decay := decay p; accentInt := accentInt p;
           waveform := waveform p |}).

Definition setResonance (val : float) (s : t) : Res t :=
  let p := params s in
  Ok (with_params s
        {| volume := volume p; distortion := distortion p; distTone := distTone p;
           distGain := distGain p; cutoff := cutoff p; resonance := val;
           envMod := envMod p; decay := decay p; accentInt := accentInt p;
           waveform := waveform p |}).

Definition setEnvMod (val : float) (s : t) : Res t :=
  let p := params s in
  Ok (with_params s
        {| volume := volume p; distortion := distortion p; distTone := distTone p;
           distGain := distGain p; cutoff := cutoff p; resonance := resonance p;
           envMod := val; decay := decay p; accentInt := accentInt p;
           waveform := waveform p |}).

Definition setDecay (val : float) (s : t) : Res t :=
  let p := params s in
  Ok (with_params s
        {| volume := volume p; distortion := distortion p; distTone := distTone p;
           distGain := distGain p; cutoff := cutoff p; resonance := resonance p;
           envMod := envMod p; decay := val; accentInt := accentInt p;
           waveform := waveform p |}).

Definition setAccentInt (val : float) (s : t) : Res t :=
  let p := params s in
  Ok (with_params s
        {| volume := volume p; distortion := distortion p; distTone := distTone p;
           distGain := distGain p; cutoff := cutoff p; resonance := resonance p;
           envMod := envMod p; decay := decay p; accentInt := val;
           waveform := waveform p |}).

Definition setWaveform (val : string) (s : t) : Res t :=
  let p := params s in
  Ok (with_params s
        {| volume := volume p; distortion := distortion p; distTone := distTone p;
           distGain := distGain p; cutoff := cutoff p; resonance := resonance p;
           envMod := envMod p; decay := decay p; accentInt := accentInt p;
           waveform := val |}).

(** [new BassSynth(id)], followed by [init] when the engine has an
    audio context. *)
Definition create (id : string) (ctx : bool) : t :=
  {| sid := id; params := defaultParams; fxChain := ctx; lastFreq := None |}.

(** *** Playing a note *)

Definition with_lastFreq (s : t) (f : option JS.num) : t :=
  {| sid := sid s; params := params s; fxChain := fxChain s; lastFreq := f |}.

(** [noteMap[note]]: [None] is [undefined]; a name inherited from
    [Object.prototype] yields a function or an object, on which the
    arithmetic of [play] gives NaN. *)
Definition noteIndex (note : string) : option JS.num :=
  if String.eqb note "C" then Some (JS.Num 0)
  else if String.eqb note "C#" then Some (JS.Num 1)
  else if String.eqb note "D" then Some (JS.Num 2)
  else if String.eqb note "D#" then Some (JS.Num 3)
  else if String.eqb note "E" then Some (JS.Num 4)
  else if String.eqb note "F" then Some (JS.Num 5)
  else if String.eqb note "F#" then Some (JS.Num 6)
  else if String.eqb note "G" then Some (JS.Num 7)
  else if String.eqb note "G#" then Some (JS.Num 8)
  else if String.eqb note "A" then Some (JS.Num 9)
  else if String.eqb note "A#" then Some (JS.Num 10)
  else if String.eqb note "B" then Some (JS.Num 11)
  else if JS.proto_member note then Some JS.NaN
  else None.

(** [(octave + 1) * 12 + noteIndex] *)
Definition midiNote (octave idx : JS.num) : JS.num :=
  match octave, idx with
  | JS.Num o, JS.Num i => JS.Num ((o + 1) * 12 + i)
  | _, _ => JS.NaN
  end.

(** The frequency [440 * Math.pow(2, (m - 69) / 12)] of the note number
    [m] is handed to the [frequency] parameter of the oscillator, which
    takes single-precision values: the call raises when the frequency
    is NaN or rounds to 2^128 or more (from [m = 1500] on, the octave
    124), and an exponential ramp also raises when its target rounds to
    0 (up to [m = -1837]).  The double itself is 0 up to [m = -12831]. *)
Definition freq_not_finite (m : JS.num) : bool :=
  match m with
  | JS.NaN => true
  | JS.Num z => 1500 <=? z
  end.

Definition freq_rounds_to_zero (m : JS.num) : bool :=
  match m with
  | JS.NaN => false
  | JS.Num z => z <=? -1837
  end.

(** [!this.lastFreq] *)
Definition freq_falsy (f : option JS.num) : bool :=
  match f with
  | None => true
  | Some JS.NaN => true
  | Some (JS.Num z) => z <=? -12831
  end.

Definition lastFreq_not_finite (f : option JS.num) : bool :=
  match f with
  | None => false
  | Some m => freq_not_finite m
  end.

(** [play(note, octave, time, 0.25, slide, accent)].  The calls that can
    raise are, in this order: the automation of the oscillator
    frequency (with [time], which must not be negative), after which
    [lastFreq] is updated, then [BassFilter.create] and the volume
    envelope.  The state is the synth as the exception leaves it. *)
Definition play (note : string) (octave : JS.num) (time : Q)
    (slide accent : bool) (s : t) : Res t :=
  if negb (fxChain s) then Ok s
  else
    match noteIndex note with
    | None => Ok s
    | Some idx =>
        let m := midiNote octave idx in
        let last := if freq_falsy (lastFreq s) then Some m else lastFreq s in
        let refused :=
          if slide
          then lastFreq_not_finite last || freq_not_finite m
               || freq_rounds_to_zero m
          else freq_not_finite m in
        if (if Qlt_le_dec time 0 then true else false) || refused
        then Throw (with_lastFreq s last)
        else
          let p := params s in
          if filter_rejects (cutoff p) (resonance p) (envMod p) (decay p)
                            (accentInt p) slide accent
             || vca_rejects (volume p) accent
          then Throw (with_lastFreq s (Some m))
          else Ok (with_lastFreq s (Some m))
    end.

End WithFloat.
End BassSynth.

(** ** DrumSynth: nine channel slots with volume, variant and colour *)

Module DrumSynth.

Import JS.

(** [gainNode] tells whether [init] has created the channel's gain
    node; [colorId] may be [undefined]. *)
Record Channel : Type := {
  ch_id : nat;
  type : string;
  variant : num;
  volume : num;
  colorId : option num;
  gainNode : bool
}.

Record t : Type := {
  masterVolume : num;
  channels : list Channel;
  masterGain : bool
}.

Definition mkChannel (i : nat) (ty : string) (vol : Z) : Channel :=
  {| ch_id := i; type := ty; variant := Num 1; volume := Num vol;
     colorId := Some (Num (Z.of_nat i)); gainNode := false |}.

(** The state built by the constructor. *)
Definition initial : t :=
  {| masterVolume := Num 85;
     channels :=
       [ mkChannel 0 "kick" 90; mkChannel 1 "snare" 85; mkChannel 2 "clap" 80;
         mkChannel 3 "chat" 75; mkChannel 4 "ohat" 75; mkChannel 5 "ltom" 80;
         mkChannel 6 "htom" 80; mkChannel 7 "crash" 70; mkChannel 8 "perc" 75 ];
     masterGain := false |}.

(** [init(audioContext, destination)]: the master bus and one gain node
    per channel are created. *)
Definition init (d : t) : t :=
  {| masterVolume := masterVolume d;
     channels :=
       map (fun c => {| ch_id := ch_id c; type := type c; variant := variant c;
                        volume := volume c; colorId := colorId c;
                        gainNode := true |}) (channels d);
     masterGain := true |}.

Definition with_channels (d : t) (cs : list Channel) : t :=
  {| masterVolume := masterVolume d; channels := cs; masterGain := masterGain d |}.

(** [setMasterVolume(val)].  With a master bus the gain
    [(masterVolume / 100) ** 1.5] is handed to [setTargetAtTime], which
    raises a TypeError when it is NaN. *)
Definition setMasterVolume (val : num) (d : t) : Res t :=
  let v := clamp100 val in
  let d' := {| masterVolume := v; channels := channels d;
               masterGain := masterGain d |} in
  if masterGain d && isNaN v then Throw d' else Ok d'.

(** [setChannelVolume(id, val)]: nothing for a missing channel. *)
Definition setChannelVolume (id : nat) (val : num) (d : t) : Res t :=
  match channels d !! id with
  | None => Ok d
  | Some c =>
      let v := clamp100 val in
      let c' := {| ch_id := ch_id c; type := type c; variant := variant c;
                   volume := v; colorId := colorId c; gainNode := gainNode c |} in
      let d' := with_channels d (<[id := c']> (channels d)) in
      if gainNode c && isNaN v then Throw d' else Ok d'
  end.

(** [setChannelVariant(id, variant)]. *)
Definition setChannelVariant (id : nat) (v : num) (d : t) : t :=
  match channels d !! id with
  | None => d
  | Some c =>
      let c' := {| ch_id := ch_id c; type := type c; variant := parseInt_num v;
                   volume := volume c; colorId := colorId c;
                   gainNode := gainNode c |} in
      with_channels d (<[id := c']> (channels d))
  end.

(** The nine [type] tags that [play] routes to a synthesis function. *)
Definition known_type (ty : string) : bool :=
  existsb (String.eqb ty)
    ["kick"; "snare"; "clap"; "chat"; "ohat"; "ltom"; "htom"; "crash"; "perc"].

(** [play(channelId, time)] changes nothing in the configuration; the
    result tells whether it raises.  Every synthesis function automates
    constant values at [time], which must not be negative, and connects
    to the gain node of the channel, which must exist. *)
Definition play_raises (channelId : nat) (time : Q) (d : t) : bool :=
  if negb (masterGain d) then false
  else
    match channels d !! channelId with
    | None => false
    | Some ch =>
        match variant ch with
        | Num 0 => false
        | _ =>
            known_type (type ch)
            && ((if Qlt_le_dec time 0 then true else false) || negb (gainNode ch))
        end
    end.

(** [channels[id].colorId = v]. *)
Definition setColorId (id : nat) (v : num) (d : t) : t :=
  match channels d !! id with
  | None => d
  | Some c =>
      let c' := {| ch_id := ch_id c; type := type c; variant := variant c;
                   volume := volume c; colorId := Some v;
                   gainNode := gainNode c |} in
      with_channels d (<[id := c']> (channels d))
  end.

End DrumSynth.

(** ** TimeMatrix: grid data and block management *)

Module TimeMatrix.

Import JS.

Record Note : Type := {
  note : string;
  octave : num;
  slide : bool;
  accent : bool
}.

(** One bar: the note lane of every track and the drum hits of every
    step.  [tracks] is a JavaScript object used as a map. *)
Record Block : Type := {
  tracks : gmap string (list (option Note));
  drums : list (list nat)
}.

(** [this.totalSteps], fixed by the constructor's default argument. *)
Definition totalSteps : nat := 16.

(** [new Array(this.totalSteps).fill(null)] *)
Definition emptyTrack : list (option Note) := replicate totalSteps None.

(** [new Array(this.totalSteps).fill().map(() => [])] *)
Definition emptyDrums : list (list nat) := replicate totalSteps [].

(** Truthiness of [b.tracks[id]]: an own key holds an array, a member
    of [Object.prototype] is inherited. *)
Definition track_truthy (id : string) (b : Block) : bool :=
  match tracks b !! id with
  | Some _ => true
  | None => proto_member id
  end.

Definition registerTrack (id : string) (blocks : list Block) : list Block :=
  map (fun b =>
         if track_truthy id b then b
         else {| tracks := <[id := emptyTrack]> (tracks b); drums := drums b |})
      blocks.

Definition removeTrack (id : string) (blocks : list Block) : list Block :=
  map (fun b => {| tracks := delete id (tracks b); drums := drums b |}) blocks.

Definition addBlock (blocks : list Block) : list Block :=
  let newTracks : gmap string (list (option Note)) :=
    match blocks with
    | b0 :: _ => (fun _ => emptyTrack) <$> tracks b0
    | [] => {[ "bass-1" := emptyTrack ]}
    end in
  blocks ++ [ {| tracks := newTracks; drums := emptyDrums |} ].

(** The state left by the constructor: one block, one default track. *)
Definition initial : list Block := addBlock [].

Definition clearedBlock (b : Block) : Block :=
  {| tracks := (fun arr => replicate (length arr) None) <$> tracks b;
     drums := map (fun _ => []) (drums b) |}.

Definition clearBlock (idx : nat) (blocks : list Block) : list Block :=
  match blocks !! idx with
  | None => blocks
  | Some b => <[idx := clearedBlock b]> blocks
  end.

Definition removeBlock (idx : Z) (blocks : list Block) : list Block :=
  if (length blocks <=? 1)%nat then clearBlock 0 blocks
  else splice1 idx blocks.

(** [moveBlock] works on the raw array: an entry may be [undefined]
    ([None]) and a write one past the end extends the array.  The
    other operations never create such entries and are stated on
    [list Block]. *)
Definition array_get {A} (arr : list (option A)) (i : Z) : option A :=
  if i <? 0 then None else mjoin (arr !! Z.to_nat i).

Definition array_put {A} (arr : list (option A)) (i : Z) (v : option A)
  : list (option A) :=
  if i <? 0 then arr else array_set None arr (Z.to_nat i) v.

Definition moveBlock (idx dir : Z) (blocks : list (option Block))
  : bool * list (option Block) :=
  let t := idx + dir in
  if (t <? 0) || (Z.of_nat (length blocks) <=? t) then (false, blocks)
  else
    let tmp := array_get blocks t in
    let blocks1 := array_put blocks t (array_get blocks idx) in
    let blocks2 := array_put blocks1 idx tmp in
    (true, blocks2).

(** [n ? { ...n } : null] *)
Definition copyNote (n : option Note) : option Note :=
  match n with
  | Some n => Some {| note := note n; octave := octave n;
                      slide := slide n; accent := accent n |}
  | None => None
  end.

(** The object that [duplicateBlock], [copyToClipboard] and
    [pasteFromClipboard] build from a block: every own track with its
    notes copied, every drum array spread into a new one. *)
Definition copyBlock (org : Block) : Block :=
  {| tracks := (fun arr => map copyNote arr) <$> tracks org;
     drums := map (fun d => d) (drums org) |}.

(** [this.blocks[idx]] for a number [idx]. *)
Definition blocks_get (idx : Z) (blocks : list Block) : option Block :=
  if idx <? 0 then None else blocks !! Z.to_nat idx.

Definition duplicateBlock (idx : Z) (blocks : list Block) : list Block :=
  match blocks_get idx blocks with
  | None => blocks
  | Some org => splice_in (idx + 1) (copyBlock org) blocks
  end.

(** [copyToClipboard(idx)]: the returned flag and [this.clipboard]. *)
Definition copyToClipboard (idx : Z) (blocks : list Block)
    (clipboard : option Block) : bool * option Block :=
  match blocks_get idx blocks with
  | None => (false, clipboard)
  | Some org => (true, Some (copyBlock org))
  end.

(** [pasteFromClipboard(idx)]: the returned flag and [this.blocks]. *)
Definition pasteFromClipboard (idx : Z) (clipboard : option Block)
    (blocks : list Block) : bool * list Block :=
  match clipboard with
  | None => (false, blocks)
  | Some source => (true, splice_in (idx + 1) (copyBlock source) blocks)
  end.

(** The view handed to the scheduler; [NoData] is the empty object. *)
Inductive StepData : Type :=
| NoData : StepData
| Data (tr : gmap string (list (option Note))) (dr : list nat) : StepData.

Definition getStepData (step block : nat) (blocks : list Block) : StepData :=
  match blocks !! block with
  | None => NoData
  | Some b => Data (tracks b) (default [] (drums b !! step))
  end.

(** Note held by a block/track/step slot, if any. *)
Definition note_at (blocks : list Block) (b : nat) (k : string) (s : nat)
  : option Note :=
  blk ← blocks !! b; arr ← tracks blk !! k; mjoin (arr !! s).

(** Drum hits of a block/step slot. *)
Definition drums_at (blocks : list Block) (b s : nat) : list nat :=
  match blocks !! b with
  | Some blk => default [] (drums blk !! s)
  | None => []
  end.

End TimeMatrix.

(** ** The window globals and the CSV codec of TimeMatrix *)

Module App.
Section WithFloat.
Context `{FloatOps}.

Import JS TimeMatrix.

(** [window.audioEngine]: [ctx] tells whether the audio context exists. *)
Record Engine : Type := {
  ctx : bool;
  bassSynths : list BassSynth.t
}.

(** [window.AppState.bpm], [window.timeMatrix.blocks],
    [window.audioEngine] and [window.drumSynth]. *)
Record World : Type := {
  bpm : Z;
  blocks : list Block;
  audioEngine : option Engine;
  drumSynth : option DrumSynth.t
}.

Definition with_blocks (w : World) (bs : list Block) : World :=
  {| bpm := bpm w; blocks := bs; audioEngine := audioEngine w;
     drumSynth := drumSynth w |}.

Definition with_engine (w : World) (e : Engine) : World :=
  {| bpm := bpm w; blocks := blocks w; audioEngine := Some e;
     drumSynth := drumSynth w |}.

Definition with_drumSynth (w : World) (d : DrumSynth.t) : World :=
  {| bpm := bpm w; blocks := blocks w; audioEngine := audioEngine w;
     drumSynth := Some d |}.

(** [getSynth(id)]: the first synth with that id. *)
Definition getSynth (id : string) (e : Engine) : option BassSynth.t :=
  List.find (fun s => String.eqb (BassSynth.sid s) id) (bassSynths e).

(** [addBassSynth(id)] for an id that [getSynth] did not find: the new
    synth is pushed and its track registered. *)
Definition addBassSynth (id : string) (w : World) (e : Engine) : World :=
  with_blocks
    (with_engine w {| ctx := ctx e;
                      bassSynths := bassSynths e ++ [BassSynth.create id (ctx e)] |})
    (registerTrack id (blocks w)).

(** [addBassSynth(id)], the whole method: nothing is done when a synth
    with that id exists; otherwise the new synth is returned. *)
Definition addBassSynth_guarded (id : string) (w : World) (e : Engine)
  : option BassSynth.t * World :=
  match getSynth id e with
  | Some _ => (None, w)
  | None => (Some (BassSynth.create id (ctx e)), addBassSynth id w e)
  end.

(** [this.bassSynths.findIndex(s => s.id === id)] *)
Fixpoint findIndex (id : string) (l : list BassSynth.t) : option nat :=
  match l with
  | [] => None
  | s :: r =>
      if String.eqb (BassSynth.sid s) id then Some 0%nat
      else S <$> findIndex id r
  end.

(** [removeSynth(id)]: the first synth with that id leaves the list and
    the track of that id leaves every block. *)
Definition removeSynth (id : string) (w : World) (e : Engine) : bool * World :=
  match findIndex id (bassSynths e) with
  | Some idx =>
      (true,
       with_blocks
         (with_engine w {| ctx := ctx e;
                           bassSynths := delete idx (bassSynths e) |})
         (removeTrack id (blocks w)))
  | None => (false, w)
  end.

(** [syncWithMatrix(matrix)].  [activeIds] is the set of the track keys
    of all blocks, in the order in which the keys were added to it: the
    synths of other ids are dropped, then every key without a synth
    gets one. *)
Definition syncWithMatrix (activeIds : list string) (w : World) (e : Engine)
  : World :=
  let kept :=
    List.filter (fun s => existsb (String.eqb (BassSynth.sid s)) activeIds)
                (bassSynths e) in
  fold_left
    (fun w id =>
       match audioEngine w with
       | Some e => snd (addBassSynth_guarded id w e)
       | None => w
       end)
    activeIds
    (with_engine w {| ctx := ctx e; bassSynths := kept |}).

(** *** Export *)

(** [this.noteMap[n.note] || 0] *)
Definition noteMap (n : string) : Z :=
  if String.eqb n "C" then 1 else if String.eqb n "C#" then 2
  else if String.eqb n "D" then 3 else if String.eqb n "D#" then 4
  else if String.eqb n "E" then 5 else if String.eqb n "F" then 6
  else if String.eqb n "F#" then 7 else if String.eqb n "G" then 8
  else if String.eqb n "G#" then 9 else if String.eqb n "A" then 10
  else if String.eqb n "A#" then 11 else if String.eqb n "B" then 12
  else 0.

Definition noteMapRev : list string :=
  ["-"; "C"; "C#"; "D"; "D#"; "E"; "F"; "F#"; "G"; "G#"; "A"; "A#"; "B"].

Definition bit (b : bool) : string := if b then "1" else "0".

(** One bass cell, without its leading comma. *)
Definition bassCell (n : option Note) : string :=
  match n with
  | Some n =>
      Z_to_string (noteMap (note n)) ++ "-" ++ num_to_string (octave n)
        ++ "-" ++ bit (slide n) ++ "-" ++ bit (accent n)
  | None => "0"
  end.

(** The cells of one block for one track id, steps [0 .. totalSteps-1]. *)
Definition bassCells (id : string) (block : Block) : list string :=
  map (fun s => bassCell (arr ← tracks block !! id; mjoin (arr !! s)))
      (seq 0 totalSteps).

Definition configStr (synth : BassSynth.t) : string :=
  let p := BassSynth.params synth in
  let waveInt := if String.eqb (BassSynth.waveform p) "square" then "1" else "0" in
  BassSynth.sid synth ++ ":" ++ float_to_string (BassSynth.volume p)
    ++ "-" ++ float_to_string (BassSynth.distortion p)
    ++ "-" ++ float_to_string (BassSynth.distTone p)
    ++ "-" ++ float_to_string (BassSynth.distGain p)
    ++ "-" ++ float_to_string (BassSynth.cutoff p)
    ++ "-" ++ float_to_string (BassSynth.resonance p)
    ++ "-" ++ float_to_string (BassSynth.envMod p)
    ++ "-" ++ float_to_string (BassSynth.decay p)
    ++ "-" ++ float_to_string (BassSynth.accentInt p)
    ++ "-" ++ waveInt.

(** [row += `,${cell}`] for every cell in turn. *)
Definition add_cells (row : string) (cells : list string) : string :=
  fold_left (fun r c => r ++ "," ++ c) cells row.

Definition bassRow (bs : list Block) (synth : BassSynth.t) : string :=
  add_cells (configStr synth)
            (concat (map (bassCells (BassSynth.sid synth)) bs)).

(** The colour written for a channel: its [colorId], or its own id
    when that is undefined. *)
Definition exportColorId (ch : DrumSynth.Channel) : num :=
  match DrumSynth.colorId ch with
  | Some c => c
  | None => Num (Z.of_nat (DrumSynth.ch_id ch))
  end.

Definition drumConfig (d : DrumSynth.t) : string :=
  fold_left
    (fun cfg ch =>
       cfg ++ "|" ++ DrumSynth.type ch ++ "-" ++ num_to_string (DrumSynth.variant ch)
           ++ "-" ++ num_to_string (DrumSynth.volume ch)
           ++ "-" ++ num_to_string (exportColorId ch))
    (DrumSynth.channels d)
    ("drums:" ++ num_to_string (DrumSynth.masterVolume d) ++ ":"
       ++ Z_to_string (Z.of_nat (length (DrumSynth.channels d)))).

(** [dStep.includes(ch.id)] *)
Definition hit (dStep : list nat) (ch : DrumSynth.Channel) : bool :=
  existsb (Nat.eqb (DrumSynth.ch_id ch)) dStep.

(** The binary string of one step: one character per channel. *)
Definition drumCell (chs : list DrumSynth.Channel) (dStep : list nat) : string :=
  fold_left (fun binary ch => binary ++ bit (hit dStep ch)) chs "".

Definition drumCells (chs : list DrumSynth.Channel) (block : Block) : list string :=
  map (fun s => drumCell chs (default [] (drums block !! s))) (seq 0 totalSteps).

Definition drumRow (bs : list Block) (d : DrumSynth.t) : string :=
  add_cells (drumConfig d) (concat (map (drumCells (DrumSynth.channels d)) bs)).

Definition headerRow (w : World) (e : Engine) : string :=
  let totalStepsGlobal := Z.of_nat (length (blocks w) * totalSteps) in
  add_cells
    (Z_to_string (bpm w) ++ "-" ++ Z_to_string totalStepsGlobal ++ "-"
       ++ Z_to_string (Z.of_nat (length (bassSynths e))))
    (map (fun i => Z_to_string (Z.of_nat i))
         (seq 1 (length (blocks w) * totalSteps))).

Definition newline : string := String (ascii_of_nat 10) EmptyString.

Definition exportToCSV (w : World) : string :=
  match audioEngine w with
  | None => ""
  | Some e =>
      let csv := headerRow w e ++ newline in
      let csv :=
        fold_left (fun csv synth => csv ++ bassRow (blocks w) synth ++ newline)
                  (bassSynths e) csv in
      match drumSynth w with
      | Some d => csv ++ drumRow (blocks w) d
      | None => csv
      end
  end.

(** *** Import *)

(** [this.noteMapRev[noteInt]]: [undefined] for NaN, a negative number
    or an index past the table. *)
Definition noteMapRev_at (noteInt : num) : option string :=
  match noteInt with
  | NaN => None
  | Num z => if z <? 0 then None else noteMapRev !! Z.to_nat z
  end.

(** [this.blocks[blockIdx].tracks[id][stepIdx] = n].  The write follows
    [registerTrack(id)], so the track is an own key of every block, or
    a member inherited from [Object.prototype], in which case the write
    lands outside the session. *)
Definition setNote (id : string) (stepIdx : nat) (n : Note) (b : Block) : Block :=
  {| tracks := alter (fun arr => array_set None arr stepIdx (Some n)) id (tracks b);
     drums := drums b |}.

(** Body of the bass cell loop for one global step. *)
Definition importBassCell (id : string) (cells : list string)
           (bs : list Block) (stepGlobal : nat) : list Block :=
  match cells !! S stepGlobal with
  | None => bs
  | Some noteData =>
      if is_empty noteData || String.eqb noteData "0" then bs
      else
        let blockIdx := (stepGlobal / totalSteps)%nat in
        let stepIdx := (stepGlobal mod totalSteps)%nat in
        let nParts := split "-" noteData in
        if (length nParts =? 4)%nat then
          let noteInt := parseInt_opt (nParts !! 0%nat) in
          match bs !! blockIdx, noteMapRev_at noteInt with
          | Some b, Some noteChar =>
              if is_empty noteChar then bs
              else
                <[blockIdx :=
                    setNote id stepIdx
                      {| note := noteChar;
                         octave := parseInt_opt (nParts !! 1%nat);
                         slide := String.eqb (nth 2 nParts "") "1";
                         accent := String.eqb (nth 3 nParts "") "1" |} b]> bs
          | _, _ => bs
          end
        else bs
  end.

(** The ten setter calls, in source order. *)
Definition applyParams (pVals : list float) (s : BassSynth.t) : Res BassSynth.t :=
  let p i := nth i pVals (float_of_Z 0) in
  and_then (BassSynth.setVolume (p 0%nat) s) (fun s =>
  and_then (BassSynth.setDistortion (p 1%nat) s) (fun s =>
  and_then (BassSynth.setDistTone (p 2%nat) s) (fun s =>
  and_then (BassSynth.setDistGain (p 3%nat) s) (fun s =>
  and_then (BassSynth.setCutoff (p 4%nat) s) (fun s =>
  and_then (BassSynth.setResonance (p 5%nat) s) (fun s =>
  and_then (BassSynth.setEnvMod (p 6%nat) s) (fun s =>
  and_then (BassSynth.setDecay (p 7%nat) s) (fun s =>
  and_then (BassSynth.setAccentInt (p 8%nat) s) (fun s =>
  BassSynth.setWaveform
    (if float_is_one (p 9%nat) then "square" else "sawtooth") s))))))))).

(** The synth object found by [getSynth(id)] is mutated in place. *)
Fixpoint update_synth (id : string) (f : BassSynth.t -> Res BassSynth.t)
         (l : list BassSynth.t) : Res (list BassSynth.t) :=
  match l with
  | [] => Ok []
  | s :: r =>
      if String.eqb (BassSynth.sid s) id then res_map (fun s' => s' :: r) (f s)
      else res_map (cons s) (update_synth id f r)
  end.

(** [previewNote(synthId, note, octave)] at audio-clock time [now]:
    the synth found plays the note without slide and accent.  Reading
    [this.ctx.currentTime] raises when the engine has no audio
    context. *)
Definition previewNote (synthId note : string) (octave : num) (now : Q)
    (e : Engine) : Res Engine :=
  match getSynth synthId e with
  | None => Ok e
  | Some _ =>
      if ctx e then
        res_map (fun l => {| ctx := ctx e; bassSynths := l |})
                (update_synth synthId (BassSynth.play note octave now false false)
                              (bassSynths e))
      else Throw e
  end.

Definition importBass (total : Z) (cells : list string) (w : World) : Res World :=
  let configCell := nth 0 cells "" in
  let parts := split ":" configCell in
  let id := nth 0 parts "" in
  let paramsStr := nth 1 parts "" in
  let pVals := map Number (split "-" paramsStr) in
  match audioEngine w with
  | None => Throw w
  | Some e =>
      let w1 :=
        match getSynth id e with
        | Some _ => w
        | None => addBassSynth id w e
        end in
      let r :=
        match audioEngine w1 with
        | Some e1 =>
            if (10 <=? length pVals)%nat then
              res_map (fun l => with_engine w1 {| ctx := ctx e1; bassSynths := l |})
                      (update_synth id (applyParams pVals) (bassSynths e1))
            else Ok w1
        | None => Ok w1
        end in
      and_then r (fun w2 =>
        Ok (with_blocks w2
              (fold_left (importBassCell id cells) (seq 0 (Z.to_nat total))
                         (registerTrack id (blocks w2)))))
  end.

(** Positions of the character 1 in a binary string. *)
Fixpoint activeDrums (bitpos : nat) (binary : string) : list nat :=
  match binary with
  | EmptyString => []
  | String c r =>
      if Ascii.eqb c "1" then bitpos :: activeDrums (S bitpos) r
      else activeDrums (S bitpos) r
  end.

(** Body of the drum grid loop for one global step. *)
Definition importDrumCell (cells : list string)
           (bs : list Block) (stepGlobal : nat) : list Block :=
  match cells !! S stepGlobal with
  | None => bs
  | Some binary =>
      if is_empty binary then bs
      else
        let blockIdx := (stepGlobal / totalSteps)%nat in
        let stepIdx := (stepGlobal mod totalSteps)%nat in
        match bs !! blockIdx with
        | Some b =>
            <[blockIdx :=
                {| tracks := tracks b;
                   drums := array_set [] (drums b) stepIdx (activeDrums 0 binary) |}]> bs
        | None => bs
        end
  end.

(** Body of the channel configuration loop for [parts[c]]. *)
Definition importChannel (parts : list string) (d : DrumSynth.t) (c : nat)
  : Res DrumSynth.t :=
  let chData := split "-" (remove_first "]" (remove_first "[" (nth c parts ""))) in
  let chIdx := (c - 1)%nat in
  match DrumSynth.channels d !! chIdx with
  | None => Ok d
  | Some _ =>
      let variant := parseInt_opt (chData !! 1%nat) in
      let vol := parseInt_opt (chData !! 2%nat) in
      let colId := parseInt_opt (chData !! 3%nat) in
      let d := DrumSynth.setChannelVariant chIdx variant d in
      and_then (DrumSynth.setChannelVolume chIdx vol d) (fun d =>
        Ok (DrumSynth.setColorId chIdx
              (if isNaN colId then Num (Z.of_nat chIdx) else colId) d))
  end.

Definition importDrums (total : Z) (cells : list string) (w : World) : Res World :=
  let configCell := nth 0 cells "" in
  let parts := split "|" configCell in
  let mainHeader := split ":" (nth 0 parts "") in
  let masterVol := parseInt_opt (mainHeader !! 1%nat) in
  let r :=
    match drumSynth w with
    | None => Ok w
    | Some d =>
        res_map (with_drumSynth w)
          (fold_left (fun r c => and_then r (fun d => importChannel parts d c))
                     (seq 1 (length parts - 1))
                     (DrumSynth.setMasterVolume masterVol d))
    end in
  and_then r (fun w1 =>
    Ok (with_blocks w1
          (fold_left (importDrumCell cells) (seq 0 (Z.to_nat total)) (blocks w1)))).

(** Body of the line loop. *)
Definition importLine (total : Z) (line : string) (w : World) : Res World :=
  let cells := split "," line in
  let configCell := nth 0 cells "" in
  if startsWith "drums" configCell then importDrums total cells w
  else if includes ":" configCell then importBass total cells w
  else Ok w.

(** [importFromCSV(csvData)]: the returned flag and the globals after
    the call.  An exception raised inside the [try] block is caught and
    reported as [false]; the state is the one reached when it was
    raised. *)
Definition importFromCSV (csvData : string) (w : World) : bool * World :=
  if is_empty csvData then (false, w)
  else
    match audioEngine w with
    | None => (false, w)
    | Some _ =>
        let lines := split (ascii_of_nat 10) (trim csvData) in
        if (length lines <? 2)%nat then (false, w)
        else
          let headerCells := split "," (nth 0 lines "") in
          let meta := split "-" (nth 0 headerCells "") in
          match parseInt_opt (meta !! 0%nat), parseInt_opt (meta !! 1%nat) with
          | Num bpm', Num totalStepsGlobal =>
              let blocksNeeded := ceil_div totalStepsGlobal (Z.of_nat totalSteps) in
              let w1 :=
                {| bpm := bpm';
                   blocks := Nat.iter (Z.to_nat blocksNeeded) addBlock [];
                   audioEngine := audioEngine w;
                   drumSynth := drumSynth w |} in
              let r :=
                fold_left (fun r line => and_then r (importLine totalStepsGlobal line))
                          (tail lines) (Ok w1) in
              (res_ok r, res_state r)
          | _, _ => (false, w)
          end
    end.

End WithFloat.
End App.

(** ** The MIDI codec (class MidiIO) *)

Module MidiIO.

Import JS TimeMatrix.
Local Open Scope list_scope.

(** [ToInt32], which the bitwise operators apply to their operands. *)
Definition toInt32 (z : Z) : Z := (z + 2 ^ 31) mod 2 ^ 32 - 2 ^ 31.

(** Conversion of one array element by [new Uint8Array(array)]. *)
Definition toUint8 (n : num) : Z :=
  match n with
  | NaN => 0
  | Num z => z mod 256
  end.

Definition MThd : list Z := [0x4D; 0x54; 0x68; 0x64].
Definition MTrk : list Z := [0x4D; 0x54; 0x72; 0x6B].
Definition ticksPerBeat : Z := 480.

(** [this.ticksPerBeat / 4], the length of one step in ticks. *)
Definition stepTicks : Z := ticksPerBeat / 4.

(** The [while ((val >>= 7))] loop of [toVLQ].  It ends when the shifted
    value is zero; a negative value never gets there. *)
Fixpoint vlqLoop (fuel : nat) (val : Z) (buffer : list Z) : option (list Z) :=
  match fuel with
  | O => None
  | S fuel =>
      let val := Z.shiftr (toInt32 val) 7 in
      if val =? 0 then Some buffer
      else vlqLoop fuel val (buffer ++ [Z.lor (Z.land val 0x7F) 0x80])
  end.

(** [toVLQ(val)]; [None] when the loop does not end.  Thirty-two rounds
    empty every value that is not negative. *)
Definition toVLQ (val : Z) : option (list Z) :=
  buffer ← vlqLoop 32 val [Z.land (toInt32 val) 0x7F];
  Some (rev buffer).

(** An entry of the event arrays: [{ t, type, note, vel }]. *)
Record Event : Type := {
  t : Z;
  type : Z;
  note : num;
  vel : Z
}.

(** [arr.forEach((x, i) => ...)], collecting what the body pushes. *)
Fixpoint pushEach {A B} (body : A -> nat -> list B) (i : nat) (arr : list A)
  : list B :=
  match arr with
  | [] => []
  | x :: rest => body x i ++ pushEach body (S i) rest
  end.

(** Note number of a drum channel. *)
Definition drumNote (chId : nat) : Z :=
  let note := 36 in
  let note := if (chId =? 1)%nat then 38 else note in
  let note := if (chId =? 2)%nat then 42 else note in
  let note := if (chId =? 3)%nat then 46 else note in
  if (3 <? chId)%nat then 48 + Z.of_nat chId else note.

Definition hitEvents (time : Z) (chId : nat) : list Event :=
  [ {| t := time; type := 0x99; note := Num (drumNote chId); vel := 100 |};
    {| t := time + 60; type := 0x89; note := Num (drumNote chId); vel := 0 |} ].

(** The drum events of all blocks, in the order they are pushed.  A
    step without hits pushes nothing. *)
Definition drumEvents (blocks : list Block) : list Event :=
  pushEach
    (fun b bIdx =>
       let blockOffset := Z.of_nat bIdx * 16 * stepTicks in
       pushEach
         (fun stepDrums sIdx =>
            let time := blockOffset + Z.of_nat sIdx * stepTicks in
            flat_map (hitEvents time) stepDrums)
         0%nat (drums b))
    0%nat blocks.

(** The [map] of [getMidiNote]. *)
Definition pitchClass (name : string) : option Z :=
  if String.eqb name "C" then Some 0
  else if String.eqb name "C#" then Some 1
  else if String.eqb name "D" then Some 2
  else if String.eqb name "D#" then Some 3
  else if String.eqb name "E" then Some 4
  else if String.eqb name "F" then Some 5
  else if String.eqb name "F#" then Some 6
  else if String.eqb name "G" then Some 7
  else if String.eqb name "G#" then Some 8
  else if String.eqb name "A" then Some 9
  else if String.eqb name "A#" then Some 10
  else if String.eqb name "B" then Some 11
  else None.

(** [getMidiNote(note, octave)].  A pitch outside the table makes the
    sum NaN (or, for an inherited member, a text): either way the byte
    written to the file is 0, which is what NaN stands for here. *)
Definition getMidiNote (name : string) (octave : num) : num :=
  match octave, pitchClass name with
  | Num o, Some i => Num ((o + 1) * 12 + i)
  | _, _ => NaN
  end.

Definition noteEvents (midiCh : Z) (time : Z) (noteData : Note) : list Event :=
  let midiNote := getMidiNote (TimeMatrix.note noteData) (octave noteData) in
  let dur := stepTicks - 10 in
  [ {| t := time; type := Z.lor 0x90 midiCh; note := midiNote;
       vel := if accent noteData then 127 else 90 |};
    {| t := time + dur; type := Z.lor 0x80 midiCh; note := midiNote; vel := 0 |} ].

(** The events pushed for one block of the track [key]. *)
Definition blockEvents (key : string) (midiCh : Z) (b : Block) (bIdx : nat)
  : list Event :=
  match tracks b !! key with
  | None => []
  | Some trackData =>
      let blockOffset := Z.of_nat bIdx * 16 * stepTicks in
      pushEach
        (fun noteData sIdx =>
           match noteData with
           | Some n => noteEvents midiCh (blockOffset + Z.of_nat sIdx * stepTicks) n
           | None => []
           end)
        0%nat trackData
  end.

(** The events of the track [key].  In a block that does not own the
    key, [b.tracks[key]] is undefined and the block is skipped, unless
    the key names a member of [Object.prototype]: then [forEach] is
    called on that member and raises ([None]). *)
Definition trackEvents (key : string) (midiCh : Z) (blocks : list Block)
  : option (list Event) :=
  if existsb (fun b => match tracks b !! key with
                       | Some _ => false
                       | None => proto_member key
                       end) blocks
  then None
  else Some (pushEach (blockEvents key midiCh) 0%nat blocks).

(** [events.sort((a, b) => a.t - b.t)]: a stable sort by time. *)
Fixpoint insert (e : Event) (sorted : list Event) : list Event :=
  match sorted with
  | [] => [e]
  | x :: rest => if t e <=? t x then e :: sorted else x :: insert e rest
  end.

Definition sort (events : list Event) : list Event := foldr insert [] events.

(** The loop of [compileTrack]: delta time, then the three bytes. *)
Fixpoint encodeEvents (lastTime : Z) (events : list Event) : option (list num) :=
  match events with
  | [] => Some []
  | e :: rest =>
      let dt := t e - lastTime in
      vlq ← toVLQ dt;
      more ← encodeEvents (t e) rest;
      Some (map Num vlq ++ [Num (type e); note e; Num (vel e)] ++ more)
  end.

Definition compileTrack (events : list Event) : option (list num) :=
  bytes ← encodeEvents 0 (sort events);
  Some (bytes ++ map Num [0x00; 0xFF; 0x2F; 0x00]).

(** [(n >> k) & 0xFF] *)
Definition byteOf (n : Z) (k : Z) : Z := Z.land (Z.shiftr (toInt32 n) k) 0xFF.

Definition chunk (track : list num) : list num :=
  let len := Z.of_nat (length track) in
  map Num MTrk
    ++ map Num [byteOf len 24; byteOf len 16; byteOf len 8; byteOf len 0]
    ++ track.

Definition buildMidiFile (tracks : list (list num)) : list Z :=
  let count := Z.of_nat (length tracks) in
  map toUint8
      (map Num MThd
         ++ map Num [0; 0; 0; 6]
         ++ map Num [0; 1]
         ++ map Num [byteOf count 8; byteOf count 0]
         ++ map Num [byteOf ticksPerBeat 8; byteOf ticksPerBeat 0]
         ++ concat (map chunk tracks)).

(** [Math.round(60000000 / bpm)] split into three bytes.  Division by
    zero gives Infinity, which the shifts read as 0. *)
Definition bpmToTempoBytes (bpm : Z) : list Z :=
  let microSecs :=
    if bpm =? 0 then 0 else (2 * 60000000 + bpm) / (2 * bpm) in
  [byteOf microSecs 16; byteOf microSecs 8; byteOf microSecs 0].

(** The bass tracks, one per key; [chCounter] skips 9 after it has been
    handed out. *)
Fixpoint bassTracks (keys : list string) (chCounter : Z) (blocks : list Block)
  : option (list (list num)) :=
  match keys with
  | [] => Some []
  | key :: keys =>
      let ch := chCounter in
      let chCounter := chCounter + 1 in
      let chCounter := if ch =? 9 then chCounter + 1 else chCounter in
      events ← trackEvents key ch blocks;
      track ← compileTrack events;
      more ← bassTracks keys chCounter blocks;
      Some (track :: more)
  end.

(** [exportMidi(blocks, bpm)].  [keys] is the content of [allTrackKeys]
    in iteration order: the keys of the blocks' track objects in order
    of first appearance.  The outer [None] stands for a call that does
    not return; [Some None] for the result [null]. *)
Definition exportMidi (keys : list string) (blocks : list Block) (bpm : Z)
  : option (option (list Z)) :=
  match blocks with
  | [] => Some None
  | _ =>
      let track0 :=
        map Num ([0x00; 0xFF; 0x51; 0x03] ++ bpmToTempoBytes bpm
                   ++ [0x00; 0xFF; 0x2F; 0x00]) in
      let events := drumEvents blocks in
      drumTrack ← match events with
                  | [] => Some []
                  | _ => track ← compileTrack events; Some [track]
                  end;
      bass ← bassTracks keys 0 blocks;
      Some (Some (buildMidiFile (track0 :: drumTrack ++ bass)))
  end.

(** *** Import *)

(** A JavaScript object with numeric keys, in insertion order. *)
Fixpoint obj_get {V} (o : list (Z * V)) (k : Z) : option V :=
  match o with
  | [] => None
  | (k', v) :: rest => if k' =? k then Some v else obj_get rest k
  end.

Fixpoint obj_set {V} (o : list (Z * V)) (k : Z) (v : V) : list (Z * V) :=
  match o with
  | [] => [(k, v)]
  | (k', v') :: rest =>
      if k' =? k then (k, v) :: rest else (k', v') :: obj_set rest k v
  end.

(** The value [{ note, vel }] of a bass step; the note is undefined
    when it is read outside the file. *)
Record NoteData : Type := {
  nd_note : option Z;
  nd_vel : Z
}.

(** [importedData]: drum hits and bass note by step. *)
Record ImportedData : Type := {
  imported_drums : list (Z * list Z);
  imported_bass : list (Z * NoteData)
}.

(** [data[p]], undefined outside the array. *)
Definition get (data : list Z) (p : Z) : option Z :=
  if p <? 0 then None else data !! Z.to_nat p.

(** An operand of a bitwise operator: undefined counts as 0. *)
Definition int32 (x : option Z) : Z := default 0 x.

(** The two loops that read a variable-length quantity.  The one for
    the delta time stops at [end] ([bound]); the one for the length of
    a meta event has no such test. *)
Fixpoint readVLQ (fuel : nat) (data : list Z) (bound : option Z) (p acc : Z)
  : option (Z * Z) :=
  match fuel with
  | O => None
  | S fuel =>
      if match bound with Some end_ => end_ <=? p | None => false end
      then Some (p, acc)
      else
        let b := int32 (get data p) in
        let acc := toInt32 (Z.lor (Z.shiftl acc 7) (Z.land b 0x7F)) in
        if Z.land b 0x80 =? 0 then Some (p + 1, acc)
        else readVLQ fuel data bound (p + 1) acc
  end.

(** Drum slot of a General MIDI note number. *)
Definition internalId (n : option Z) : Z :=
  match n with
  | None => 0
  | Some n =>
      if (n =? 38) || (n =? 40) then 1
      else if (n =? 42) || (n =? 44) || (n =? 46) then 2
      else if 47 <=? n then 3
      else 0
  end.

(** What a Note-On with a positive velocity stores.  The step is
    [Math.round(absTime / (ticksPerBeat / 4))]. *)
Definition recordNote (absTime ch : Z) (n : option Z) (v : Z)
    (d : ImportedData) : ImportedData :=
  let step := (2 * absTime + stepTicks) / (2 * stepTicks) in
  if ch =? 9 then
    let hits := default [] (obj_get (imported_drums d) step) in
    let id := internalId n in
    let hits := if existsb (Z.eqb id) hits then hits else hits ++ [id] in
    {| imported_drums := obj_set (imported_drums d) step hits;
       imported_bass := imported_bass d |}
  else
    {| imported_drums := imported_drums d;
       imported_bass :=
         obj_set (imported_bass d) step {| nd_note := n; nd_vel := v |} |}.

(** The loop over the events of one track chunk; it returns the
    imported data when the loop is left. *)
Fixpoint parseEvents (fuel : nat) (data : list Z) (end_ p absTime : Z)
    (lastStatus : option Z) (d : ImportedData) : option ImportedData :=
  match fuel with
  | O => None
  | S fuel =>
      if end_ <=? p then Some d
      else
        '(p, dt) ← readVLQ fuel data (Some end_) p 0;
        let absTime := absTime + dt in
        if end_ <=? p then Some d
        else
          let status := get data p in
          let '(status, p, lastStatus) :=
            match status with
            | Some s =>
                if s <? 0x80 then (lastStatus, p - 1, lastStatus)
                else (status, p + 1, status)
            | None => (status, p + 1, status)
            end in
          let kind := Z.land (int32 status) 0xF0 in
          if kind =? 0x90 then
            let ch := Z.land (int32 status) 0x0F in
            let n := get data p in
            let v := get data (p + 1) in
            let d := match v with
                     | Some v => if 0 <? v then recordNote absTime ch n v d else d
                     | None => d
                     end in
            parseEvents fuel data end_ (p + 2) absTime lastStatus d
          else if kind =? 0x80 then
            parseEvents fuel data end_ (p + 2) absTime lastStatus d
          else if kind =? 0xB0 then
            parseEvents fuel data end_ (p + 2) absTime lastStatus d
          else if kind =? 0xC0 then
            parseEvents fuel data end_ (p + 1) absTime lastStatus d
          else if kind =? 0xE0 then
            parseEvents fuel data end_ (p + 2) absTime lastStatus d
          else if bool_decide (status = Some 0xFF) then
            '(p, len) ← readVLQ fuel data None (p + 1) 0;
            parseEvents fuel data end_ (p + len) absTime lastStatus d
          else
            parseEvents fuel data end_ p absTime lastStatus d
  end.

(** The loop over the track chunks. *)
Fixpoint parseTracks (fuel : nat) (data : list Z) (p : Z) (d : ImportedData)
  : option ImportedData :=
  match fuel with
  | O => None
  | S fuel =>
      if Z.of_nat (length data) <=? p then Some d
      else if negb (bool_decide (map (fun i => get data (p + i)) [0; 1; 2; 3]
                                 = map Some MTrk))
      then Some d
      else
        let p := p + 4 in
        let len :=
          Z.lor (Z.lor (Z.lor (toInt32 (Z.shiftl (int32 (get data p)) 24))
                              (Z.shiftl (int32 (get data (p + 1))) 16))
                       (Z.shiftl (int32 (get data (p + 2))) 8))
                (int32 (get data (p + 3))) in
        let p := p + 4 in
        let end_ := p + len in
        d ← parseEvents fuel data end_ p 0 (Some 0) d;
        parseTracks fuel data end_ d
  end.

(** [parseMidi(arrayBuffer)].  [None]: the fuel did not suffice;
    [Some None]: the result [null]. *)
Definition parseMidi (fuel : nat) (data : list Z) : option (option ImportedData) :=
  if negb (bool_decide (map (fun i => get data i) [0; 1; 2; 3] = map Some MThd))
  then Some None
  else
    d ← parseTracks fuel data 14 {| imported_drums := []; imported_bass := [] |};
    Some (Some d).

End MidiIO.

(** ** The MIDI import of the UI controller *)

Module UIController.

Import JS TimeMatrix MidiIO.
Local Open Scope list_scope.

Definition NOTE_NAMES : list string :=
  ["C"; "C#"; "D"; "D#"; "E"; "F"; "F#"; "G"; "G#"; "A"; "A#"; "B"].

(** Keys that are array indices come first in [Object.keys], in
    ascending order; the others follow in insertion order. *)
Definition is_index (k : Z) : bool := (0 <=? k) && (k <=? 4294967294).

Fixpoint insertKey (k : Z) (sorted : list Z) : list Z :=
  match sorted with
  | [] => [k]
  | x :: rest => if k <=? x then k :: sorted else x :: insertKey k rest
  end.

Definition object_keys {V} (o : list (Z * V)) : list Z :=
  let keys := map fst o in
  foldr insertKey [] (filter (fun k => is_index k = true) keys)
    ++ filter (fun k => is_index k = false) keys.

(** [Math.max(maxStep, parseInt(k))] *)
Definition maxKey (maxStep : num) (k : Z) : num :=
  match maxStep, parseInt (Z_to_string k) with
  | Num m, Num v => Num (Z.max m v)
  | _, _ => NaN
  end.

(** [blocks[i]] for a number [i]. *)
Definition blockAt (blocks : list Block) (i : Z) : option Block :=
  if i <? 0 then None else blocks !! Z.to_nat i.

(** The note written for an imported bass step.  Without a note byte
    the pitch is undefined, kept as the text that every table lookup
    turns it into. *)
Definition importedNote (noteData : NoteData) : Note :=
  match nd_note noteData with
  | Some n =>
      let nMod := Z.rem n 12 in
      let oct := n / 12 - 1 in
      {| TimeMatrix.note :=
           if nMod <? 0 then "undefined"
           else nth (Z.to_nat nMod) NOTE_NAMES "undefined";
         octave := Num oct;
         slide := false;
         accent := 100 <? nd_vel noteData |}
  | None =>
      {| TimeMatrix.note := "undefined"; octave := NaN; slide := false;
         accent := 100 <? nd_vel noteData |}
  end.

(** Body of the loop over the bass steps. *)
Definition importBassStep (activeView : string) (data : ImportedData)
    (blocks : list Block) (stepKey : Z) : list Block :=
  match parseInt (Z_to_string stepKey), obj_get (imported_bass data) stepKey with
  | Num step, Some noteData =>
      let blockIdx := step / 16 in
      let stepIdx := Z.rem step 16 in
      match blockAt blocks blockIdx with
      | None => blocks
      | Some b =>
          let targetId :=
            if String.eqb activeView "drum" then "bass-1" else activeView in
          let blocks :=
            if track_truthy targetId b then blocks
            else registerTrack targetId blocks in
          match blockAt blocks blockIdx with
          | None => blocks
          | Some b =>
              <[Z.to_nat blockIdx :=
                  App.setNote targetId (Z.to_nat stepIdx)
                              (importedNote noteData) b]> blocks
          end
      end
  | _, _ => blocks
  end.

(** Body of the loop over the drum steps. *)
Definition importDrumStep (data : ImportedData) (blocks : list Block)
    (stepKey : Z) : list Block :=
  match parseInt (Z_to_string stepKey), obj_get (imported_drums data) stepKey with
  | Num step, Some hits =>
      let blockIdx := step / 16 in
      let stepIdx := Z.rem step 16 in
      match blockAt blocks blockIdx with
      | None => blocks
      | Some b =>
          <[Z.to_nat blockIdx :=
              {| tracks := tracks b;
                 drums := array_set [] (drums b) (Z.to_nat stepIdx)
                                    (map Z.to_nat hits) |}]> blocks
      end
  | _, _ => blocks
  end.

(** What the handler of the MIDI file input does with the parsed data:
    the blocks are rebuilt and filled.  The result is the new content of
    [timeMatrix.blocks]. *)
Definition importMidi (activeView : string) (data : ImportedData) : list Block :=
  let maxStep := fold_left maxKey (object_keys (imported_bass data)) (Num 0) in
  let maxStep := fold_left maxKey (object_keys (imported_drums data)) maxStep in
  let blocksNeeded :=
    match maxStep with
    | Num m => Z.to_nat (ceil_div (m + 1) 16)
    | NaN => 0%nat
    end in
  let blocks := Nat.iter blocksNeeded addBlock [] in
  let blocks := fold_left (importBassStep activeView data)
                          (object_keys (imported_bass data)) blocks in
  fold_left (importDrumStep data) (object_keys (imported_drums data)) blocks.

(** *** The note editor *)

(** The editor fields of [window.AppState]. *)
Record AppState : Type := {
  activeView : string;
  editingBlock : nat;
  selectedStep : nat;
  currentOctave : Z
}.

Definition with_octave (st : AppState) (o : Z) : AppState :=
  {| activeView := activeView st; editingBlock := editingBlock st;
     selectedStep := selectedStep st; currentOctave := o |}.

(** Handlers of the octave buttons. *)
Definition octUp (st : AppState) : AppState :=
  if currentOctave st <? 6 then with_octave st (currentOctave st + 1) else st.

Definition octDown (st : AppState) : AppState :=
  if 1 <? currentOctave st then with_octave st (currentOctave st - 1) else st.


Section WithFloat.
Context `{FloatOps}.

(** [placeNote(note)] at audio-clock time [now]; [engine] is
    [window.audioEngine].  The note is previewed first, and an
    exception of the preview leaves the blocks untouched.  Reading
    [block.tracks] of a missing block raises.  A view named like a
    member of [Object.prototype] is truthy without being a track, and
    the write lands outside the session.  The result is the engine and
    the blocks after the call. *)
Definition placeNote (n : string) (st : AppState) (now : Q)
    (engine : option App.Engine) (blocks : list Block)
  : Res (option App.Engine * list Block) :=
  if String.eqb (activeView st) "drum" then Ok (engine, blocks)
  else
    let sId := activeView st in
    let previewed :=
      match engine with
      | Some e => res_map Some (App.previewNote sId n (Num (currentOctave st)) now e)
      | None => Ok None
      end in
    match previewed with
    | Throw engine => Throw (engine, blocks)
    | Ok engine =>
        match blocks !! editingBlock st with
        | None => Throw (engine, blocks)
        | Some block =>
            let blocks :=
              if track_truthy sId block then blocks
              else registerTrack sId blocks in
            match blocks !! editingBlock st with
            | None => Throw (engine, blocks)
            | Some block =>
                let prev :=
                  arr ← tracks block !! sId; mjoin (arr !! selectedStep st) in
                Ok (engine,
                    <[editingBlock st :=
                        App.setNote sId (selectedStep st)
                          {| TimeMatrix.note := n;
                             octave := Num (currentOctave st);
                             slide := match prev with
                                      | Some p => slide p
                                      | None => false
                                      end;
                             accent := match prev with
                                       | Some p => accent p
                                       | None => false
                                       end |} block]> blocks)
            end
        end
    end.

End WithFloat.

(** Handler of the delete button: [null] is written to the selected
    slot; a missing block or a missing track raises. *)
Definition deleteNote (st : AppState) (blocks : list Block) : Res (list Block) :=
  if String.eqb (activeView st) "drum" then Ok blocks
  else
    match blocks !! editingBlock st with
    | None => Throw blocks
    | Some b =>
        if track_truthy (activeView st) b then
          Ok (<[editingBlock st :=
                  {| tracks :=
                       alter (fun arr => array_set None arr (selectedStep st) None)
                             (activeView st) (tracks b);
                     drums := drums b |}]> blocks)
        else Throw blocks
    end.

(** The two properties that [toggleNoteMod] is called with. *)
Inductive NoteMod : Type := ModSlide | ModAccent.

(** [note[prop] = !note[prop]] *)
Definition toggled (prop : NoteMod) (n : Note) : Note :=
  match prop with
  | ModSlide => {| TimeMatrix.note := TimeMatrix.note n; octave := octave n;
                   slide := negb (slide n); accent := accent n |}
  | ModAccent => {| TimeMatrix.note := TimeMatrix.note n; octave := octave n;
                    slide := slide n; accent := negb (accent n) |}
  end.

(** [toggleNoteMod(prop)]: an empty slot is left alone; a missing block
    or a missing track raises. *)
Definition toggleNoteMod (prop : NoteMod) (st : AppState) (blocks : list Block)
  : Res (list Block) :=
  if String.eqb (activeView st) "drum" then Ok blocks
  else
    match blocks !! editingBlock st with
    | None => Throw blocks
    | Some b =>
        match tracks b !! activeView st with
        | Some arr =>
            match mjoin (arr !! selectedStep st) with
            | Some n =>
                Ok (<[editingBlock st :=
                        App.setNote (activeView st) (selectedStep st)
                                    (toggled prop n) b]> blocks)
            | None => Ok blocks
            end
        | None =>
            if proto_member (activeView st) then Ok blocks else Throw blocks
        end
    end.

End UIController.

(** ** An instance of the parameter values: integer-valued doubles

    Used to run the codec on concrete sessions.  [Number] accepts an
    optionally signed decimal integer surrounded by white space and reads
    the empty string as zero; the distortion chain refuses NaN.  For
    integer parameters (of magnitude up to 10^18, where no intermediate
    value leaves the single-precision range) the filter of a voice
    raises when one of the values it computes with is NaN or when its
    decay time is negative: without slide, a decay below -12 on a plain
    note and an accent intensity above 200 on an accented one.  The
    volume envelope raises for a NaN volume. *)

Module IntFloat.

Import JS.

Fixpoint all_digits (s : string) : bool :=
  match s with
  | EmptyString => true
  | String c r =>
      match digit_val 10 c with
      | Some _ => all_digits r
      | None => false
      end
  end.

Definition read (s : string) : num :=
  let t := trim s in
  match t with
  | EmptyString => Num 0
  | String "-" r => if all_digits r then parseInt t else NaN
  | String "+" r => if all_digits r then parseInt t else NaN
  | _ => if all_digits t then parseInt t else NaN
  end.

Definition is_one (n : num) : bool :=
  match n with
  | Num 1 => true
  | _ => false
  end.

Definition negative_decay (decay accentInt : num) (accent : bool) : bool :=
  if accent
  then match accentInt with Num a => 200 <? a | NaN => true end
  else match decay with Num d => d <? -12 | NaN => true end.

Definition filter_refuses (cutoff resonance envMod decay accentInt : num)
    (slide accent : bool) : bool :=
  isNaN cutoff || isNaN resonance || isNaN envMod
  || (accent && isNaN accentInt)
  || (negb slide && negative_decay decay accentInt accent).

#[export] Instance ops : FloatOps :=
  {| float := num;
     Number := read;
     float_to_string := num_to_string;
     float_of_Z := Num;
     float_is_one := is_one;
     fx_rejects := fun _ v => isNaN v;
     filter_rejects := filter_refuses;
     vca_rejects := fun volume _ => isNaN volume |}.

End IntFloat.

(** ** AudioEngine: the look-ahead scheduler

    Times of the audio clock are exact rationals and the tempo is an
    integer: the rounding of [nextNoteTime += secPerStep] in binary64 is
    not modelled.  The loop of [scheduler] is bounded by fuel, and the
    results below are about the calls that return. *)

Module AudioEngine.
Section WithFloat.
Context `{FloatOps}.

Import TimeMatrix.

(** An entry of [window.visualQueue]. *)
Record VisualEvent : Type := {
  ev_step : nat;
  ev_block : nat;
  ev_time : Q
}.

(** The transport part of the globals: [nextNoteTime],
    [AppState.currentPlayStep], [AppState.currentPlayBlock] and
    [window.visualQueue]. *)
Record Transport : Type := {
  nextNoteTime : Q;
  currentPlayStep : nat;
  currentPlayBlock : nat;
  visualQueue : list VisualEvent
}.

(** What the scheduler works on: the transport and the bass synths of
    the engine (a voice updates the [lastFreq] of its synth). *)
Record Player : Type := {
  transport : Transport;
  synths : list BassSynth.t
}.

Definition lookahead : Q := 1 # 10.

(** [60.0 / bpm / 4] *)
Definition secPerStep (bpm : Z) : Q := (60 / inject_Z bpm) / 4.

(** [startPlayback()] at audio-clock time [now]. *)
Definition startPlayback (now : Q) (editingBlock : nat) : Transport :=
  {| nextNoteTime := now + (1 # 10);
     currentPlayStep := 0;
     currentPlayBlock := editingBlock;
     visualQueue := [] |}.

(** [window.visualQueue.push({ step, block, time })] *)
Definition pushVisual (step block : nat) (time : Q) (st : Transport) : Transport :=
  {| nextNoteTime := nextNoteTime st;
     currentPlayStep := currentPlayStep st;
     currentPlayBlock := currentPlayBlock st;
     visualQueue :=
       visualQueue st ++ [ {| ev_step := step; ev_block := block; ev_time := time |} ] |}.

(** What [scheduleNote] reads from the matrix for a queued event. *)
Definition scheduled_data (blocks : list Block) (e : VisualEvent) : StepData :=
  getStepData (ev_step e) (ev_block e) blocks.

(** [data.drums.forEach(id => window.drumSynth.play(id, time))]: tells
    whether one of the calls raises. *)
Definition playDrums (drum : option DrumSynth.t) (ids : list nat) (time : Q)
  : bool :=
  match drum with
  | Some d => existsb (fun id => DrumSynth.play_raises id time d) ids
  | None => false
  end.

(** [Object.keys(data.tracks).forEach(tid => ...)] over the keys in the
    order [keys]: the synth of every track that holds a note at the
    step plays it; the first exception ends the loop. *)
Fixpoint playBass (tracks : gmap string (list (option Note))) (step : nat)
    (time : Q) (keys : list string) (l : list BassSynth.t)
  : Res (list BassSynth.t) :=
  match keys with
  | [] => Ok l
  | tid :: rest =>
      match arr ← tracks !! tid; mjoin (arr !! step) with
      | Some n =>
          and_then
            (App.update_synth tid
               (BassSynth.play (note n) (octave n) time (slide n) (accent n)) l)
            (playBass tracks step time rest)
      | None => playBass tracks step time rest l
      end
  end.

(** [scheduleNote(step, block, time)]: the visual marker is queued,
    then the drums and the bass notes of the step are triggered.
    [keysOf] gives the order in which [Object.keys] lists the tracks of
    a block, [drum] is [window.drumSynth]. *)
Definition scheduleNote
    (keysOf : gmap string (list (option Note)) -> list string)
    (drum : option DrumSynth.t) (blocks : list Block)
    (step block : nat) (time : Q) (p : Player) : Res Player :=
  let st := pushVisual step block time (transport p) in
  match getStepData step block blocks with
  | NoData => Ok {| transport := st; synths := synths p |}
  | Data tr dr =>
      if playDrums drum dr time
      then Throw {| transport := st; synths := synths p |}
      else res_map (fun l => {| transport := st; synths := l |})
                   (playBass tr step time (keysOf tr) (synths p))
  end.

Definition advanceNote (bpm : Z) (blocks : list Block) (st : Transport) : Transport :=
  let step := S (currentPlayStep st) in
  let wrap := (totalSteps <=? step)%nat in
  let block :=
    if wrap then
      let b := S (currentPlayBlock st) in
      if (length blocks <=? b)%nat then 0%nat else b
    else currentPlayBlock st in
  {| nextNoteTime := nextNoteTime st + secPerStep bpm;
     currentPlayStep := if wrap then 0%nat else step;
     currentPlayBlock := block;
     visualQueue := visualQueue st |}.

(** The transport after one turn of the scheduler loop in which no
    voice raised. *)
Definition scheduleStep (bpm : Z) (blocks : list Block) (st : Transport) : Transport :=
  advanceNote bpm blocks
    (pushVisual (currentPlayStep st) (currentPlayBlock st) (nextNoteTime st) st).

(** [scheduler()] called at audio-clock time [now]: the [while] loop,
    bounded by [fuel]; [None] when the fuel does not suffice.  An
    exception of a voice leaves the loop before [advanceNote]. *)
Fixpoint scheduler (fuel : nat)
    (keysOf : gmap string (list (option Note)) -> list string)
    (drum : option DrumSynth.t) (bpm : Z) (blocks : list Block) (now : Q)
    (p : Player) : option (Res Player) :=
  if Qlt_le_dec (nextNoteTime (transport p)) (now + lookahead) then
    match fuel with
    | O => None
    | S fuel' =>
        match scheduleNote keysOf drum blocks
                (currentPlayStep (transport p)) (currentPlayBlock (transport p))
                (nextNoteTime (transport p)) p with
        | Ok p1 =>
            scheduler fuel' keysOf drum bpm blocks now
              {| transport := advanceNote bpm blocks (transport p1);
                 synths := synths p1 |}
        | Throw p1 => Some (Throw p1)
        end
    end
  else Some (Ok p).

(** The event queued by the next loop iteration. *)
Definition next_event (st : Transport) : VisualEvent :=
  {| ev_step := currentPlayStep st;
     ev_block := currentPlayBlock st;
     ev_time := nextNoteTime st |}.

(** A run of the scheduler: one call per tick of the clock worker, each
    tick observing its own audio-clock time, up to the first call that
    raises. *)
Fixpoint run (fuel : nat)
    (keysOf : gmap string (list (option Note)) -> list string)
    (drum : option DrumSynth.t) (bpm : Z) (blocks : list Block)
    (ticks : list Q) (p : Player) : option (Res Player) :=
  match ticks with
  | [] => Some (Ok p)
  | now :: rest =>
      match scheduler fuel keysOf drum bpm blocks now p with
      | Some (Ok p') => run fuel keysOf drum bpm blocks rest p'
      | other => other
      end
  end.

(** Consecutive entries of the visual queue are [gap] apart. *)
Definition evenly_spaced (gap : Q) (q : list VisualEvent) : Prop :=
  forall i e1 e2,
    q !! i = Some e1 -> q !! S i = Some e2 ->
    (ev_time e2 - ev_time e1 == gap)%Q.

End WithFloat.
End AudioEngine.

(** ** Vocabulary of the properties *)

Module Props.

Import JS TimeMatrix.

(** The four structural operations on the block sequence. *)
Inductive Op : Type :=
| OpAddBlock : Op
| OpRemoveBlock (idx : Z) : Op
| OpRegisterTrack (id : string) : Op
| OpRemoveTrack (id : string) : Op.

Definition apply_op (bs : list Block) (o : Op) : list Block :=
  match o with
  | OpAddBlock => addBlock bs
  | OpRemoveBlock idx => removeBlock idx bs
  | OpRegisterTrack id => registerTrack id bs
  | OpRemoveTrack id => removeTrack id bs
  end.

Definition apply_ops (ops : list Op) (bs : list Block) : list Block :=
  fold_left apply_op ops bs.

(** Every block has the same track keys, and every track array has
    [totalSteps] entries. *)
Definition same_keys (bs : list Block) : Prop :=
  forall b1 b2, b1 ∈ bs -> b2 ∈ bs -> dom (tracks b1) = dom (tracks b2).

Definition full_tracks (bs : list Block) : Prop :=
  forall b k arr, b ∈ bs -> tracks b !! k = Some arr -> length arr = totalSteps.

Definition block_invariant (bs : list Block) : Prop :=
  same_keys bs /\ full_tracks bs.

(** The raw entry of a block/track/step slot, and of a block/step drum
    slot; [None] when the slot does not exist. *)
Definition entry (bs : list Block) (b : nat) (k : string) (s : nat)
  : option (option Note) :=
  blk ← bs !! b; arr ← tracks blk !! k; arr !! s.

Definition drum_entry (bs : list Block) (b s : nat) : option (list nat) :=
  blk ← bs !! b; drums blk !! s.

(** The block that [addBlock] appends during an import. *)
Definition freshBlock : Block :=
  {| tracks := {[ "bass-1" := emptyTrack ]}; drums := emptyDrums |}.

(** Character classes of the rendered fields. *)
Fixpoint all_chars (P : ascii -> bool) (s : string) : bool :=
  match s with
  | EmptyString => true
  | String c r => P c && all_chars P r
  end.

Definition is_digit (c : ascii) : bool :=
  let n := nat_of_ascii c in (48 <=? n)%nat && (n <=? 57)%nat.

Definition is_minus (c : ascii) : bool := Ascii.eqb c "-".

(** Digits, the minus sign and the letters of the text NaN. *)
Definition is_num_char (c : ascii) : bool :=
  is_digit c || is_minus c || Ascii.eqb c "N" || Ascii.eqb c "a".

(** The string has no occurrence of the character. *)
Definition lacks (c : ascii) (s : string) : Prop := includes c s = false.

(** The character written for a channel in a drum cell. *)
Definition bitchar (b : bool) : ascii := if b then "1"%char else "0"%char.

(** The text that [add_cells] appends to a row. *)
Definition comma_cells (cells : list string) : string :=
  fold_right (fun cell acc => String "," (cell ++ acc)) "" cells.

(** The numeric value of a digit sequence read after [acc]. *)
Fixpoint uint_val (u : Decimal.uint) (acc : Z) : Z :=
  match u with
  | Decimal.Nil => acc
  | Decimal.D0 l => uint_val l (10 * acc + 0)
  | Decimal.D1 l => uint_val l (10 * acc + 1)
  | Decimal.D2 l => uint_val l (10 * acc + 2)
  | Decimal.D3 l => uint_val l (10 * acc + 3)
  | Decimal.D4 l => uint_val l (10 * acc + 4)
  | Decimal.D5 l => uint_val l (10 * acc + 5)
  | Decimal.D6 l => uint_val l (10 * acc + 6)
  | Decimal.D7 l => uint_val l (10 * acc + 7)
  | Decimal.D8 l => uint_val l (10 * acc + 8)
  | Decimal.D9 l => uint_val l (10 * acc + 9)
  end.

(** All track arrays and drum arrays have [totalSteps] entries. *)
Definition full_grid (cur : list Block) : Prop :=
  forall b blk, cur !! b = Some blk ->
    length (drums blk) = totalSteps /\
    forall k arr, tracks blk !! k = Some arr -> length arr = totalSteps.

(** The slot of track [id] after the first [m] cells of its row have
    been read into the grid [start]. *)
Definition after_cells (bs : list Block) (id : string) (start : list Block)
    (m b s : nat) : option (option Note) :=
  match note_at bs b id s with
  | Some n =>
      if decide ((b * totalSteps + s < m)%nat /\ (s < totalSteps)%nat)
      then match entry start b id s with
           | Some _ => Some (Some n)
           | None => None
           end
      else entry start b id s
  | None => entry start b id s
  end.

(** The grid while the rows of the session [bs] are being imported:
    the tracks in [ids] already hold the notes of [bs]. *)
Definition imported_grid (bs : list Block) (ids : list string)
    (cur : list Block) : Prop :=
  full_grid cur /\ length cur = length bs /\
  (forall b s, (b < length bs)%nat -> (s < totalSteps)%nat ->
               drum_entry cur b s = Some []) /\
  (forall b k s o, entry cur b k s = Some o -> o = None \/ o = note_at bs b k s) /\
  (forall b k s, (b < length bs)%nat -> In k ids -> (s < totalSteps)%nat ->
                 entry cur b k s = Some (note_at bs b k s)).

End Props.

(** ** Sessions that the CSV format can carry *)

Module Wf.
Section WithFloat.
Context `{FloatOps}.

Import JS TimeMatrix App Props.

(** The twelve pitch-class names. *)
Definition valid_pitch (n : string) : Prop :=
  In n ["C"; "C#"; "D"; "D#"; "E"; "F"; "F#"; "G"; "G#"; "A"; "A#"; "B"].

(** A note with a pitch class and a non-negative octave. *)
Definition valid_note (n : Note) : Prop :=
  valid_pitch (note n) /\ exists z, octave n = Num z /\ 0 <= z.

(** A track identifier that does not collide with the delimiters of the
    format, with the drum row marker or with an inherited object member
    (the application names its tracks bass-1, bass-2, ...). *)
Definition valid_id (id : string) : Prop :=
  lacks "," id /\ lacks ":" id /\ lacks (ascii_of_nat 10) id /\
  startsWith "drums" id = false /\ proto_member id = false.

Definition params_texts (p : BassSynth.Params) : list string :=
  [ float_to_string (BassSynth.volume p); float_to_string (BassSynth.distortion p);
    float_to_string (BassSynth.distTone p); float_to_string (BassSynth.distGain p);
    float_to_string (BassSynth.cutoff p); float_to_string (BassSynth.resonance p);
    float_to_string (BassSynth.envMod p); float_to_string (BassSynth.decay p);
    float_to_string (BassSynth.accentInt p) ].

(** The rendered parameters contain no comma and no line break, and the
    distortion chain accepts every value read back from them. *)
Definition valid_synth (s : BassSynth.t) : Prop :=
  valid_id (BassSynth.sid s) /\
  Forall (fun t => lacks "," t /\ lacks (ascii_of_nat 10) t)
         (params_texts (BassSynth.params s)) /\
  forall call v,
    In v (map Number (split "-" (nth 1 (split ":" (configStr s)) ""))) ->
    fx_rejects call v = false.

Definition is_lower (c : ascii) : bool :=
  let n := nat_of_ascii c in (97 <=? n)%nat && (n <=? 122)%nat.

(** Channel [k] of the drum synth: its id is its index, its type tag is
    a lowercase word, variant and colour are non-negative integers and
    the volume lies in 0..100. *)
Definition valid_channel (k : nat) (ch : DrumSynth.Channel) : Prop :=
  DrumSynth.ch_id ch = k /\
  all_chars is_lower (DrumSynth.type ch) = true /\
  (exists v, DrumSynth.variant ch = Num v /\ 0 <= v) /\
  (exists v, DrumSynth.volume ch = Num v /\ 0 <= v <= 100) /\
  (exists c, DrumSynth.colorId ch = Some (Num c) /\ 0 <= c).

Definition valid_drumSynth (d : DrumSynth.t) : Prop :=
  (exists m, DrumSynth.masterVolume d = Num m) /\
  forall k ch, DrumSynth.channels d !! k = Some ch -> valid_channel k ch.

(** A block of the session: every track belongs to a bass synth, every
    array has [totalSteps] entries, notes are valid and drum hits are
    channel indices. *)
Definition valid_block (ids : list string) (nch : nat) (b : Block) : Prop :=
  length (drums b) = totalSteps /\
  Forall (Forall (fun h => (h < nch)%nat)) (drums b) /\
  forall k arr,
    tracks b !! k = Some arr ->
    In k ids /\ length arr = totalSteps /\
    forall s n, arr !! s = Some (Some n) -> valid_note n.

Record valid_session (w : World) (e : Engine) (d : DrumSynth.t) : Prop := {
  vs_engine : audioEngine w = Some e;
  vs_drumSynth : drumSynth w = Some d;
  vs_bpm : 0 < bpm w;
  vs_synths : Forall valid_synth (bassSynths e);
  vs_drums : valid_drumSynth d;
  vs_blocks :
    Forall (valid_block (map BassSynth.sid (bassSynths e))
                        (length (DrumSynth.channels d)))
           (blocks w)
}.

(** An integer that JavaScript prints with all its digits and reads
    back unchanged. *)
Definition safe_int (n : num) : Prop :=
  exists z, n = Num z /\ - 2 ^ 53 < z < 2 ^ 53.

(** The numbers that the CSV text carries are such integers: tempo,
    number of steps, number of synths, octaves, master volume, number
    of drum channels and the variant, volume and colour of every drum
    channel. *)
Definition safe_session (w : World) (e : Engine) (d : DrumSynth.t) : Prop :=
  bpm w < 2 ^ 53 /\
  Z.of_nat (length (blocks w) * totalSteps) < 2 ^ 53 /\
  Z.of_nat (length (bassSynths e)) < 2 ^ 53 /\
  (forall b k s n, note_at (blocks w) b k s = Some n -> safe_int (octave n)) /\
  safe_int (DrumSynth.masterVolume d) /\
  Z.of_nat (length (DrumSynth.channels d)) < 2 ^ 53 /\
  forall k ch,
    DrumSynth.channels d !! k = Some ch ->
    safe_int (DrumSynth.variant ch) /\ safe_int (DrumSynth.volume ch) /\
    forall c, DrumSynth.colorId ch = Some c -> safe_int c.

(** The two sessions agree on tempo, notes, drum hits and the
    variant, volume and colour of every drum channel. *)
Definition same_pattern (w w' : World) : Prop :=
  bpm w' = bpm w /\
  length (blocks w') = length (blocks w) /\
  (forall b k s, note_at (blocks w') b k s = note_at (blocks w) b k s) /\
  (forall b s h, h ∈ drums_at (blocks w') b s <-> h ∈ drums_at (blocks w) b s) /\
  exists d d',
    drumSynth w = Some d /\ drumSynth w' = Some d' /\
    length (DrumSynth.channels d') = length (DrumSynth.channels d) /\
    forall k ch,
      DrumSynth.channels d !! k = Some ch ->
      exists ch',
        DrumSynth.channels d' !! k = Some ch' /\
        DrumSynth.variant ch' = DrumSynth.variant ch /\
        DrumSynth.volume ch' = DrumSynth.volume ch /\
        DrumSynth.colorId ch' = DrumSynth.colorId ch.

(** The text of one channel in the drum configuration. *)
Definition chText (ch : DrumSynth.Channel) : string :=
  (DrumSynth.type ch ++ "-" ++ num_to_string (DrumSynth.variant ch) ++ "-"
     ++ num_to_string (DrumSynth.volume ch) ++ "-"
     ++ num_to_string (exportColorId ch))%string.

(** The first field of the drum configuration. *)
Definition drumHeader (d : DrumSynth.t) : string :=
  ("drums:" ++ num_to_string (DrumSynth.masterVolume d) ++ ":"
     ++ Z_to_string (Z.of_nat (length (DrumSynth.channels d))))%string.

(** The target channel after it has taken variant, volume and colour of
    the source channel. *)
Definition configured (src tgt : DrumSynth.Channel) : DrumSynth.Channel :=
  {| DrumSynth.ch_id := DrumSynth.ch_id tgt;
     DrumSynth.type := DrumSynth.type tgt;
     DrumSynth.variant := DrumSynth.variant src;
     DrumSynth.volume := DrumSynth.volume src;
     DrumSynth.colorId := DrumSynth.colorId src;
     DrumSynth.gainNode := DrumSynth.gainNode tgt |}.

End WithFloat.
End Wf.

(** ** Synths and tracks of a session *)

Module SessionProps.
Section WithFloat.
Context `{FloatOps}.

Import JS TimeMatrix App.

Definition synth_ids (e : Engine) : list string :=
  map BassSynth.sid (bassSynths e).

(** Synths and tracks are in step: the synth identifiers are distinct,
    there is at least one block, every track of every block belongs to
    a synth, and every synth finds its track (or an inherited object
    member of its name) in every block. *)
Definition in_step (w : World) : Prop :=
  exists e,
    audioEngine w = Some e /\
    NoDup (synth_ids e) /\
    blocks w <> [] /\
    (forall b k, b ∈ blocks w -> is_Some (tracks b !! k) -> k ∈ synth_ids e) /\
    (forall b id, b ∈ blocks w -> id ∈ synth_ids e -> track_truthy id b = true).

(** The operations of the synth menu and of the block bar. *)
Inductive SessionOp : Type :=
| DoAddSynth (id : string)
| DoRemoveSynth (id : string)
| DoAddBlock
| DoRemoveBlock (idx : Z)
| DoDuplicateBlock (idx : Z)
| DoClearBlock (idx : nat).

Definition apply_session_op (w : World) (o : SessionOp) : World :=
  match o with
  | DoAddSynth id =>
      match audioEngine w with
      | Some e => snd (addBassSynth_guarded id w e)
      | None => w
      end
  | DoRemoveSynth id =>
      match audioEngine w with
      | Some e => snd (removeSynth id w e)
      | None => w
      end
  | DoAddBlock => with_blocks w (addBlock (blocks w))
  | DoRemoveBlock idx => with_blocks w (removeBlock idx (blocks w))
  | DoDuplicateBlock idx => with_blocks w (duplicateBlock idx (blocks w))
  | DoClearBlock idx => with_blocks w (clearBlock idx (blocks w))
  end.

(** The track keys of all blocks, as [syncWithMatrix] collects them. *)
Definition active_ids (bs : list Block) (ids : list string) : Prop :=
  forall k, k ∈ ids <-> exists b, b ∈ bs /\ is_Some (tracks b !! k).

(** Both halves of [in_step] only look at which keys a block has. *)
Definition keys_from (bs' bs : list Block) : Prop :=
  forall b', b' ∈ bs' ->
    exists b, b ∈ bs /\ dom (tracks b') = dom (tracks b).

(** The blocks after a number of [registerTrack] calls for identifiers
    of [ids]. *)
Definition registered (ids : list string) (bs bs' : list Block) : Prop :=
  (forall b k s, note_at bs' b k s = note_at bs b k s) /\
  (forall b s, drums_at bs' b s = drums_at bs b s) /\
  (forall i b, bs !! i = Some b ->
     exists b', bs' !! i = Some b' /\
       forall k, is_Some (tracks b !! k) -> is_Some (tracks b' !! k)) /\
  (forall i b', bs' !! i = Some b' ->
     exists b, bs !! i = Some b /\
       forall k, is_Some (tracks b' !! k) ->
                 k ∈ ids \/ is_Some (tracks b !! k)).

(** Body of the second loop of [syncWithMatrix]. *)
Definition sync_step (w : World) (id : string) : World :=
  match audioEngine w with
  | Some e => snd (addBassSynth_guarded id w e)
  | None => w
  end.

End WithFloat.
End SessionProps.

(** ** Vocabulary of the CSV import *)

Module CsvProps.

Import JS.

(** The dash-separated fields of the first cell of the first line, as
    [importFromCSV] reads them. *)
Definition header_fields (csvData : string) : list string :=
  split "-" (nth 0 (split "," (nth 0 (split (ascii_of_nat 10) (trim csvData)) "")) "").

End CsvProps.

(** ** Notions used to state the properties of the MIDI codec *)

Module MidiProps.

Import JS TimeMatrix MidiIO.
Local Open Scope list_scope.

(** The file holds [bytes] from position [p] on. *)
Definition has (data : list Z) (p : Z) (bytes : list Z) : Prop :=
  forall i x, bytes !! i = Some x -> get data (p + Z.of_nat i) = Some x.

(** One round of the loops that read a variable-length quantity. *)
Definition vstep (acc b : Z) : Z :=
  toInt32 (Z.lor (Z.shiftl acc 7) (Z.land b 0x7F)).

(** A byte of the file. *)
Definition is_byte (b : Z) : Prop := 0 <= b < 256.

(** What the parser does with an event of the file. *)
Definition applyEvent (d : ImportedData) (e : Event) : ImportedData :=
  if (Z.land (type e) 0xF0 =? 0x90) && (0 <? vel e)
  then recordNote (t e) (Z.land (type e) 0x0F) (Some (toUint8 (note e))) (vel e) d
  else d.

(** The times of the events do not decrease and stay between [lo] and
    [hi]. *)
Fixpoint chain (lo : Z) (events : list Event) (hi : Z) : Prop :=
  match events with
  | [] => lo <= hi
  | e :: rest => lo <= t e /\ chain (t e) rest hi
  end.

(** Events written with an explicit Note-On or Note-Off status. *)
Definition wire_ok (e : Event) : Prop :=
  0x80 <= type e < 0xA0 /\ 0 <= vel e < 256.

(** Parsing the chunk body [track] changes the imported data by [F]. *)
Definition reads (track : list num) (F : ImportedData -> ImportedData) : Prop :=
  forall data p d fuel,
    has data p (map toUint8 track) ->
    (length track + 8 <= fuel)%nat ->
    parseEvents fuel data (p + Z.of_nat (length track)) p 0 (Some 0) d
    = Some (F d).

(** The events of the drum track. *)
Definition drum_event (e : Event) : Prop := type e = 0x99 \/ type e = 0x89.

(** The bass note stored for a step. *)
Definition bass_at (d : ImportedData) (step : Z) : option NoteData :=
  obj_get (imported_bass d) step.

(** What the parser stores for a note of the pattern. *)
Definition noteData_of (n : Note) : NoteData :=
  {| nd_note := Some (toUint8 (getMidiNote (TimeMatrix.note n) (octave n)));
     nd_vel := if accent n then 127 else 90 |}.

(** The effect [F] of reading the track of [key] on the bass notes. *)
Definition bass_effect (blocks : list Block) (key : string)
    (F : ImportedData -> ImportedData) : Prop :=
  forall d (b s : nat), (s < 16)%nat ->
    bass_at (F d) (Z.of_nat (b * 16 + s))
    = match note_at blocks b key s with
      | Some n => Some (noteData_of n)
      | None => bass_at d (Z.of_nat (b * 16 + s))
      end.

(** A pattern as the editor keeps it: arrays of sixteen steps, at most
    nine hits on a step, at most 500000 blocks. *)
Definition editor_pattern (blocks : list Block) : Prop :=
  Z.of_nat (length blocks) <= 500000 /\
  forall b, In b blocks ->
    length (drums b) = 16%nat /\
    Forall (fun hits => (length hits <= 9)%nat) (drums b) /\
    forall k arr, tracks b !! k = Some arr -> length arr = 16%nat.

(** [keys] lists, without repetition, the keys of the track objects;
    every block owns all of them. *)
Definition enumerates (keys : list string) (blocks : list Block) : Prop :=
  NoDup keys /\
  forall b, In b blocks -> forall k, In k keys <-> is_Some (tracks b !! k).

(** The note data stored for a step by the tracks of [keys], read in
    that order: each track with a note on the step replaces what the
    tracks before it left. *)
Definition stored_note (blocks : list Block) (keys : list string) (b s : nat)
  : option NoteData :=
  fold_left (fun acc key =>
               match note_at blocks b key s with
               | Some n => Some (noteData_of n)
               | None => acc
               end)
            keys None.

(** The channel of the bass track with index [i] in [allTrackKeys]. *)
Definition channelOf (i : nat) : Z :=
  if (i <=? 9)%nat then Z.of_nat i else Z.of_nat i + 1.

(** The slot that the parser gives to a hit of drum channel [chId]. *)
Definition slotOf (chId : nat) : Z :=
  match chId with
  | 0%nat => 0
  | 1%nat => 1
  | 2%nat | 3%nat => 2
  | _ => 3
  end.

End MidiProps.
(** ** Concrete sessions used in the examples *)

Module Demo.

Import JS TimeMatrix App IntFloat.

Definition C3 : Note :=
  {| note := "C"; octave := Num 3; slide := false; accent := true |}.

(** One block with a note on step 2 and kick and closed hat on step 1. *)
Definition block1 : Block :=
  {| tracks := {[ "bass-1" := <[2%nat := Some C3]> emptyTrack ]};
     drums := <[1%nat := [0; 3]%nat]> emptyDrums |}.

(** The running application: audio initialised, one bass synth. *)
Definition engine : Engine :=
  {| ctx := true; bassSynths := [BassSynth.create "bass-1" true] |}.

Definition world : World :=
  {| bpm := 174; blocks := [block1]; audioEngine := Some engine;
     drumSynth := Some (DrumSynth.init DrumSynth.initial) |}.

(** A CSV text whose only bass cell has four sub-fields and pitch-class
    index 0. *)
Definition csv_reserved_pitch : string :=
  ("120-16-1" ++ newline
     ++ "bass-1:85-20-100-60-40-8-60-40-50-0,0-3-0-0")%string.

(** A CSV text with a valid header and a drum line without a master
    volume. *)
Definition csv_bare_drums : string := ("120-16-1" ++ newline ++ "drums")%string.

(** The demo session with the note moved down to octave -1, as the MIDI
    import produces for note numbers below 12. *)
Definition lowC : Note :=
  {| note := "C"; octave := Num (-1); slide := false; accent := false |}.

Definition low_world : World :=
  {| bpm := 174;
     blocks := [ {| tracks := {[ "bass-1" := <[2%nat := Some lowC]> emptyTrack ]};
                    drums := emptyDrums |} ];
     audioEngine := Some engine;
     drumSynth := Some (DrumSynth.init DrumSynth.initial) |}.

(** Two blocks, playback started on the second one, which is then
    removed. *)
Definition two_blocks : list Block := addBlock TimeMatrix.initial.

Definition after_removal : list Block := removeBlock 1 two_blocks.

(** A CSV text whose only bass cell has a pitch and a non-numeric
    octave. *)
Definition csv_bad_octave : string :=
  ("120-16-1" ++ newline
     ++ "bass-1:85-20-100-60-40-8-60-40-50-0,1-x-0-0")%string.

(** One block with two bass tracks that both hold a note on step 2. *)
Definition D4 : Note :=
  {| note := "D"; octave := Num 4; slide := false; accent := false |}.

Definition two_tracks : list Block :=
  [ {| tracks := {[ "bass-1" := <[2%nat := Some C3]> emptyTrack;
                    "bass-2" := <[2%nat := Some D4]> emptyTrack ]};
       drums := emptyDrums |} ].

(** [Object.keys] of the tracks of a demo block: the one track bass-1. *)
Definition keysOf (tr : gmap string (list (option Note))) : list string :=
  match tr !! "bass-1" with
  | Some _ => ["bass-1"]
  | None => []
  end.

(** The editor of the demo session: bass view, first block, step 2,
    octave 3. *)
Definition editor : UIController.AppState :=
  {| UIController.activeView := "bass-1";
     UIController.editingBlock := 0;
     UIController.selectedStep := 2;
     UIController.currentOctave := 3 |}.

End Demo.

(* ================================================================== *)
(** * Part II.  Properties                                             *)
(* ================================================================== *)

Import JS TimeMatrix Props.

Open Scope list_scope.

(** ** Block management *)

Section BlockOps.

Implicit Types (bs : list Block) (b : Block) (id k : string).

Lemma track_truthy_dom id b1 b2 :
  dom (tracks b1) = dom (tracks b2) ->
  track_truthy id b1 = track_truthy id b2.
Proof.
  intros Hd. unfold track_truthy.
  destruct (tracks b1 !! id) eqn:E1, (tracks b2 !! id) eqn:E2; try reflexivity.
  - apply mk_is_Some, elem_of_dom in E1. rewrite Hd in E1.
    apply elem_of_dom in E1 as [? ?]. congruence.
  - apply mk_is_Some, elem_of_dom in E2. rewrite <- Hd in E2.
    apply elem_of_dom in E2 as [? ?]. congruence.
Qed.

Lemma registerTrack_invariant id bs :
  block_invariant bs -> block_invariant (registerTrack id bs).
Proof.
  intros [Hk Hf]. split.
  - intros b1 b2 H1 H2. unfold registerTrack in *.
    apply list_elem_of_fmap in H1 as (c1 & -> & H1).
    apply list_elem_of_fmap in H2 as (c2 & -> & H2).
    pose proof (Hk _ _ H1 H2) as Hd.
    rewrite (track_truthy_dom id c1 c2 Hd).
    destruct (track_truthy id c2); simpl; [exact Hd |].
    rewrite !dom_insert_L, Hd. reflexivity.
  - intros b k arr Hb Hl. unfold registerTrack in Hb.
    apply list_elem_of_fmap in Hb as (c & -> & Hc).
    destruct (track_truthy id c); simpl in Hl; [eauto |].
    destruct (decide (id = k)) as [-> | Hne].
    + rewrite lookup_insert_eq in Hl. inversion Hl. apply length_replicate.
    + rewrite lookup_insert_ne in Hl by done. eauto.
Qed.

Lemma removeTrack_invariant id bs :
  block_invariant bs -> block_invariant (removeTrack id bs).
Proof.
  intros [Hk Hf]. split.
  - intros b1 b2 H1 H2. unfold removeTrack in *.
    apply list_elem_of_fmap in H1 as (c1 & -> & H1).
    apply list_elem_of_fmap in H2 as (c2 & -> & H2).
    simpl. rewrite !dom_delete_L, (Hk _ _ H1 H2). reflexivity.
  - intros b k arr Hb Hl. unfold removeTrack in Hb.
    apply list_elem_of_fmap in Hb as (c & -> & Hc). simpl in Hl.
    apply lookup_delete_Some in Hl as [_ Hl]. eauto.
Qed.

Lemma addBlock_invariant bs :
  block_invariant bs -> block_invariant (addBlock bs).
Proof.
  intros [Hk Hf].
  assert (Hnew : forall b, b ∈ bs ->
            dom (tracks b) =
            dom (match bs with
                 | b0 :: _ => (fun _ => emptyTrack) <$> tracks b0
                 | [] => {[ "bass-1" := emptyTrack ]}
                 end : gmap string (list (option Note)))).
  { intros b Hb. destruct bs as [| b0 r]; [inversion Hb |].
    rewrite dom_fmap_L. apply Hk; [exact Hb | left]. }
  split.
  - intros b1 b2 H1 H2. unfold addBlock in *.
    apply elem_of_app in H1 as [H1 | H1]; apply elem_of_app in H2 as [H2 | H2].
    + eauto.
    + apply list_elem_of_singleton in H2 as ->. simpl. auto.
    + apply list_elem_of_singleton in H1 as ->. simpl. symmetry. auto.
    + apply list_elem_of_singleton in H1 as ->.
      apply list_elem_of_singleton in H2 as ->. reflexivity.
  - intros b k arr Hb Hl. unfold addBlock in Hb.
    apply elem_of_app in Hb as [Hb | Hb]; [eauto |].
    apply list_elem_of_singleton in Hb as ->. simpl in Hl.
    destruct bs as [| b0 r].
    + apply lookup_singleton_Some in Hl as [_ <-]. apply length_replicate.
    + rewrite lookup_fmap in Hl.
      destruct (tracks b0 !! k); inversion Hl. apply length_replicate.
Qed.

Lemma clearedBlock_dom b : dom (tracks (clearedBlock b)) = dom (tracks b).
Proof. unfold clearedBlock; simpl. apply dom_fmap_L. Qed.

Lemma clearBlock_invariant i bs :
  block_invariant bs -> block_invariant (clearBlock i bs).
Proof.
  intros [Hk Hf]. unfold clearBlock.
  destruct (bs !! i) as [b |] eqn:Hi; [| split; assumption].
  assert (Hb : b ∈ bs) by (eapply list_elem_of_lookup_2; eauto).
  assert (Hin : forall c, c ∈ <[i := clearedBlock b]> bs ->
                          c = clearedBlock b \/ c ∈ bs).
  { intros c Hc. apply list_elem_of_lookup in Hc as [j Hj].
    destruct (decide (i = j)) as [-> | Hne].
    - rewrite list_lookup_insert_eq in Hj
        by (eapply lookup_lt_Some; eauto).
      left. congruence.
    - rewrite list_lookup_insert_ne in Hj by done.
      right. eapply list_elem_of_lookup_2; eauto. }
  split.
  - intros b1 b2 H1 H2.
    apply Hin in H1 as [-> | H1]; apply Hin in H2 as [-> | H2];
      rewrite ?clearedBlock_dom; eauto.
  - intros c k arr Hc Hl. apply Hin in Hc as [-> | Hc]; [| eauto].
    simpl in Hl. rewrite lookup_fmap in Hl.
    destruct (tracks b !! k) as [arr0 |] eqn:E; inversion Hl.
    rewrite length_replicate. eauto.
Qed.

Lemma elem_of_splice1 idx bs b : b ∈ splice1 idx bs -> b ∈ bs.
Proof.
  unfold splice1. apply list_elem_of_delete_inv.
Qed.

Lemma removeBlock_invariant idx bs :
  block_invariant bs -> block_invariant (removeBlock idx bs).
Proof.
  intros Hinv. unfold removeBlock.
  destruct (length bs <=? 1)%nat; [apply clearBlock_invariant; exact Hinv |].
  destruct Hinv as [Hk Hf]. split.
  - intros b1 b2 H1 H2. apply Hk; eapply elem_of_splice1; eauto.
  - intros b k arr Hb. apply Hf. eapply elem_of_splice1; eauto.
Qed.

Lemma initial_invariant : block_invariant initial.
Proof. apply (addBlock_invariant []). split; intros ? * H; inversion H. Qed.

(** C5. Starting from the initial session (one block, one default
    track), after any finite sequence of addBlock, removeBlock,
    registerTrack and removeTrack calls, all blocks have the same set of
    track identifiers and every track array has exactly [totalSteps]
    (16) entries. *)
Theorem block_invariant_preserved (ops : list Op) :
  block_invariant (apply_ops ops initial).
Proof.
  unfold apply_ops.
  generalize initial_invariant. generalize initial.
  induction ops as [| o ops IH]; intros bs Hinv; simpl; [exact Hinv |].
  apply IH. destruct o; simpl.
  - apply addBlock_invariant; exact Hinv.
  - apply removeBlock_invariant; exact Hinv.
  - apply registerTrack_invariant; exact Hinv.
  - apply removeTrack_invariant; exact Hinv.
Qed.

End BlockOps.

Section RemoveAndMove.

Implicit Types (bs : list Block) (b : Block).

Lemma clearedBlock_notes b k arr :
  tracks (clearedBlock b) !! k = Some arr ->
  (exists arr0, tracks b !! k = Some arr0 /\ length arr = length arr0) /\
  forall s, mjoin (arr !! s) = None.
Proof.
  unfold clearedBlock; simpl. rewrite lookup_fmap.
  destruct (tracks b !! k) as [arr0 |]; intros Hl; inversion Hl; subst.
  split.
  - exists arr0. split; [reflexivity | apply length_replicate].
  - intros s. destruct (replicate (length arr0) None !! s) as [o |] eqn:E;
      [| reflexivity].
    apply lookup_replicate in E as [-> _]. reflexivity.
Qed.

Lemma clearedBlock_drums b s :
  default [] (drums (clearedBlock b) !! s) = [].
Proof.
  unfold clearedBlock; simpl. rewrite list_lookup_fmap.
  destruct (drums b !! s); reflexivity.
Qed.

(** C6. With exactly one block left, removeBlock keeps the block count
    at 1 and clears the block in place: the track keys and the array
    lengths are kept, every note slot is null and every drum step is
    empty.  With more than one block and a valid index, the block at
    that index is removed and the later blocks move down by one. *)
Theorem removeBlock_last_block_protected bs idx :
  (length bs = 1%nat ->
   exists b,
     bs = [b] /\
     removeBlock idx bs = [clearedBlock b] /\
     dom (tracks (clearedBlock b)) = dom (tracks b) /\
     (forall k arr, tracks b !! k = Some arr ->
        exists arr', tracks (clearedBlock b) !! k = Some arr' /\
                     length arr' = length arr) /\
     (forall k s, note_at (removeBlock idx bs) 0 k s = None) /\
     length (drums (clearedBlock b)) = length (drums b) /\
     (forall s, drums_at (removeBlock idx bs) 0 s = [])) /\
  ((1 < length bs)%nat -> 0 <= idx < Z.of_nat (length bs) ->
   length (removeBlock idx bs) = (length bs - 1)%nat /\
   forall j,
     removeBlock idx bs !! j =
     if (j <? Z.to_nat idx)%nat then bs !! j else bs !! S j).
Proof.
  split.
  - intros Hlen. destruct bs as [| b [| ? ?]]; try discriminate.
    exists b.
    assert (Hr : removeBlock idx [b] = [clearedBlock b]) by reflexivity.
    rewrite Hr. repeat split.
    + apply clearedBlock_dom.
    + intros k arr Hk. unfold clearedBlock; simpl.
      rewrite lookup_fmap, Hk. simpl. eexists; split; [reflexivity |].
      apply length_replicate.
    + intros k s. unfold note_at.
      change ([clearedBlock b] !! 0%nat) with (Some (clearedBlock b)).
      cbn [mbind option_bind].
      destruct (tracks (clearedBlock b) !! k) as [arr |] eqn:E; [| reflexivity].
      cbn [mbind option_bind]. apply (clearedBlock_notes _ _ _ E).
    + unfold clearedBlock; simpl. apply length_map.
    + intros s. unfold drums_at; simpl. apply clearedBlock_drums.
  - intros Hlen Hidx. unfold removeBlock.
    destruct (Nat.leb_spec (length bs) 1); [lia |].
    unfold splice1.
    destruct (Z.ltb_spec idx 0); [lia |].
    rewrite Z.min_l by lia. split.
    + apply length_delete. apply lookup_lt_is_Some. lia.
    + intros j. rewrite list_lookup_delete.
      destruct (decide (j < Z.to_nat idx)%nat) as [Hlt | Hge].
      * apply Nat.ltb_lt in Hlt. rewrite Hlt. reflexivity.
      * apply Nat.ltb_nlt in Hge. rewrite Hge. reflexivity.
Qed.

(** C10. moveBlock range-checks only the destination index
    [idx + dir].  For a block sequence of length n >= 1 the call
    moveBlock(n, -1) therefore succeeds; it leaves an undefined entry
    at position n-1 and appends the former last block at position n,
    so the sequence grows to length n+1. *)
Theorem moveBlock_checks_destination_only :
  (forall idx dir (blocks : list (option Block)),
      fst (moveBlock idx dir blocks) = true <->
      0 <= idx + dir < Z.of_nat (length blocks)) /\
  (forall bs b,
      let n := Z.of_nat (length (bs ++ [b])) in
      moveBlock n (-1) (Some <$> (bs ++ [b]))
      = (true, (Some <$> bs) ++ [None; Some b]) /\
      length (snd (moveBlock n (-1) (Some <$> (bs ++ [b]))))
      = S (length (bs ++ [b]))).
Proof.
  split.
  - intros idx dir blocks. unfold moveBlock.
    destruct (Z.ltb_spec (idx + dir) 0);
      destruct (Z.leb_spec (Z.of_nat (length blocks)) (idx + dir));
      simpl; split; intros; try discriminate; try lia; reflexivity.
  - intros bs b n.
    assert (Hn : n = Z.of_nat (length bs) + 1).
    { unfold n. rewrite length_app. simpl. lia. }
    assert (Hmove : moveBlock n (-1) (Some <$> (bs ++ [b]))
                    = (true, (Some <$> bs) ++ [None; Some b])).
    { unfold moveBlock. rewrite length_fmap. fold n.
      destruct (Z.ltb_spec (n + -1) 0); [lia |].
      destruct (Z.leb_spec n (n + -1)); [lia |]. simpl.
      f_equal. unfold array_get, array_put.
      destruct (Z.ltb_spec (n + -1) 0); [lia |].
      destruct (Z.ltb_spec n 0); [lia |].
      replace (Z.to_nat (n + -1)) with (length bs) by lia.
      replace (Z.to_nat n) with (S (length bs)) by lia.
      rewrite fmap_app. simpl.
      rewrite (lookup_app_r (Some <$> bs) [Some b] (length bs))
        by (rewrite length_fmap; lia).
      rewrite length_fmap, Nat.sub_diag. simpl.
      rewrite (lookup_ge_None_2 _ (S (length bs)))
        by (rewrite length_app, length_fmap; simpl; lia).
      simpl. unfold array_set.
      rewrite length_app, length_fmap. simpl.
      destruct (Nat.ltb_spec (length bs) (length bs + 1)); [| lia].
      rewrite insert_app_r_alt by (rewrite length_fmap; lia).
      rewrite length_fmap, Nat.sub_diag. simpl.
      rewrite length_app, length_fmap. simpl.
      destruct (Nat.ltb_spec (S (length bs)) (length bs + 1)); [lia |].
      replace (S (length bs) - (length bs + 1))%nat with 0%nat by lia.
      simpl. rewrite <- app_assoc. reflexivity. }
    split; [exact Hmove |].
    rewrite Hmove. simpl. rewrite !length_app, length_fmap. simpl. lia.
Qed.

End RemoveAndMove.

(** ** The look-ahead scheduler *)

Section Scheduler.

Context `{FloatOps}.
Import AudioEngine.

Variable keysOf : gmap string (list (option Note)) -> list string.
Variable drum : option DrumSynth.t.
Variable bpm : Z.
Variable blocks : list Block.

Local Abbreviation step := (scheduleStep bpm blocks).
Local Abbreviation gap := (secPerStep bpm).

(** Whether the voices raise or not, [scheduleNote] has queued the
    marker of the step. *)
Lemma scheduleNote_transport s b time p :
  transport (res_state (scheduleNote keysOf drum blocks s b time p))
  = pushVisual s b time (transport p).
Proof.
  unfold scheduleNote.
  destruct (getStepData s b blocks) as [| tr dr]; [reflexivity |].
  destruct (playDrums drum dr time); [reflexivity |].
  destruct (playBass tr s time (keysOf tr) (synths p)); reflexivity.
Qed.

(** A call that returns normally has gone through a number of complete
    turns of the loop: each of them was due, and the next one is not. *)
Lemma scheduler_ok_iter fuel now p p' :
  scheduler fuel keysOf drum bpm blocks now p = Some (Ok p') ->
  exists n,
    transport p' = Nat.iter n step (transport p) /\
    (forall i, (i < n)%nat ->
               (nextNoteTime (Nat.iter i step (transport p)) < now + lookahead)%Q) /\
    (now + lookahead <= nextNoteTime (transport p'))%Q.
Proof.
  revert p. induction fuel as [| fuel IH]; intros p; simpl;
    destruct (Qlt_le_dec (nextNoteTime (transport p)) (now + lookahead))
      as [Hlt | Hle];
    intros Hs; try discriminate.
  - exists 0%nat. inversion Hs; subst p'. split; [reflexivity |].
    split; [intros i Hi; lia | exact Hle].
  - pose proof (scheduleNote_transport (currentPlayStep (transport p))
                  (currentPlayBlock (transport p)) (nextNoteTime (transport p)) p)
      as Ht.
    destruct (scheduleNote keysOf drum blocks (currentPlayStep (transport p))
                (currentPlayBlock (transport p)) (nextNoteTime (transport p)) p)
      as [p1 | p1]; [| discriminate].
    cbn [res_state] in Ht.
    apply IH in Hs as (n & Hn & Hdue & Hnext). cbn [transport] in Hn, Hdue.
    rewrite Ht in Hn, Hdue.
    exists (S n). split; [rewrite Nat.iter_succ_r; exact Hn |].
    split; [| exact Hnext].
    intros [| i] Hi; [exact Hlt |].
    rewrite Nat.iter_succ_r. apply Hdue. lia.
  - exists 0%nat. inversion Hs; subst p'. split; [reflexivity |].
    split; [intros i Hi; lia | exact Hle].
Qed.

Lemma run_ok_iter fuel ticks p p' :
  run fuel keysOf drum bpm blocks ticks p = Some (Ok p') ->
  exists n, transport p' = Nat.iter n step (transport p).
Proof.
  revert p. induction ticks as [| now rest IH]; intros p; simpl.
  - intros Hs. exists 0%nat. inversion Hs. reflexivity.
  - destruct (scheduler fuel keysOf drum bpm blocks now p) as [[p1 | p1] |] eqn:E;
      try discriminate.
    intros Hr. apply IH in Hr as [m Hm].
    apply scheduler_ok_iter in E as (n & Hn & _).
    exists (m + n)%nat. rewrite Nat.iter_add, <- Hn. exact Hm.
Qed.

Lemma step_time st : (nextNoteTime (step st) == nextNoteTime st + gap)%Q.
Proof. reflexivity. Qed.

Lemma step_queue st : visualQueue (step st) = visualQueue st ++ [next_event st].
Proof. reflexivity. Qed.

Lemma iter_time n st :
  (nextNoteTime (Nat.iter n step st)
   == nextNoteTime st + inject_Z (Z.of_nat n) * gap)%Q.
Proof.
  induction n as [| n IH].
  - simpl. ring.
  - rewrite Nat.iter_succ, step_time, IH, Nat2Z.inj_succ.
    unfold Z.succ. rewrite inject_Z_plus. ring.
Qed.

Lemma iter_queue n st :
  visualQueue (Nat.iter n step st)
  = visualQueue st ++ map (fun i => next_event (Nat.iter i step st)) (seq 0 n).
Proof.
  induction n as [| n IH].
  - simpl. rewrite app_nil_r. reflexivity.
  - rewrite Nat.iter_succ, step_queue, IH, seq_S, map_app, app_assoc.
    reflexivity.
Qed.

Lemma iter_queue_length n st :
  length (visualQueue (Nat.iter n step st)) = (length (visualQueue st) + n)%nat.
Proof.
  rewrite iter_queue, length_app, length_map, length_seq. reflexivity.
Qed.

(** The event queued by turn [i] of the loop. *)
Lemma iter_queue_lookup n st i e :
  visualQueue (Nat.iter n step st) !! (length (visualQueue st) + i)%nat = Some e ->
  (i < n)%nat /\ e = next_event (Nat.iter i step st).
Proof.
  rewrite iter_queue, lookup_app_r by lia.
  replace (length (visualQueue st) + i - length (visualQueue st))%nat
    with i by lia.
  rewrite list_lookup_fmap.
  destruct (seq 0 n !! i) as [j |] eqn:Ej; [| discriminate].
  apply lookup_seq in Ej as [-> Hi]. simpl. intros He. inversion He.
  split; [exact Hi | reflexivity].
Qed.

Hypothesis bpm_pos : 0 < bpm.

Lemma gap_pos : (0 < gap)%Q.
Proof.
  unfold secPerStep, Qdiv.
  apply Qmult_lt_0_compat; [| reflexivity].
  apply Qmult_lt_0_compat; [reflexivity |].
  apply Qinv_lt_0_compat. change (inject_Z 0 < inject_Z bpm)%Q.
  rewrite <- Zlt_Qlt. exact bpm_pos.
Qed.

Lemma iter_time_mono n st : (nextNoteTime st <= nextNoteTime (Nat.iter n step st))%Q.
Proof.
  rewrite iter_time.
  assert (Hn : (0 <= inject_Z (Z.of_nat n) * gap)%Q).
  { apply Qmult_le_0_compat; [| apply Qlt_le_weak, gap_pos].
    change (inject_Z 0 <= inject_Z (Z.of_nat n))%Q. rewrite <- Zle_Qle. lia. }
  set (a := (inject_Z (Z.of_nat n) * gap)%Q) in *. lra.
Qed.

(** Every tick of a run that returns normally has filled its window. *)
Lemma run_ok_windows fuel ticks p p' :
  run fuel keysOf drum bpm blocks ticks p = Some (Ok p') ->
  Forall (fun now => (now + lookahead <= nextNoteTime (transport p'))%Q) ticks.
Proof.
  revert p. induction ticks as [| now rest IH]; intros p; simpl; [constructor |].
  destruct (scheduler fuel keysOf drum bpm blocks now p) as [[p1 | p1] |] eqn:E;
    try discriminate.
  intros Hr. constructor; [| eapply IH; exact Hr].
  apply scheduler_ok_iter in E as (_ & _ & _ & Hnext).
  apply run_ok_iter in Hr as [m ->].
  eapply Qle_trans; [exact Hnext | apply iter_time_mono].
Qed.


End Scheduler.



Section StaleBlockIndex.

Context `{FloatOps}.
Import AudioEngine.
Local Open Scope nat_scope.

Variable keysOf : gmap string (list (option Note)) -> list string.
Variable drum : option DrumSynth.t.
Variable bpm : Z.
Variable blocks : list Block.

Local Abbreviation step := (scheduleStep bpm blocks).

Lemma step_position st :
  currentPlayStep (step st)
  = (if (totalSteps <=? S (currentPlayStep st))%nat then 0
     else S (currentPlayStep st))%nat /\
  currentPlayBlock (step st)
  = (if (totalSteps <=? S (currentPlayStep st))%nat
     then (if (length blocks <=? S (currentPlayBlock st))%nat then 0
           else S (currentPlayBlock st))
     else currentPlayBlock st)%nat.
Proof. split; reflexivity. Qed.

(** Inside the bar the block index is not touched. *)
Lemma iter_within_bar i st :
  (currentPlayStep st + i < totalSteps)%nat ->
  currentPlayStep (Nat.iter i step st) = (currentPlayStep st + i)%nat /\
  currentPlayBlock (Nat.iter i step st) = currentPlayBlock st.
Proof.
  induction i as [| i IH]; intros Hi.
  - simpl. split; [lia | reflexivity].
  - destruct IH as [IHs IHb]; [lia |].
    rewrite Nat.iter_succ.
    destruct (step_position (Nat.iter i step st)) as [Hs Hb].
    rewrite Hs, Hb, IHs, IHb.
    destruct (Nat.leb_spec totalSteps (S (currentPlayStep st + i))); [lia |].
    split; [lia | reflexivity].
Qed.

(** A valid position stays valid while the blocks are unchanged. *)
Lemma step_keeps_valid st :
  (currentPlayStep st < totalSteps)%nat ->
  (currentPlayBlock st < length blocks)%nat ->
  (currentPlayStep (step st) < totalSteps)%nat /\
  (currentPlayBlock (step st) < length blocks)%nat.
Proof.
  intros Hs Hb. destruct (step_position st) as [-> ->].
  destruct (Nat.leb_spec totalSteps (S (currentPlayStep st)));
    [| split; [lia | exact Hb]].
  destruct (Nat.leb_spec (length blocks) (S (currentPlayBlock st)));
    unfold totalSteps; split; lia.
Qed.

(** From the bar boundary on the block index is valid. *)
Lemma iter_after_bar i st :
  blocks <> [] ->
  (currentPlayStep st < totalSteps)%nat ->
  (totalSteps - currentPlayStep st <= i)%nat ->
  (currentPlayStep (Nat.iter i step st) < totalSteps)%nat /\
  (currentPlayBlock (Nat.iter i step st) < length blocks)%nat.
Proof.
  intros Hne Hs. induction i as [| i IH]; intros Hi; [lia |].
  rewrite Nat.iter_succ.
  destruct (Nat.eq_dec (totalSteps - currentPlayStep st) (S i)) as [Heq | Hneq].
  - destruct (iter_within_bar i st) as [Hs' Hb']; [lia |].
    destruct (step_position (Nat.iter i step st)) as [-> ->].
    rewrite Hs', Hb'.
    destruct (Nat.leb_spec totalSteps (S (currentPlayStep st + i))); [| lia].
    assert (0 < length blocks)%nat by (destruct blocks; simpl; [done | lia]).
    destruct (Nat.leb_spec (length blocks) (S (currentPlayBlock st)));
      unfold totalSteps; split; lia.
  - destruct IH as [IHs IHb]; [lia |]. apply step_keeps_valid; assumption.
Qed.

(** An event whose block index is out of range triggers nothing. *)
Lemma scheduleNote_out_of_range s b time p :
  (length blocks <= b)%nat ->
  scheduleNote keysOf drum blocks s b time p
  = Ok {| transport := pushVisual s b time (transport p); synths := synths p |}.
Proof.
  intros Hb. unfold scheduleNote, getStepData.
  rewrite (lookup_ge_None_2 _ _ Hb). reflexivity.
Qed.


End StaleBlockIndex.



(** ** Strings: append, split, character classes, numerals *)

Section Strings.

Implicit Types (s a b r : string) (c d : ascii).

Lemma append_cons c a b : (String c a ++ b)%string = String c (a ++ b)%string.
Proof. reflexivity. Qed.

Lemma append_nil_l a : ("" ++ a)%string = a.
Proof. reflexivity. Qed.

Lemma append_nil_r a : (a ++ "")%string = a.
Proof.
  induction a as [| c a IH]; [reflexivity |].
  rewrite append_cons, IH. reflexivity.
Qed.

Lemma append_assoc a b r : ((a ++ b) ++ r)%string = (a ++ (b ++ r))%string.
Proof.
  induction a as [| c a IH]; [reflexivity |].
  rewrite !append_cons, IH. reflexivity.
Qed.

Lemma length_append a b :
  String.length (a ++ b)%string = (String.length a + String.length b)%nat.
Proof.
  induction a as [| c a IH]; [reflexivity |].
  rewrite append_cons. simpl. rewrite IH. reflexivity.
Qed.

Lemma includes_append c a b :
  includes c (a ++ b)%string = includes c a || includes c b.
Proof.
  induction a as [| d a IH]; [reflexivity |].
  rewrite append_cons. simpl. rewrite IH, orb_assoc. reflexivity.
Qed.

Lemma lacks_append c a b : lacks c a -> lacks c b -> lacks c (a ++ b)%string.
Proof.
  unfold lacks. intros Ha Hb. rewrite includes_append, Ha, Hb. reflexivity.
Qed.

Lemma lacks_cons c d a : d <> c -> lacks c a -> lacks c (String d a).
Proof.
  unfold lacks. intros Hd Ha. simpl. rewrite Ha.
  apply Ascii.eqb_neq in Hd. rewrite Hd. reflexivity.
Qed.

Lemma lacks_cons_inv c d a : lacks c (String d a) -> d <> c /\ lacks c a.
Proof.
  unfold lacks. simpl. intros Hl. apply orb_false_elim in Hl as [Hd Ha].
  split; [apply Ascii.eqb_neq; exact Hd | exact Ha].
Qed.

Lemma all_chars_append P a b :
  all_chars P (a ++ b)%string = all_chars P a && all_chars P b.
Proof.
  induction a as [| d a IH]; [reflexivity |].
  rewrite append_cons. simpl. rewrite IH, andb_assoc. reflexivity.
Qed.

Lemma all_chars_lacks P c a :
  all_chars P a = true -> P c = false -> lacks c a.
Proof.
  unfold lacks. intros Ha Hc. induction a as [| d a IH]; [reflexivity |].
  simpl in *. apply andb_prop in Ha as [Hd Ha]. rewrite (IH Ha).
  destruct (Ascii.eqb_spec d c) as [-> | _]; [congruence | reflexivity].
Qed.

Lemma all_chars_weaken (P Q : ascii -> bool) a :
  (forall c, P c = true -> Q c = true) ->
  all_chars P a = true -> all_chars Q a = true.
Proof.
  intros HPQ. induction a as [| d a IH]; [reflexivity |].
  simpl. intros Ha. apply andb_prop in Ha as [Hd Ha].
  rewrite (HPQ _ Hd), (IH Ha). reflexivity.
Qed.

(** *** split *)

Lemma split_nonempty c s : split c s <> [].
Proof.
  destruct s as [| d s]; simpl; [discriminate |].
  destruct (Ascii.eqb d c); [discriminate |].
  destruct (split c s); discriminate.
Qed.

Lemma split_lacks c s : lacks c s -> split c s = [s].
Proof.
  induction s as [| d s IH]; intros Hl; [reflexivity |].
  apply lacks_cons_inv in Hl as [Hd Hs]. simpl.
  apply Ascii.eqb_neq in Hd. rewrite Hd, (IH Hs). reflexivity.
Qed.

Lemma split_append c a b :
  split c (a ++ String c b)%string = split c a ++ split c b.
Proof.
  induction a as [| d a IH].
  - rewrite append_nil_l. simpl. rewrite Ascii.eqb_refl. reflexivity.
  - rewrite append_cons. simpl. destruct (Ascii.eqb d c).
    + rewrite IH. reflexivity.
    + rewrite IH. destruct (split c a) as [| h t] eqn:E.
      * exfalso. exact (split_nonempty _ _ E).
      * reflexivity.
Qed.

Lemma add_cells_unfold row cells :
  App.add_cells row cells = (row ++ comma_cells cells)%string.
Proof.
  unfold App.add_cells. revert row.
  induction cells as [| cell cells IH]; intros row; simpl.
  - rewrite append_nil_r. reflexivity.
  - rewrite IH, !append_assoc. reflexivity.
Qed.

Lemma split_comma_cells cell cells :
  Forall (lacks ",") (cell :: cells) ->
  split "," (comma_cells (cell :: cells)) = "" :: cell :: cells.
Proof.
  revert cell. induction cells as [| cell' cells IH]; intros cell Hc;
    apply Forall_cons in Hc as [Hcell Hcells].
  - simpl. rewrite append_nil_r, (split_lacks _ _ Hcell). reflexivity.
  - change (comma_cells (cell :: cell' :: cells))
      with (String "," (cell ++ comma_cells (cell' :: cells))).
    change (split "," (String "," (cell ++ comma_cells (cell' :: cells))))
      with ("" :: split "," (cell ++ comma_cells (cell' :: cells))%string).
    f_equal.
    change (comma_cells (cell' :: cells))
      with (String "," (cell' ++ comma_cells cells)).
    rewrite split_append, (split_lacks _ _ Hcell).
    specialize (IH cell' Hcells).
    change (comma_cells (cell' :: cells))
      with (String "," (cell' ++ comma_cells cells)) in IH.
    change (split "," (String "," (cell' ++ comma_cells cells)))
      with ("" :: split "," (cell' ++ comma_cells cells)%string) in IH.
    injection IH as IH. rewrite IH. reflexivity.
Qed.

Lemma split_add_cells row cells :
  lacks "," row -> Forall (lacks ",") cells ->
  split "," (App.add_cells row cells) = row :: cells.
Proof.
  intros Hrow Hcells. rewrite add_cells_unfold.
  destruct cells as [| cell cells].
  - simpl. rewrite append_nil_r. apply split_lacks. exact Hrow.
  - pose proof (split_comma_cells cell cells Hcells) as Hs.
    change (comma_cells (cell :: cells))
      with (String "," (cell ++ comma_cells cells)) in *.
    rewrite split_append, (split_lacks _ _ Hrow).
    change (split "," (String "," (cell ++ comma_cells cells)))
      with ("" :: split "," (cell ++ comma_cells cells)%string) in Hs.
    injection Hs as Hs. rewrite Hs. reflexivity.
Qed.

Lemma lacks_comma_cells c cells :
  c <> ","%char -> Forall (lacks c) cells -> lacks c (comma_cells cells).
Proof.
  intros Hc. induction 1 as [| cell cells Hcell _ IH]; [reflexivity |].
  simpl. apply lacks_cons; [congruence |]. apply lacks_append; assumption.
Qed.

Lemma lacks_add_cells c row cells :
  c <> ","%char -> lacks c row -> Forall (lacks c) cells ->
  lacks c (App.add_cells row cells).
Proof.
  intros Hc Hrow Hcells. rewrite add_cells_unfold.
  apply lacks_append; [exact Hrow | apply lacks_comma_cells; assumption].
Qed.

End Strings.

(** ** Numerals: rendering an integer and reading it back *)

Section Numerals.

Lemma string_of_uint_digits u :
  all_chars is_digit (NilEmpty.string_of_uint u) = true.
Proof. induction u; simpl; try rewrite IHu; reflexivity. Qed.

Lemma nilzero_digits u : all_chars is_digit (NilZero.string_of_uint u) = true.
Proof.
  destruct u; try apply string_of_uint_digits. reflexivity.
Qed.

Lemma Z_to_string_nonneg_digits z :
  0 <= z -> all_chars is_digit (Z_to_string z) = true.
Proof.
  intros Hz. unfold Z_to_string.
  destruct z as [| p | p]; [reflexivity | | lia].
  simpl. apply nilzero_digits.
Qed.

Lemma Z_to_string_num_chars z : all_chars is_num_char (Z_to_string z) = true.
Proof.
  unfold Z_to_string. destruct z as [| p | p]; [reflexivity | |]; simpl.
  - eapply all_chars_weaken; [| apply nilzero_digits].
    intros c Hc. unfold is_num_char. rewrite Hc. reflexivity.
  - eapply all_chars_weaken; [| apply nilzero_digits].
    intros c Hc. unfold is_num_char. rewrite Hc. reflexivity.
Qed.

Lemma num_to_string_num_chars n : all_chars is_num_char (num_to_string n) = true.
Proof. destruct n; [reflexivity | apply Z_to_string_num_chars]. Qed.

Lemma Z_to_string_lacks c z :
  is_num_char c = false -> lacks c (Z_to_string z).
Proof. intros Hc. eapply all_chars_lacks; [apply Z_to_string_num_chars | exact Hc]. Qed.

Lemma num_to_string_lacks c n :
  is_num_char c = false -> lacks c (num_to_string n).
Proof. intros Hc. eapply all_chars_lacks; [apply num_to_string_num_chars | exact Hc]. Qed.

Lemma Z_to_string_nonneg_lacks c z :
  0 <= z -> is_digit c = false -> lacks c (Z_to_string z).
Proof.
  intros Hz Hc. eapply all_chars_lacks; [apply Z_to_string_nonneg_digits | ]; eauto.
Qed.

(** Reading the digits of a decimal numeral. *)
Lemma parse_digits_uint u acc :
  parse_digits 10 (NilEmpty.string_of_uint u) (Some acc) = Some (uint_val u acc).
Proof.
  revert acc. induction u; intros acc; simpl; try apply IHu. reflexivity.
Qed.

Lemma parse_digits_uint_start u :
  u <> Decimal.Nil ->
  parse_digits 10 (NilEmpty.string_of_uint u) None = Some (uint_val u 0).
Proof.
  destruct u; intros Hu; try congruence; simpl; apply parse_digits_uint.
Qed.

Lemma uint_val_pos u (a : positive) :
  uint_val u (Z.pos a) = Z.pos (Pos.of_uint_acc u a).
Proof.
  revert a. induction u; intros a; simpl; try reflexivity;
    rewrite <- IHu; f_equal; lia.
Qed.

Lemma uint_val_of_uint u : uint_val u 0 = Z.of_N (Pos.of_uint u).
Proof.
  induction u; simpl; try reflexivity; try exact IHu;
    match goal with
    | |- uint_val ?l ?k = _ => change k with (Z.pos (Z.to_pos k))
    end; apply uint_val_pos.
Qed.

Lemma uint_val_to_uint p : uint_val (Pos.to_uint p) 0 = Z.pos p.
Proof.
  rewrite uint_val_of_uint, DecimalPos.Unsigned.of_to. reflexivity.
Qed.

Lemma parseInt_digit_string c r :
  is_digit c = true -> all_chars is_digit r = true ->
  parseInt (String c r)
  = match parse_digits 10 (String c r) None with
    | None => NaN
    | Some v => Num v
    end.
Proof.
  intros Hc Hr.
  destruct c as [[] [] [] [] [] [] [] []]; try discriminate Hc;
    try reflexivity.
  (* the digit 0: the next character is not an x *)
  destruct r as [| d r']; [reflexivity |].
  simpl in Hr. apply andb_prop in Hr as [Hd _].
  destruct d as [[] [] [] [] [] [] [] []]; try discriminate Hd; reflexivity.
Qed.

Lemma parseInt_pos p :
  parseInt (NilEmpty.string_of_uint (Pos.to_uint p)) = Num (Z.pos p).
Proof.
  pose proof (DecimalPos.Unsigned.to_uint_nonnil p) as Hnil.
  pose proof (string_of_uint_digits (Pos.to_uint p)) as Hd.
  pose proof (parse_digits_uint_start _ Hnil) as Hp.
  rewrite uint_val_to_uint in Hp.
  destruct (NilEmpty.string_of_uint (Pos.to_uint p)) as [| c r] eqn:E.
  - destruct (Pos.to_uint p); try congruence; discriminate E.
  - simpl in Hd. apply andb_prop in Hd as [Hc Hr].
    rewrite (parseInt_digit_string _ _ Hc Hr), Hp. reflexivity.
Qed.

Lemma nilzero_pos p :
  NilZero.string_of_uint (Pos.to_uint p) = NilEmpty.string_of_uint (Pos.to_uint p).
Proof.
  pose proof (DecimalPos.Unsigned.to_uint_nonnil p) as Hnil.
  destruct (Pos.to_uint p); try congruence; reflexivity.
Qed.

(** [parseInt] reads back what the template literal printed. *)
Lemma parseInt_Z_to_string z : parseInt (Z_to_string z) = Num z.
Proof.
  unfold Z_to_string. destruct z as [| p | p]; [reflexivity | |]; simpl.
  - rewrite nilzero_pos. apply parseInt_pos.
  - rewrite nilzero_pos.
    pose proof (parseInt_pos p) as Hp.
    pose proof (string_of_uint_digits (Pos.to_uint p)) as Hd.
    destruct (NilEmpty.string_of_uint (Pos.to_uint p)) as [| c r] eqn:E;
      [discriminate Hp |].
    simpl in Hd. apply andb_prop in Hd as [Hc Hr].
    rewrite (parseInt_digit_string _ _ Hc Hr) in Hp.
    assert (Hneg : parseInt (String "-" (String c r))
                   = match parse_digits 10 (String c r) None with
                     | None => NaN
                     | Some v => Num (- v)
                     end).
    { clear Hp.
      destruct c as [[] [] [] [] [] [] [] []]; try discriminate Hc;
        try reflexivity.
      destruct r as [| d r']; [reflexivity |].
      simpl in Hr. apply andb_prop in Hr as [Hd _].
      destruct d as [[] [] [] [] [] [] [] []]; try discriminate Hd; reflexivity. }
    rewrite Hneg.
    destruct (parse_digits 10 (String c r) None); inversion Hp. reflexivity.
Qed.

Lemma parseInt_num_to_string n : parseInt (num_to_string n) = n.
Proof. destruct n; [reflexivity | apply parseInt_Z_to_string]. Qed.

End Numerals.

(** ** The drum row of the exported CSV *)

Section DrumRow.

Context `{FloatOps}.
Import App.
Local Open Scope nat_scope.

Implicit Types (chs : list DrumSynth.Channel) (dStep : list nat).

Lemma drumCell_acc chs dStep acc :
  fold_left (fun binary ch => (binary ++ bit (hit dStep ch))%string) chs acc
  = (acc ++ drumCell chs dStep)%string.
Proof.
  unfold drumCell. revert acc.
  induction chs as [| ch chs IH]; intros acc; simpl.
  - rewrite append_nil_r. reflexivity.
  - rewrite IH, (IH ("" ++ bit (hit dStep ch))%string), !append_assoc.
    reflexivity.
Qed.

Lemma drumCell_cons ch chs dStep :
  drumCell (ch :: chs) dStep = String (bitchar (hit dStep ch)) (drumCell chs dStep).
Proof.
  unfold drumCell at 1. simpl. rewrite drumCell_acc.
  destruct (hit dStep ch); reflexivity.
Qed.

Lemma drumCell_length chs dStep :
  String.length (drumCell chs dStep) = length chs.
Proof.
  induction chs as [| ch chs IH]; [reflexivity |].
  rewrite drumCell_cons. simpl. rewrite IH. reflexivity.
Qed.

Lemma drumCell_get chs dStep k ch :
  chs !! k = Some ch ->
  String.get k (drumCell chs dStep) = Some (bitchar (hit dStep ch)).
Proof.
  revert k. induction chs as [| c0 chs IH]; intros k Hk; [discriminate |].
  rewrite drumCell_cons. destruct k as [| k]; simpl in *.
  - inversion Hk. reflexivity.
  - apply IH. exact Hk.
Qed.

Lemma drumCell_bits chs dStep :
  all_chars (fun c => Ascii.eqb c "0" || Ascii.eqb c "1") (drumCell chs dStep)
  = true.
Proof.
  induction chs as [| ch chs IH]; [reflexivity |].
  rewrite drumCell_cons. simpl. rewrite IH.
  destruct (hit dStep ch); reflexivity.
Qed.

Lemma drumCell_lacks c chs dStep :
  c <> "0"%char -> c <> "1"%char -> lacks c (drumCell chs dStep).
Proof.
  intros H0 H1. eapply all_chars_lacks; [apply drumCell_bits |].
  apply Ascii.eqb_neq in H0, H1. simpl. rewrite H0, H1. reflexivity.
Qed.

Lemma hit_elem_of dStep ch :
  hit dStep ch = bool_decide (DrumSynth.ch_id ch ∈ dStep).
Proof.
  unfold hit. induction dStep as [| x dStep IH]; [reflexivity |].
  simpl. rewrite IH.
  destruct (Nat.eqb_spec (DrumSynth.ch_id ch) x) as [-> | Hne].
  - symmetry. apply bool_decide_eq_true. left.
  - simpl. apply bool_decide_ext. rewrite elem_of_cons. naive_solver.
Qed.

Lemma drumCells_length chs (blk : Block) : length (drumCells chs blk) = totalSteps.
Proof. unfold drumCells. rewrite length_map, length_seq. reflexivity. Qed.

Lemma lookup_concat_chunks {A} (f : Block -> list A) n (bs : list Block) b s :
  (forall blk, length (f blk) = n) -> s < n ->
  concat (map f bs) !! (b * n + s) = blk ← bs !! b; f blk !! s.
Proof.
  intros Hlen Hs. revert b. induction bs as [| blk bs IH]; intros b; simpl.
  - reflexivity.
  - destruct b as [| b]; simpl.
    + apply lookup_app_l. rewrite Hlen. exact Hs.
    + rewrite lookup_app_r by (rewrite Hlen; lia).
      rewrite Hlen. replace (n + b * n + s - n) with (b * n + s) by lia.
      apply IH.
Qed.

Lemma length_concat_chunks {A} (f : Block -> list A) n (bs : list Block) :
  (forall blk, length (f blk) = n) -> length (concat (map f bs)) = length bs * n.
Proof.
  intros Hlen. induction bs as [| blk bs IH]; simpl; [reflexivity |].
  rewrite length_app, Hlen, IH. reflexivity.
Qed.

Lemma Forall_drum_cells (P : string -> Prop) chs (bs : list Block) :
  (forall dStep, P (drumCell chs dStep)) ->
  Forall P (concat (map (drumCells chs) bs)).
Proof.
  intros HP. induction bs as [| blk bs IH]; [constructor |].
  rewrite map_cons, concat_cons. apply Forall_app. split; [| exact IH].
  unfold drumCells. induction (seq 0 totalSteps) as [| s l IHl];
    [constructor |].
  rewrite map_cons. constructor; auto.
Qed.

(** The text before the drum row ends with a line break. *)
Lemma rows_end_with_newline (bs : list Block) synths pre :
  exists L,
    fold_left (fun csv synth => (csv ++ bassRow bs synth ++ newline)%string)
              synths (pre ++ newline)%string
    = (L ++ newline)%string.
Proof.
  revert pre. induction synths as [| synth synths IH]; intros pre; simpl.
  - exists pre. reflexivity.
  - destruct (IH ((pre ++ newline) ++ bassRow bs synth)%string) as [L HL].
    exists L. rewrite <- HL. f_equal. rewrite !append_assoc. reflexivity.
Qed.

Lemma lacks_drumConfig_acc c chs acc :
  is_num_char c = false -> c <> "|"%char -> c <> "-"%char ->
  lacks c acc ->
  Forall (fun ch => lacks c (DrumSynth.type ch)) chs ->
  lacks c
    (fold_left
       (fun cfg ch =>
          (cfg ++ "|" ++ DrumSynth.type ch ++ "-"
               ++ num_to_string (DrumSynth.variant ch) ++ "-"
               ++ num_to_string (DrumSynth.volume ch) ++ "-"
               ++ num_to_string (exportColorId ch))%string)
       chs acc).
Proof.
  intros Hnum Hbar Hdash Hacc Hty. revert acc Hacc.
  induction Hty as [| ch chs Hch _ IH]; intros acc Hacc; simpl; [exact Hacc |].
  apply IH.
  repeat (apply lacks_append || apply lacks_cons || apply num_to_string_lacks);
    try assumption; try (apply not_eq_sym; assumption); reflexivity.
Qed.

Lemma lacks_drumConfig c (d : DrumSynth.t) :
  is_num_char c = false -> c <> "|"%char -> c <> "-"%char -> c <> ":"%char ->
  lacks c "drums" ->
  Forall (fun ch => lacks c (DrumSynth.type ch)) (DrumSynth.channels d) ->
  lacks c (drumConfig d).
Proof.
  intros Hnum Hbar Hdash Hcol Hd Hty. unfold drumConfig.
  apply lacks_drumConfig_acc; auto.
  change "drums:"%string with ("drums" ++ ":")%string.
  repeat first [ exact Hd | apply lacks_append | apply lacks_cons
               | apply num_to_string_lacks | apply Z_to_string_lacks ];
    try assumption; try (apply not_eq_sym; assumption); reflexivity.
Qed.

(** C9. The exported text ends with the drum row; its cells after the
    configuration field are one per block and step; each cell is a
    string whose length is the channel count, and its character at
    position k is 1 exactly when channel index k is in the drum-hit
    list of that step.  Variants and colour ids do not occur in the
    cells. *)
Theorem drum_cells_fixed_width (w : World) (e : Engine) (d : DrumSynth.t) :
  audioEngine w = Some e ->
  drumSynth w = Some d ->
  Forall (fun ch => lacks "," (DrumSynth.type ch) /\
                    lacks (ascii_of_nat 10) (DrumSynth.type ch))
         (DrumSynth.channels d) ->
  (forall k ch, DrumSynth.channels d !! k = Some ch -> DrumSynth.ch_id ch = k) ->
  exists lines config cells,
    split (ascii_of_nat 10) (exportToCSV w) = lines ++ [drumRow (blocks w) d] /\
    split "," (drumRow (blocks w) d) = config :: cells /\
    length cells = length (blocks w) * totalSteps /\
    Forall (fun cell => String.length cell = length (DrumSynth.channels d)) cells /\
    forall b s,
      b < length (blocks w) -> s < totalSteps ->
      exists cell,
        cells !! (b * totalSteps + s) = Some cell /\
        forall k,
          k < length (DrumSynth.channels d) ->
          String.get k cell
          = Some (if bool_decide (k ∈ drums_at (blocks w) b s)
                  then "1"%char else "0"%char).
Proof.
  intros He Hd Hty Hid.
  set (chs := DrumSynth.channels d).
  set (cells := concat (map (drumCells chs) (blocks w))).
  assert (Hcells : forall c, c <> "0"%char -> c <> "1"%char ->
                             Forall (lacks c) cells).
  { intros c H0 H1. apply Forall_drum_cells.
    intros dStep. apply drumCell_lacks; assumption. }
  assert (Hrow_nl : lacks (ascii_of_nat 10) (drumRow (blocks w) d)).
  { unfold drumRow. apply lacks_add_cells; [discriminate | |].
    - apply lacks_drumConfig; try reflexivity; try discriminate.
      eapply Forall_impl; [exact Hty |]. intros ch [_ Hc]. exact Hc.
    - apply Hcells; discriminate. }
  destruct (rows_end_with_newline (blocks w) (bassSynths e) (headerRow w e))
    as [L HL].
  exists (split (ascii_of_nat 10) L), (drumConfig d), cells.
  split; [| split; [| split; [| split]]].
  - unfold exportToCSV. rewrite He, Hd, HL.
    unfold newline. rewrite append_assoc.
    change (String (ascii_of_nat 10) "" ++ drumRow (blocks w) d)%string
      with (String (ascii_of_nat 10) (drumRow (blocks w) d)).
    rewrite split_append, (split_lacks _ _ Hrow_nl). reflexivity.
  - unfold drumRow. apply split_add_cells.
    + apply lacks_drumConfig; try reflexivity; try discriminate.
      eapply Forall_impl; [exact Hty |]. intros ch [Hc _]. exact Hc.
    + apply Hcells; discriminate.
  - unfold cells. apply length_concat_chunks. apply drumCells_length.
  - apply Forall_drum_cells. intros dStep. apply drumCell_length.
  - intros b s Hb Hs.
    destruct (lookup_lt_is_Some_2 (blocks w) b Hb) as [blk Hblk].
    exists (drumCell chs (default [] (drums blk !! s))). split.
    + unfold cells.
      rewrite (lookup_concat_chunks (drumCells chs) totalSteps)
        by (auto using drumCells_length).
      rewrite Hblk. simpl. unfold drumCells.
      rewrite list_lookup_fmap, lookup_seq_lt by exact Hs. reflexivity.
    + intros k Hk.
      destruct (lookup_lt_is_Some_2 chs k Hk) as [ch Hch].
      rewrite (drumCell_get _ _ _ _ Hch), hit_elem_of, (Hid _ _ Hch).
      unfold drums_at. rewrite Hblk.
      destruct (bool_decide _); reflexivity.
Qed.

End DrumRow.

(** The running application with its nine channels. *)
Lemma drum_cells_fixed_width_witness :
  exists lines config cells,
    split (ascii_of_nat 10) (App.exportToCSV Demo.world)
    = lines ++ [App.drumRow (App.blocks Demo.world)
                            (DrumSynth.init DrumSynth.initial)] /\
    split "," (App.drumRow (App.blocks Demo.world)
                           (DrumSynth.init DrumSynth.initial))
    = config :: cells /\
    length cells = (length (App.blocks Demo.world) * totalSteps)%nat /\
    Forall (fun cell => String.length cell = 9%nat) cells /\
    forall b s,
      (b < length (App.blocks Demo.world))%nat -> (s < totalSteps)%nat ->
      exists cell,
        cells !! (b * totalSteps + s)%nat = Some cell /\
        forall k,
          (k < 9)%nat ->
          String.get k cell
          = Some (if bool_decide (k ∈ drums_at (App.blocks Demo.world) b s)
                  then "1"%char else "0"%char).
Proof.
  apply (drum_cells_fixed_width Demo.world Demo.engine
           (DrumSynth.init DrumSynth.initial)).
  - reflexivity.
  - reflexivity.
  - repeat constructor.
  - intros k ch Hk.
    do 9 (destruct k as [| k]; [injection Hk as <-; reflexivity |]).
    discriminate Hk.
Defined.

(** ** CSV import: what happens to single cells and to failed imports *)

Section ImportCells.

Context `{FloatOps}.
Import App.

(** A cell whose sub-field count is not 4 leaves the blocks as they are. *)
Lemma importBassCell_wrong_arity id cells bs stepGlobal noteData :
  cells !! S stepGlobal = Some noteData ->
  length (split "-" noteData) <> 4%nat ->
  importBassCell id cells bs stepGlobal = bs.
Proof.
  intros Hc Hn. unfold importBassCell. rewrite Hc.
  destruct (is_empty noteData || String.eqb noteData "0"); [reflexivity |].
  apply Nat.eqb_neq in Hn. rewrite Hn. reflexivity.
Qed.

(** A cell whose pitch index is outside the table leaves the blocks as
    they are. *)
Lemma importBassCell_unknown_pitch id cells bs stepGlobal noteData :
  cells !! S stepGlobal = Some noteData ->
  noteMapRev_at (parseInt_opt (split "-" noteData !! 0%nat)) = None ->
  importBassCell id cells bs stepGlobal = bs.
Proof.
  intros Hc Hn. unfold importBassCell. rewrite Hc, Hn.
  destruct (is_empty noteData || String.eqb noteData "0"); [reflexivity |].
  destruct (length (split "-" noteData) =? 4)%nat; [| reflexivity].
  destruct (bs !! _); reflexivity.
Qed.

(** The table entry at index 0 is the text "-", which is truthy: the
    guard on [noteChar] does not exclude it. *)
Lemma noteMapRev_at_zero : noteMapRev_at (Num 0) = Some "-"%string.
Proof. reflexivity. Qed.

End ImportCells.

(** C7 (code defect).  The cell 0-3-0-0 has four sub-fields and
    pitch-class index 0.  The import succeeds, but the cell is not
    skipped: a note whose pitch is the reserved entry "-" is recorded at
    block 0, track bass-1, step 0. *)
Theorem reserved_pitch_cell_is_recorded :
  fst (App.importFromCSV Demo.csv_reserved_pitch Demo.world) = true /\
  note_at (App.blocks (snd (App.importFromCSV Demo.csv_reserved_pitch Demo.world)))
          0 "bass-1" 0
  = Some {| note := "-"; octave := Num 3; slide := false; accent := false |}.
Proof. split; vm_compute; reflexivity. Qed.

(** C2 (code defect).  The header of the text is valid, so the tempo is
    overwritten and the blocks are rebuilt; the drum line then has no
    master volume, setMasterVolume receives NaN and the audio parameter
    automation raises.  The exception is caught, the import reports
    failure, and the session is left with the new tempo and an empty
    pattern. *)
Theorem failed_import_mutates_session :
  fst (App.importFromCSV Demo.csv_bare_drums Demo.world) = false /\
  App.bpm Demo.world = 174 /\
  App.bpm (snd (App.importFromCSV Demo.csv_bare_drums Demo.world)) = 120 /\
  note_at (App.blocks Demo.world) 0 "bass-1" 2 = Some Demo.C3 /\
  note_at (App.blocks (snd (App.importFromCSV Demo.csv_bare_drums Demo.world)))
          0 "bass-1" 2 = None.
Proof. repeat split; vm_compute; reflexivity. Qed.


(** ** The exported text, line by line *)

Section ExportShape.

Context `{FloatOps}.
Import App Wf.

Implicit Types (bs : list Block) (w : World) (e : Engine) (d : DrumSynth.t).

Lemma is_digit_not_ws c : is_digit c = true -> is_ws c = false.
Proof.
  destruct c as [[] [] [] [] [] [] [] []]; intros Hd; try discriminate Hd;
    reflexivity.
Qed.

Lemma is_ws_not_num_char c : is_ws c = true -> is_num_char c = false.
Proof.
  destruct c as [[] [] [] [] [] [] [] []]; intros Hd; try discriminate Hd;
    reflexivity.
Qed.

Lemma is_ws_not_lower c : is_ws c = true -> is_lower c = false.
Proof.
  destruct c as [[] [] [] [] [] [] [] []]; intros Hd; try discriminate Hd;
    reflexivity.
Qed.

Lemma trimEnd_clean r :
  (forall c, is_ws c = true -> lacks c r) -> trimEnd r = r.
Proof.
  induction r as [| c r IH]; intros Hr; [reflexivity |].
  simpl. rewrite IH.
  - destruct (is_ws c) eqn:Ec; [| reflexivity].
    specialize (Hr c Ec). unfold lacks in Hr. simpl in Hr.
    rewrite Ascii.eqb_refl in Hr. discriminate Hr.
  - intros c' Hc'. exact (proj2 (lacks_cons_inv _ _ _ (Hr c' Hc'))).
Qed.

Lemma trimEnd_append a r :
  (forall c, is_ws c = true -> lacks c r) -> r <> ""%string ->
  trimEnd (a ++ r)%string = (a ++ r)%string.
Proof.
  intros Hr Hne. induction a as [| c a IH].
  - rewrite append_nil_l. apply trimEnd_clean. exact Hr.
  - rewrite append_cons. simpl. rewrite IH.
    destruct (a ++ r)%string eqn:E.
    + destruct a; [rewrite append_nil_l in E; congruence | discriminate E].
    + simpl. rewrite andb_false_r. reflexivity.
Qed.

Lemma Z_to_string_first_digit z :
  0 <= z -> exists c r, Z_to_string z = String c r /\ is_digit c = true.
Proof.
  intros Hz. pose proof (Z_to_string_nonneg_digits z Hz) as Hd.
  unfold Z_to_string in *. destruct z as [| p | p]; [| | lia].
  - exists "0"%char, ""%string. split; reflexivity.
  - simpl in *. rewrite nilzero_pos in *.
    pose proof (DecimalPos.Unsigned.to_uint_nonnil p) as Hnil.
    destruct (NilEmpty.string_of_uint (Pos.to_uint p)) as [| c r] eqn:E.
    + destruct (Pos.to_uint p); try congruence; discriminate E.
    + simpl in Hd. apply andb_prop in Hd as [Hc _]. eauto.
Qed.

(** The lines of the text built by the row loop. *)
Lemma split_rows bs synths acc last :
  Forall (fun synth => lacks (ascii_of_nat 10) (bassRow bs synth)) synths ->
  lacks (ascii_of_nat 10) last ->
  split (ascii_of_nat 10)
        (fold_left (fun csv synth => (csv ++ bassRow bs synth ++ newline)%string)
                   synths (acc ++ newline)%string ++ last)%string
  = split (ascii_of_nat 10) acc ++ map (bassRow bs) synths ++ [last].
Proof.
  intros Hrows Hlast. revert acc.
  induction Hrows as [| synth synths Hrow _ IH]; intros acc; simpl.
  - unfold newline. rewrite append_assoc.
    change (String (ascii_of_nat 10) "" ++ last)%string
      with (String (ascii_of_nat 10) last).
    rewrite split_append, (split_lacks _ _ Hlast). reflexivity.
  - replace ((acc ++ newline) ++ bassRow bs synth ++ newline)%string
      with ((acc ++ newline ++ bassRow bs synth) ++ newline)%string
      by (rewrite !append_assoc; reflexivity).
    rewrite IH. unfold newline.
    change (String (ascii_of_nat 10) "" ++ bassRow bs synth)%string
      with (String (ascii_of_nat 10) (bassRow bs synth)).
    rewrite split_append, (split_lacks _ _ Hrow), <- app_assoc. reflexivity.
Qed.

Lemma bit_lacks c b : c <> "0"%char -> c <> "1"%char -> lacks c (bit b).
Proof.
  intros H0 H1. destruct b; apply lacks_cons; try reflexivity; congruence.
Qed.

Lemma num_char_digits c : is_num_char c = false -> c <> "0"%char /\ c <> "1"%char /\ c <> "-"%char.
Proof.
  intros Hc. repeat split; intros ->; discriminate Hc.
Qed.

Lemma bassCell_lacks c o : is_num_char c = false -> lacks c (bassCell o).
Proof.
  intros Hc. destruct (num_char_digits c Hc) as (H0 & H1 & Hm).
  destruct o as [n |]; simpl.
  - repeat first [ apply lacks_append | apply Z_to_string_lacks
                 | apply num_to_string_lacks | apply bit_lacks
                 | apply lacks_cons ];
      try assumption; try (apply not_eq_sym; assumption); reflexivity.
  - apply lacks_cons; [apply not_eq_sym; assumption | reflexivity].
Qed.

Lemma bassCells_lacks c bs id :
  is_num_char c = false ->
  Forall (lacks c) (concat (map (bassCells id) bs)).
Proof.
  intros Hc. induction bs as [| blk bs IH]; [constructor |].
  rewrite map_cons, concat_cons. apply Forall_app. split; [| exact IH].
  unfold bassCells. induction (seq 0 totalSteps) as [| s l IHl]; [constructor |].
  rewrite map_cons. constructor; [apply bassCell_lacks; exact Hc | exact IHl].
Qed.

Lemma configStr_lacks c synth :
  c <> ":"%char -> c <> "-"%char -> c <> "0"%char -> c <> "1"%char ->
  lacks c (BassSynth.sid synth) ->
  Forall (lacks c) (params_texts (BassSynth.params synth)) ->
  lacks c (configStr synth).
Proof.
  intros Hcol Hm H0 H1 Hid Hp. unfold configStr, params_texts in *.
  repeat match goal with
         | Hf : Forall _ (_ :: _) |- _ => apply Forall_cons in Hf as [? Hf]
         end.
  repeat first [ assumption | apply lacks_append | apply lacks_cons ];
    try (apply not_eq_sym; assumption); try reflexivity.
  destruct (String.eqb _ _); apply lacks_cons;
    try (apply not_eq_sym; assumption); reflexivity.
Qed.

Lemma bassRow_lacks c bs synth :
  is_num_char c = false -> c <> ":"%char -> c <> ","%char ->
  lacks c (BassSynth.sid synth) ->
  Forall (lacks c) (params_texts (BassSynth.params synth)) ->
  lacks c (bassRow bs synth).
Proof.
  intros Hc Hcol Hcomma Hid Hp.
  destruct (num_char_digits c Hc) as (H0 & H1 & Hm).
  unfold bassRow. apply lacks_add_cells; [exact Hcomma | |].
  - apply configStr_lacks; assumption.
  - apply bassCells_lacks. exact Hc.
Qed.

Lemma headerRow_lacks c w e :
  is_num_char c = false -> c <> ","%char -> lacks c (headerRow w e).
Proof.
  intros Hc Hcomma. destruct (num_char_digits c Hc) as (H0 & H1 & Hm).
  unfold headerRow. apply lacks_add_cells; [exact Hcomma | |].
  - repeat first [ apply lacks_append | apply Z_to_string_lacks | apply lacks_cons ];
      try assumption; try (apply not_eq_sym; assumption); reflexivity.
  - induction (seq 1 (length (blocks w) * totalSteps)) as [| i l IH];
      [constructor |].
    rewrite map_cons. constructor; [apply Z_to_string_lacks; exact Hc | exact IH].
Qed.

End ExportShape.

(** ** Observing the grid through its slots *)

Section Grid.

Local Open Scope nat_scope.
Implicit Types (bs cur : list Block) (blk : Block) (k id : string) (b s : nat).

Lemma note_at_entry bs b k s : note_at bs b k s = mjoin (entry bs b k s).
Proof.
  unfold note_at, entry. destruct (bs !! b) as [blk |]; [| reflexivity].
  simpl. destruct (tracks blk !! k) as [arr |]; reflexivity.
Qed.

Lemma drums_at_entry bs b s : drums_at bs b s = default [] (drum_entry bs b s).
Proof.
  unfold drums_at, drum_entry. destruct (bs !! b); reflexivity.
Qed.

Lemma entry_lt cur b k s o :
  full_grid cur -> entry cur b k s = Some o -> b < length cur /\ s < totalSteps.
Proof.
  unfold entry. intros Hf He.
  destruct (cur !! b) as [blk |] eqn:Eb; [| discriminate].
  simpl in He. destruct (tracks blk !! k) as [arr |] eqn:Ek; [| discriminate].
  simpl in He. split.
  - eapply lookup_lt_Some; eauto.
  - destruct (Hf _ _ Eb) as [_ Hl]. rewrite <- (Hl _ _ Ek).
    eapply lookup_lt_Some; eauto.
Qed.

Lemma setNote_entry cur b blk id s n :
  full_grid cur -> cur !! b = Some blk -> s < totalSteps ->
  let cur' := <[b := App.setNote id s n blk]> cur in
  full_grid cur' /\ length cur' = length cur /\
  (forall b' s', drum_entry cur' b' s' = drum_entry cur b' s') /\
  (forall b' k' s',
      entry cur' b' k' s'
      = if decide (b' = b /\ k' = id /\ s' = s)
        then (match entry cur b id s with Some _ => Some (Some n) | None => None end)
        else entry cur b' k' s').
Proof.
  intros Hf Hb Hs cur'.
  assert (Hlt : b < length cur) by (eapply lookup_lt_Some; eauto).
  assert (Hset : forall arr, length arr = totalSteps ->
                   array_set None arr s (Some n) = <[s := Some n]> arr).
  { intros arr Hl. unfold array_set.
    destruct (Nat.ltb_spec s (length arr)); [reflexivity | lia]. }
  split; [| split; [| split]].
  - intros b' blk' Hb'. unfold cur' in Hb'.
    destruct (decide (b = b')) as [<- | Hne].
    + rewrite list_lookup_insert_eq in Hb' by exact Hlt. inversion Hb'; subst.
      destruct (Hf _ _ Hb) as [Hd Ht]. split; [exact Hd |].
      intros k arr. simpl. intros Hk.
      apply lookup_alter_Some in Hk as [(-> & arr0 & Hk0 & ->) | [_ Hk]];
        [| eauto].
      rewrite (Hset _ (Ht _ _ Hk0)), length_insert. eauto.
    + rewrite list_lookup_insert_ne in Hb' by exact Hne. eauto.
  - apply length_insert.
  - intros b' s'. unfold drum_entry, cur'.
    destruct (decide (b = b')) as [<- | Hne].
    + rewrite list_lookup_insert_eq by exact Hlt. rewrite Hb. reflexivity.
    + rewrite list_lookup_insert_ne by exact Hne. reflexivity.
  - intros b' k' s'. unfold entry, cur'.
    destruct (decide (b = b')) as [<- | Hne].
    + rewrite list_lookup_insert_eq by exact Hlt. rewrite Hb. simpl.
      destruct (decide (k' = id)) as [-> | Hk].
      * rewrite lookup_alter_eq.
        destruct (tracks blk !! id) as [arr |] eqn:Ek; simpl.
        -- destruct (Hf _ _ Hb) as [_ Ht]. rewrite (Hset _ (Ht _ _ Ek)).
           destruct (decide (s' = s)) as [-> | Hs'].
           ++ rewrite list_lookup_insert_eq by (rewrite (Ht _ _ Ek); exact Hs).
              rewrite decide_True by done.
              destruct (arr !! s) eqn:Es; [reflexivity |].
              apply lookup_ge_None in Es. rewrite (Ht _ _ Ek) in Es. lia.
           ++ rewrite list_lookup_insert_ne by congruence.
              rewrite decide_False by naive_solver. reflexivity.
        -- destruct (decide _); reflexivity.
      * rewrite lookup_alter_ne by congruence.
        rewrite decide_False by naive_solver. reflexivity.
    + rewrite list_lookup_insert_ne by exact Hne.
      rewrite decide_False by naive_solver. reflexivity.
Qed.

End Grid.

(** ** Reading back one bass cell *)

Section BassCell.

Context `{FloatOps}.
Import App Wf.
Local Open Scope nat_scope.

Lemma split_four (a b c d : string) :
  lacks "-" a -> lacks "-" b -> lacks "-" c -> lacks "-" d ->
  split "-" (a ++ "-" ++ b ++ "-" ++ c ++ "-" ++ d)%string = [a; b; c; d].
Proof.
  intros Ha Hb Hc Hd.
  change ("-" ++ b ++ "-" ++ c ++ "-" ++ d)%string
    with (String "-" (b ++ String "-" (c ++ String "-" d)))%string.
  rewrite !split_append, (split_lacks _ _ Ha), (split_lacks _ _ Hb),
    (split_lacks _ _ Hc), (split_lacks _ _ Hd).
  reflexivity.
Qed.

Lemma valid_pitch_table p :
  valid_pitch p ->
  lacks "-" (Z_to_string (noteMap p)) /\
  noteMapRev_at (parseInt (Z_to_string (noteMap p))) = Some p /\
  is_empty p = false.
Proof.
  unfold valid_pitch. simpl.
  intros Hp.
  repeat (destruct Hp as [<- | Hp]; [repeat split; reflexivity |]).
  destruct Hp.
Qed.

Lemma bit_eqb_1 b : String.eqb (bit b) "1" = b.
Proof. destruct b; reflexivity. Qed.

Lemma bassCell_some_shape n :
  is_empty (bassCell (Some n)) = false /\
  String.eqb (bassCell (Some n)) "0" = false.
Proof.
  assert (Hi : includes "-" (bassCell (Some n)) = true).
  { simpl. rewrite includes_append. simpl. apply orb_true_r. }
  destruct (bassCell (Some n)) as [| c r] eqn:E; [discriminate Hi |].
  split; [reflexivity |].
  apply String.eqb_neq. intros Heq. rewrite Heq in Hi. discriminate Hi.
Qed.

(** What the body of the bass cell loop does with an exported cell. *)
Lemma importBassCell_exported id cells cur stepGlobal o :
  cells !! S stepGlobal = Some (bassCell o) ->
  (forall n, o = Some n -> valid_note n) ->
  importBassCell id cells cur stepGlobal
  = match o, cur !! (stepGlobal / totalSteps) with
    | Some n, Some blk =>
        <[stepGlobal / totalSteps := setNote id (stepGlobal mod totalSteps) n blk]> cur
    | _, _ => cur
    end.
Proof.
  intros Hc Hv. unfold importBassCell. rewrite Hc.
  destruct o as [n |]; [| reflexivity].
  destruct (bassCell_some_shape n) as [-> ->]. simpl orb. cbv iota.
  destruct (Hv n eq_refl) as [Hp (z & Hz & Hz0)].
  destruct (valid_pitch_table _ Hp) as (Hk & Hrev & Hne).
  assert (Hsplit : split "-" (bassCell (Some n))
                   = [Z_to_string (noteMap (note n)); num_to_string (octave n);
                      bit (slide n); bit (accent n)]).
  { unfold bassCell. apply split_four.
    - exact Hk.
    - rewrite Hz. simpl. apply Z_to_string_nonneg_lacks; [lia | reflexivity].
    - apply bit_lacks; discriminate.
    - apply bit_lacks; discriminate. }
  rewrite Hsplit. simpl length. simpl Nat.eqb. cbv iota.
  change ([Z_to_string (noteMap (note n)); num_to_string (octave n);
           bit (slide n); bit (accent n)] !! 0)
    with (Some (Z_to_string (noteMap (note n)))).
  change ([Z_to_string (noteMap (note n)); num_to_string (octave n);
           bit (slide n); bit (accent n)] !! 1)
    with (Some (num_to_string (octave n))).
  unfold parseInt_opt. rewrite Hrev.
  destruct (cur !! (stepGlobal / totalSteps)) as [blk |]; [| reflexivity].
  rewrite Hne. simpl nth.
  rewrite parseInt_num_to_string, !bit_eqb_1.
  destruct n; reflexivity.
Qed.

End BassCell.

(** ** Importing one exported bass row *)

Section BassRowImport.

Context `{FloatOps}.
Import App Wf.
Local Open Scope nat_scope.

Implicit Types (bs cur start : list Block) (blk : Block) (k id : string) (b s : nat).

Lemma registerTrack_length id cur : length (registerTrack id cur) = length cur.
Proof. unfold registerTrack. apply length_map. Qed.

Lemma registerTrack_lookup id cur b :
  registerTrack id cur !! b
  = (fun blk => if track_truthy id blk then blk
                else {| tracks := <[id := emptyTrack]> (tracks blk);
                        drums := drums blk |}) <$> cur !! b.
Proof. unfold registerTrack. apply list_lookup_fmap. Qed.

Lemma registerTrack_full_grid id cur :
  full_grid cur -> full_grid (registerTrack id cur).
Proof.
  intros Hf b blk'. rewrite registerTrack_lookup.
  destruct (cur !! b) as [blk |] eqn:Eb; [| discriminate].
  simpl. intros Heq. inversion Heq; subst blk'. clear Heq.
  destruct (Hf _ _ Eb) as [Hd Ht].
  destruct (track_truthy id blk); [split; assumption |].
  simpl. split; [exact Hd |]. intros k arr Hk.
  destruct (decide (id = k)) as [-> | Hne].
  - rewrite lookup_insert_eq in Hk. inversion Hk. apply length_replicate.
  - rewrite lookup_insert_ne in Hk by exact Hne. eauto.
Qed.

Lemma registerTrack_drum_entry id cur b s :
  drum_entry (registerTrack id cur) b s = drum_entry cur b s.
Proof.
  unfold drum_entry. rewrite registerTrack_lookup.
  destruct (cur !! b) as [blk |]; [| reflexivity]. simpl.
  destruct (track_truthy id blk); reflexivity.
Qed.

Lemma registerTrack_entry_old id cur b k s o :
  entry cur b k s = Some o -> entry (registerTrack id cur) b k s = Some o.
Proof.
  unfold entry. rewrite registerTrack_lookup.
  destruct (cur !! b) as [blk |]; [| discriminate]. simpl.
  destruct (tracks blk !! k) as [arr |] eqn:Ek; [| discriminate]. simpl.
  intros Hs. unfold track_truthy.
  destruct (decide (id = k)) as [-> | Hne].
  - rewrite Ek. rewrite Ek. simpl. exact Hs.
  - destruct (tracks blk !! id); [rewrite Ek; exact Hs |].
    destruct (proto_member id); simpl; [rewrite Ek; exact Hs |].
    rewrite lookup_insert_ne by exact Hne. rewrite Ek. exact Hs.
Qed.

Lemma registerTrack_entry_new id cur b k s o :
  entry (registerTrack id cur) b k s = Some o ->
  entry cur b k s = Some o \/ o = None.
Proof.
  unfold entry. rewrite registerTrack_lookup.
  destruct (cur !! b) as [blk |]; [| discriminate]. simpl.
  destruct (track_truthy id blk); [auto |]. simpl.
  destruct (decide (id = k)) as [-> | Hne].
  - rewrite lookup_insert_eq. simpl. intros Hs. right.
    apply lookup_replicate in Hs as [-> _]. reflexivity.
  - rewrite lookup_insert_ne by exact Hne. auto.
Qed.

Lemma registerTrack_entry_some id cur b s :
  full_grid cur -> proto_member id = false ->
  b < length cur -> s < totalSteps ->
  is_Some (entry (registerTrack id cur) b id s).
Proof.
  intros Hf Hp Hb Hs. unfold entry. rewrite registerTrack_lookup.
  destruct (lookup_lt_is_Some_2 cur b Hb) as [blk Eb]. rewrite Eb. simpl.
  unfold track_truthy. rewrite Hp.
  destruct (tracks blk !! id) as [arr |] eqn:Ek.
  - rewrite Ek. simpl. apply lookup_lt_is_Some.
    destruct (Hf _ _ Eb) as [_ Ht]. rewrite (Ht _ _ Ek). exact Hs.
  - simpl. rewrite lookup_insert_eq. simpl. apply lookup_lt_is_Some.
    unfold emptyTrack. rewrite length_replicate. exact Hs.
Qed.

(** The cell of global step [sg] in an exported bass row. *)
Lemma exported_bass_cell id bs config sg :
  sg < length bs * totalSteps ->
  (config :: concat (map (bassCells id) bs)) !! S sg
  = Some (bassCell (note_at bs (sg / totalSteps) id (sg mod totalSteps))).
Proof.
  intros Hsg. change ((config :: ?l) !! S sg) with (l !! sg).
  assert (Ht : totalSteps <> 0) by discriminate.
  pose proof (Nat.div_mod_eq sg totalSteps) as Hdm.
  pose proof (Nat.mod_upper_bound sg totalSteps Ht) as Hm.
  assert (Hb : sg / totalSteps < length bs).
  { apply Nat.Div0.div_lt_upper_bound. lia. }
  replace (concat (map (bassCells id) bs) !! sg)
    with (concat (map (bassCells id) bs)
            !! (sg / totalSteps * totalSteps + sg mod totalSteps)) by (f_equal; lia).
  rewrite (lookup_concat_chunks (bassCells id) totalSteps).
  - destruct (lookup_lt_is_Some_2 bs _ Hb) as [blk Eb].
    unfold note_at. rewrite Eb. cbn [mbind option_bind]. unfold bassCells.
    rewrite list_lookup_fmap, lookup_seq_lt by exact Hm. reflexivity.
  - intros blk. unfold bassCells. rewrite length_map, length_seq. reflexivity.
  - exact Hm.
Qed.

Lemma bass_cells_fold bs id cells start m :
  (forall sg, sg < length bs * totalSteps ->
     cells !! S sg
     = Some (bassCell (note_at bs (sg / totalSteps) id (sg mod totalSteps)))) ->
  (forall b k s n, note_at bs b k s = Some n -> valid_note n) ->
  full_grid start -> length start = length bs ->
  m <= length bs * totalSteps ->
  let cur := fold_left (importBassCell id cells) (seq 0 m) start in
  full_grid cur /\ length cur = length bs /\
  (forall b s, drum_entry cur b s = drum_entry start b s) /\
  (forall b k s, k <> id -> entry cur b k s = entry start b k s) /\
  (forall b s, entry cur b id s = after_cells bs id start m b s).
Proof.
  intros Hcells Hvalid Hfull Hlen.
  assert (Ht : totalSteps <> 0) by discriminate.
  induction m as [| m IH]; intros Hm cur.
  - subst cur. simpl.
    split; [exact Hfull |]. split; [exact Hlen |].
    split; [reflexivity |]. split; [reflexivity |].
    intros b s. unfold after_cells.
    destruct (note_at bs b id s); [| reflexivity].
    rewrite decide_False by lia. reflexivity.
  - destruct IH as (IHf & IHl & IHd & IHk & IHe); [lia |].
    subst cur. rewrite seq_S, fold_left_app. simpl.
    set (cur := fold_left (importBassCell id cells) (seq 0 m) start) in *.
    rewrite (importBassCell_exported id cells cur m _ (Hcells m Hm))
      by (intros n Hn; eapply Hvalid; exact Hn).
    pose proof (Nat.div_mod_eq m totalSteps) as Hdm.
    pose proof (Nat.mod_upper_bound m totalSteps Ht) as Hmod.
    assert (Hb : m / totalSteps < length bs).
    { apply Nat.Div0.div_lt_upper_bound. lia. }
    assert (Hstep : forall b s,
               s < totalSteps ->
               (b * totalSteps + s < S m <->
                b * totalSteps + s < m \/
                (b = m / totalSteps /\ s = m mod totalSteps))).
    { intros b s Hs. split.
      - intros Hlt. destruct (Nat.eq_dec (b * totalSteps + s) m) as [Heq | Hne];
          [right | left; lia].
        assert (b = m / totalSteps).
        { apply (Nat.div_unique m totalSteps b s); lia. }
        split; [assumption |]. subst b. lia.
      - intros [Hlt | [-> ->]]; lia. }
    destruct (note_at bs (m / totalSteps) id (m mod totalSteps)) as [n |] eqn:En.
    + destruct (lookup_lt_is_Some_2 cur (m / totalSteps)) as [blk Eb];
        [rewrite IHl; exact Hb |].
      rewrite Eb.
      destruct (setNote_entry cur _ blk id (m mod totalSteps) n IHf Eb Hmod)
        as (Sf & Sl & Sd & Se).
      split; [exact Sf |]. split; [rewrite Sl; exact IHl |].
      split; [intros b s; rewrite Sd; apply IHd |].
      split.
      * intros b k s Hk. rewrite Se, decide_False by naive_solver. apply IHk, Hk.
      * intros b s. rewrite Se. unfold after_cells.
        destruct (decide (b = m / totalSteps /\ id = id /\ s = m mod totalSteps))
          as [(-> & _ & ->) | Hne].
        -- rewrite En, IHe. unfold after_cells. rewrite En.
           rewrite decide_False by lia. rewrite decide_True by lia.
           reflexivity.
        -- rewrite IHe. unfold after_cells.
           destruct (note_at bs b id s); [| reflexivity].
           destruct (decide (b * totalSteps + s < m /\ s < totalSteps))
             as [[Hlt Hs] | Hnlt].
           ++ rewrite decide_True by lia. reflexivity.
           ++ rewrite decide_False; [reflexivity |].
              intros [Hlt Hs]. apply Hstep in Hlt as [Hlt | [-> ->]];
                [| | exact Hs]; naive_solver.
    + split; [exact IHf |]. split; [exact IHl |]. split; [exact IHd |].
      split; [exact IHk |].
      intros b s. rewrite IHe. unfold after_cells.
      destruct (note_at bs b id s) as [n |] eqn:En'; [| reflexivity].
      destruct (decide (b * totalSteps + s < m /\ s < totalSteps))
        as [[Hlt Hs] | Hnlt].
      * rewrite decide_True by lia. reflexivity.
      * rewrite decide_False; [reflexivity |].
        intros [Hlt Hs]. apply Hstep in Hlt as [Hlt | [-> ->]];
          [| | exact Hs]; [naive_solver | congruence].
Qed.

End BassRowImport.

Section BassRowsImport.

Context `{FloatOps}.
Import App Wf.
Local Open Scope nat_scope.

Implicit Types (bs cur start : list Block) (blk : Block) (k id : string) (b s : nat).

Lemma registerTrack_idem id cur :
  registerTrack id (registerTrack id cur) = registerTrack id cur.
Proof.
  unfold registerTrack. rewrite map_map. apply map_ext. intros blk.
  destruct (track_truthy id blk) eqn:E; [rewrite E; reflexivity |].
  unfold track_truthy at 1. simpl. rewrite lookup_insert_eq. reflexivity.
Qed.

Lemma registerTrack_imported bs ids id cur :
  imported_grid bs ids cur -> imported_grid bs ids (registerTrack id cur).
Proof.
  intros (Hf & Hl & Hd & Ho & Hi).
  split; [apply registerTrack_full_grid; exact Hf |].
  split; [rewrite registerTrack_length; exact Hl |].
  split; [intros b s Hb Hs; rewrite registerTrack_drum_entry; auto |].
  split.
  - intros b k s o He. apply registerTrack_entry_new in He as [He | ->]; eauto.
  - intros b k s Hb Hk Hs. apply registerTrack_entry_old. auto.
Qed.

Lemma bass_row_imported bs ids id cells cur :
  (forall b k s n, note_at bs b k s = Some n -> valid_note n) ->
  (forall sg, sg < length bs * totalSteps ->
     cells !! S sg
     = Some (bassCell (note_at bs (sg / totalSteps) id (sg mod totalSteps)))) ->
  proto_member id = false ->
  imported_grid bs ids cur ->
  imported_grid bs (id :: ids)
    (fold_left (importBassCell id cells) (seq 0 (length bs * totalSteps))
               (registerTrack id cur)).
Proof.
  intros Hvalid Hcells Hproto Hcur.
  assert (Hsome : forall b s, b < length bs -> s < totalSteps ->
                    is_Some (entry (registerTrack id cur) b id s)).
  { intros b s Hb Hs. destruct Hcur as (Hf & Hl & _).
    apply registerTrack_entry_some; try assumption. rewrite Hl. exact Hb. }
  apply (registerTrack_imported bs ids id) in Hcur.
  destruct Hcur as (Hf & Hl & Hd & Ho & Hi).
  destruct (bass_cells_fold bs id cells (registerTrack id cur)
              (length bs * totalSteps) Hcells Hvalid Hf Hl (Nat.le_refl _))
    as (Ff & Fl & Fd & Fk & Fe).
  split; [exact Ff |]. split; [exact Fl |].
  split; [intros b s Hb Hs; rewrite Fd; auto |].
  assert (Hin : forall b s, b < length bs -> s < totalSteps ->
                  b * totalSteps + s < length bs * totalSteps).
  { intros b s Hb Hs. unfold totalSteps in *. nia. }
  split.
  - intros b k s o He. destruct (decide (k = id)) as [-> | Hne].
    + rewrite Fe in He. unfold after_cells in He.
      destruct (note_at bs b id s) as [n |] eqn:En.
      * destruct (decide _).
        -- destruct (entry (registerTrack id cur) b id s); inversion He. auto.
        -- apply Ho in He. rewrite En in He. exact He.
      * apply Ho in He. rewrite En in He. exact He.
    + rewrite Fk in He by exact Hne. eauto.
  - intros b k s Hb Hk Hs. destruct (decide (k = id)) as [-> | Hne].
    + rewrite Fe. unfold after_cells.
      destruct (Hsome b s Hb Hs) as [o Eo].
      destruct (note_at bs b id s) as [n |] eqn:En.
      * rewrite decide_True by (split; auto). rewrite Eo. reflexivity.
      * rewrite Eo. f_equal. apply Ho in Eo as [-> | ->]; [reflexivity |].
        exact En.
    + rewrite Fk by exact Hne. apply Hi; auto.
      destruct Hk as [-> | Hk]; [congruence | exact Hk].
Qed.

Lemma startsWith_before_colon p id rest :
  lacks ":" p -> startsWith p id = false ->
  startsWith p (id ++ String ":" rest)%string = false.
Proof.
  revert id. induction p as [| a p IH]; intros id Hp Hs; [discriminate Hs |].
  apply lacks_cons_inv in Hp as [Ha Hp].
  destruct id as [| c id].
  - rewrite append_nil_l. simpl. apply Ascii.eqb_neq in Ha. rewrite Ha.
    reflexivity.
  - rewrite append_cons. simpl in *.
    destruct (Ascii.eqb a c); [apply IH; assumption | reflexivity].
Qed.

Lemma fx_forward_ok call v (syn : BassSynth.t) :
  fx_rejects call v = false -> BassSynth.fx_forward call v syn = Ok syn.
Proof.
  intros Hr. unfold BassSynth.fx_forward. rewrite Hr, andb_false_r. reflexivity.
Qed.

Lemma plain_setters_ok v (syn : BassSynth.t) :
  (exists syn', BassSynth.setVolume v syn = Ok syn') /\
  (exists syn', BassSynth.setCutoff v syn = Ok syn') /\
  (exists syn', BassSynth.setResonance v syn = Ok syn') /\
  (exists syn', BassSynth.setEnvMod v syn = Ok syn') /\
  (exists syn', BassSynth.setDecay v syn = Ok syn') /\
  (exists syn', BassSynth.setAccentInt v syn = Ok syn').
Proof. repeat split; eexists; reflexivity. Qed.

Lemma fx_setters_ok v (syn : BassSynth.t) :
  (forall call, fx_rejects call v = false) ->
  (exists syn', BassSynth.setDistortion v syn = Ok syn') /\
  (exists syn', BassSynth.setDistTone v syn = Ok syn') /\
  (exists syn', BassSynth.setDistGain v syn = Ok syn').
Proof.
  intros Hv. repeat split; eexists;
    unfold BassSynth.setDistortion, BassSynth.setDistTone, BassSynth.setDistGain;
    apply fx_forward_ok, Hv.
Qed.

Lemma applyParams_ok pVals (syn : BassSynth.t) :
  10 <= length pVals ->
  (forall call v, In v pVals -> fx_rejects call v = false) ->
  exists syn', applyParams pVals syn = Ok syn'.
Proof.
  intros Hlen Hacc.
  assert (Hnth : forall i, i < 10 ->
                   forall call, fx_rejects call (nth i pVals (float_of_Z 0)) = false).
  { intros i Hi call. apply Hacc. apply nth_In. lia. }
  unfold applyParams. cbv beta zeta.
  destruct (plain_setters_ok (nth 0 pVals (float_of_Z 0)) syn)
    as ([s1 ->] & _). cbn [and_then].
  destruct (fx_setters_ok (nth 1 pVals (float_of_Z 0)) s1 (Hnth 1 ltac:(lia)))
    as ([s2 ->] & _). cbn [and_then].
  destruct (fx_setters_ok (nth 2 pVals (float_of_Z 0)) s2 (Hnth 2 ltac:(lia)))
    as (_ & [s3 ->] & _). cbn [and_then].
  destruct (fx_setters_ok (nth 3 pVals (float_of_Z 0)) s3 (Hnth 3 ltac:(lia)))
    as (_ & _ & [s4 ->]). cbn [and_then].
  destruct (plain_setters_ok (nth 4 pVals (float_of_Z 0)) s4)
    as (_ & [s5 ->] & _). cbn [and_then].
  destruct (plain_setters_ok (nth 5 pVals (float_of_Z 0)) s5)
    as (_ & _ & [s6 ->] & _). cbn [and_then].
  destruct (plain_setters_ok (nth 6 pVals (float_of_Z 0)) s6)
    as (_ & _ & _ & [s7 ->] & _). cbn [and_then].
  destruct (plain_setters_ok (nth 7 pVals (float_of_Z 0)) s7)
    as (_ & _ & _ & _ & [s8 ->] & _). cbn [and_then].
  destruct (plain_setters_ok (nth 8 pVals (float_of_Z 0)) s8)
    as (_ & _ & _ & _ & _ & [s9 ->]). cbn [and_then].
  eexists. reflexivity.
Qed.

Lemma update_synth_ok id (f : BassSynth.t -> Res BassSynth.t) l :
  (forall syn, exists syn', f syn = Ok syn') ->
  exists l', update_synth id f l = Ok l'.
Proof.
  intros Hf. induction l as [| syn l IH]; simpl; [eauto |].
  destruct (String.eqb (BassSynth.sid syn) id).
  - destruct (Hf syn) as [syn' ->]. simpl. eauto.
  - destruct IH as [l' ->]. simpl. eauto.
Qed.

End BassRowsImport.

Section BassLines.

Context `{FloatOps}.
Import App Wf.
Local Open Scope nat_scope.

Implicit Types (bs : list Block) (w : World) (synth : BassSynth.t).

Lemma valid_synth_lacks c synth :
  c = ","%char \/ c = ascii_of_nat 10 ->
  valid_synth synth ->
  lacks c (BassSynth.sid synth) /\
  Forall (lacks c) (params_texts (BassSynth.params synth)).
Proof.
  intros Hc ((Hcomma & Hcolon & Hnl & _) & Htexts & _).
  destruct Hc as [-> | ->]; (split; [assumption |]);
    (eapply Forall_impl; [exact Htexts |]); intros t [? ?]; assumption.
Qed.

Lemma configStr_colon synth :
  exists rest, configStr synth = (BassSynth.sid synth ++ String ":" rest)%string.
Proof. unfold configStr. eexists. reflexivity. Qed.

Lemma split_bassRow bs synth :
  valid_synth synth ->
  split "," (bassRow bs synth)
  = configStr synth :: concat (map (bassCells (BassSynth.sid synth)) bs).
Proof.
  intros Hv. destruct (valid_synth_lacks "," synth (or_introl eq_refl) Hv)
    as [Hid Hp].
  unfold bassRow. apply split_add_cells.
  - apply configStr_lacks; try discriminate; assumption.
  - apply bassCells_lacks. reflexivity.
Qed.

Lemma importLine_bassRow bs synth w e :
  valid_synth synth ->
  audioEngine w = Some e ->
  exists w' e',
    importLine (Z.of_nat (length bs * totalSteps)) (bassRow bs synth) w = Ok w' /\
    bpm w' = bpm w /\ drumSynth w' = drumSynth w /\ audioEngine w' = Some e' /\
    blocks w'
    = fold_left
        (importBassCell (BassSynth.sid synth)
           (configStr synth :: concat (map (bassCells (BassSynth.sid synth)) bs)))
        (seq 0 (length bs * totalSteps))
        (registerTrack (BassSynth.sid synth) (blocks w)).
Proof.
  intros Hv He.
  pose proof Hv as ((_ & Hcolon & _ & Hdrums & _) & _ & Hacc).
  destruct (configStr_colon synth) as [rest Hcfg].
  unfold importLine. rewrite (split_bassRow bs synth Hv).
  cbn [nth].
  assert (Hsw : startsWith "drums" (configStr synth) = false).
  { rewrite Hcfg. apply startsWith_before_colon; [reflexivity | exact Hdrums]. }
  assert (Hinc : includes ":" (configStr synth) = true).
  { rewrite Hcfg, includes_append. simpl. apply orb_true_r. }
  rewrite Hsw, Hinc. unfold importBass. cbn [nth]. rewrite He.
  assert (Hid : nth 0 (split ":" (configStr synth)) ""%string = BassSynth.sid synth).
  { rewrite Hcfg, split_append, (split_lacks _ _ Hcolon). reflexivity. }
  rewrite Hid, Nat2Z.id.
  set (pVals := map Number (split "-" (nth 1 (split ":" (configStr synth)) ""))) in *.
  set (id := BassSynth.sid synth) in *.
  set (cells := configStr synth :: concat (map (bassCells id) bs)).
  assert (Hstage : forall w1 e1,
             audioEngine w1 = Some e1 ->
             exists w2 e2,
               (if (10 <=? length pVals)
                then res_map (fun l => with_engine w1 {| ctx := ctx e1; bassSynths := l |})
                             (update_synth id (applyParams pVals) (bassSynths e1))
                else Ok w1) = Ok w2 /\
               bpm w2 = bpm w1 /\ drumSynth w2 = drumSynth w1 /\
               audioEngine w2 = Some e2 /\ blocks w2 = blocks w1).
  { intros w1 e1 He1. destruct (Nat.leb_spec 10 (length pVals)) as [Hle | Hgt].
    - destruct (update_synth_ok id (applyParams pVals) (bassSynths e1)) as [l' Hl'].
      { intros syn. apply applyParams_ok; assumption. }
      rewrite Hl'. simpl. eexists _, _. repeat split; reflexivity.
    - exists w1, e1. repeat split; assumption. }
  destruct (getSynth id e) as [found |].
  - rewrite He. destruct (Hstage w e He) as (w2 & e2 & -> & Hb & Hd & He2 & Hbl).
    cbn [and_then]. eexists _, e2. split; [reflexivity |].
    simpl. rewrite Hbl. repeat split; assumption.
  - destruct (Hstage (addBassSynth id w e) _ eq_refl)
      as (w2 & e2 & Hr & Hb & Hd & He2 & Hbl).
    change (audioEngine (addBassSynth id w e))
      with (Some {| ctx := ctx e; bassSynths :=
                      bassSynths e ++ [BassSynth.create id (ctx e)] |}).
    cbv iota beta. rewrite Hr. cbn [and_then].
    eexists _, e2. split; [reflexivity |].
    simpl. rewrite Hbl. simpl. rewrite registerTrack_idem.
    repeat split; assumption.
Qed.

(** All bass rows of the exported text, read in order. *)
Lemma import_bass_rows bs synths ids w e :
  (forall b k s n, note_at bs b k s = Some n -> valid_note n) ->
  Forall valid_synth synths ->
  audioEngine w = Some e ->
  imported_grid bs ids (blocks w) ->
  exists w' e',
    fold_left (fun r line =>
                 and_then r (importLine (Z.of_nat (length bs * totalSteps)) line))
              (map (bassRow bs) synths) (Ok w) = Ok w' /\
    bpm w' = bpm w /\ drumSynth w' = drumSynth w /\ audioEngine w' = Some e' /\
    imported_grid bs (rev (map BassSynth.sid synths) ++ ids) (blocks w').
Proof.
  intros Hnotes Hsynths. revert ids w e.
  induction Hsynths as [| synth synths Hsynth _ IH]; intros ids w e He Hgrid.
  - exists w, e. simpl.
    split; [reflexivity |]. split; [reflexivity |]. split; [reflexivity |].
    split; [exact He | exact Hgrid].
  - destruct (importLine_bassRow bs synth w e Hsynth He)
      as (w1 & e1 & Hline & Hb1 & Hd1 & He1 & Hbl1).
    assert (Hgrid1 : imported_grid bs (BassSynth.sid synth :: ids) (blocks w1)).
    { rewrite Hbl1. apply bass_row_imported; try assumption.
      - intros sg Hsg. apply exported_bass_cell. exact Hsg.
      - destruct Hsynth as ((_ & _ & _ & _ & Hp) & _). exact Hp. }
    destruct (IH _ _ _ He1 Hgrid1) as (w' & e' & Hfold & Hb & Hd & He' & Hg).
    exists w', e'. simpl. rewrite Hline. cbn [and_then].
    split; [exact Hfold |].
    split; [congruence |]. split; [congruence |]. split; [exact He' |].
    rewrite <- app_assoc. exact Hg.
Qed.

End BassLines.

(** ** Importing the exported drum row *)

Section DrumRowImport.

Context `{FloatOps}.
Import App Wf.
Local Open Scope nat_scope.

Implicit Types (bs cur : list Block) (d : DrumSynth.t) (ch : DrumSynth.Channel).

Lemma lower_lacks c t : all_chars is_lower t = true -> is_lower c = false -> lacks c t.
Proof. intros Ht Hc. eapply all_chars_lacks; eauto. Qed.

Lemma chText_lacks c k ch :
  valid_channel k ch ->
  is_num_char c = false -> is_lower c = false -> lacks c (chText ch).
Proof.
  intros (_ & Hty & _) Hn Hl. destruct (num_char_digits c Hn) as (_ & _ & Hm).
  unfold chText.
  repeat first [ apply lacks_append | apply num_to_string_lacks | apply lacks_cons ];
    try assumption; try (apply not_eq_sym; assumption); try reflexivity.
  eapply lower_lacks; eauto.
Qed.

Lemma drumConfig_unfold d :
  drumConfig d
  = fold_left (fun cfg ch => (cfg ++ String "|" (chText ch))%string)
              (DrumSynth.channels d)
              ("drums:" ++ num_to_string (DrumSynth.masterVolume d) ++ ":"
                 ++ Z_to_string (Z.of_nat (length (DrumSynth.channels d))))%string.
Proof. reflexivity. Qed.

Lemma split_bar_fold chs acc :
  (forall k ch, chs !! k = Some ch -> lacks "|" (chText ch)) ->
  split "|" (fold_left (fun cfg ch => (cfg ++ String "|" (chText ch))%string) chs acc)
  = split "|" acc ++ map chText chs.
Proof.
  revert acc. induction chs as [| ch chs IH]; intros acc Hchs; simpl.
  - rewrite app_nil_r. reflexivity.
  - rewrite IH by (intros k c Hk; apply (Hchs (S k)); exact Hk).
    rewrite split_append, (split_lacks _ (chText ch)) by (apply (Hchs 0); reflexivity).
    rewrite <- app_assoc. reflexivity.
Qed.

Lemma startsWith_append p a x :
  startsWith p a = true -> startsWith p (a ++ x)%string = true.
Proof.
  revert a. induction p as [| c p IH]; intros a Ha; [reflexivity |].
  destruct a as [| c' a]; simpl in Ha; [discriminate Ha |].
  rewrite append_cons. simpl.
  apply andb_prop in Ha as [-> Ha]. simpl. apply IH, Ha.
Qed.

Lemma startsWith_fold chs acc :
  startsWith "drums" acc = true ->
  startsWith "drums"
    (fold_left (fun cfg ch => (cfg ++ String "|" (chText ch))%string) chs acc) = true.
Proof.
  revert acc. induction chs as [| ch chs IH]; intros acc Hacc; simpl; [exact Hacc |].
  apply IH, startsWith_append, Hacc.
Qed.

Lemma activeDrums_drumCell chs dStep off h :
  h ∈ activeDrums off (drumCell chs dStep) <->
  exists k ch, h = off + k /\ chs !! k = Some ch /\ hit dStep ch = true.
Proof.
  revert off. induction chs as [| c0 chs IH]; intros off.
  - simpl. split; [intros Hin; inversion Hin | intros (k & ch & _ & Hk & _); discriminate].
  - rewrite drumCell_cons. simpl.
    destruct (hit dStep c0) eqn:Eh; simpl.
    + rewrite elem_of_cons, IH. split.
      * intros [-> | (k & ch & -> & Hk & Hh)].
        -- exists 0, c0. repeat split; [lia | exact Eh].
        -- exists (S k), ch. repeat split; [lia | exact Hk | exact Hh].
      * intros (k & ch & -> & Hk & Hh). destruct k as [| k].
        -- left. lia.
        -- right. exists k, ch. repeat split; [lia | exact Hk | exact Hh].
    + rewrite IH. split.
      * intros (k & ch & -> & Hk & Hh).
        exists (S k), ch. repeat split; [lia | exact Hk | exact Hh].
      * intros (k & ch & -> & Hk & Hh). destruct k as [| k].
        -- simpl in Hk. inversion Hk; subst. congruence.
        -- exists k, ch. repeat split; [lia | exact Hk | exact Hh].
Qed.

(** The hits read back from an exported cell are the hits of the step. *)
Lemma activeDrums_exported chs dStep h :
  (forall k ch, chs !! k = Some ch -> DrumSynth.ch_id ch = k) ->
  Forall (fun x => x < length chs) dStep ->
  h ∈ activeDrums 0 (drumCell chs dStep) <-> h ∈ dStep.
Proof.
  intros Hid Hhits. rewrite activeDrums_drumCell. split.
  - intros (k & ch & -> & Hk & Hh). rewrite hit_elem_of in Hh.
    apply bool_decide_eq_true in Hh. rewrite (Hid _ _ Hk) in Hh. exact Hh.
  - intros Hin. rewrite Forall_forall in Hhits.
    assert (Hlt : h < length chs) by (apply Hhits; exact Hin).
    destruct (lookup_lt_is_Some_2 chs h Hlt) as [ch Hch].
    exists h, ch. repeat split; [exact Hch |].
    rewrite hit_elem_of. apply bool_decide_eq_true. rewrite (Hid _ _ Hch).
    exact Hin.
Qed.

End DrumRowImport.

Section ChannelImport.

Context `{FloatOps}.
Import App Wf.
Local Open Scope nat_scope.

Implicit Types (d : DrumSynth.t) (ch src tgt : DrumSynth.Channel).

Lemma remove_first_lacks c t : lacks c t -> remove_first c t = t.
Proof.
  induction t as [| a t IH]; intros Hl; [reflexivity |].
  apply lacks_cons_inv in Hl as [Ha Ht]. simpl.
  apply Ascii.eqb_neq in Ha. rewrite Ha, (IH Ht). reflexivity.
Qed.

Lemma split_chText k ch :
  valid_channel k ch ->
  split "-" (remove_first "]" (remove_first "[" (chText ch)))
  = [DrumSynth.type ch; num_to_string (DrumSynth.variant ch);
     num_to_string (DrumSynth.volume ch); num_to_string (exportColorId ch)].
Proof.
  intros Hv.
  rewrite (remove_first_lacks "[") by (eapply chText_lacks; eauto).
  rewrite (remove_first_lacks "]") by (eapply chText_lacks; eauto).
  destruct Hv as (_ & Hty & (v & Hv & Hv0) & (vol & Hvol & Hvol0) & (c & Hc & Hc0)).
  unfold chText, exportColorId. rewrite Hv, Hvol, Hc. simpl num_to_string.
  apply split_four.
  - eapply lower_lacks; eauto.
  - apply Z_to_string_nonneg_lacks; [lia | reflexivity].
  - apply Z_to_string_nonneg_lacks; [lia | reflexivity].
  - apply Z_to_string_nonneg_lacks; [lia | reflexivity].
Qed.

Lemma importChannel_exported parts d c k src tgt :
  nth c parts ""%string = chText src ->
  valid_channel k src ->
  DrumSynth.channels d !! (c - 1) = Some tgt ->
  exists d',
    importChannel parts d c = Ok d' /\
    length (DrumSynth.channels d') = length (DrumSynth.channels d) /\
    DrumSynth.channels d' !! (c - 1) = Some (configured src tgt) /\
    (forall j, j <> c - 1 ->
               DrumSynth.channels d' !! j = DrumSynth.channels d !! j).
Proof.
  intros Hnth Hv Htgt.
  assert (Hlt : c - 1 < length (DrumSynth.channels d))
    by (eapply lookup_lt_Some; eauto).
  unfold importChannel. rewrite Hnth, (split_chText k src Hv), Htgt.
  destruct Hv as (_ & _ & (v & Hv & Hv0) & (vol & Hvol & Hvol0) & (col & Hc & Hc0)).
  unfold exportColorId. rewrite Hv, Hvol, Hc.
  cbn [lookup list_lookup parseInt_opt num_to_string].
  rewrite !parseInt_Z_to_string. cbn [isNaN].
  unfold DrumSynth.setChannelVariant. rewrite Htgt.
  unfold DrumSynth.setChannelVolume.
  cbn [DrumSynth.channels DrumSynth.with_channels].
  rewrite list_lookup_insert_eq by exact Hlt.
  cbn [clamp100 isNaN]. rewrite andb_false_r. cbn [and_then].
  unfold DrumSynth.setColorId.
  cbn [DrumSynth.channels DrumSynth.with_channels].
  rewrite list_lookup_insert_eq by (rewrite length_insert; exact Hlt).
  eexists. split; [reflexivity |].
  cbn [DrumSynth.channels DrumSynth.with_channels].
  split; [rewrite !length_insert; reflexivity |].
  split.
  - rewrite list_lookup_insert_eq by (rewrite !length_insert; exact Hlt).
    unfold configured, parseInt_num. cbn.
    rewrite parseInt_Z_to_string, Hv, Hvol, Hc.
    replace (Z.max 0 (Z.min 100 vol)) with vol by lia. reflexivity.
  - intros j Hj. rewrite !list_lookup_insert_ne by congruence. reflexivity.
Qed.

(** The channel loop over the exported configuration. *)
Lemma import_channels parts (src : list DrumSynth.Channel) d m :
  (forall k ch, src !! k = Some ch ->
                nth (S k) parts ""%string = chText ch /\ valid_channel k ch) ->
  length (DrumSynth.channels d) = length src ->
  m <= length src ->
  exists d',
    fold_left (fun r c => and_then r (fun d => importChannel parts d c))
              (seq 1 m) (Ok d) = Ok d' /\
    length (DrumSynth.channels d') = length src /\
    (forall k, k < m ->
       exists s t, src !! k = Some s /\ DrumSynth.channels d !! k = Some t /\
                   DrumSynth.channels d' !! k = Some (configured s t)) /\
    (forall k, m <= k -> DrumSynth.channels d' !! k = DrumSynth.channels d !! k).
Proof.
  intros Hparts Hlen. induction m as [| m IH]; intros Hm.
  - exists d. simpl. split; [reflexivity |]. split; [exact Hlen |].
    split; [intros k Hk; lia | reflexivity].
  - destruct IH as (d1 & Hfold & Hl1 & Hdone & Hrest); [lia |].
    rewrite seq_S, fold_left_app, Hfold. simpl.
    destruct (lookup_lt_is_Some_2 src m) as [s Hs]; [lia |].
    destruct (lookup_lt_is_Some_2 (DrumSynth.channels d) m) as [t Ht]; [lia |].
    destruct (Hparts _ _ Hs) as [Hnth Hvalid].
    destruct (importChannel_exported parts d1 (S m) m s t Hnth Hvalid)
      as (d2 & Himp & Hl2 & Hat & Hothers).
    { simpl. rewrite Nat.sub_0_r, Hrest by lia. exact Ht. }
    simpl in Hat, Hothers. rewrite Nat.sub_0_r in Hat, Hothers.
    exists d2. split; [exact Himp |]. split; [congruence |]. split.
    + intros k Hk. destruct (Nat.eq_dec k m) as [-> | Hne].
      * exists s, t. auto.
      * destruct (Hdone k) as (s' & t' & Hs' & Ht' & Hd'); [lia |].
        exists s', t'. rewrite Hothers by exact Hne. auto.
    + intros k Hk. rewrite Hothers by lia. apply Hrest. lia.
Qed.

End ChannelImport.

Section DrumGridImport.

Context `{FloatOps}.
Import App Wf.
Local Open Scope nat_scope.

Implicit Types (bs cur start : list Block) (blk : Block) (b s : nat).

Lemma setDrums_entry cur b blk s v :
  full_grid cur -> cur !! b = Some blk -> s < totalSteps ->
  let cur' := <[b := {| tracks := tracks blk;
                        drums := array_set [] (drums blk) s v |}]> cur in
  full_grid cur' /\ length cur' = length cur /\
  (forall b' k s', entry cur' b' k s' = entry cur b' k s') /\
  (forall b' s',
      drum_entry cur' b' s'
      = if decide (b' = b /\ s' = s) then Some v else drum_entry cur b' s').
Proof.
  intros Hf Hb Hs cur'.
  assert (Hlt : b < length cur) by (eapply lookup_lt_Some; eauto).
  destruct (Hf _ _ Hb) as [Hd Ht].
  assert (Hset : array_set [] (drums blk) s v = <[s := v]> (drums blk)).
  { unfold array_set. destruct (Nat.ltb_spec s (length (drums blk)));
      [reflexivity | lia]. }
  split; [| split; [| split]].
  - intros b' blk' Hb'. unfold cur' in Hb'.
    destruct (decide (b = b')) as [<- | Hne].
    + rewrite list_lookup_insert_eq in Hb' by exact Hlt. inversion Hb'; subst.
      simpl. rewrite Hset, length_insert. split; [exact Hd | exact Ht].
    + rewrite list_lookup_insert_ne in Hb' by exact Hne. eauto.
  - apply length_insert.
  - intros b' k s'. unfold entry, cur'.
    destruct (decide (b = b')) as [<- | Hne].
    + rewrite list_lookup_insert_eq by exact Hlt. rewrite Hb. reflexivity.
    + rewrite list_lookup_insert_ne by exact Hne. reflexivity.
  - intros b' s'. unfold drum_entry, cur'.
    destruct (decide (b = b')) as [<- | Hne].
    + rewrite list_lookup_insert_eq by exact Hlt. rewrite Hb.
      cbn [mbind option_bind drums]. rewrite Hset.
      destruct (decide (s' = s)) as [-> | Hs'].
      * rewrite list_lookup_insert_eq by (rewrite Hd; exact Hs).
        rewrite decide_True by done. reflexivity.
      * rewrite list_lookup_insert_ne by congruence.
        rewrite decide_False by naive_solver. reflexivity.
    + rewrite list_lookup_insert_ne by exact Hne.
      rewrite decide_False by naive_solver. reflexivity.
Qed.

Lemma exported_drum_cell chs bs config sg :
  sg < length bs * totalSteps ->
  (config :: concat (map (drumCells chs) bs)) !! S sg
  = Some (drumCell chs (drums_at bs (sg / totalSteps) (sg mod totalSteps))).
Proof.
  intros Hsg. change ((config :: ?l) !! S sg) with (l !! sg).
  assert (Ht : totalSteps <> 0) by discriminate.
  pose proof (Nat.div_mod_eq sg totalSteps) as Hdm.
  pose proof (Nat.mod_upper_bound sg totalSteps Ht) as Hm.
  assert (Hb : sg / totalSteps < length bs).
  { apply Nat.Div0.div_lt_upper_bound. lia. }
  replace (concat (map (drumCells chs) bs) !! sg)
    with (concat (map (drumCells chs) bs)
            !! (sg / totalSteps * totalSteps + sg mod totalSteps)) by (f_equal; lia).
  rewrite (lookup_concat_chunks (drumCells chs) totalSteps).
  - destruct (lookup_lt_is_Some_2 bs _ Hb) as [blk Eb].
    unfold drums_at. rewrite Eb. cbn [mbind option_bind]. unfold drumCells.
    rewrite list_lookup_fmap, lookup_seq_lt by exact Hm. reflexivity.
  - intros blk. apply drumCells_length.
  - exact Hm.
Qed.

Lemma activeDrums_empty : activeDrums 0 "" = [].
Proof. reflexivity. Qed.

Lemma drum_cells_fold bs chs cells start m :
  (forall sg, sg < length bs * totalSteps ->
     cells !! S sg
     = Some (drumCell chs (drums_at bs (sg / totalSteps) (sg mod totalSteps)))) ->
  full_grid start -> length start = length bs ->
  (forall b s, b < length bs -> s < totalSteps -> drum_entry start b s = Some []) ->
  m <= length bs * totalSteps ->
  let cur := fold_left (importDrumCell cells) (seq 0 m) start in
  full_grid cur /\ length cur = length bs /\
  (forall b k s, entry cur b k s = entry start b k s) /\
  (forall b s, b < length bs -> s < totalSteps ->
     drum_entry cur b s
     = if decide (b * totalSteps + s < m)
       then Some (activeDrums 0 (drumCell chs (drums_at bs b s)))
       else Some []).
Proof.
  intros Hcells Hfull Hlen Hempty.
  assert (Ht : totalSteps <> 0) by discriminate.
  induction m as [| m IH]; intros Hm cur.
  - subst cur. cbn [seq fold_left]. split; [exact Hfull |]. split; [exact Hlen |].
    split; [reflexivity |]. intros b s Hb Hs.
    rewrite decide_False by lia. auto.
  - destruct IH as (IHf & IHl & IHe & IHd); [lia |].
    subst cur. rewrite seq_S, fold_left_app. cbn [fold_left Nat.add].
    set (cur := fold_left (importDrumCell cells) (seq 0 m) start) in *.
    pose proof (Nat.div_mod_eq m totalSteps) as Hdm.
    pose proof (Nat.mod_upper_bound m totalSteps Ht) as Hmod.
    assert (Hb : m / totalSteps < length bs).
    { apply Nat.Div0.div_lt_upper_bound. lia. }
    assert (Hstep : forall b s,
               s < totalSteps ->
               (b * totalSteps + s < S m <->
                b * totalSteps + s < m \/
                (b = m / totalSteps /\ s = m mod totalSteps))).
    { intros b s Hs. split.
      - intros Hlt. destruct (Nat.eq_dec (b * totalSteps + s) m) as [Heq | Hne];
          [right | left; lia].
        assert (b = m / totalSteps).
        { apply (Nat.div_unique m totalSteps b s); lia. }
        split; [assumption |]. subst b. lia.
      - intros [Hlt | [-> ->]]; lia. }
    set (cell := drumCell chs (drums_at bs (m / totalSteps) (m mod totalSteps))).
    destruct (lookup_lt_is_Some_2 cur (m / totalSteps)) as [blk Eb];
      [rewrite IHl; exact Hb |].
    assert (Hval : importDrumCell cells cur m
                   = if is_empty cell then cur
                     else <[m / totalSteps :=
                              {| tracks := tracks blk;
                                 drums := array_set [] (drums blk) (m mod totalSteps)
                                                    (activeDrums 0 cell) |}]> cur).
    { unfold importDrumCell. rewrite (Hcells m Hm). fold cell.
      destruct (is_empty cell); [reflexivity |]. rewrite Eb. reflexivity. }
    rewrite Hval. clear Hval.
    destruct (is_empty cell) eqn:Ecell.
    + split; [exact IHf |]. split; [exact IHl |]. split; [exact IHe |].
      intros b s Hb' Hs. rewrite (IHd b s Hb' Hs).
      destruct (decide (b * totalSteps + s < m)) as [Hlt | Hnlt].
      * rewrite decide_True by lia. reflexivity.
      * destruct (decide (b * totalSteps + s < S m)) as [Hlt' | ?]; [| reflexivity].
        apply Hstep in Hlt' as [? | [-> ->]]; [contradiction | | exact Hs].
        fold cell. destruct cell; [reflexivity | discriminate Ecell].
    + destruct (setDrums_entry cur _ blk (m mod totalSteps)
                  (activeDrums 0 cell) IHf Eb Hmod) as (Sf & Sl & Se & Sd).
      split; [exact Sf |]. split; [rewrite Sl; exact IHl |].
      split; [intros b k s; rewrite Se; apply IHe |].
      intros b s Hb' Hs. rewrite Sd.
      destruct (decide (b = m / totalSteps /\ s = m mod totalSteps))
        as [[-> ->] | Hne].
      * rewrite decide_True by lia. reflexivity.
      * rewrite (IHd b s Hb' Hs).
        destruct (decide (b * totalSteps + s < m)) as [Hlt | Hnlt].
        -- rewrite decide_True by lia. reflexivity.
        -- rewrite decide_False; [reflexivity |].
           intros Hlt. apply Hstep in Hlt as [? | ?]; [| | exact Hs]; naive_solver.
Qed.

End DrumGridImport.

Section DrumLine.

Context `{FloatOps}.
Import App Wf.
Local Open Scope nat_scope.

Implicit Types (bs : list Block) (w : World) (d : DrumSynth.t).

Lemma valid_drum_types c d :
  valid_drumSynth d -> is_lower c = false ->
  Forall (fun ch => lacks c (DrumSynth.type ch)) (DrumSynth.channels d).
Proof.
  intros [_ Hv] Hc. apply Forall_lookup. intros k ch Hk.
  destruct (Hv _ _ Hk) as (_ & Hty & _). eapply lower_lacks; eauto.
Qed.

Lemma split_drumRow bs d :
  valid_drumSynth d ->
  split "," (drumRow bs d)
  = drumConfig d :: concat (map (drumCells (DrumSynth.channels d)) bs).
Proof.
  intros Hv. unfold drumRow. apply split_add_cells.
  - apply lacks_drumConfig; try reflexivity; try discriminate.
    apply valid_drum_types; [exact Hv | reflexivity].
  - apply Forall_drum_cells. intros dStep. apply drumCell_lacks; discriminate.
Qed.

Lemma drumConfig_parts d :
  valid_drumSynth d ->
  split "|" (drumConfig d) = drumHeader d :: map chText (DrumSynth.channels d).
Proof.
  intros [_ Hv]. rewrite drumConfig_unfold, split_bar_fold.
  - fold (drumHeader d). rewrite split_lacks; [reflexivity |].
    unfold drumHeader.
    repeat first [ apply lacks_append | apply num_to_string_lacks
                 | apply Z_to_string_lacks | apply lacks_cons ];
      try discriminate; reflexivity.
  - intros k ch Hk. eapply chText_lacks; [apply (Hv _ _ Hk) | |]; reflexivity.
Qed.

Lemma drumHeader_fields d :
  split ":" (drumHeader d)
  = ["drums"%string; num_to_string (DrumSynth.masterVolume d);
     Z_to_string (Z.of_nat (length (DrumSynth.channels d)))].
Proof.
  unfold drumHeader.
  change ("drums:" ++ num_to_string (DrumSynth.masterVolume d) ++ ":"
            ++ Z_to_string (Z.of_nat (length (DrumSynth.channels d))))%string
    with ("drums" ++ String ":" (num_to_string (DrumSynth.masterVolume d) ++ String ":"
            (Z_to_string (Z.of_nat (length (DrumSynth.channels d))))))%string.
  rewrite !split_append.
  rewrite (split_lacks ":" "drums") by reflexivity.
  rewrite (split_lacks ":" (num_to_string _))
    by (apply num_to_string_lacks; reflexivity).
  rewrite (split_lacks ":" (Z_to_string _))
    by (apply Z_to_string_lacks; reflexivity).
  reflexivity.
Qed.

Lemma importLine_drumRow bs d w d0 :
  valid_drumSynth d ->
  drumSynth w = Some d0 ->
  length (DrumSynth.channels d0) = length (DrumSynth.channels d) ->
  exists w' d',
    importLine (Z.of_nat (length bs * totalSteps)) (drumRow bs d) w = Ok w' /\
    bpm w' = bpm w /\ drumSynth w' = Some d' /\
    length (DrumSynth.channels d') = length (DrumSynth.channels d) /\
    (forall k ch, DrumSynth.channels d !! k = Some ch ->
       exists t, DrumSynth.channels d' !! k = Some (configured ch t)) /\
    blocks w'
    = fold_left
        (importDrumCell
           (drumConfig d :: concat (map (drumCells (DrumSynth.channels d)) bs)))
        (seq 0 (length bs * totalSteps)) (blocks w).
Proof.
  intros Hv Hd0 Hlen. pose proof Hv as [[mv Hmv] Hchs].
  unfold importLine. rewrite (split_drumRow bs d Hv). cbn [nth].
  assert (Hsw : startsWith "drums" (drumConfig d) = true).
  { rewrite drumConfig_unfold. apply startsWith_fold. reflexivity. }
  rewrite Hsw. unfold importDrums. cbn [nth].
  rewrite (drumConfig_parts d Hv). cbn [nth].
  rewrite drumHeader_fields.
  cbn [lookup list_lookup parseInt_opt].
  rewrite parseInt_num_to_string, Hmv, Hd0.
  unfold DrumSynth.setMasterVolume. cbn [clamp100 isNaN].
  rewrite andb_false_r.
  set (d1 := {| DrumSynth.masterVolume := Num (Z.max 0 (Z.min 100 mv));
                DrumSynth.channels := DrumSynth.channels d0;
                DrumSynth.masterGain := DrumSynth.masterGain d0 |}).
  cbn [length]. rewrite length_map, Nat.sub_succ, Nat.sub_0_r.
  destruct (import_channels (drumHeader d :: map chText (DrumSynth.channels d))
              (DrumSynth.channels d) d1 (length (DrumSynth.channels d)))
    as (d' & Hfold & Hl' & Hdone & _).
  { intros k ch Hk. split; [| apply Hchs; exact Hk].
    cbn [nth]. rewrite nth_lookup, list_lookup_fmap, Hk. reflexivity. }
  { exact Hlen. }
  { lia. }
  rewrite Hfold. cbn [res_map and_then].
  rewrite Nat2Z.id.
  eexists _, d'. split; [reflexivity |].
  cbn [bpm drumSynth blocks with_blocks with_drumSynth].
  split; [reflexivity |]. split; [reflexivity |]. split; [exact Hl' |].
  split; [| reflexivity].
  intros k ch Hk.
  destruct (Hdone k) as (s & t & Hs & _ & Hd'); [eapply lookup_lt_Some; eauto |].
  exists t. congruence.
Qed.

End DrumLine.

(** ** The CSV round trip *)

Section RoundTrip.

Context `{FloatOps}.
Import App Wf.
Local Open Scope nat_scope.

Implicit Types (bs : list Block) (w : World) (e : Engine) (d : DrumSynth.t).

Lemma split_headerRow w e :
  (0 <= bpm w)%Z ->
  exists numbers,
    split "," (headerRow w e)
    = (Z_to_string (bpm w) ++ "-"
         ++ Z_to_string (Z.of_nat (length (blocks w) * totalSteps)) ++ "-"
         ++ Z_to_string (Z.of_nat (length (bassSynths e))))%string :: numbers.
Proof.
  intros Hbpm. eexists. unfold headerRow. apply split_add_cells.
  - repeat first [ apply lacks_append | apply Z_to_string_lacks | apply lacks_cons ];
      try discriminate; reflexivity.
  - induction (seq 1 (length (blocks w) * totalSteps)) as [| i l IH];
      [constructor |].
    rewrite map_cons. constructor; [apply Z_to_string_lacks; reflexivity | exact IH].
Qed.

Lemma split_meta (a b c : Z) :
  (0 <= a)%Z -> (0 <= b)%Z -> (0 <= c)%Z ->
  split "-" (Z_to_string a ++ "-" ++ Z_to_string b ++ "-" ++ Z_to_string c)%string
  = [Z_to_string a; Z_to_string b; Z_to_string c].
Proof.
  intros Ha Hb Hc.
  change ("-" ++ Z_to_string b ++ "-" ++ Z_to_string c)%string
    with (String "-" (Z_to_string b ++ String "-" (Z_to_string c)))%string.
  rewrite !split_append.
  rewrite !split_lacks by (apply Z_to_string_nonneg_lacks; [assumption | reflexivity]).
  reflexivity.
Qed.

Lemma ceil_div_steps n :
  Z.to_nat (ceil_div (Z.of_nat (n * totalSteps)) (Z.of_nat totalSteps)) = n.
Proof.
  unfold ceil_div. rewrite Nat2Z.inj_mul.
  rewrite <- Z.mul_opp_l, Z.div_mul by (unfold totalSteps; lia). lia.
Qed.

Lemma addBlock_fresh (l : list Block) :
  addBlock (freshBlock :: l) = (freshBlock :: l) ++ [freshBlock].
Proof.
  unfold addBlock. f_equal.
Qed.

Lemma iter_addBlock n : Nat.iter n addBlock [] = replicate n freshBlock.
Proof.
  induction n as [| n IH]; [reflexivity |].
  rewrite Nat.iter_succ, IH. destruct n as [| n]; [reflexivity |].
  change (replicate (S n) freshBlock) with (freshBlock :: replicate n freshBlock).
  rewrite addBlock_fresh.
  change (freshBlock :: replicate n freshBlock) with (replicate (S n) freshBlock).
  symmetry. apply replicate_S_end.
Qed.

Lemma fresh_grid bs : imported_grid bs [] (replicate (length bs) freshBlock).
Proof.
  assert (Hblk : forall b blk, replicate (length bs) freshBlock !! b = Some blk ->
                               blk = freshBlock /\ b < length bs).
  { intros b blk Hb. apply lookup_replicate in Hb. exact Hb. }
  split; [| split; [| split; [| split]]].
  - intros b blk Hb. apply Hblk in Hb as [-> _]. split.
    + apply length_replicate.
    + intros k arr Hk.
      change (tracks freshBlock)
        with ({[ "bass-1"%string := emptyTrack ]} : gmap string (list (option Note)))
        in Hk.
      apply lookup_singleton_Some in Hk as [_ <-].
      apply length_replicate.
  - apply length_replicate.
  - intros b s Hb Hs. unfold drum_entry.
    rewrite lookup_replicate_2 by exact Hb. cbn [mbind option_bind].
    unfold freshBlock, emptyDrums. cbn [drums].
    rewrite lookup_replicate_2 by exact Hs. reflexivity.
  - intros b k s o He. left. unfold entry in He.
    destruct (replicate (length bs) freshBlock !! b) as [blk |] eqn:Eb;
      [| discriminate].
    apply Hblk in Eb as [-> _]. cbn [mbind option_bind] in He.
    destruct (tracks freshBlock !! k) as [arr |] eqn:Ek; [| discriminate].
    change (tracks freshBlock)
      with ({[ "bass-1"%string := emptyTrack ]} : gmap string (list (option Note)))
      in Ek.
    apply lookup_singleton_Some in Ek as [_ <-]. cbn [mbind option_bind] in He.
    apply lookup_replicate in He as [-> _]. reflexivity.
  - intros b k s _ [].
Qed.

(** A slot outside the imported area is empty in the session too. *)
Lemma session_slot_none bs ids nch b k s :
  Forall (valid_block ids nch) bs ->
  ~ (b < length bs /\ In k ids /\ s < totalSteps) ->
  note_at bs b k s = None.
Proof.
  intros Hbs Hout. unfold note_at.
  destruct (bs !! b) as [blk |] eqn:Eb; [| reflexivity].
  cbn [mbind option_bind].
  destruct (tracks blk !! k) as [arr |] eqn:Ek; [| reflexivity].
  cbn [mbind option_bind].
  rewrite Forall_lookup in Hbs. destruct (Hbs _ _ Eb) as (_ & _ & Htr).
  destruct (Htr _ _ Ek) as (Hin & Hl & _).
  destruct (arr !! s) eqn:Es; [| reflexivity].
  exfalso. apply Hout. split; [eapply lookup_lt_Some; eauto |].
  split; [exact Hin |]. rewrite <- Hl. eapply lookup_lt_Some; eauto.
Qed.

Lemma session_notes_valid bs ids nch b k s n :
  Forall (valid_block ids nch) bs ->
  note_at bs b k s = Some n -> valid_note n.
Proof.
  intros Hbs. unfold note_at.
  destruct (bs !! b) as [blk |] eqn:Eb; [| discriminate].
  cbn [mbind option_bind].
  destruct (tracks blk !! k) as [arr |] eqn:Ek; [| discriminate].
  cbn [mbind option_bind].
  rewrite Forall_lookup in Hbs. destruct (Hbs _ _ Eb) as (_ & _ & Htr).
  destruct (Htr _ _ Ek) as (_ & _ & Hn).
  destruct (arr !! s) as [o |] eqn:Es; [| discriminate].
  simpl. intros ->. eapply Hn; eauto.
Qed.

Lemma session_hits_valid bs ids nch b s :
  Forall (valid_block ids nch) bs ->
  Forall (fun h => h < nch) (drums_at bs b s).
Proof.
  intros Hbs. unfold drums_at.
  destruct (bs !! b) as [blk |] eqn:Eb; [| constructor].
  rewrite Forall_lookup in Hbs. destruct (Hbs _ _ Eb) as (_ & Hh & _).
  destruct (drums blk !! s) as [dStep |] eqn:Es; [| constructor].
  simpl. rewrite Forall_lookup in Hh. eapply Hh; eauto.
Qed.

End RoundTrip.

Section RoundTripTheorem.

Context `{FloatOps}.
Import App Wf.
Local Open Scope nat_scope.

Implicit Types (bs : list Block) (w : World) (e : Engine) (d : DrumSynth.t).

Lemma rows_prefix bs synths acc :
  exists t,
    fold_left (fun csv synth => (csv ++ bassRow bs synth ++ newline)%string)
              synths acc = (acc ++ t)%string.
Proof.
  revert acc. induction synths as [| synth synths IH]; intros acc; simpl.
  - exists ""%string. rewrite append_nil_r. reflexivity.
  - destruct (IH (acc ++ bassRow bs synth ++ newline)%string) as [t ->].
    eexists. rewrite append_assoc. reflexivity.
Qed.

Lemma drumRow_no_ws bs d c :
  valid_drumSynth d -> is_ws c = true -> lacks c (drumRow bs d).
Proof.
  intros Hv Hc.
  pose proof (is_ws_not_num_char c Hc) as Hn.
  pose proof (is_ws_not_lower c Hc) as Hl.
  unfold drumRow. apply lacks_add_cells.
  - intros ->. discriminate Hc.
  - apply lacks_drumConfig; try assumption; try (intros ->; discriminate Hc).
    + eapply lower_lacks; [reflexivity | exact Hl].
    + apply valid_drum_types; assumption.
  - apply Forall_drum_cells. intros dStep.
    apply drumCell_lacks; intros ->; discriminate Hc.
Qed.

Lemma drumRow_nonempty bs d : drumRow bs d <> ""%string.
Proof.
  unfold drumRow. rewrite add_cells_unfold.
  assert (Hsw : startsWith "drums" (drumConfig d) = true).
  { rewrite drumConfig_unfold. apply startsWith_fold. reflexivity. }
  destruct (drumConfig d); [discriminate Hsw | discriminate].
Qed.

(** The lines that the import sees. *)
Lemma exported_lines w e d :
  valid_session w e d ->
  (exists c r, exportToCSV w = String c r) /\
  split (ascii_of_nat 10) (trim (exportToCSV w))
  = headerRow w e :: map (bassRow (blocks w)) (bassSynths e)
      ++ [drumRow (blocks w) d].
Proof.
  intros [He Hd Hbpm Hsynths Hdrums Hblocks].
  assert (Hcsv : exportToCSV w
                 = (fold_left (fun csv synth =>
                                 (csv ++ bassRow (blocks w) synth ++ newline)%string)
                              (bassSynths e) (headerRow w e ++ newline)
                      ++ drumRow (blocks w) d)%string).
  { unfold exportToCSV. rewrite He, Hd. reflexivity. }
  assert (Hfirst : exists c r, exportToCSV w = String c r /\ is_ws c = false).
  { destruct (Z_to_string_first_digit (bpm w)) as (c & r & Hz & Hc); [lia |].
    destruct (rows_prefix (blocks w) (bassSynths e) (headerRow w e ++ newline))
      as [t Ht].
    exists c. eexists. split; [| apply is_digit_not_ws; exact Hc].
    rewrite Hcsv, Ht. unfold headerRow. rewrite add_cells_unfold, Hz.
    rewrite !append_cons. reflexivity. }
  destruct Hfirst as (c & r & Hcr & Hc).
  split; [eauto |].
  assert (Htrim : trim (exportToCSV w) = exportToCSV w).
  { unfold trim. rewrite Hcr at 1. cbn [trimStart]. rewrite Hc, <- Hcr, Hcsv.
    apply trimEnd_append.
    - intros c' Hc'. apply drumRow_no_ws; assumption.
    - apply drumRow_nonempty. }
  rewrite Htrim, Hcsv, split_rows.
  - rewrite split_lacks by (apply headerRow_lacks; [reflexivity | discriminate]).
    reflexivity.
  - eapply Forall_impl; [exact Hsynths |]. intros synth Hs.
    destruct (valid_synth_lacks (ascii_of_nat 10) synth (or_intror eq_refl) Hs)
      as [Hid Hp].
    apply bassRow_lacks; try assumption; try reflexivity; discriminate.
  - unfold drumRow. apply lacks_add_cells; [discriminate | |].
    + apply lacks_drumConfig; try reflexivity; try discriminate.
      apply valid_drum_types; [exact Hdrums | reflexivity].
    + apply Forall_drum_cells. intros dStep. apply drumCell_lacks; discriminate.
Qed.


End RoundTripTheorem.

(** The demo session satisfies the conditions of the round trip. *)
Lemma demo_session_valid :
  @Wf.valid_session IntFloat.ops Demo.world Demo.engine
                    (DrumSynth.init DrumSynth.initial).
Proof.
  split.
  - reflexivity.
  - reflexivity.
  - reflexivity.
  - constructor; [| constructor]. split; [| split].
    + repeat split; reflexivity.
    + vm_compute. repeat constructor.
    + intros call v Hin. vm_compute in Hin.
      repeat (destruct Hin as [<- | Hin]; [destruct call; reflexivity |]).
      destruct Hin.
  - split; [eexists; reflexivity |]. intros k ch Hk.
    set (l := DrumSynth.channels _) in Hk. vm_compute in l. subst l.
    do 9 (destruct k as [| k];
          [ inversion Hk; subst ch;
            split; [reflexivity |]; split; [reflexivity |];
            split; [eexists; split; [reflexivity | lia] |];
            split; eexists; split; first [reflexivity | lia] |]).
    discriminate Hk.
  - constructor; [| constructor]. split; [reflexivity |]. split.
    + vm_compute. repeat first [lia | constructor].
    + intros k arr Hk.
      change (tracks Demo.block1)
        with ({[ "bass-1"%string := <[2%nat := Some Demo.C3]> emptyTrack ]}
              : gmap string (list (option Note))) in Hk.
      apply lookup_singleton_Some in Hk as [<- <-].
      split; [left; reflexivity |]. split; [reflexivity |].
      intros s n Hs.
      do 16 (destruct s as [| s];
             [ vm_compute in Hs;
               first [ discriminate Hs
                     | inversion Hs; subst n; split;
                       [ left; reflexivity
                       | exists 3; split; [reflexivity | lia] ] ] |]).
      vm_compute in Hs. discriminate Hs.
Qed.

(** Its integers are small. *)
Lemma demo_session_safe :
  @Wf.safe_session IntFloat.ops Demo.world Demo.engine
                   (DrumSynth.init DrumSynth.initial).
Proof.
  split; [reflexivity |]. split; [reflexivity |]. split; [reflexivity |].
  split; [| split; [| split; [reflexivity |]]].
  - intros b k s n Hn.
    destruct (demo_session_valid) as [_ _ _ _ _ Hbl].
    assert (Hv : Wf.valid_note n).
    { eapply session_notes_valid; eauto. }
    unfold note_at in Hn. destruct b as [| b]; [| destruct b; discriminate Hn].
    cbn [App.blocks Demo.world lookup list_lookup mbind option_bind] in Hn.
    change (tracks Demo.block1)
      with ({[ "bass-1"%string := <[2%nat := Some Demo.C3]> emptyTrack ]}
            : gmap string (list (option Note))) in Hn.
    destruct (decide (k = "bass-1"%string)) as [-> | Hk].
    + rewrite lookup_singleton_eq in Hn. cbn [mbind option_bind] in Hn.
      do 16 (destruct s as [| s];
             [ vm_compute in Hn;
               first [ discriminate Hn
                     | inversion Hn; subst n; exists 3;
                       split; [reflexivity | lia] ] |]).
      vm_compute in Hn. discriminate Hn.
    + rewrite lookup_singleton_ne in Hn by congruence. discriminate Hn.
  - eexists. split; [reflexivity | lia].
  - intros k ch Hk.
    set (l := DrumSynth.channels _) in Hk. vm_compute in l. subst l.
    do 9 (destruct k as [| k];
          [ inversion Hk; subst ch;
            split; [eexists; split; [reflexivity | lia] |];
            split; [eexists; split; [reflexivity | lia] |];
            intros c Hc; inversion Hc; subst c;
            eexists; split; [reflexivity | lia] |]).
    discriminate Hk.
Qed.


(** ** Bytes and variable-length quantities *)

Section MidiBytes.

Import MidiIO MidiProps.
Local Open Scope Z_scope.

Lemma toInt32_small z : - 2 ^ 31 <= z < 2 ^ 31 -> toInt32 z = z.
Proof.
  intros Hz. unfold toInt32. rewrite Z.mod_small; lia.
Qed.

Lemma land_shift_low a x n :
  0 <= n -> 0 <= x < 2 ^ n -> Z.land (Z.shiftl a n) x = 0.
Proof.
  intros Hn Hx. apply Z.bits_inj'. intros i Hi.
  rewrite Z.land_spec, Z.bits_0.
  destruct (Z.lt_ge_cases i n).
  - rewrite Z.shiftl_spec_low by lia. reflexivity.
  - destruct (Z.eq_dec x 0) as [-> | Hne].
    + rewrite Z.bits_0. apply andb_false_r.
    + assert (Z.log2 x < i).
      { assert (Z.log2 x < n) by (apply Z.log2_lt_pow2; lia). lia. }
      rewrite (Z.bits_above_log2 x i) by lia. apply andb_false_r.
Qed.

Lemma lor_shiftl a x n :
  0 <= n -> 0 <= x < 2 ^ n -> Z.lor (Z.shiftl a n) x = a * 2 ^ n + x.
Proof.
  intros Hn Hx.
  rewrite <- Z.lxor_lor, <- Z.add_nocarry_lxor by (apply land_shift_low; lia).
  rewrite Z.shiftl_mul_pow2 by lia. reflexivity.
Qed.

Lemma land_7F b : Z.land b 0x7F = b mod 128.
Proof. change 0x7F with (Z.ones 7). rewrite Z.land_ones by lia. reflexivity. Qed.

Lemma land_FF b : Z.land b 0xFF = b mod 256.
Proof. change 0xFF with (Z.ones 8). rewrite Z.land_ones by lia. reflexivity. Qed.

Lemma lor_80 x : 0 <= x < 128 -> Z.lor x 0x80 = x + 128.
Proof.
  intros Hx. rewrite Z.lor_comm. change 0x80 with (Z.shiftl 1 7).
  rewrite lor_shiftl by (change (2 ^ 7) with 128; lia).
  change (Z.shiftl 1 7) with 128. change (2 ^ 7) with 128. lia.
Qed.

Lemma land_80 b : 0 <= b < 256 -> Z.land b 0x80 = if b <? 128 then 0 else 128.
Proof.
  intros Hb.
  assert (Hlow : forall x, 0 <= x < 128 -> Z.land x 0x80 = 0).
  { intros x Hx. rewrite <- (Z.mod_small x 128), <- land_7F by lia.
    rewrite <- Z.land_assoc. apply Z.land_0_r. }
  destruct (Z.ltb_spec b 128); [apply Hlow; lia |].
  replace b with ((b - 128) + 128) by lia. rewrite <- lor_80 by lia.
  rewrite Z.land_lor_distr_l, Hlow by lia. reflexivity.
Qed.

Lemma byteOf_byte n k : is_byte (byteOf n k).
Proof.
  unfold byteOf, is_byte. rewrite land_FF. apply Z.mod_pos_bound. lia.
Qed.

Lemma toUint8_byte b : is_byte b -> toUint8 (JS.Num b) = b.
Proof. intros Hb. unfold is_byte in Hb. simpl. apply Z.mod_small. lia. Qed.

Lemma toUint8_is_byte n : is_byte (toUint8 n).
Proof.
  unfold is_byte. destruct n as [| z]; simpl; [lia |].
  apply Z.mod_pos_bound. lia.
Qed.

Lemma map_toUint8_bytes l :
  Forall is_byte l -> map toUint8 (map JS.Num l) = l.
Proof.
  induction 1 as [| b l Hb _ IH]; [reflexivity |].
  cbn [map]. rewrite toUint8_byte, IH by exact Hb. reflexivity.
Qed.

(** The status bytes of the Note-On and Note-Off range. *)
Lemma status_kind x :
  0x80 <= x < 0xA0 ->
  Z.land x 0xF0 = (if x <? 0x90 then 0x80 else 0x90) /\
  Z.land x 0x0F = x mod 16.
Proof.
  intros Hx.
  assert (Hc : x = 128 \/ x = 129 \/ x = 130 \/ x = 131 \/ x = 132 \/ x = 133
               \/ x = 134 \/ x = 135 \/ x = 136 \/ x = 137 \/ x = 138 \/ x = 139
               \/ x = 140 \/ x = 141 \/ x = 142 \/ x = 143 \/ x = 144 \/ x = 145
               \/ x = 146 \/ x = 147 \/ x = 148 \/ x = 149 \/ x = 150 \/ x = 151
               \/ x = 152 \/ x = 153 \/ x = 154 \/ x = 155 \/ x = 156 \/ x = 157
               \/ x = 158 \/ x = 159) by lia.
  repeat (destruct Hc as [-> | Hc]; [split; reflexivity |]).
  subst x. split; reflexivity.
Qed.

Lemma lor_channel base ch :
  (base = 0x80 \/ base = 0x90) -> 0 <= ch < 16 -> Z.lor base ch = base + ch.
Proof.
  intros Hb Hc.
  assert (Hcs : ch = 0 \/ ch = 1 \/ ch = 2 \/ ch = 3 \/ ch = 4 \/ ch = 5
                \/ ch = 6 \/ ch = 7 \/ ch = 8 \/ ch = 9 \/ ch = 10 \/ ch = 11
                \/ ch = 12 \/ ch = 13 \/ ch = 14 \/ ch = 15) by lia.
  destruct Hb as [-> | ->];
    repeat (destruct Hcs as [-> | Hcs]; [reflexivity |]); subst ch; reflexivity.
Qed.

(** *** Writing a quantity *)

Lemma vlqLoop_spec n : forall val buffer fuel,
  0 <= val < 2 ^ 31 -> val < 128 ^ Z.of_nat (S n) -> (S n <= fuel)%nat ->
  exists hi,
    vlqLoop fuel val buffer = Some (buffer ++ hi) /\
    (length hi <= n)%nat /\
    Forall (fun b => 128 <= b < 256) hi /\
    foldr (fun b acc => vstep acc b) 0 hi = val / 128.
Proof.
  induction n as [| n IH]; intros val buffer fuel Hv Hn Hf.
  - destruct fuel as [| fuel]; [lia |]. cbn [vlqLoop].
    rewrite toInt32_small by lia. rewrite Z.shiftr_div_pow2 by lia.
    change (2 ^ 7) with 128. change (128 ^ Z.of_nat 1) with 128 in Hn.
    rewrite Z.div_small by lia. cbn [Z.eqb].
    exists []. rewrite app_nil_r.
    split; [reflexivity |]. split; [simpl; lia |]. split; [constructor |].
    reflexivity.
  - destruct fuel as [| fuel]; [lia |]. cbn [vlqLoop].
    rewrite toInt32_small by lia. rewrite Z.shiftr_div_pow2 by lia.
    change (2 ^ 7) with 128.
    assert (Hq : 0 <= val / 128 < 2 ^ 31).
    { split; [apply Z.div_pos; lia |].
      apply Z.div_lt_upper_bound; lia. }
    assert (Hq' : val / 128 < 128 ^ Z.of_nat (S n)).
    { apply Z.div_lt_upper_bound; [lia |].
      rewrite <- Z.pow_succ_r by lia. rewrite <- Nat2Z.inj_succ. exact Hn. }
    destruct (Z.eqb_spec (val / 128) 0) as [E0 | Hne].
    + exists []. rewrite app_nil_r, E0.
      split; [reflexivity |]. split; [simpl; lia |]. split; [constructor |].
      reflexivity.
    + destruct (IH (val / 128) (buffer ++ [Z.lor (Z.land (val / 128) 0x7F) 0x80])
                   fuel Hq Hq' ltac:(lia)) as (hi & Hl & Hlen & Hall & Hdec).
      exists (Z.lor (Z.land (val / 128) 0x7F) 0x80 :: hi).
      assert (Hm : 0 <= (val / 128) mod 128 < 128)
        by (apply Z.mod_pos_bound; lia).
      rewrite land_7F, lor_80 in * by exact Hm.
      split; [rewrite Hl, <- app_assoc; reflexivity |].
      split; [simpl; lia |]. split; [constructor; [lia | exact Hall] |].
      cbn [foldr]. rewrite Hdec. unfold vstep.
      rewrite land_7F. rewrite lor_shiftl
        by (change (2 ^ 7) with 128; try apply Z.mod_pos_bound; lia).
      change (2 ^ 7) with 128.
      replace (((val / 128) mod 128 + 128) mod 128) with ((val / 128) mod 128).
      2:{ rewrite <- Z.add_mod_idemp_l by lia. rewrite Z.mod_mod by lia.
          rewrite Z.add_mod by lia. change (128 mod 128) with 0.
          rewrite Z.add_0_r, !Z.mod_mod by lia. reflexivity. }
      rewrite toInt32_small.
      * pose proof (Z.div_mod (val / 128) 128 ltac:(lia)). lia.
      * pose proof (Z.div_mod (val / 128) 128 ltac:(lia)). lia.
Qed.

Lemma toVLQ_spec val :
  0 <= val < 2 ^ 31 ->
  exists cs lo,
    toVLQ val = Some (cs ++ [lo]) /\
    (length cs <= 4)%nat /\
    Forall (fun b => 128 <= b < 256) cs /\ 0 <= lo < 128 /\
    fold_left vstep (cs ++ [lo]) 0 = val.
Proof.
  intros Hv.
  destruct (vlqLoop_spec 4 val [Z.land (toInt32 val) 0x7F] 32 Hv)
    as (hi & Hl & Hlen & Hall & Hdec).
  { change (128 ^ Z.of_nat 5) with 34359738368. lia. }
  { lia. }
  exists (rev hi), (val mod 128).
  unfold toVLQ. rewrite Hl. cbn [mbind option_bind].
  rewrite toInt32_small, land_7F by lia.
  change ([val mod 128] ++ hi) with (val mod 128 :: hi). cbn [rev].
  split; [reflexivity |]. split; [rewrite length_rev; exact Hlen |].
  split; [apply Forall_rev; exact Hall |].
  split; [apply Z.mod_pos_bound; lia |].
  rewrite fold_left_app.
  assert (Hrev : forall l, fold_left vstep (rev l) 0
                           = foldr (fun b acc => vstep acc b) 0 l).
  { induction l as [| b l IHl]; [reflexivity |].
    cbn [rev foldr]. rewrite fold_left_app, IHl. reflexivity. }
  rewrite Hrev, Hdec. cbn [fold_left]. unfold vstep.
  rewrite land_7F, Z.mod_mod by lia.
  rewrite lor_shiftl by (change (2 ^ 7) with 128; try apply Z.mod_pos_bound; lia).
  change (2 ^ 7) with 128.
  pose proof (Z.div_mod val 128 ltac:(lia)).
  rewrite toInt32_small; lia.
Qed.

End MidiBytes.

(** ** The stable sort of [compileTrack] *)

Section MidiSort.

Import MidiIO MidiProps.
Local Open Scope Z_scope.

Implicit Types (e : Event) (evs : list Event).

Lemma chain_le lo evs hi : chain lo evs hi -> lo <= hi.
Proof.
  revert lo. induction evs as [| e evs IH]; intros lo; cbn [chain]; [tauto |].
  intros [Hlo Hc]. specialize (IH _ Hc). lia.
Qed.

Lemma chain_weaken lo lo' evs hi hi' :
  chain lo evs hi -> lo' <= lo -> hi <= hi' -> chain lo' evs hi'.
Proof.
  revert lo lo'. induction evs as [| e evs IH]; intros lo lo'; cbn [chain].
  - lia.
  - intros [Hlo Hc] Hl Hh. split; [lia |]. eapply IH; eauto. lia.
Qed.

Lemma chain_app lo evs1 mid evs2 hi :
  chain lo evs1 mid -> chain mid evs2 hi -> chain lo (evs1 ++ evs2) hi.
Proof.
  revert lo. induction evs1 as [| e evs1 IH]; intros lo; cbn [chain app].
  - intros Hl Hc. eapply chain_weaken; eauto. lia.
  - intros [Hlo Hc] H2. split; [exact Hlo |]. apply IH; assumption.
Qed.

Lemma chain_Forall lo evs hi :
  chain lo evs hi -> Forall (fun e => lo <= t e <= hi) evs.
Proof.
  revert lo. induction evs as [| e evs IH]; intros lo; cbn [chain];
    [constructor |].
  intros [Hlo Hc]. pose proof (chain_le _ _ _ Hc). constructor; [lia |].
  eapply Forall_impl; [apply IH; exact Hc |]. cbn. intros; lia.
Qed.

(** A list whose times do not decrease is left as it is. *)
Lemma sort_chain lo evs hi : chain lo evs hi -> sort evs = evs.
Proof.
  revert lo. induction evs as [| e evs IH]; intros lo; [reflexivity |].
  cbn [chain]. intros [_ Hc]. unfold sort in *. cbn [foldr].
  rewrite (IH _ Hc). destruct evs as [| x evs]; [reflexivity |].
  cbn [chain] in Hc. destruct Hc as [Hx _]. cbn [insert].
  destruct (Z.leb_spec (t e) (t x)); [reflexivity | lia].
Qed.

Lemma insert_chain lo e evs hi :
  lo <= t e <= hi -> chain lo evs hi -> chain lo (insert e evs) hi.
Proof.
  revert lo. induction evs as [| x evs IH]; intros lo He; cbn [chain insert].
  - intros _. split; lia.
  - intros [Hx Hc]. destruct (Z.leb_spec (t e) (t x)); cbn [chain].
    + split; [lia |]. split; [lia | exact Hc].
    + split; [exact Hx |]. apply IH; [lia | exact Hc].
Qed.

Lemma sort_bounded lo evs hi :
  lo <= hi -> Forall (fun e => lo <= t e <= hi) evs -> chain lo (sort evs) hi.
Proof.
  intros Hle. induction 1 as [| e evs He _ IH]; [exact Hle |].
  unfold sort in *. cbn [foldr]. apply insert_chain; assumption.
Qed.

Lemma insert_Forall (P : Event -> Prop) e evs :
  P e -> Forall P evs -> Forall P (insert e evs).
Proof.
  intros He. induction 1 as [| x evs Hx Hall IH]; cbn [insert].
  - constructor; [exact He | constructor].
  - destruct (t e <=? t x); constructor; auto.
Qed.

Lemma sort_Forall (P : Event -> Prop) evs : Forall P evs -> Forall P (sort evs).
Proof.
  induction 1 as [| e evs He _ IH]; [constructor |].
  unfold sort in *. cbn [foldr]. apply insert_Forall; assumption.
Qed.

Lemma length_insert e evs : length (insert e evs) = S (length evs).
Proof.
  induction evs as [| x evs IH]; [reflexivity |]. cbn [insert].
  destruct (t e <=? t x); cbn [length]; [reflexivity | rewrite IH; reflexivity].
Qed.

Lemma length_sort evs : length (sort evs) = length evs.
Proof.
  induction evs as [| e evs IH]; [reflexivity |].
  unfold sort in *. cbn [foldr]. rewrite length_insert, IH. reflexivity.
Qed.

End MidiSort.

(** ** Reading the bytes of a track *)

Section MidiRead.

Import MidiIO MidiProps.
Local Open Scope Z_scope.

Implicit Types (data bytes : list Z) (p : Z) (d : ImportedData).

Lemma has_cons data p x bytes :
  has data p (x :: bytes) -> get data p = Some x /\ has data (p + 1) bytes.
Proof.
  intros Hh. split.
  - specialize (Hh 0%nat x eq_refl). rewrite Z.add_0_r in Hh. exact Hh.
  - intros i y Hy. specialize (Hh (S i) y Hy).
    rewrite <- Hh. f_equal. lia.
Qed.

Lemma has_app data p bytes1 bytes2 :
  has data p (bytes1 ++ bytes2) ->
  has data p bytes1 /\ has data (p + Z.of_nat (length bytes1)) bytes2.
Proof.
  intros Hh. split.
  - intros i x Hx. apply Hh. apply lookup_app_l_Some. exact Hx.
  - intros i x Hx. specialize (Hh (length bytes1 + i)%nat x).
    rewrite lookup_app_r, Nat.add_comm, Nat.add_sub in Hh by lia.
    rewrite <- (Hh Hx). f_equal. lia.
Qed.

Lemma has_middle (pre bytes post : list Z) :
  has (pre ++ bytes ++ post) (Z.of_nat (length pre)) bytes.
Proof.
  intros i x Hx. unfold get.
  destruct (Z.ltb_spec (Z.of_nat (length pre) + Z.of_nat i) 0); [lia |].
  replace (Z.to_nat (Z.of_nat (length pre) + Z.of_nat i))
    with (length pre + i)%nat by lia.
  rewrite lookup_app_r by lia.
  replace (length pre + i - length pre)%nat with i by lia.
  apply lookup_app_l_Some. exact Hx.
Qed.

Lemma get_past_end data : get data (Z.of_nat (length data)) = None.
Proof.
  unfold get. destruct (Z.ltb_spec (Z.of_nat (length data)) 0); [reflexivity |].
  rewrite Nat2Z.id. apply lookup_ge_None. lia.
Qed.

Lemma readVLQ_bytes cs : forall data bound p acc lo fuel,
  Forall (fun b => 128 <= b < 256) cs -> 0 <= lo < 128 ->
  has data p (cs ++ [lo]) ->
  match bound with
  | Some end_ => p + Z.of_nat (length cs) < end_
  | None => True
  end ->
  (length cs < fuel)%nat ->
  readVLQ fuel data bound p acc
  = Some (p + Z.of_nat (length cs) + 1, fold_left vstep (cs ++ [lo]) acc).
Proof.
  induction cs as [| c cs IH]; intros data bound p acc lo fuel Hcs Hlo Hh Hb Hf.
  - destruct fuel as [| fuel]; [simpl in Hf; lia |]. cbn [readVLQ].
    assert (Hcond : match bound with Some end_ => end_ <=? p | None => false end
                    = false).
    { destruct bound as [end_ |]; [| reflexivity]. apply Z.leb_gt.
      simpl in Hb. lia. }
    rewrite Hcond. apply has_cons in Hh as [Hg _]. rewrite Hg.
    change (int32 (Some ?b)) with b. rewrite land_80 by lia.
    destruct (Z.ltb_spec lo 128); [| lia]. cbn [Z.eqb].
    f_equal. f_equal. simpl. lia.
  - destruct fuel as [| fuel]; [simpl in Hf; lia |]. cbn [readVLQ].
    assert (Hcond : match bound with Some end_ => end_ <=? p | None => false end
                    = false).
    { destruct bound as [end_ |]; [| reflexivity]. apply Z.leb_gt.
      cbn [length] in Hb. lia. }
    rewrite Hcond. cbn [app] in Hh. apply has_cons in Hh as [Hg Hrest].
    rewrite Hg. change (int32 (Some ?b)) with b.
    apply Forall_cons in Hcs as [Hc Hcs].
    rewrite land_80 by lia. destruct (Z.ltb_spec c 128); [lia |].
    change (128 =? 0) with false. cbv iota.
    rewrite (IH data bound (p + 1) _ lo fuel Hcs Hlo Hrest).
    + f_equal. f_equal. cbn [length]. lia.
    + destruct bound as [end_ |]; [| exact I]. cbn [length] in Hb. lia.
    + cbn [length] in Hf. lia.
Qed.

Lemma parseEvents_done fuel data end_ p absTime lastStatus d :
  end_ <= p ->
  parseEvents (S fuel) data end_ p absTime lastStatus d = Some d.
Proof.
  intros Hp. cbn [parseEvents].
  destruct (Z.leb_spec end_ p); [reflexivity | lia].
Qed.

(** One event with an explicit Note-On or Note-Off status. *)
Lemma parseEvents_event fuel data end_ p absTime lastStatus d cs lo ty n v :
  Forall (fun b => 128 <= b < 256) cs -> 0 <= lo < 128 ->
  (length cs < fuel)%nat ->
  0x80 <= ty < 0xA0 ->
  has data p ((cs ++ [lo]) ++ [ty; n; v]) ->
  p + Z.of_nat (length cs) + 1 < end_ ->
  parseEvents (S fuel) data end_ p absTime lastStatus d
  = parseEvents fuel data end_ (p + Z.of_nat (length cs) + 4)
      (absTime + fold_left vstep (cs ++ [lo]) 0) (Some ty)
      (if (Z.land ty 0xF0 =? 0x90) && (0 <? v)
       then recordNote (absTime + fold_left vstep (cs ++ [lo]) 0)
                       (Z.land ty 0x0F) (Some n) v d
       else d).
Proof.
  intros Hcs Hlo Hf Hty Hh Hend. cbn [parseEvents].
  destruct (Z.leb_spec end_ p); [lia |].
  apply has_app in Hh as [Hvlq Hev].
  rewrite (readVLQ_bytes cs data (Some end_) p 0 lo fuel Hcs Hlo Hvlq)
    by (try assumption; lia).
  cbn [mbind option_bind].
  rewrite length_app in Hev. cbn [length] in Hev.
  replace (p + Z.of_nat (length cs + 1)) with (p + Z.of_nat (length cs) + 1)
    in Hev by lia.
  destruct (Z.leb_spec end_ (p + Z.of_nat (length cs) + 1)); [lia |].
  apply has_cons in Hev as [Hty' Hev]. rewrite Hty'.
  destruct (Z.ltb_spec ty 0x80); [lia |].
  change (int32 (Some ?b)) with b.
  apply has_cons in Hev as [Hn Hev]. apply has_cons in Hev as [Hv _].
  destruct (status_kind ty Hty) as [Hk _]. rewrite Hk.
  replace (p + Z.of_nat (length cs) + 1 + 1 + 2)
    with (p + Z.of_nat (length cs) + 4) by lia.
  destruct (Z.ltb_spec ty 0x90).
  - change (0x80 =? 0x90) with false. change (0x80 =? 0x80) with true.
    cbn [andb]. cbv iota. reflexivity.
  - change (0x90 =? 0x90) with true. cbv iota. cbn [andb].
    rewrite Hn, Hv. reflexivity.
Qed.

(** A meta event with a one-byte length and a zero delta time. *)
Lemma parseEvents_meta fuel data end_ p absTime lastStatus d ty n :
  0 <= n < 128 -> (2 <= fuel)%nat ->
  has data p [0; 0xFF; ty; n] ->
  p + 1 < end_ ->
  parseEvents (S fuel) data end_ p absTime lastStatus d
  = parseEvents fuel data end_ (p + 4 + n) absTime (Some 0xFF) d.
Proof.
  intros Hn Hf Hh Hend. cbn [parseEvents].
  destruct (Z.leb_spec end_ p); [lia |].
  pose proof Hh as Hh0. apply has_cons in Hh as [H0 Hh].
  assert (Hone : forall q x, get data q = Some x -> has data q ([] ++ [x])).
  { intros q x Hq i y Hy. destruct i as [| i]; [| discriminate Hy].
    inversion Hy; subst y. rewrite Z.add_0_r. exact Hq. }
  rewrite (readVLQ_bytes [] data (Some end_) p 0 0 fuel (List.Forall_nil _)
             ltac:(lia) (Hone _ _ H0))
    by (cbn [length]; lia).
  cbn [mbind option_bind length app fold_left].
  change (vstep 0 0) with 0.
  replace (p + Z.of_nat 0 + 1) with (p + 1) by lia.
  destruct (Z.leb_spec end_ (p + 1)); [lia |].
  apply has_cons in Hh as [Hst Hh]. rewrite Hst.
  change (0xFF <? 0x80) with false. cbv iota. change (int32 (Some ?b)) with b.
  change (Z.land 0xFF 0xF0) with 0xF0.
  change (0xF0 =? 0x90) with false. change (0xF0 =? 0x80) with false.
  change (0xF0 =? 0xB0) with false. change (0xF0 =? 0xC0) with false.
  change (0xF0 =? 0xE0) with false. cbv iota.
  rewrite bool_decide_eq_true_2 by reflexivity.
  apply has_cons in Hh as [_ Hh]. apply has_cons in Hh as [Hlen _].
  rewrite (readVLQ_bytes [] data None (p + 1 + 1 + 1) 0 n fuel (List.Forall_nil _)
             Hn (Hone _ _ Hlen) I)
    by (cbn [length]; lia).
  cbn [mbind option_bind length app fold_left].
  assert (Hvn : vstep 0 n = n).
  { unfold vstep. rewrite land_7F, Z.mod_small by lia.
    change (Z.shiftl 0 7) with 0. rewrite Z.lor_0_l.
    apply toInt32_small. lia. }
  rewrite Hvn.
  replace (p + 1 + 1 + 1 + Z.of_nat 0 + 1 + n) with (p + 4 + n) by lia.
  rewrite Z.add_0_r. reflexivity.
Qed.

(** The end-of-track event closes the chunk. *)
Lemma parseEvents_end_of_track fuel data p absTime lastStatus d :
  (3 <= fuel)%nat ->
  has data p [0x00; 0xFF; 0x2F; 0x00] ->
  parseEvents fuel data (p + 4) p absTime lastStatus d = Some d.
Proof.
  intros Hf Hh. destruct fuel as [| fuel]; [lia |].
  rewrite (parseEvents_meta fuel data (p + 4) p absTime lastStatus d 0x2F 0)
    by (try assumption; lia).
  destruct fuel as [| fuel]; [lia |]. apply parseEvents_done. lia.
Qed.

End MidiRead.

(** ** Reading a compiled track and a whole file *)

Section MidiTracks.

Import MidiIO MidiProps.
Local Open Scope Z_scope.

Implicit Types (data : list Z) (p : Z) (d : ImportedData)
         (e : Event) (evs : list Event).

Lemma encodeEvents_Some evs : forall lastTime hi,
  chain lastTime evs hi -> 0 <= lastTime -> hi < 2 ^ 31 ->
  exists bytes,
    encodeEvents lastTime evs = Some bytes /\
    (length evs <= length bytes <= 8 * length evs)%nat.
Proof.
  induction evs as [| e evs IH]; intros lastTime hi Hc Hlo Hhi.
  - exists []. split; [reflexivity | simpl; lia].
  - cbn [chain] in Hc. destruct Hc as [Hle Hc].
    pose proof (chain_le _ _ _ Hc) as Hte.
    destruct (toVLQ_spec (t e - lastTime) ltac:(lia))
      as (cs & lo & Hvlq & Hlen & _).
    destruct (IH (t e) hi Hc ltac:(lia) Hhi) as (more & Hmore & Hbound).
    cbn [encodeEvents]. rewrite Hvlq, Hmore. cbn [mbind option_bind].
    eexists. split; [reflexivity |].
    rewrite !length_app, length_map, length_app. cbn [length]. lia.
Qed.

Lemma encodeEvents_parse evs : forall lastTime hi bytes data p lastStatus d fuel,
  chain lastTime evs hi -> 0 <= lastTime -> hi < 2 ^ 31 ->
  Forall wire_ok evs ->
  encodeEvents lastTime evs = Some bytes ->
  has data p (map toUint8 (bytes ++ map JS.Num [0x00; 0xFF; 0x2F; 0x00])) ->
  (length evs + 8 <= fuel)%nat ->
  parseEvents fuel data (p + Z.of_nat (length bytes) + 4) p lastTime lastStatus d
  = Some (fold_left applyEvent evs d).
Proof.
  induction evs as [| e evs IH];
    intros lastTime hi bytes data p lastStatus d fuel Hc Hlo Hhi Hok Henc Hh Hf.
  - cbn in Henc. inversion Henc; subst bytes. cbn [length fold_left].
    rewrite Z.add_0_r. apply parseEvents_end_of_track; [lia |]. exact Hh.
  - cbn [chain] in Hc. destruct Hc as [Hle Hc].
    pose proof (chain_le _ _ _ Hc) as Hte.
    apply Forall_cons in Hok as [[Hty Hvel] Hok].
    destruct (toVLQ_spec (t e - lastTime) ltac:(lia))
      as (cs & lo & Hvlq & Hlen & Hcs & Hlo' & Hdec).
    cbn [encodeEvents] in Henc. rewrite Hvlq in Henc.
    cbn [mbind option_bind] in Henc.
    destruct (encodeEvents (t e) evs) as [more |] eqn:Emore;
      [| discriminate Henc].
    cbn [mbind option_bind] in Henc. inversion Henc; subst bytes. clear Henc.
    assert (Hbytes : Forall is_byte (cs ++ [lo])).
    { apply Forall_app. split.
      - eapply Forall_impl; [exact Hcs |]. unfold is_byte. cbn. intros; lia.
      - constructor; [unfold is_byte; lia | constructor]. }
    assert (Hwire : map toUint8
                      ((map JS.Num (cs ++ [lo])
                          ++ JS.Num (type e) :: note e :: JS.Num (vel e) :: more)
                         ++ map JS.Num [0x00; 0xFF; 0x2F; 0x00])
                    = ((cs ++ [lo]) ++ [type e; toUint8 (note e); vel e])
                        ++ map toUint8 (more ++ map JS.Num [0x00; 0xFF; 0x2F; 0x00])).
    { rewrite (map_app toUint8 _ (map JS.Num [0x00; 0xFF; 0x2F; 0x00])).
      rewrite (map_app toUint8 (map JS.Num (cs ++ [lo]))).
      rewrite map_toUint8_bytes by exact Hbytes. cbn [map app].
      rewrite !toUint8_byte by (unfold is_byte; lia).
      rewrite map_app. cbn [map].
      rewrite !toUint8_byte by (unfold is_byte; lia).
      rewrite <- !app_assoc. reflexivity. }
    rewrite Hwire in Hh. pose proof Hh as Hh'. apply has_app in Hh' as [Hev Hrest].
    destruct fuel as [| fuel]; [lia |].
    rewrite (parseEvents_event fuel data _ p lastTime lastStatus d cs lo
               (type e) (toUint8 (note e)) (vel e) Hcs Hlo' ltac:(lia) Hty Hev).
    2:{ rewrite !length_app, length_map, length_app. cbn [length]. lia. }
    rewrite Hdec. replace (lastTime + (t e - lastTime)) with (t e) by lia.
    rewrite !length_app in Hrest. cbn [length] in Hrest.
    replace (p + Z.of_nat (length cs + 1 + 3)) with (p + Z.of_nat (length cs) + 4)
      in Hrest by lia.
    cbn [fold_left].
    rewrite <- (IH (t e) hi more data (p + Z.of_nat (length cs) + 4) (Some (type e))
                   (applyEvent d e) fuel Hc ltac:(lia) Hhi Hok Emore Hrest
                   ltac:(cbn [length] in Hf; lia)).
    f_equal.
    rewrite !length_app, length_map, length_app. cbn [length]. lia.
Qed.

(** A compiled track is read as the effect of its events, in sorted
    order. *)
Lemma compileTrack_reads evs hi :
  Forall (fun e => 0 <= t e <= hi) evs -> 0 <= hi < 2 ^ 31 ->
  Forall wire_ok evs ->
  exists track,
    compileTrack evs = Some track /\
    (length track <= 8 * length evs + 4)%nat /\
    reads track (fun d => fold_left applyEvent (sort evs) d).
Proof.
  intros Ht Hhi Hok.
  pose proof (sort_bounded 0 evs hi ltac:(lia) Ht) as Hc.
  destruct (encodeEvents_Some _ _ _ Hc ltac:(lia) ltac:(lia))
    as (bytes & Henc & Hlen).
  rewrite length_sort in Hlen.
  exists (bytes ++ map JS.Num [0x00; 0xFF; 0x2F; 0x00]).
  unfold compileTrack. rewrite Henc. cbn [mbind option_bind].
  split; [reflexivity |]. split.
  { rewrite length_app. cbn [length map]. lia. }
  intros data p d fuel Hh Hf.
  rewrite length_app in *. cbn [length map] in *.
  replace (p + Z.of_nat (length bytes + 4)) with (p + Z.of_nat (length bytes) + 4)
    by lia.
  eapply encodeEvents_parse; eauto; try lia.
  - apply sort_Forall. exact Hok.
  - rewrite length_sort. lia.
Qed.

(** The tempo track leaves the imported data as it is. *)
Lemma track0_reads bpm :
  reads (map JS.Num ([0x00; 0xFF; 0x51; 0x03] ++ bpmToTempoBytes bpm
                       ++ [0x00; 0xFF; 0x2F; 0x00]))
        (fun d => d).
Proof.
  intros data p d fuel Hh Hf.
  rewrite map_toUint8_bytes in Hh.
  2:{ unfold bpmToTempoBytes. cbn [app].
      repeat (constructor; [first [apply byteOf_byte | unfold is_byte; lia] |]).
      constructor. }
  rewrite length_map in *. unfold bpmToTempoBytes in *. cbn [app length] in *.
  destruct fuel as [| fuel]; [lia |].
  rewrite (parseEvents_meta fuel data _ p 0 (Some 0) d 0x51 3); try lia.
  - replace (p + Z.of_nat 11) with ((p + 4 + 3) + 4) by lia.
    apply parseEvents_end_of_track; [lia |].
    intros i x Hx. specialize (Hh (7 + i)%nat x Hx).
    rewrite <- Hh. f_equal. lia.
  - intros i x Hx. apply Hh.
    do 4 (destruct i as [| i]; [exact Hx |]). discriminate Hx.
Qed.

(** The length field of a chunk. *)
Lemma length_field n :
  0 <= n < 2 ^ 31 ->
  Z.lor (Z.lor (Z.lor (toInt32 (Z.shiftl (byteOf n 24) 24))
                      (Z.shiftl (byteOf n 16) 16))
               (Z.shiftl (byteOf n 8) 8))
        (byteOf n 0) = n.
Proof.
  intros Hn. unfold byteOf. rewrite !land_FF, !(toInt32_small n) by lia.
  rewrite !Z.shiftr_div_pow2 by lia.
  change (2 ^ 24) with 16777216. change (2 ^ 16) with 65536.
  change (2 ^ 8) with 256. change (2 ^ 0) with 1. rewrite Z.div_1_r.
  set (b3 := (n / 16777216) mod 256). set (b2 := (n / 65536) mod 256).
  set (b1 := (n / 256) mod 256). set (b0 := n mod 256).
  assert (H3 : 0 <= b3 < 128).
  { unfold b3. rewrite Z.mod_small.
    - split; [apply Z.div_pos; lia | apply Z.div_lt_upper_bound; lia].
    - split; [apply Z.div_pos; lia | apply Z.div_lt_upper_bound; lia]. }
  assert (H2 : 0 <= b2 < 256) by (apply Z.mod_pos_bound; lia).
  assert (H1 : 0 <= b1 < 256) by (apply Z.mod_pos_bound; lia).
  assert (H0 : 0 <= b0 < 256) by (apply Z.mod_pos_bound; lia).
  assert (Hsum : n = ((b3 * 256 + b2) * 256 + b1) * 256 + b0).
  { unfold b3, b2, b1, b0.
    pose proof (Z.div_mod n 256 ltac:(lia)) as E0.
    pose proof (Z.div_mod (n / 256) 256 ltac:(lia)) as E1.
    rewrite Z.div_div in E1 by lia. change (256 * 256) with 65536 in E1.
    pose proof (Z.div_mod (n / 65536) 256 ltac:(lia)) as E2.
    rewrite Z.div_div in E2 by lia. change (65536 * 256) with 16777216 in E2.
    assert (E3 : (n / 16777216) mod 256 = n / 16777216).
    { apply Z.mod_small.
      split; [apply Z.div_pos; lia | apply Z.div_lt_upper_bound; lia]. }
    rewrite E3. lia. }
  rewrite toInt32_small.
  2:{ rewrite Z.shiftl_mul_pow2 by lia. change (2 ^ 24) with 16777216. lia. }
  assert (Hhorner :
            Z.lor (Z.lor (Z.lor (Z.shiftl b3 24) (Z.shiftl b2 16)) (Z.shiftl b1 8)) b0
            = Z.lor (Z.shiftl (Z.lor (Z.shiftl (Z.lor (Z.shiftl b3 8) b2) 8) b1) 8) b0).
  { rewrite !Z.shiftl_lor, !Z.shiftl_shiftl by lia. reflexivity. }
  rewrite Hhorner. change 256 with (2 ^ 8) in H2, H1, H0.
  rewrite (lor_shiftl b3 b2 8) by lia.
  rewrite (lor_shiftl _ b1 8) by lia.
  rewrite (lor_shiftl _ b0 8) by lia.
  change (2 ^ 8) with 256. lia.
Qed.

Lemma chunk_bytes track :
  map toUint8 (chunk track)
  = MTrk ++ [byteOf (Z.of_nat (length track)) 24;
             byteOf (Z.of_nat (length track)) 16;
             byteOf (Z.of_nat (length track)) 8;
             byteOf (Z.of_nat (length track)) 0] ++ map toUint8 track.
Proof.
  unfold chunk. rewrite !map_app. rewrite !map_toUint8_bytes; [reflexivity | |].
  - repeat (constructor; [apply byteOf_byte |]). constructor.
  - unfold MTrk. repeat (constructor; [unfold is_byte; lia |]). constructor.
Qed.

Lemma parseTracks_chunks tracks Fs :
  Forall2 reads tracks Fs ->
  Forall (fun track => Z.of_nat (length track) < 2 ^ 31) tracks ->
  forall m pre d fuel,
    Forall (fun track => (length track <= m)%nat) tracks ->
    (m + 9 + length tracks <= fuel)%nat ->
    parseTracks fuel (pre ++ map toUint8 (concat (map chunk tracks)))
                (Z.of_nat (length pre)) d
    = Some (fold_left (fun d F => F d) Fs d).
Proof.
  induction 1 as [| track F tracks Fs Hr _ IH]; intros Hlen m pre d fuel Hfuel Hn.
  - destruct fuel as [| fuel]; [simpl in Hn; lia |].
    cbn [map concat parseTracks fold_left]. rewrite app_nil_r.
    destruct (Z.leb_spec (Z.of_nat (length pre)) (Z.of_nat (length pre)));
      [reflexivity | lia].
  - apply Forall_cons in Hlen as [Hl Hlen].
    apply Forall_cons in Hfuel as [Hf Hfuel].
    destruct fuel as [| fuel]; [lia |].
    cbn [map concat]. rewrite map_app, chunk_bytes.
    set (post := map toUint8 (concat (map chunk tracks))).
    set (n := Z.of_nat (length track)) in *.
    set (data := pre ++ (MTrk ++ [byteOf n 24; byteOf n 16; byteOf n 8; byteOf n 0]
                           ++ map toUint8 track) ++ post).
    pose proof (has_middle pre (MTrk ++ [byteOf n 24; byteOf n 16; byteOf n 8;
                                         byteOf n 0] ++ map toUint8 track) post)
      as Hh.
    fold data in Hh. set (p := Z.of_nat (length pre)) in *.
    apply has_app in Hh as [Hm Hh]. apply has_app in Hh as [Hl4 Hbody].
    change (Z.of_nat (length MTrk)) with 4 in *.
    cbn [length] in Hbody. replace (p + 4 + Z.of_nat 4) with (p + 4 + 4) in Hbody by lia.
    cbn [parseTracks].
    assert (Hlong : (Z.of_nat (length data) <=? p) = false).
    { apply Z.leb_gt. unfold data, p. rewrite !length_app. cbn [length MTrk]. lia. }
    rewrite Hlong. cbn [length] in Hn.
    assert (Hhead : map (fun i => get data (p + i)) [0; 1; 2; 3] = map Some MTrk).
    { pose proof (Hm 0%nat _ eq_refl) as M0. pose proof (Hm 1%nat _ eq_refl) as M1.
      pose proof (Hm 2%nat _ eq_refl) as M2. pose proof (Hm 3%nat _ eq_refl) as M3.
      cbn [map MTrk]. change (Z.of_nat 0) with 0 in M0.
      change (Z.of_nat 1) with 1 in M1. change (Z.of_nat 2) with 2 in M2.
      change (Z.of_nat 3) with 3 in M3.
      rewrite M0, M1, M2, M3. reflexivity. }
    rewrite bool_decide_eq_true_2 by exact Hhead. cbn [negb].
    pose proof (Hl4 0%nat _ eq_refl) as G0. rewrite Z.add_0_r in G0.
    pose proof (Hl4 1%nat _ eq_refl) as G1.
    pose proof (Hl4 2%nat _ eq_refl) as G2.
    pose proof (Hl4 3%nat _ eq_refl) as G3.
    change (Z.of_nat 1) with 1 in G1. change (Z.of_nat 2) with 2 in G2.
    change (Z.of_nat 3) with 3 in G3.
    rewrite G0, G1, G2, G3. change (int32 (Some ?b)) with b.
    rewrite length_field by (unfold n; lia).
    pose proof (Hr data (p + 4 + 4) d fuel Hbody ltac:(lia)) as Hread.
    fold n in Hread. rewrite Hread.
    cbn [mbind option_bind fold_left].
    assert (Hpre : data = (pre ++ MTrk ++ [byteOf n 24; byteOf n 16; byteOf n 8;
                                           byteOf n 0] ++ map toUint8 track) ++ post).
    { unfold data. rewrite <- !app_assoc. reflexivity. }
    rewrite Hpre.
    replace (p + 4 + 4 + n)
      with (Z.of_nat (length (pre ++ MTrk ++ [byteOf n 24; byteOf n 16; byteOf n 8;
                                              byteOf n 0] ++ map toUint8 track))).
    2:{ rewrite !length_app, length_map. cbn [length MTrk]. unfold p, n. lia. }
    apply (IH Hlen m); [exact Hfuel | cbn [length] in Hn; lia].
Qed.

End MidiTracks.

(** ** The events of the exported tracks *)

Section MidiEvents.

Import MidiIO MidiProps.
Local Open Scope Z_scope.

Implicit Types (d : ImportedData) (e : Event) (evs : list Event)
         (bs : list Block) (blk : Block) (key : string).

Lemma obj_get_set {V} (o : list (Z * V)) k v k' :
  obj_get (obj_set o k v) k' = if k =? k' then Some v else obj_get o k'.
Proof.
  induction o as [| [k0 v0] o IH]; cbn [obj_set obj_get]; [reflexivity |].
  destruct (Z.eqb_spec k0 k) as [-> | Hne]; cbn [obj_get].
  - destruct (k =? k'); reflexivity.
  - rewrite IH. destruct (Z.eqb_spec k0 k'), (Z.eqb_spec k k');
      try reflexivity. congruence.
Qed.

Lemma step_of_time st :
  (2 * (st * stepTicks) + stepTicks) / (2 * stepTicks) = st.
Proof.
  change stepTicks with 120. symmetry.
  apply Z.div_unique with (r := 120); lia.
Qed.

Lemma bass_at_recordNote absTime ch n v d st :
  bass_at (recordNote absTime ch n v d) st
  = if ch =? 9 then bass_at d st
    else if (2 * absTime + stepTicks) / (2 * stepTicks) =? st
         then Some {| nd_note := n; nd_vel := v |}
         else bass_at d st.
Proof.
  unfold recordNote, bass_at. destruct (ch =? 9); cbn; [reflexivity |].
  apply obj_get_set.
Qed.

(** *** A bass track *)

Lemma noteEvents_wire ch time n :
  0 <= ch < 16 -> Forall wire_ok (noteEvents ch time n).
Proof.
  intros Hch. unfold noteEvents.
  rewrite !lor_channel by (auto; lia).
  repeat constructor; cbn; try lia; destruct (accent n); lia.
Qed.

Lemma noteEvents_effect ch st n d st' :
  0 <= ch < 16 -> ch <> 9 ->
  bass_at (fold_left applyEvent (noteEvents ch (st * stepTicks) n) d) st'
  = if st =? st' then Some (noteData_of n) else bass_at d st'.
Proof.
  intros Hch H9. unfold noteEvents. cbn [fold_left]. unfold applyEvent at 1 2.
  cbn [type vel t note].
  rewrite !lor_channel by (auto; lia).
  destruct (status_kind (0x80 + ch) ltac:(lia)) as [K80 _].
  destruct (status_kind (0x90 + ch) ltac:(lia)) as [K90 C90].
  rewrite K80, K90.
  destruct (Z.ltb_spec (0x80 + ch) 0x90); [| lia].
  destruct (Z.ltb_spec (0x90 + ch) 0x90); [lia |].
  change (0x80 =? 0x90) with false. change (0x90 =? 0x90) with true.
  cbn [andb].
  assert (Hv : (0 <? (if accent n then 127 else 90)) = true)
    by (destruct (accent n); reflexivity).
  rewrite Hv, C90.
  replace ((0x90 + ch) mod 16) with ch
    by (apply Z.mod_unique with (q := 9); lia).
  rewrite bass_at_recordNote, step_of_time.
  destruct (Z.eqb_spec ch 9); [contradiction |]. reflexivity.
Qed.

Lemma noteEvents_chain ch time n :
  chain time (noteEvents ch time n) (time + stepTicks).
Proof.
  unfold noteEvents. change stepTicks with 120. cbn. lia.
Qed.

(** The notes of one block, from step [j0] on. *)
Lemma arrayEvents ch B (arr : list (option Note)) : forall (j0 : nat) d,
  0 <= ch < 16 -> ch <> 9 ->
  let body := fun (noteData : option Note) (sIdx : nat) =>
                match noteData with
                | Some n =>
                    noteEvents ch (Z.of_nat B * 16 * stepTicks
                                   + Z.of_nat sIdx * stepTicks) n
                | None => []
                end in
  let evs := pushEach body j0 arr in
  chain ((Z.of_nat B * 16 + Z.of_nat j0) * stepTicks) evs
        ((Z.of_nat B * 16 + Z.of_nat (j0 + length arr)) * stepTicks) /\
  Forall wire_ok evs /\
  (length evs <= 2 * length arr)%nat /\
  forall st : nat,
    bass_at (fold_left applyEvent evs d) (Z.of_nat st)
    = match (if decide (B * 16 + j0 <= st)%nat
             then mjoin (arr !! (st - (B * 16 + j0))%nat) else None) with
      | Some n => Some (noteData_of n)
      | None => bass_at d (Z.of_nat st)
      end.
Proof.
  induction arr as [| x arr IH]; intros j0 d Hch H9 body evs.
  - subst evs. cbn [pushEach length fold_left]. rewrite Nat.add_0_r.
    split; [cbn; lia |]. split; [constructor |]. split; [lia |].
    intros st. destruct (decide _); reflexivity.
  - subst evs. cbn [pushEach].
    destruct (IH (S j0) (fold_left applyEvent (body x j0) d) Hch H9)
      as (Hc & Hw & Hl & He).
    fold body in Hc, Hw, Hl, He.
    assert (Htime : Z.of_nat B * 16 * stepTicks + Z.of_nat j0 * stepTicks
                    = (Z.of_nat B * 16 + Z.of_nat j0) * stepTicks) by lia.
    split; [| split; [| split]].
    + eapply chain_app; [| replace (j0 + length (x :: arr))%nat
                             with (S j0 + length arr)%nat by (cbn; lia);
                           exact Hc].
      destruct x as [n |]; cbn [body].
      * rewrite Htime. eapply chain_weaken; [apply noteEvents_chain | lia |].
        change stepTicks with 120. lia.
      * cbn. change stepTicks with 120. lia.
    + apply Forall_app. split; [| exact Hw].
      destruct x as [n |]; cbn [body]; [apply noteEvents_wire; exact Hch |].
      constructor.
    + rewrite length_app. cbn [length].
      assert (length (body x j0) <= 2)%nat
        by (destruct x; cbn; lia).
      lia.
    + intros st. rewrite fold_left_app, He.
      destruct (decide (B * 16 + S j0 <= st)%nat) as [Hin | Hout].
      * rewrite decide_True by lia.
        replace (st - (B * 16 + j0))%nat with (S (st - (B * 16 + S j0)))%nat
          by lia.
        cbn [lookup list_lookup].
        destruct (mjoin (arr !! (st - (B * 16 + S j0))%nat)) as [n |];
          [reflexivity |].
        destruct x as [n |]; cbn [body]; [| reflexivity].
        rewrite Htime, noteEvents_effect by assumption.
        destruct (Z.eqb_spec (Z.of_nat B * 16 + Z.of_nat j0) (Z.of_nat st));
          [lia | reflexivity].
      * destruct (decide (B * 16 + j0 <= st)%nat) as [Heq | Hlt].
        -- replace (st - (B * 16 + j0))%nat with 0%nat by lia.
           cbn [lookup list_lookup mjoin option_join].
           destruct x as [n |]; cbn [body mjoin option_join]; [| reflexivity].
           rewrite Htime, noteEvents_effect by assumption.
           destruct (Z.eqb_spec (Z.of_nat B * 16 + Z.of_nat j0) (Z.of_nat st));
             [reflexivity | lia].
        -- destruct x as [n |]; cbn [body]; [| reflexivity].
           rewrite Htime, noteEvents_effect by assumption.
           destruct (Z.eqb_spec (Z.of_nat B * 16 + Z.of_nat j0) (Z.of_nat st));
             [lia | reflexivity].
Qed.

(** The events of a track over the blocks from index [B0] on. *)
Lemma blockEvents_spec key ch bs : forall (B0 : nat) d,
  0 <= ch < 16 -> ch <> 9 ->
  (forall blk arr, In blk bs -> tracks blk !! key = Some arr ->
                   length arr = 16%nat) ->
  let evs := pushEach (blockEvents key ch) B0 bs in
  chain (Z.of_nat B0 * 16 * stepTicks) evs
        (Z.of_nat (B0 + length bs) * 16 * stepTicks) /\
  Forall wire_ok evs /\
  (length evs <= 32 * length bs)%nat /\
  (forall st : nat, (st < B0 * 16)%nat ->
     bass_at (fold_left applyEvent evs d) (Z.of_nat st) = bass_at d (Z.of_nat st)) /\
  (forall b s : nat, (s < 16)%nat ->
     bass_at (fold_left applyEvent evs d) (Z.of_nat ((B0 + b) * 16 + s))
     = match note_at bs b key s with
       | Some n => Some (noteData_of n)
       | None => bass_at d (Z.of_nat ((B0 + b) * 16 + s))
       end).
Proof.
  induction bs as [| blk bs IH]; intros B0 d Hch H9 Hlen evs.
  - subst evs. cbn [pushEach length fold_left]. rewrite Nat.add_0_r.
    split; [cbn; lia |]. split; [constructor |]. split; [lia |].
    split; [reflexivity |]. intros b s Hs. unfold note_at.
    rewrite lookup_nil. reflexivity.
  - subst evs. cbn [pushEach].
    assert (Hlen' : forall blk' arr, In blk' bs -> tracks blk' !! key = Some arr ->
                                     length arr = 16%nat)
      by (intros blk' arr Hin; apply Hlen; right; exact Hin).
    destruct (IH (S B0) (fold_left applyEvent (blockEvents key ch blk B0) d)
                 Hch H9 Hlen') as (Hc & Hw & Hl & Hlow & He).
    assert (Hblk :
              chain (Z.of_nat B0 * 16 * stepTicks) (blockEvents key ch blk B0)
                    (Z.of_nat (S B0) * 16 * stepTicks) /\
              Forall wire_ok (blockEvents key ch blk B0) /\
              (length (blockEvents key ch blk B0) <= 32)%nat /\
              forall (d0 : ImportedData) (st : nat),
                bass_at (fold_left applyEvent (blockEvents key ch blk B0) d0)
                        (Z.of_nat st)
                = match (if decide (B0 * 16 <= st)%nat
                         then note_at [blk] 0 key (st - B0 * 16) else None) with
                  | Some n => Some (noteData_of n)
                  | None => bass_at d0 (Z.of_nat st)
                  end).
    { unfold blockEvents, note_at. cbn [lookup list_lookup mbind option_bind].
      destruct (tracks blk !! key) as [arr |] eqn:Earr.
      - pose proof (Hlen blk arr (or_introl eq_refl) Earr) as Harr.
        split; [| split; [| split]].
        + destruct (arrayEvents ch B0 arr 0 d Hch H9) as (Hc0 & _).
          rewrite Harr in Hc0. eapply chain_weaken; [exact Hc0 | lia | lia].
        + destruct (arrayEvents ch B0 arr 0 d Hch H9) as (_ & Hw0 & _).
          exact Hw0.
        + destruct (arrayEvents ch B0 arr 0 d Hch H9) as (_ & _ & Hl0 & _).
          lia.
        + intros d0 st.
          destruct (arrayEvents ch B0 arr 0 d0 Hch H9) as (_ & _ & _ & He0).
          rewrite He0. rewrite !Nat.add_0_r.
          destruct (decide (B0 * 16 <= st)%nat); reflexivity.
      - split; [cbn; change stepTicks with 120; lia |].
        split; [constructor |]. split; [cbn; lia |].
        intros d0 st. cbn [fold_left]. destruct (decide _); reflexivity. }
    destruct Hblk as (Hc0 & Hw0 & Hl0 & He0).
    split; [| split; [| split; [| split]]].
    + eapply chain_app; [exact Hc0 |].
      replace (B0 + length (blk :: bs))%nat with (S B0 + length bs)%nat
        by (cbn; lia).
      exact Hc.
    + apply Forall_app. split; assumption.
    + rewrite length_app. cbn [length]. lia.
    + intros st Hst. rewrite fold_left_app, Hlow by lia.
      rewrite He0. rewrite decide_False by lia. reflexivity.
    + intros b s Hs. rewrite fold_left_app. destruct b as [| b].
      * rewrite Hlow by lia. rewrite He0.
        rewrite decide_True by lia.
        replace ((B0 + 0) * 16 + s - B0 * 16)%nat with s by lia.
        reflexivity.
      * replace ((B0 + S b) * 16 + s)%nat with ((S B0 + b) * 16 + s)%nat by lia.
        rewrite (He b s Hs).
        change (note_at (blk :: bs) (S b) key s) with (note_at bs b key s).
        destruct (note_at bs b key s) as [n |]; [reflexivity |].
        rewrite He0. rewrite decide_True by lia.
        unfold note_at. cbn [lookup list_lookup mbind option_bind].
        destruct (tracks blk !! key) as [arr |] eqn:Earr; [| reflexivity].
        pose proof (Hlen blk arr (or_introl eq_refl) Earr) as Harr.
        cbn [mbind option_bind].
        rewrite (lookup_ge_None_2 arr) by lia. reflexivity.
Qed.

(** *** The drum track *)

Lemma drum_events_bass evs d :
  Forall drum_event evs ->
  imported_bass (fold_left applyEvent evs d) = imported_bass d.
Proof.
  intros Hall. revert d. induction Hall as [| e evs He _ IH]; intros d;
    [reflexivity |].
  cbn [fold_left]. rewrite IH. unfold applyEvent.
  destruct He as [-> | ->].
  - change (Z.land 0x99 0xF0 =? 0x90) with true.
    change (Z.land 0x99 0x0F) with 9. cbn [andb].
    destruct (0 <? vel e); reflexivity.
  - reflexivity.
Qed.

End MidiEvents.

(** ** The exported file and what the parser makes of it *)

Section MidiFile.

Import MidiIO MidiProps.
Local Open Scope Z_scope.

Implicit Types (d : ImportedData) (e : Event) (evs : list Event)
         (bs : list Block) (blk : Block) (key : string).

Lemma hitEvents_spec time chId hi :
  0 <= time -> time + 60 <= hi ->
  Forall (fun e => 0 <= t e <= hi /\ wire_ok e /\ drum_event e)
         (hitEvents time chId).
Proof.
  intros H0 Hhi. unfold hitEvents, wire_ok, drum_event.
  repeat constructor; cbn; lia.
Qed.

Lemma stepDrums_spec (B : nat) (arr : list (list nat)) : forall (j0 : nat),
  Forall (fun hits => (length hits <= 9)%nat) arr ->
  let body := fun (stepDrums : list nat) (sIdx : nat) =>
                flat_map (hitEvents (Z.of_nat B * 16 * stepTicks
                                     + Z.of_nat sIdx * stepTicks)) stepDrums in
  let evs := pushEach body j0 arr in
  Forall (fun e => 0 <= t e
                   <= (Z.of_nat B * 16 + Z.of_nat (j0 + length arr)) * stepTicks
                   /\ wire_ok e /\ drum_event e) evs /\
  (length evs <= 18 * length arr)%nat.
Proof.
  induction arr as [| hits arr IH]; intros j0 Hall body evs.
  - subst evs. cbn. split; [constructor | lia].
  - subst evs. cbn [pushEach]. apply Forall_cons in Hall as [Hh Hall].
    destruct (IH (S j0) Hall) as [Hf Hl]. fold body in Hf, Hl.
    split.
    + apply Forall_app. split.
      * unfold body. apply Forall_flat_map. apply Forall_forall. intros chId _.
        apply hitEvents_spec; cbn [length]; change stepTicks with 120; lia.
      * eapply Forall_impl; [exact Hf |]. cbn. intros e (Ht & Hw & Hd).
        split; [| split; assumption]. cbn [length].
        replace (j0 + S (length arr))%nat with (S j0 + length arr)%nat by lia.
        exact Ht.
    + rewrite length_app. cbn [length].
      assert (length (body hits j0) <= 18)%nat.
      { unfold body. clear -Hh. induction hits as [| h hits IHh]; [cbn; lia |].
        cbn [flat_map]. rewrite length_app. cbn [length hitEvents] in *.
        specialize (IHh ltac:(lia)).
        assert (length (flat_map (hitEvents (Z.of_nat B * 16 * stepTicks
                                             + Z.of_nat j0 * stepTicks)) hits)
                <= 2 * length hits)%nat.
        { clear. induction hits as [| h hits IHh]; [cbn; lia |].
          cbn [flat_map]. rewrite length_app. cbn [length hitEvents]. lia. }
        lia. }
      lia.
Qed.

Lemma drumEvents_from bs : forall (B0 : nat),
  (forall blk, In blk bs ->
     length (drums blk) = 16%nat /\
     Forall (fun hits => (length hits <= 9)%nat) (drums blk)) ->
  let body := fun blk (bIdx : nat) =>
                pushEach
                  (fun (stepDrums : list nat) (sIdx : nat) =>
                     flat_map (hitEvents (Z.of_nat bIdx * 16 * stepTicks
                                          + Z.of_nat sIdx * stepTicks)) stepDrums)
                  0%nat (drums blk) in
  let evs := pushEach body B0 bs in
  Forall (fun e => 0 <= t e <= Z.of_nat (B0 + length bs) * 16 * stepTicks
                   /\ wire_ok e /\ drum_event e) evs /\
  (length evs <= 288 * length bs)%nat.
Proof.
  induction bs as [| blk bs IH]; intros B0 Hok body evs.
  - subst evs. cbn. split; [constructor | lia].
  - subst evs. cbn [pushEach].
    destruct (IH (S B0)) as [Hf Hl]; [intros; apply Hok; right; assumption |].
    fold body in Hf, Hl.
    destruct (Hok blk (or_introl eq_refl)) as [Hlen Hhits].
    destruct (stepDrums_spec B0 (drums blk) 0 Hhits) as [Hf0 Hl0].
    rewrite Hlen in Hf0, Hl0. split.
    + apply Forall_app. split.
      * eapply Forall_impl; [exact Hf0 |]. cbn. intros e (Ht & Hw & Hd).
        split; [| split; assumption]. cbn [length].
        change stepTicks with 120 in *. lia.
      * eapply Forall_impl; [exact Hf |]. cbn. intros e (Ht & Hw & Hd).
        split; [| split; assumption]. cbn [length].
        replace (B0 + S (length bs))%nat with (S B0 + length bs)%nat by lia.
        exact Ht.
    + rewrite length_app. cbn [length]. unfold body at 1. lia.
Qed.

Lemma drumEvents_spec bs :
  (forall blk, In blk bs ->
     length (drums blk) = 16%nat /\
     Forall (fun hits => (length hits <= 9)%nat) (drums blk)) ->
  Forall (fun e => 0 <= t e <= Z.of_nat (length bs) * 16 * stepTicks
                   /\ wire_ok e /\ drum_event e) (drumEvents bs) /\
  (length (drumEvents bs) <= 288 * length bs)%nat.
Proof.
  intros Hok. exact (drumEvents_from bs 0 Hok).
Qed.

(** The drum track, when there is one, is read without touching the
    bass notes. *)
Lemma drumTrack_reads bs :
  editor_pattern bs ->
  exists drumTrack Fs,
    match drumEvents bs with
    | [] => Some []
    | _ => track ← compileTrack (drumEvents bs); Some [track]
    end = Some drumTrack /\
    Forall2 reads drumTrack Fs /\
    Forall (fun track => (length track <= 2304 * length bs + 4)%nat) drumTrack /\
    Forall (fun F => forall d, imported_bass (F d) = imported_bass d) Fs.
Proof.
  intros [Hn Hok].
  destruct (drumEvents_spec bs) as [Hall Hlen].
  { intros blk Hin. destruct (Hok blk Hin) as (H1 & H2 & _). split; assumption. }
  destruct (drumEvents bs) as [| e evs] eqn:Eev.
  - exists [], []. repeat split; constructor.
  - rewrite <- Eev in *.
    destruct (compileTrack_reads (drumEvents bs)
                (Z.of_nat (length bs) * 16 * stepTicks)) as (track & Hc & Hl & Hr).
    + eapply Forall_impl; [exact Hall |]. cbn. tauto.
    + change stepTicks with 120. change (2 ^ 31) with 2147483648. lia.
    + eapply Forall_impl; [exact Hall |]. cbn. tauto.
    + exists [track], [fun d => fold_left applyEvent (sort (drumEvents bs)) d].
      rewrite Eev, <- Eev, Hc. cbn [mbind option_bind].
      split; [reflexivity |]. split; [constructor; [exact Hr | constructor] |].
      split; [constructor; [lia | constructor] |].
      constructor; [| constructor]. intros d. apply drum_events_bass.
      apply sort_Forall. eapply Forall_impl; [exact Hall |]. cbn. tauto.
Qed.

Lemma pushEach_In {A B} (body : A -> nat -> list B) (arr : list A) :
  forall (i0 j : nat) x y,
    arr !! j = Some x -> In y (body x (i0 + j)%nat) -> In y (pushEach body i0 arr).
Proof.
  induction arr as [| a arr IH]; intros i0 j x y Hj Hy; [discriminate Hj |].
  cbn [pushEach]. apply in_or_app. destruct j as [| j].
  - left. inversion Hj; subst a. rewrite Nat.add_0_r in Hy. exact Hy.
  - right. apply (IH (S i0) j x y Hj).
    replace (S i0 + j)%nat with (i0 + S j)%nat by lia. exact Hy.
Qed.

(** A note of the pattern is written as a Note-On event. *)
Lemma note_event key ch bs (b s : nat) n :
  note_at bs b key s = Some n ->
  In {| t := Z.of_nat (b * 16 + s) * stepTicks;
        type := Z.lor 0x90 ch;
        note := getMidiNote (TimeMatrix.note n) (octave n);
        vel := if accent n then 127 else 90 |}
     (pushEach (blockEvents key ch) 0%nat bs).
Proof.
  unfold note_at. intros Hn.
  destruct (bs !! b) as [blk |] eqn:Eb; [| discriminate Hn].
  cbn [mbind option_bind] in Hn.
  destruct (tracks blk !! key) as [arr |] eqn:Earr; [| discriminate Hn].
  cbn [mbind option_bind] in Hn.
  destruct (arr !! s) as [[n' |] |] eqn:Es; try discriminate Hn.
  cbn in Hn. inversion Hn; subst n'.
  apply (pushEach_In _ bs 0 b blk _ Eb). cbn [Nat.add].
  unfold blockEvents. rewrite Earr.
  apply (pushEach_In _ arr 0 s (Some n) _ Es). cbn [Nat.add].
  unfold noteEvents. left. f_equal. lia.
Qed.

(** The track of a key that every block owns. *)
Lemma bassTrack_reads key ch bs :
  editor_pattern bs -> 0 <= ch < 16 -> ch <> 9 ->
  (forall blk, In blk bs -> is_Some (tracks blk !! key)) ->
  exists track F,
    trackEvents key ch bs = Some (pushEach (blockEvents key ch) 0%nat bs) /\
    compileTrack (pushEach (blockEvents key ch) 0%nat bs) = Some track /\
    reads track F /\ bass_effect bs key F /\
    (length track <= 2304 * length bs + 4)%nat.
Proof.
  intros [Hn Hok] Hch H9 Hown.
  assert (Hte : trackEvents key ch bs
                = Some (pushEach (blockEvents key ch) 0%nat bs)).
  { unfold trackEvents.
    assert (Hex : existsb (fun b => match tracks b !! key with
                                    | Some _ => false
                                    | None => JS.proto_member key
                                    end) bs = false).
    { apply not_true_is_false. intros Hex. apply existsb_exists in Hex.
      destruct Hex as (blk & Hin & Hx). destruct (Hown blk Hin) as [arr Harr].
      rewrite Harr in Hx. discriminate Hx. }
    rewrite Hex. reflexivity. }
  destruct (blockEvents_spec key ch bs 0
              {| imported_drums := []; imported_bass := [] |} Hch H9)
    as (Hc & Hw & Hl & _).
  { intros blk arr Hin Harr. destruct (Hok blk Hin) as (_ & _ & Ht). eauto. }
  cbn [Nat.add] in Hc. change (Z.of_nat 0 * 16 * stepTicks) with 0 in Hc.
  destruct (compileTrack_reads (pushEach (blockEvents key ch) 0%nat bs)
              (Z.of_nat (length bs) * 16 * stepTicks)) as (track & Hct & Hlt & Hr).
  { apply chain_Forall. exact Hc. }
  { change stepTicks with 120. change (2 ^ 31) with 2147483648. lia. }
  { exact Hw. }
  rewrite (sort_chain _ _ _ Hc) in Hr.
  exists track, (fun d => fold_left applyEvent (pushEach (blockEvents key ch) 0%nat bs) d).
  split; [exact Hte |].
  split; [exact Hct |]. split; [exact Hr |]. split; [| lia].
  intros d b s Hs.
  destruct (blockEvents_spec key ch bs 0 d Hch H9) as (_ & _ & _ & _ & He).
  { intros blk arr Hin Harr. destruct (Hok blk Hin) as (_ & _ & Ht). eauto. }
  exact (He b s Hs).
Qed.

Lemma bassTracks_reads keys : forall c0 bs,
  editor_pattern bs -> 0 <= c0 -> c0 + Z.of_nat (length keys) <= 9 ->
  (forall key blk, In key keys -> In blk bs -> is_Some (tracks blk !! key)) ->
  exists bass Fs,
    bassTracks keys c0 bs = Some bass /\
    Forall2 reads bass Fs /\
    Forall2 (bass_effect bs) keys Fs /\
    Forall (fun track => (length track <= 2304 * length bs + 4)%nat) bass.
Proof.
  induction keys as [| key keys IH]; intros c0 bs Hp Hc0 Hc9 Hown.
  - exists [], []. repeat split; constructor.
  - cbn [length] in Hc9.
    destruct (bassTrack_reads key c0 bs Hp ltac:(lia) ltac:(lia))
      as (track & F & Hte & Hct & Hr & He & Hl).
    { intros blk Hin. apply Hown; [left; reflexivity | exact Hin]. }
    destruct (IH (c0 + 1) bs Hp ltac:(lia) ltac:(lia))
      as (bass & Fs & Hb & Hrs & Hes & Hls).
    { intros key' blk Hk Hin. apply Hown; [right; exact Hk | exact Hin]. }
    exists (track :: bass), (F :: Fs). cbn [bassTracks].
    destruct (Z.eqb_spec c0 9); [lia |].
    rewrite Hte. cbn [mbind option_bind]. rewrite Hct. cbn [mbind option_bind].
    rewrite Hb. cbn [mbind option_bind].
    split; [reflexivity |]. split; [constructor; assumption |].
    split; constructor; assumption.
Qed.

(** The last track with a note on a step decides what is stored. *)
Lemma last_writer bs pre k post Fs d (b s : nat) n :
  Forall2 (bass_effect bs) (pre ++ k :: post) Fs ->
  (s < 16)%nat ->
  note_at bs b k s = Some n ->
  (forall k', In k' post -> note_at bs b k' s = None) ->
  bass_at (fold_left (fun d F => F d) Fs d) (Z.of_nat (b * 16 + s))
  = Some (noteData_of n).
Proof.
  intros Hall Hs Hn Hpost.
  apply Forall2_app_inv_l in Hall as (Fs1 & Fs2 & _ & Hall & ->).
  apply Forall2_cons_inv_l in Hall as (F & Fs3 & HF & Hall & ->).
  rewrite fold_left_app. cbn [fold_left].
  set (d1 := F (fold_left (fun d F => F d) Fs1 d)).
  assert (H1 : bass_at d1 (Z.of_nat (b * 16 + s)) = Some (noteData_of n)).
  { unfold d1. rewrite (HF _ b s Hs), Hn. reflexivity. }
  clearbody d1. clear HF. revert d1 H1.
  induction Hall as [| k' F' post Fs3 HF' _ IH]; intros d1 H1; [exact H1 |].
  cbn [fold_left]. apply IH.
  - intros k0 Hk0. apply Hpost. right. exact Hk0.
  - rewrite (HF' _ b s Hs), (Hpost k' (or_introl eq_refl)). exact H1.
Qed.

End MidiFile.

Section MidiRoundTrip.

Import MidiIO MidiProps.
Local Open Scope Z_scope.

Implicit Types (d : ImportedData) (bs : list Block) (key : string).

Lemma buildMidiFile_bytes (tracks : list (list JS.num)) :
  exists header,
    length header = 14%nat /\
    (forall i x, MThd !! i = Some x -> header !! i = Some x) /\
    buildMidiFile tracks = header ++ map toUint8 (concat (map chunk tracks)).
Proof.
  set (count := Z.of_nat (length tracks)).
  exists (MThd ++ [0; 0; 0; 6] ++ [0; 1] ++ [byteOf count 8; byteOf count 0]
            ++ [byteOf ticksPerBeat 8; byteOf ticksPerBeat 0]).
  split; [reflexivity |]. split.
  - intros i x Hx. apply lookup_app_l_Some. exact Hx.
  - unfold buildMidiFile. fold count. rewrite !map_app.
    rewrite !map_toUint8_bytes; [rewrite <- !app_assoc; reflexivity | ..];
      repeat (constructor; [first [apply byteOf_byte | unfold is_byte; lia] |]);
      constructor.
Qed.

(** The exported file is read back as the effects of its bass tracks,
    applied in the order of the keys to a state without bass notes. *)
Lemma exportMidi_parse keys bs bpm :
  bs <> [] -> editor_pattern bs -> (length keys <= 9)%nat ->
  (forall key blk, In key keys -> In blk bs -> is_Some (tracks blk !! key)) ->
  exists data Fs,
    exportMidi keys bs bpm = Some (Some data) /\
    Forall2 (bass_effect bs) keys Fs /\
    forall fuel, (2304 * length bs + 40 <= fuel)%nat ->
      exists d0,
        imported_bass d0 = [] /\
        parseMidi fuel data = Some (Some (fold_left (fun d F => F d) Fs d0)).
Proof.
  intros Hne Hp Hk Hown.
  destruct (drumTrack_reads bs Hp) as (drumTrack & FsD & Hdt & HrD & HlD & HbD).
  destruct (bassTracks_reads keys 0 bs Hp ltac:(lia) ltac:(lia) Hown)
    as (bass & Fs & Hbt & HrB & HeB & HlB).
  set (track0 := map JS.Num ([0x00; 0xFF; 0x51; 0x03] ++ bpmToTempoBytes bpm
                               ++ [0x00; 0xFF; 0x2F; 0x00])).
  exists (buildMidiFile (track0 :: drumTrack ++ bass)), Fs.
  split; [| split; [exact HeB |]].
  - unfold exportMidi. destruct bs as [| blk bs0]; [contradiction |].
    rewrite Hdt. cbn [mbind option_bind]. rewrite Hbt. reflexivity.
  - intros fuel Hfuel.
    exists (fold_left (fun d F => F d) FsD
                      {| imported_drums := []; imported_bass := [] |}).
    assert (Hgen : forall d, imported_bass (fold_left (fun d F => F d) FsD d)
                             = imported_bass d).
    { clear -HbD. induction HbD as [| F FsD HF _ IH]; intros d; [reflexivity |].
      cbn [fold_left]. rewrite IH. apply HF. }
    split; [rewrite Hgen; reflexivity |].
    destruct (buildMidiFile_bytes (track0 :: drumTrack ++ bass))
      as (header & Hlen & Hhead & Hfile).
    rewrite Hfile. unfold parseMidi.
    set (data := header ++ map toUint8
                   (concat (map chunk (track0 :: drumTrack ++ bass)))).
    assert (Hmagic : map (fun i => get data i) [0; 1; 2; 3] = map Some MThd).
    { assert (Hget : forall (i : nat) x, MThd !! i = Some x ->
                                         get data (Z.of_nat i) = Some x).
      { intros i x Hx. unfold get.
        destruct (Z.ltb_spec (Z.of_nat i) 0); [lia |]. rewrite Nat2Z.id.
        apply lookup_app_l_Some. apply Hhead. exact Hx. }
      pose proof (Hget 0%nat _ eq_refl) as M0. pose proof (Hget 1%nat _ eq_refl) as M1.
      pose proof (Hget 2%nat _ eq_refl) as M2. pose proof (Hget 3%nat _ eq_refl) as M3.
      change (Z.of_nat 0) with 0 in M0. change (Z.of_nat 1) with 1 in M1.
      change (Z.of_nat 2) with 2 in M2. change (Z.of_nat 3) with 3 in M3.
      cbn [map MThd]. rewrite M0, M1, M2, M3. reflexivity. }
    rewrite bool_decide_eq_true_2 by exact Hmagic. cbn [negb].
    change 14 with (Z.of_nat 14). rewrite <- Hlen. unfold data.
    rewrite (parseTracks_chunks (track0 :: drumTrack ++ bass)
               ((fun d => d) :: FsD ++ Fs)) with (m := (2304 * length bs + 11)%nat).
    + cbn [mbind option_bind fold_left]. rewrite fold_left_app. reflexivity.
    + constructor; [apply track0_reads |]. apply Forall2_app; assumption.
    + destruct Hp as [Hn _]. constructor.
      * unfold track0. rewrite length_map. cbn. lia.
      * apply Forall_app. split; (eapply Forall_impl; [eassumption |]);
          cbn; intros; change (2 ^ 31) with 2147483648; lia.
    + constructor.
      * unfold track0. rewrite length_map. cbn. lia.
      * apply Forall_app. split; (eapply Forall_impl; [eassumption |]);
          cbn; intros; lia.
    + cbn [length]. rewrite length_app.
      assert (length drumTrack <= 1)%nat.
      { clear -Hdt. destruct (drumEvents bs); [inversion Hdt; cbn; lia |].
        destruct (compileTrack (e :: l)); cbn in Hdt; [| discriminate Hdt].
        inversion Hdt. cbn. lia. }
      assert (length bass = length keys)
        by (apply Forall2_length in HrB, HeB; lia).
      lia.
Qed.

End MidiRoundTrip.

(** ** The MIDI import of the UI *)

Section MidiImportUI.

Import MidiIO MidiProps UIController.
Local Open Scope nat_scope.

Implicit Types (cur : list Block) (data : ImportedData) (k : Z).

Lemma obj_get_In {V} (o : list (Z * V)) k v :
  obj_get o k = Some v -> In k (map fst o).
Proof.
  induction o as [| [k0 v0] o IH]; cbn [obj_get map fst]; [discriminate |].
  destruct (Z.eqb_spec k0 k) as [-> | Hne]; [left; reflexivity |].
  intros Hg. right. apply IH. exact Hg.
Qed.

Lemma In_insertKey x k (l : list Z) : In x (insertKey k l) <-> x = k \/ In x l.
Proof.
  induction l as [| y l IH]; cbn [insertKey In].
  - intuition congruence.
  - destruct (k <=? y)%Z; cbn [In]; [intuition congruence |].
    rewrite IH. intuition congruence.
Qed.

Lemma In_object_keys {V} (o : list (Z * V)) k :
  In k (map fst o) -> In k (object_keys o).
Proof.
  intros Hin. unfold object_keys. apply in_or_app.
  destruct (is_index k) eqn:Ei.
  - left.
    assert (Hf : In k (filter (fun k => is_index k = true) (map fst o))).
    { apply list_elem_of_In, list_elem_of_filter. split; [exact Ei |].
      apply list_elem_of_In. exact Hin. }
    revert Hf. generalize (filter (fun k => is_index k = true) (map fst o)).
    intros l. induction l as [| y l IH]; [intros []|].
    cbn [foldr]. intros [-> | Hl]; apply In_insertKey; [left; reflexivity |].
    right. apply IH. exact Hl.
  - right. apply list_elem_of_In, list_elem_of_filter. split; [exact Ei |].
    apply list_elem_of_In. exact Hin.
Qed.

Lemma fold_maxKey (l : list Z) : forall m0 : Z,
  exists m : Z,
    fold_left maxKey l (JS.Num m0) = JS.Num m /\ (m0 <= m)%Z /\
    forall k, In k l -> (k <= m)%Z.
Proof.
  induction l as [| x l IH]; intros m0.
  - exists m0. split; [reflexivity |]. split; [lia | intros k []].
  - cbn [fold_left]. unfold maxKey at 2. rewrite parseInt_Z_to_string.
    destruct (IH (Z.max m0 x)) as (m & Hm & Hle & Hall).
    exists m. split; [exact Hm |]. split; [lia |].
    intros k [<- | Hk]; [lia | apply Hall; exact Hk].
Qed.

Lemma blocks_needed (m : Z) (b s : nat) :
  (Z.of_nat (b * 16 + s) <= m)%Z ->
  b < Z.to_nat (JS.ceil_div (m + 1) 16).
Proof.
  intros Hm. unfold JS.ceil_div.
  pose proof (Z.div_mod (- (m + 1)) 16 ltac:(lia)) as Hd.
  pose proof (Z.mod_pos_bound (- (m + 1)) 16 ltac:(lia)) as Hr.
  lia.
Qed.

Lemma blockAt_nat cur (i : nat) : blockAt cur (Z.of_nat i) = cur !! i.
Proof.
  unfold blockAt. destruct (Z.ltb_spec (Z.of_nat i) 0); [lia |].
  rewrite Nat2Z.id. reflexivity.
Qed.

Lemma blockAt_Some cur (i : Z) blk :
  blockAt cur i = Some blk -> (0 <= i)%Z /\ cur !! Z.to_nat i = Some blk.
Proof.
  unfold blockAt. destruct (Z.ltb_spec i 0); [discriminate |]. auto.
Qed.

(** One bass step writes its own slot and keeps the notes of the
    others. *)
Lemma importBassStep_spec activeView data cur k :
  let target := if String.eqb activeView "drum" then "bass-1"%string
                else activeView in
  JS.proto_member target = false ->
  full_grid cur ->
  let cur' := importBassStep activeView data cur k in
  full_grid cur' /\ length cur' = length cur /\
  (forall b s n,
     Z.of_nat (b * 16 + s) <> k -> s < 16 ->
     entry cur b target s = Some (Some n) ->
     entry cur' b target s = Some (Some n)) /\
  (forall b s noteData,
     Z.of_nat (b * 16 + s) = k -> s < 16 -> b < length cur ->
     obj_get (imported_bass data) k = Some noteData ->
     entry cur' b target s = Some (Some (importedNote noteData))).
Proof.
  intros target Hproto Hf cur'. subst cur'. unfold importBassStep.
  rewrite parseInt_Z_to_string. fold target.
  destruct (obj_get (imported_bass data) k) as [nd |] eqn:Hget.
  2:{ split; [exact Hf |]. split; [reflexivity |]. split; [auto |].
      intros b s noteData _ _ _ Hnd. discriminate Hnd. }
  destruct (blockAt cur (k / 16)) as [blk |] eqn:Eb0.
  2:{ split; [exact Hf |]. split; [reflexivity |]. split; [auto |].
      intros b s noteData Hk Hs Hb _. exfalso.
      assert (Hdiv : (k / 16 = Z.of_nat b)%Z).
      { symmetry. apply Z.div_unique with (r := Z.of_nat s); lia. }
      rewrite Hdiv, blockAt_nat in Eb0. apply lookup_ge_None in Eb0. lia. }
  apply blockAt_Some in Eb0 as [Hpos Eb].
  assert (Hk0 : (0 <= k)%Z).
  { pose proof (Z.div_mod k 16 ltac:(lia)).
    pose proof (Z.mod_pos_bound k 16 ltac:(lia)). lia. }
  assert (Hrem : Z.rem k 16 = (k mod 16)%Z) by (apply Z.rem_mod_nonneg; lia).
  pose proof (Z.mod_pos_bound k 16 ltac:(lia)) as Hmod.
  set (B := Z.to_nat (k / 16)) in *.
  set (S := Z.to_nat (Z.rem k 16)).
  assert (HS : S < totalSteps) by (unfold S, totalSteps; lia).
  assert (HkBS : k = Z.of_nat (B * 16 + S)).
  { unfold B, S. rewrite Hrem.
    pose proof (Z.div_mod k 16 ltac:(lia)). lia. }
  set (reg := if track_truthy target blk then cur else registerTrack target cur).
  assert (Hreg : full_grid reg /\ length reg = length cur /\
                 (forall b s o, entry cur b target s = Some o ->
                                entry reg b target s = Some o) /\
                 is_Some (entry reg B target S)).
  { unfold reg. destruct (track_truthy target blk) eqn:Et.
    - split; [exact Hf |]. split; [reflexivity |]. split; [auto |].
      unfold entry. rewrite Eb. cbn [mbind option_bind].
      unfold track_truthy in Et. rewrite Hproto in Et.
      destruct (tracks blk !! target) as [arr |] eqn:Earr; [| discriminate Et].
      cbn [mbind option_bind]. apply lookup_lt_is_Some.
      destruct (Hf _ _ Eb) as [_ Ht]. rewrite (Ht _ _ Earr). exact HS.
    - split; [apply registerTrack_full_grid; exact Hf |].
      split; [apply registerTrack_length |].
      split; [intros b s o; apply registerTrack_entry_old |].
      apply registerTrack_entry_some; try assumption.
      eapply lookup_lt_Some; eauto. }
  destruct Hreg as (Hfr & Hlr & Hold & Hsome).
  replace (k / 16)%Z with (Z.of_nat B) by (unfold B; lia).
  rewrite blockAt_nat, ?Nat2Z.id.
  destruct (reg !! B) as [blk' |] eqn:Eb'.
  2:{ exfalso. apply lookup_ge_None in Eb'.
      apply lookup_lt_Some in Eb. lia. }
  destruct (setNote_entry reg B blk' target S (importedNote nd) Hfr Eb' HS)
    as (Hf' & Hl' & _ & He').
  fold S. split; [exact Hf' |]. split; [lia |]. split.
  - intros b s n Hne Hs Hent. rewrite He'.
    rewrite decide_False by (intros (-> & _ & ->); apply Hne; symmetry; exact HkBS).
    apply Hold. exact Hent.
  - intros b s noteData Hk Hs Hb Hnd. inversion Hnd; subst noteData.
    assert (b = B /\ s = S) as [-> ->] by lia.
    rewrite He'. rewrite decide_True by auto.
    destruct Hsome as [o Ho]. rewrite Ho. reflexivity.
Qed.

Lemma importDrumStep_spec data cur k :
  full_grid cur ->
  let cur' := importDrumStep data cur k in
  full_grid cur' /\ length cur' = length cur /\
  forall b key s, entry cur' b key s = entry cur b key s.
Proof.
  intros Hf cur'. subst cur'. unfold importDrumStep.
  rewrite parseInt_Z_to_string.
  destruct (obj_get (imported_drums data) k) as [hits |]; [| auto].
  destruct (blockAt cur (k / 16)) as [blk |] eqn:Eb0; [| auto].
  apply blockAt_Some in Eb0 as [Hpos Eb].
  assert (Hk0 : (0 <= k)%Z).
  { pose proof (Z.div_mod k 16 ltac:(lia)).
    pose proof (Z.mod_pos_bound k 16 ltac:(lia)). lia. }
  assert (HS : Z.to_nat (Z.rem k 16) < totalSteps).
  { rewrite Z.rem_mod_nonneg by lia.
    pose proof (Z.mod_pos_bound k 16 ltac:(lia)). unfold totalSteps. lia. }
  destruct (setDrums_entry cur _ blk _ (map Z.to_nat hits) Hf Eb HS)
    as (Hf' & Hl' & He' & _).
  auto.
Qed.

(** After the import, a step for which the parser stored a note holds
    that note on the target track. *)
Lemma importMidi_note activeView data (b s : nat) noteData :
  let target := if String.eqb activeView "drum" then "bass-1"%string
                else activeView in
  JS.proto_member target = false ->
  s < 16 ->
  obj_get (imported_bass data) (Z.of_nat (b * 16 + s)) = Some noteData ->
  note_at (importMidi activeView data) b target s = Some (importedNote noteData).
Proof.
  intros target Hproto Hs Hget. unfold importMidi.
  set (keysB := object_keys (imported_bass data)).
  set (keysD := object_keys (imported_drums data)).
  destruct (fold_maxKey keysB 0) as (mB & HmB & _ & HallB). rewrite HmB.
  destruct (fold_maxKey keysD mB) as (m & Hm & Hle & _). rewrite Hm.
  rewrite iter_addBlock.
  set (N := Z.to_nat (JS.ceil_div (m + 1) 16)).
  assert (Hin : In (Z.of_nat (b * 16 + s)) keysB).
  { apply In_object_keys. eapply obj_get_In. exact Hget. }
  assert (Hb : b < N).
  { apply (blocks_needed m b s). specialize (HallB _ Hin). lia. }
  assert (Hfresh : full_grid (replicate N freshBlock)).
  { pose proof (fresh_grid (replicate N freshBlock)) as Hg.
    rewrite length_replicate in Hg. destruct Hg as [Hg _]. exact Hg. }
  assert (Hbass :
            forall l cur,
              full_grid cur -> length cur = N ->
              (In (Z.of_nat (b * 16 + s)) l
               \/ entry cur b target s = Some (Some (importedNote noteData))) ->
              let cur' := fold_left (importBassStep activeView data) l cur in
              full_grid cur' /\ length cur' = N /\
              entry cur' b target s = Some (Some (importedNote noteData))).
  { induction l as [| k l IH]; intros cur Hf Hl Hor cur'.
    - subst cur'. destruct Hor as [[] | He]. auto.
    - subst cur'. cbn [fold_left].
      destruct (importBassStep_spec activeView data cur k Hproto Hf)
        as (Hf' & Hl' & Hkeep & Hwrite).
      apply IH; [exact Hf' | lia |].
      destruct (Z.eq_dec (Z.of_nat (b * 16 + s)) k) as [Heq | Hne].
      + right. apply (Hwrite b s noteData Heq Hs); [lia |].
        rewrite <- Heq. exact Hget.
      + destruct Hor as [[Hk | Hl0] | He]; [congruence | left; exact Hl0 |].
        right. apply Hkeep; assumption. }
  destruct (Hbass keysB (replicate N freshBlock) Hfresh (length_replicate _ _)
                  (or_introl Hin)) as (Hf1 & Hl1 & He1).
  assert (Hdrum :
            forall l cur,
              full_grid cur ->
              forall b' key s', entry (fold_left (importDrumStep data) l cur) b' key s'
                                = entry cur b' key s').
  { induction l as [| k l IH]; intros cur Hf b' key s'; [reflexivity |].
    cbn [fold_left].
    destruct (importDrumStep_spec data cur k Hf) as (Hf' & _ & He').
    rewrite IH by exact Hf'. apply He'. }
  rewrite note_at_entry, Hdrum, He1 by exact Hf1. reflexivity.
Qed.

End MidiImportUI.

(** ** Edge behaviour of the MIDI codec *)

Section MidiEdges.

Import MidiIO MidiProps UIController.
Local Open Scope Z_scope.

Lemma toInt32_range z : - 2 ^ 31 <= toInt32 z < 2 ^ 31.
Proof.
  unfold toInt32. pose proof (Z.mod_pos_bound (z + 2 ^ 31) (2 ^ 32) ltac:(lia)).
  change (2 ^ 32) with (2 * 2 ^ 31) in *. lia.
Qed.

Lemma vlqLoop_negative fuel : forall val buffer,
  toInt32 val < 0 -> vlqLoop fuel val buffer = None.
Proof.
  induction fuel as [| fuel IH]; intros val buffer Hneg; [reflexivity |].
  cbn [vlqLoop].
  pose proof (toInt32_range val) as Hr.
  assert (Hs : Z.shiftr (toInt32 val) 7 < 0) by (apply Z.shiftr_neg; exact Hneg).
  assert (Hlow : - 2 ^ 31 <= Z.shiftr (toInt32 val) 7).
  { rewrite Z.shiftr_div_pow2 by lia. change (2 ^ 7) with 128.
    apply Z.div_le_lower_bound; lia. }
  destruct (Z.eqb_spec (Z.shiftr (toInt32 val) 7) 0); [lia |].
  apply IH. rewrite toInt32_small by lia. exact Hs.
Qed.

(** Two data bytes where an event was expected, before any status has
    been seen: the loop reads the first as a delta time, steps back
    from the second and starts again at the same place. *)
Lemma parseEvents_spins fuel : forall data end_ p absTime d b0 s,
  get data p = Some b0 -> 0 <= b0 < 128 ->
  get data (p + 1) = Some s -> 0 <= s < 128 ->
  p + 1 < end_ ->
  parseEvents fuel data end_ p absTime (Some 0) d = None.
Proof.
  induction fuel as [| fuel IH]; intros data end_ p absTime d b0 s Hb Hb0 Hs Hs0 Hend;
    [reflexivity |].
  cbn [parseEvents]. destruct (Z.leb_spec end_ p); [lia |].
  destruct fuel as [| fuel]; [reflexivity |].
  assert (Hone : has data p ([] ++ [b0])).
  { intros i y Hy. destruct i as [| i]; [| discriminate Hy].
    inversion Hy; subst y. rewrite Z.add_0_r. exact Hb. }
  rewrite (readVLQ_bytes [] data (Some end_) p 0 b0 (S fuel) (List.Forall_nil _)
             Hb0 Hone) by (cbn [length]; lia).
  cbn [mbind option_bind length]. replace (p + Z.of_nat 0 + 1) with (p + 1) by lia.
  destruct (Z.leb_spec end_ (p + 1)); [lia |].
  rewrite Hs. destruct (Z.ltb_spec s 0x80); [| lia].
  change (int32 (Some 0)) with 0. change (Z.land 0 0xF0) with 0.
  change (0 =? 0x90) with false. change (0 =? 0x80) with false.
  change (0 =? 0xB0) with false. change (0 =? 0xC0) with false.
  change (0 =? 0xE0) with false. cbv iota.
  rewrite bool_decide_eq_false_2 by discriminate.
  replace (p + 1 - 1) with p by lia.
  exact (IH data end_ p _ d b0 s Hb Hb0 Hs Hs0 Hend).
Qed.

Lemma slotOf_drumNote (chId : nat) :
  (chId < 208)%nat ->
  internalId (Some (toUint8 (JS.Num (drumNote chId)))) = slotOf chId.
Proof.
  intros Hc. do 4 (destruct chId as [| chId]; [reflexivity |]).
  unfold drumNote, slotOf.
  change (S (S (S (S chId))) =? 1)%nat with false.
  change (S (S (S (S chId))) =? 2)%nat with false.
  change (S (S (S (S chId))) =? 3)%nat with false.
  change (3 <? S (S (S (S chId))))%nat with true. cbv iota.
  rewrite toUint8_byte by (unfold is_byte; lia).
  unfold internalId.
  repeat match goal with
         | |- context [?a =? ?b] => destruct (Z.eqb_spec a b); [lia |]
         end.
  cbn [orb]. destruct (Z.leb_spec 47 (48 + Z.of_nat (S (S (S (S chId))))));
    [reflexivity | lia].
Qed.

(** The counter of [bassTracks] when the track with index [i] is
    reached. *)
Lemma bassTracks_channel pre : forall (i : nat) k post bs tracks,
  bassTracks (pre ++ k :: post) (channelOf i) bs = Some tracks ->
  exists events track,
    trackEvents k (channelOf (i + length pre)) bs = Some events /\
    compileTrack events = Some track /\
    tracks !! length pre = Some track.
Proof.
  assert (Hnext : forall i : nat,
             (if channelOf i =? 9 then channelOf i + 1 + 1 else channelOf i + 1)
             = channelOf (S i)).
  { intros i. unfold channelOf.
    destruct (Nat.leb_spec i 9), (Nat.leb_spec (S i) 9);
      repeat match goal with
             | |- context [?a =? ?b] => destruct (Z.eqb_spec a b)
             end; lia. }
  induction pre as [| k0 pre IH]; intros i k post bs tracks Hb.
  - cbn [app bassTracks] in Hb. cbn [length]. rewrite Nat.add_0_r.
    destruct (trackEvents k (channelOf i) bs) as [events |] eqn:Ee;
      [| discriminate Hb].
    cbn [mbind option_bind] in Hb.
    destruct (compileTrack events) as [track |] eqn:Ec; [| discriminate Hb].
    cbn [mbind option_bind] in Hb.
    destruct (bassTracks post _ bs) as [more |]; [| discriminate Hb].
    inversion Hb; subst tracks. exists events, track.
    split; [reflexivity |]. split; [exact Ec | reflexivity].
  - cbn [app bassTracks] in Hb.
    destruct (trackEvents k0 (channelOf i) bs) as [events0 |]; [| discriminate Hb].
    cbn [mbind option_bind] in Hb.
    destruct (compileTrack events0) as [track0 |]; [| discriminate Hb].
    cbn [mbind option_bind] in Hb. rewrite Hnext in Hb.
    destruct (bassTracks (pre ++ k :: post) (channelOf (S i)) bs) as [more |] eqn:Em;
      [| discriminate Hb].
    inversion Hb; subst tracks.
    destruct (IH (S i) k post bs more Em) as (events & track & He & Hc & Hl).
    exists events, track. cbn [length].
    replace (i + S (length pre))%nat with (S i + length pre)%nat by lia.
    split; [exact He |]. split; [exact Hc | exact Hl].
Qed.

Lemma pitchClass_inv name i :
  pitchClass name = Some i ->
  0 <= i < 12 /\ nth (Z.to_nat i) NOTE_NAMES "undefined"%string = name.
Proof.
  unfold pitchClass.
  repeat match goal with
         | |- context [String.eqb name ?s] =>
             destruct (String.eqb_spec name s) as [-> | _];
             [intros Hi; inversion Hi; subst i; split; [lia | reflexivity] |]
         end.
  discriminate.
Qed.

(** A note whose MIDI number fits a byte is read back from what the
    parser stored for it, but for its slide flag. *)
Lemma importedNote_noteData_of (n : Note) i o :
  pitchClass (TimeMatrix.note n) = Some i -> octave n = JS.Num o ->
  0 <= (o + 1) * 12 + i < 256 ->
  importedNote (noteData_of n)
  = {| TimeMatrix.note := TimeMatrix.note n; octave := JS.Num o;
       slide := false; accent := accent n |}.
Proof.
  intros Hp Ho Hm. destruct (pitchClass_inv _ _ Hp) as [Hi Hname].
  unfold noteData_of, importedNote, getMidiNote. rewrite Hp, Ho.
  cbn [nd_note nd_vel toUint8]. rewrite Z.mod_small by lia.
  assert (Hrem : Z.rem ((o + 1) * 12 + i) 12 = i).
  { rewrite Z.rem_mod_nonneg by lia. symmetry.
    apply Z.mod_unique with (q := o + 1); lia. }
  assert (Hdiv : ((o + 1) * 12 + i) / 12 = o + 1).
  { symmetry. apply Z.div_unique with (r := i); lia. }
  rewrite Hrem, Hdiv. destruct (Z.ltb_spec i 0); [lia |].
  rewrite Hname. f_equal; [f_equal; lia |].
  destruct (accent n); reflexivity.
Qed.

Lemma stored_note_effects bs keys Fs d (b s : nat) :
  Forall2 (bass_effect bs) keys Fs -> (s < 16)%nat ->
  bass_at (fold_left (fun d F => F d) Fs d) (Z.of_nat (b * 16 + s))
  = fold_left (fun acc key =>
                 match note_at bs b key s with
                 | Some n => Some (noteData_of n)
                 | None => acc
                 end)
              keys (bass_at d (Z.of_nat (b * 16 + s))).
Proof.
  intros Hall Hs. revert d.
  induction Hall as [| key F keys Fs HF _ IH]; intros d; [reflexivity |].
  cbn [fold_left]. rewrite IH, (HF d b s Hs). reflexivity.
Qed.

End MidiEdges.

(** ** Properties of the MIDI codec *)

Section MidiCodec.

Import MidiIO MidiProps UIController.
Local Open Scope nat_scope.

(** X1.  A quantity from 0 to 2^31 - 1 is written by [toVLQ] as one to
    five bytes, and the delta-time loop of the parser, placed on these
    bytes anywhere in a file, reads the quantity back and stops right
    after them. *)
Theorem vlq_round_trip (val : Z) :
  (0 <= val < 2 ^ 31)%Z ->
  exists bytes,
    toVLQ val = Some bytes /\
    1 <= length bytes <= 5 /\
    Forall is_byte bytes /\
    forall data p end_ fuel,
      has data p bytes ->
      (p + Z.of_nat (length bytes) <= end_)%Z ->
      5 <= fuel ->
      readVLQ fuel data (Some end_) p 0
      = Some ((p + Z.of_nat (length bytes))%Z, val).
Proof.
  intros Hv.
  destruct (toVLQ_spec val Hv) as (cs & lo & Hvlq & Hlen & Hcs & Hlo & Hdec).
  exists (cs ++ [lo]). split; [exact Hvlq |].
  rewrite length_app. cbn [length]. split; [lia |]. split.
  - apply Forall_app. split.
    + eapply Forall_impl; [exact Hcs |]. unfold is_byte. cbn. intros; lia.
    + constructor; [unfold is_byte; lia | constructor].
  - intros data p end_ fuel Hh Hend Hf.
    rewrite (readVLQ_bytes cs data (Some end_) p 0 lo fuel Hcs Hlo Hh)
      by (cbn; lia).
    rewrite Hdec. f_equal. f_equal. lia.
Qed.

(** X2.  For a value that [ToInt32] makes negative the loop of [toVLQ]
    does not end, however long it runs: the arithmetic shift never
    reaches zero. *)
Theorem toVLQ_negative_never_returns (val : Z) :
  (toInt32 val < 0)%Z ->
  forall fuel buffer, vlqLoop fuel val buffer = None.
Proof.
  intros Hneg fuel buffer. apply vlqLoop_negative. exact Hneg.
Qed.

(** X3.  Events with a Note-On or Note-Off status, velocities that fit
    a byte and times from 0 to [hi] are compiled to a track of at most
    eight bytes per event and four more; the event loop of the parser,
    placed on that track anywhere in a file, ends and has then applied
    the events in the order of their times, events of equal time in the
    order they were pushed. *)
Theorem compiled_track_read_back (events : list Event) (hi : Z) :
  Forall (fun e => (0 <= t e <= hi)%Z) events ->
  (0 <= hi < 2 ^ 31)%Z ->
  Forall wire_ok events ->
  exists track,
    compileTrack events = Some track /\
    length track <= 8 * length events + 4 /\
    forall data p d fuel,
      has data p (map toUint8 track) ->
      length track + 8 <= fuel ->
      parseEvents fuel data (p + Z.of_nat (length track)) p 0 (Some 0%Z) d
      = Some (fold_left applyEvent (sort events) d).
Proof.
  intros Ht Hhi Hok.
  destruct (compileTrack_reads events hi Ht Hhi Hok) as (track & Hc & Hl & Hr).
  exists track. split; [exact Hc |]. split; [exact Hl |]. exact Hr.
Qed.




(** X6.  A file whose first track chunk begins with two data bytes
    (below 0x80) is never parsed to the end: with no status seen yet,
    the event loop reads the first byte as a delta time, steps back
    from the second and is at the same byte again, for any amount of
    fuel. *)
Theorem track_of_data_bytes_never_parsed (data : list Z) (len b0 s : Z) :
  map (fun i => get data i) [0; 1; 2; 3]%Z = map Some MThd ->
  has data 14 (MTrk ++ [byteOf len 24; byteOf len 16; byteOf len 8; byteOf len 0]
                ++ [b0; s]) ->
  (2 <= len < 2 ^ 31)%Z ->
  (0 <= b0 < 128)%Z -> (0 <= s < 128)%Z ->
  forall fuel, parseMidi fuel data = None.
Proof.
  intros Hmagic Hh Hlen Hb0 Hs fuel. unfold parseMidi.
  rewrite bool_decide_eq_true_2 by exact Hmagic. cbn [negb].
  destruct fuel as [| fuel]; [reflexivity |]. cbn [parseTracks].
  apply has_app in Hh as [Hm Hh]. apply has_app in Hh as [Hl4 Hbody].
  change (Z.of_nat (length MTrk)) with 4%Z in *. cbn [length] in Hbody.
  change (Z.of_nat 4) with 4%Z in Hbody.
  pose proof (Hm 0 _ eq_refl) as M0. pose proof (Hm 1 _ eq_refl) as M1.
  pose proof (Hm 2 _ eq_refl) as M2. pose proof (Hm 3 _ eq_refl) as M3.
  change (Z.of_nat 0) with 0%Z in M0. change (Z.of_nat 1) with 1%Z in M1.
  change (Z.of_nat 2) with 2%Z in M2. change (Z.of_nat 3) with 3%Z in M3.
  assert (Hlong : (Z.of_nat (length data) <=? 14)%Z = false).
  { apply Z.leb_gt. unfold get in M0. cbn in M0.
    apply lookup_lt_Some in M0. lia. }
  rewrite Hlong.
  assert (Hhead : map (fun i => get data (14 + i)) [0; 1; 2; 3]%Z = map Some MTrk).
  { cbn [map MTrk]. rewrite M0, M1, M2, M3. reflexivity. }
  rewrite bool_decide_eq_true_2 by exact Hhead. cbn [negb].
  pose proof (Hl4 0 _ eq_refl) as G0. pose proof (Hl4 1 _ eq_refl) as G1.
  pose proof (Hl4 2 _ eq_refl) as G2. pose proof (Hl4 3 _ eq_refl) as G3.
  change (Z.of_nat 0) with 0%Z in G0. change (Z.of_nat 1) with 1%Z in G1.
  change (Z.of_nat 2) with 2%Z in G2. change (Z.of_nat 3) with 3%Z in G3.
  rewrite Z.add_0_r in G0.
  rewrite G0, G1, G2, G3. change (int32 (Some ?x)) with x.
  rewrite length_field by lia.
  pose proof (Hbody 0 _ eq_refl) as B0. pose proof (Hbody 1 _ eq_refl) as B1.
  change (Z.of_nat 0) with 0%Z in B0. change (Z.of_nat 1) with 1%Z in B1.
  rewrite Z.add_0_r in B0.
  rewrite (parseEvents_spins fuel data _ (14 + 4 + 4)%Z 0%Z _ b0 s B0 Hb0 B1 Hs)
    by lia.
  reflexivity.
Qed.

(** X7.  A hit of drum channel 0, 1 or 2 is given the same slot by the
    parser as the note number that the export writes for it; a hit of
    channel 3 is given slot 2 and a hit of any channel from 4 on slot
    3. *)
Theorem drum_slot_after_round_trip (chId : nat) :
  chId < 208 ->
  internalId (Some (toUint8 (JS.Num (drumNote chId)))) = slotOf chId.
Proof. apply slotOf_drumNote. Qed.

(** X8.  When [bassTracks] returns, the track of the key with index
    [i] in [allTrackKeys] was compiled from events on channel [i] for
    [i] up to 9 and on channel [i + 1] after that: the tenth track is
    on channel 9, the channel of the drums, and channel 10 is the one
    left out. *)
Theorem bass_track_channel (pre post : list string) (k : string)
    (bs : list Block) (tracks : list (list JS.num)) :
  bassTracks (pre ++ k :: post) 0 bs = Some tracks ->
  exists events track,
    trackEvents k (channelOf (length pre)) bs = Some events /\
    compileTrack events = Some track /\
    tracks !! length pre = Some track.
Proof.
  intros Hb. exact (bassTracks_channel pre 0 k post bs tracks Hb).
Qed.

(** X9.  Whatever the parser returned: if it stored note data for a
    step that is not negative, the import of the UI builds enough
    blocks for that step and puts the note made from the data on that
    step of the target track (the active view, or bass-1 in the drum
    view). *)
Theorem importMidi_places_note (activeView : string) (data : ImportedData)
    (b s : nat) (noteData : NoteData) :
  let target := if String.eqb activeView "drum" then "bass-1"%string
                else activeView in
  JS.proto_member target = false ->
  s < 16 ->
  obj_get (imported_bass data) (Z.of_nat (b * 16 + s)) = Some noteData ->
  note_at (importMidi activeView data) b target s = Some (importedNote noteData).
Proof.
  intros target Hproto Hs Hget.
  exact (importMidi_note activeView data b s noteData Hproto Hs Hget).
Qed.

End MidiCodec.

(** *** The codec on the demo pattern *)

Lemma demo_editor_pattern : MidiProps.editor_pattern [Demo.block1].
Proof.
  split; [cbn; lia |]. intros blk [<- | []].
  split; [reflexivity |]. split.
  - vm_compute. repeat first [lia | constructor].
  - intros k arr Hk.
    change (tracks Demo.block1)
      with ({[ "bass-1"%string := <[2%nat := Some Demo.C3]> emptyTrack ]}
            : gmap string (list (option Note))) in Hk.
    apply lookup_singleton_Some in Hk as [_ <-]. reflexivity.
Qed.

Lemma demo_enumerates : MidiProps.enumerates ["bass-1"%string] [Demo.block1].
Proof.
  split; [apply NoDup_singleton |].
  intros blk [<- | []] k.
  change (tracks Demo.block1)
    with ({[ "bass-1"%string := <[2%nat := Some Demo.C3]> emptyTrack ]}
          : gmap string (list (option Note))).
  split.
  - intros [<- | []]. rewrite lookup_singleton_eq. eauto.
  - intros [arr Hk]. apply lookup_singleton_Some in Hk as [<- _].
    left. reflexivity.
Qed.

Lemma vlq_round_trip_witness :
  exists bytes,
    MidiIO.toVLQ 200 = Some bytes /\
    (1 <= length bytes <= 5)%nat /\
    Forall MidiProps.is_byte bytes /\
    forall data p end_ fuel,
      MidiProps.has data p bytes ->
      p + Z.of_nat (length bytes) <= end_ ->
      (5 <= fuel)%nat ->
      MidiIO.readVLQ fuel data (Some end_) p 0
      = Some (p + Z.of_nat (length bytes), 200).
Proof.
  apply (vlq_round_trip 200). split; [lia | reflexivity].
Defined.

Lemma toVLQ_negative_never_returns_witness :
  MidiIO.toInt32 (2 ^ 31) < 0 /\
  forall fuel buffer, MidiIO.vlqLoop fuel (2 ^ 31) buffer = None.
Proof.
  split; [reflexivity |].
  apply (toVLQ_negative_never_returns (2 ^ 31)). reflexivity.
Defined.

Lemma compiled_track_read_back_witness :
  exists track,
    MidiIO.compileTrack (MidiIO.hitEvents 0 0) = Some track /\
    (length track <= 8 * length (MidiIO.hitEvents 0 0) + 4)%nat /\
    forall data p d fuel,
      MidiProps.has data p (map MidiIO.toUint8 track) ->
      (length track + 8 <= fuel)%nat ->
      MidiIO.parseEvents fuel data (p + Z.of_nat (length track)) p 0 (Some 0) d
      = Some (fold_left MidiProps.applyEvent (MidiIO.sort (MidiIO.hitEvents 0 0)) d).
Proof.
  apply (compiled_track_read_back (MidiIO.hitEvents 0 0) 60).
  - repeat constructor; cbn; lia.
  - split; [lia | reflexivity].
  - unfold MidiProps.wire_ok. repeat constructor; cbn; lia.
Defined.





Lemma track_of_data_bytes_never_parsed_witness :
  2 <= 2 < 2 ^ 31 /\
  forall fuel,
    MidiIO.parseMidi fuel
      ([0x4D; 0x54; 0x68; 0x64; 0; 0; 0; 6; 0; 1; 0; 1; 1; 0xE0;
        0x4D; 0x54; 0x72; 0x6B; 0; 0; 0; 2; 0; 0]) = None.
Proof.
  split; [split; [lia | reflexivity] |].
  apply (track_of_data_bytes_never_parsed _ 2 0 0).
  - reflexivity.
  - intros i x Hx.
    do 10 (destruct i as [| i]; [inversion Hx; reflexivity |]).
    discriminate Hx.
  - split; [lia | reflexivity].
  - lia.
  - lia.
Defined.

Lemma drum_slot_after_round_trip_witness :
  MidiIO.internalId (Some (MidiIO.toUint8 (JS.Num (MidiIO.drumNote 3))))
  = MidiProps.slotOf 3.
Proof.
  apply (drum_slot_after_round_trip 3). lia.
Defined.

Lemma bass_track_channel_witness :
  exists tracks,
    MidiIO.bassTracks ["bass-1"%string] 0 [Demo.block1] = Some tracks /\
    exists events track,
      MidiIO.trackEvents "bass-1" (MidiProps.channelOf 0) [Demo.block1]
      = Some events /\
      MidiIO.compileTrack events = Some track /\
      tracks !! 0%nat = Some track.
Proof.
  eexists. split; [vm_compute; reflexivity |].
  apply (bass_track_channel [] [] "bass-1" [Demo.block1]).
  vm_compute. reflexivity.
Defined.

Lemma importMidi_places_note_witness :
  note_at (UIController.importMidi "bass-1"
             {| MidiIO.imported_drums := [];
                MidiIO.imported_bass :=
                  [(2, {| MidiIO.nd_note := Some 48; MidiIO.nd_vel := 127 |})] |})
          0 "bass-1" 2
  = Some (UIController.importedNote
            {| MidiIO.nd_note := Some 48; MidiIO.nd_vel := 127 |}).
Proof.
  apply (importMidi_places_note "bass-1" _ 0 2).
  - reflexivity.
  - lia.
  - reflexivity.
Defined.

(** ** Copies of blocks: duplicate, clipboard, paste *)

Section BlockCopies.

Lemma copyNote_same n : copyNote n = n.
Proof. destruct n as [[? ? ? ?] |]; reflexivity. Qed.

Lemma copyBlock_same b : copyBlock b = b.
Proof.
  destruct b as [tr dr]. unfold copyBlock. cbn [tracks drums]. f_equal.
  - apply map_eq. intros k. rewrite lookup_fmap.
    destruct (tr !! k) as [arr |]; [| reflexivity]. cbn. f_equal.
    rewrite <- (map_id arr) at 2. apply map_ext. intros n. apply copyNote_same.
  - apply map_id.
Qed.

Lemma elem_of_splice_in (start : Z) (x b : Block) bs :
  b ∈ splice_in start x bs <-> b = x \/ b ∈ bs.
Proof.
  unfold splice_in.
  set (n := Z.to_nat _).
  rewrite elem_of_app, elem_of_cons.
  rewrite <- (take_drop n bs) at 3. rewrite elem_of_app. tauto.
Qed.

Lemma length_splice_in (start : Z) (x : Block) bs :
  length (splice_in start x bs) = S (length bs).
Proof.
  unfold splice_in. set (n := Z.to_nat _).
  rewrite length_app. cbn [length]. rewrite length_take, length_drop. lia.
Qed.

Lemma blocks_get_Some idx bs b :
  blocks_get idx bs = Some b <->
  0 <= idx < Z.of_nat (length bs) /\ bs !! Z.to_nat idx = Some b.
Proof.
  unfold blocks_get. destruct (Z.ltb_spec idx 0).
  - split; [discriminate | lia].
  - split.
    + intros Hb. split; [| exact Hb].
      apply lookup_lt_Some in Hb. lia.
    + tauto.
Qed.

Lemma blocks_get_None idx bs :
  blocks_get idx bs = None <-> ~ 0 <= idx < Z.of_nat (length bs).
Proof.
  unfold blocks_get. destruct (Z.ltb_spec idx 0).
  - split; [lia | reflexivity].
  - rewrite lookup_ge_None. lia.
Qed.

(** Inserting a block keeps the invariant exactly when the block has
    the keys of the others and full track arrays. *)
Lemma splice_in_invariant (start : Z) (c : Block) bs :
  block_invariant bs ->
  (block_invariant (splice_in start c bs) <->
   (forall b, b ∈ bs -> dom (tracks c) = dom (tracks b)) /\
   (forall k arr, tracks c !! k = Some arr -> length arr = totalSteps)).
Proof.
  intros [Hk Hf]. split.
  - intros [Hk' Hf']. split.
    + intros b Hb. apply Hk'; apply elem_of_splice_in; auto.
    + intros k arr. apply Hf'. apply elem_of_splice_in. auto.
  - intros [Hd Hl]. split.
    + intros b1 b2 H1 H2.
      apply elem_of_splice_in in H1 as [-> | H1];
        apply elem_of_splice_in in H2 as [-> | H2]; auto.
      symmetry. auto.
    + intros b k arr Hb. apply elem_of_splice_in in Hb as [-> | Hb]; eauto.
Qed.

End BlockCopies.

(** X10. duplicateBlock(idx) with idx inside the sequence inserts
    right after block idx a block with the same tracks, notes and drum
    hits: the result is the blocks up to and including idx, followed by
    the blocks from idx on.  With idx outside the sequence nothing
    changes.  In both cases a sequence in which all blocks have the
    same track keys and full track arrays stays so. *)
Theorem duplicateBlock_spec (idx : Z) (bs : list Block) :
  duplicateBlock idx bs
  = (if decide (0 <= idx < Z.of_nat (length bs))
     then take (S (Z.to_nat idx)) bs ++ drop (Z.to_nat idx) bs
     else bs) /\
  (block_invariant bs -> block_invariant (duplicateBlock idx bs)).
Proof.
  unfold duplicateBlock.
  destruct (blocks_get idx bs) as [org |] eqn:E.
  - apply blocks_get_Some in E as [Hr Hb].
    rewrite copyBlock_same. split.
    + destruct (decide (0 <= idx < Z.of_nat (length bs))) as [_ | Hn]; [| lia].
      unfold splice_in.
      destruct (Z.ltb_spec (idx + 1) 0); [lia |].
      rewrite Z.min_l by lia.
      replace (Z.to_nat (idx + 1)) with (S (Z.to_nat idx)) by lia.
      rewrite (drop_S _ _ _ Hb). reflexivity.
    + intros Hinv. apply splice_in_invariant; [exact Hinv |].
      destruct Hinv as [Hk Hf].
      apply list_elem_of_lookup_2 in Hb. split.
      * intros b Hin. apply Hk; assumption.
      * intros k arr. apply Hf. exact Hb.
  - apply blocks_get_None in E.
    destruct (decide (0 <= idx < Z.of_nat (length bs))); [lia |].
    split; [reflexivity | tauto].
Qed.

(** X11. A paste keeps the block invariant exactly when the clipboard
    fits the session: when the sequence has the same track keys in all
    blocks and full arrays, it still has them after
    pasteFromClipboard(idx), for any idx, if and only if the clipboard
    block has the track keys of the blocks of the sequence and full
    arrays itself. *)
Theorem paste_invariant_iff (idx : Z) (c : Block) (bs : list Block) :
  block_invariant bs ->
  (block_invariant (snd (pasteFromClipboard idx (Some c) bs)) <->
   (forall b, b ∈ bs -> dom (tracks c) = dom (tracks b)) /\
   (forall k arr, tracks c !! k = Some arr -> length arr = totalSteps)).
Proof.
  intros Hinv. unfold pasteFromClipboard. cbn [snd].
  rewrite copyBlock_same. apply splice_in_invariant. exact Hinv.
Qed.

(** X12. The clipboard is not updated when tracks change.  Copy a
    block, register a track that the blocks do not have, paste: the
    call succeeds and the pasted block lacks the new track, so the
    blocks no longer have the same track keys. *)
Theorem stale_clipboard_breaks_same_keys
    (i j : Z) (id : string) (bs : list Block) (clip : option Block) :
  0 <= i < Z.of_nat (length bs) ->
  proto_member id = false ->
  (forall b, b ∈ bs -> tracks b !! id = None) ->
  let clip' := snd (copyToClipboard i bs clip) in
  let bs' := registerTrack id bs in
  fst (copyToClipboard i bs clip) = true /\
  fst (pasteFromClipboard j clip' bs') = true /\
  length (snd (pasteFromClipboard j clip' bs')) = S (length bs) /\
  ~ same_keys (snd (pasteFromClipboard j clip' bs')).
Proof.
  intros Hi Hp Hnone clip' bs'.
  destruct (blocks_get i bs) as [org |] eqn:E;
    [| apply blocks_get_None in E; lia].
  apply blocks_get_Some in E as [_ Hb].
  assert (Hc : copyToClipboard i bs clip = (true, Some org)).
  { unfold copyToClipboard.
    rewrite (proj2 (blocks_get_Some i bs org) (conj Hi Hb)), copyBlock_same.
    reflexivity. }
  unfold clip'. rewrite Hc. cbn [fst snd]. unfold pasteFromClipboard.
  cbn [fst snd]. rewrite copyBlock_same.
  split; [reflexivity |]. split; [reflexivity |]. split.
  { rewrite length_splice_in. unfold bs'. unfold registerTrack.
    rewrite length_map. reflexivity. }
  intros Hk.
  assert (Horg : org ∈ bs) by (eapply list_elem_of_lookup_2; exact Hb).
  set (org' := {| tracks := <[id := emptyTrack]> (tracks org);
                  drums := drums org |}).
  assert (Hin' : org' ∈ bs').
  { unfold bs', registerTrack. apply list_elem_of_fmap.
    exists org. split; [| exact Horg].
    unfold track_truthy. rewrite (Hnone org Horg), Hp. reflexivity. }
  specialize (Hk org org').
  assert (Hd : dom (tracks org) = dom (tracks org')).
  { apply Hk; apply elem_of_splice_in; auto. }
  assert (Hid : id ∈ dom (tracks org')).
  { unfold org'. cbn [tracks]. rewrite dom_insert. set_solver. }
  rewrite <- Hd in Hid. apply elem_of_dom in Hid as [arr Harr].
  rewrite (Hnone org Horg) in Harr. discriminate.
Qed.
(** ** Moving a block inside the sequence; adding and removing tracks *)

Section MoveInRange.

Lemma array_get_lookup {A} (arr : list (option A)) (i : Z) x :
  0 <= i -> arr !! Z.to_nat i = Some x -> array_get arr i = x.
Proof.
  intros Hi Hx. unfold array_get.
  destruct (Z.ltb_spec i 0); [lia |]. rewrite Hx. reflexivity.
Qed.

Lemma array_put_insert {A} (arr : list (option A)) (i : Z) v :
  0 <= i < Z.of_nat (length arr) ->
  array_put arr i v = <[Z.to_nat i := v]> arr.
Proof.
  intros Hi. unfold array_put, array_set.
  destruct (Z.ltb_spec i 0); [lia |].
  destruct (Nat.ltb_spec (Z.to_nat i) (length arr)); [reflexivity | lia].
Qed.

Lemma moveBlock_in_range (idx dir : Z) (blocks : list (option Block)) xa xb :
  0 <= idx -> 0 <= idx + dir ->
  blocks !! Z.to_nat idx = Some xa ->
  blocks !! Z.to_nat (idx + dir) = Some xb ->
  moveBlock idx dir blocks
  = (true, <[Z.to_nat idx := xb]> (<[Z.to_nat (idx + dir) := xa]> blocks)).
Proof.
  intros Hi Ht Ha Hb. unfold moveBlock.
  pose proof (lookup_lt_Some _ _ _ Ha) as Hla.
  pose proof (lookup_lt_Some _ _ _ Hb) as Hlb.
  destruct (Z.ltb_spec (idx + dir) 0); [lia |].
  destruct (Z.leb_spec (Z.of_nat (length blocks)) (idx + dir)); [lia |].
  cbn [orb]. f_equal.
  rewrite (array_get_lookup blocks idx xa Hi Ha).
  rewrite (array_get_lookup blocks (idx + dir) xb Ht Hb).
  rewrite (array_put_insert blocks (idx + dir)) by lia.
  rewrite array_put_insert by (rewrite list.length_insert; lia).
  reflexivity.
Qed.

End MoveInRange.

(** X13. moveBlock(idx, dir) with both idx and idx + dir inside the
    sequence exchanges the two entries and nothing else: the result
    has the same length, is a rearrangement of the sequence, and
    moveBlock(idx + dir, -dir) applied to it gives the original
    sequence back. *)
Theorem moveBlock_exchanges (idx dir : Z) (blocks : list (option Block)) :
  0 <= idx < Z.of_nat (length blocks) ->
  0 <= idx + dir < Z.of_nat (length blocks) ->
  let r := snd (moveBlock idx dir blocks) in
  fst (moveBlock idx dir blocks) = true /\
  length r = length blocks /\
  r !! Z.to_nat (idx + dir) = blocks !! Z.to_nat idx /\
  r !! Z.to_nat idx = blocks !! Z.to_nat (idx + dir) /\
  (forall j, j <> Z.to_nat idx -> j <> Z.to_nat (idx + dir) ->
             r !! j = blocks !! j) /\
  r ≡ₚ blocks /\
  moveBlock (idx + dir) (- dir) r = (true, blocks).
Proof.
  intros Hi Ht r.
  destruct (lookup_lt_is_Some_2 blocks (Z.to_nat idx)) as [xa Ha]; [lia |].
  destruct (lookup_lt_is_Some_2 blocks (Z.to_nat (idx + dir))) as [xb Hb]; [lia |].
  assert (Hm := moveBlock_in_range idx dir blocks xa xb
                  (proj1 Hi) (proj1 Ht) Ha Hb).
  unfold r. rewrite Hm. cbn [fst snd].
  set (a := Z.to_nat idx) in *. set (b := Z.to_nat (idx + dir)) in *.
  assert (Hla : (a < length blocks)%nat) by (eapply lookup_lt_Some; eauto).
  assert (Hlb : (b < length blocks)%nat) by (eapply lookup_lt_Some; eauto).
  assert (Hrb : <[a := xb]> (<[b := xa]> blocks) !! b = Some xa).
  { rewrite list_lookup_insert, list_lookup_insert, list.length_insert.
    destruct (decide (a = b /\ (a < length blocks)%nat)) as [[E _] | Hn].
    - rewrite <- E in Hb. congruence.
    - destruct (decide (b = b /\ (b < length blocks)%nat)) as [_ | Hn'];
        [reflexivity | exfalso; apply Hn'; split; [reflexivity | lia]]. }
  assert (Hra : <[a := xb]> (<[b := xa]> blocks) !! a = Some xb).
  { apply list_lookup_insert_eq. rewrite list.length_insert. lia. }
  split; [reflexivity |]. split; [rewrite !list.length_insert; reflexivity |].
  split; [rewrite Hrb, Ha; reflexivity |].
  split; [rewrite Hra, Hb; reflexivity |].
  split.
  { intros j Hja Hjb.
    rewrite list_lookup_insert_ne by congruence.
    rewrite list_lookup_insert_ne by congruence. reflexivity. }
  split.
  { apply Permutation_insert_swap; assumption. }
  rewrite (moveBlock_in_range (idx + dir) (- dir) _ xa xb).
  - f_equal.
    replace (Z.to_nat (idx + dir + - dir)) with a by (unfold a; f_equal; lia).
    fold b.
    apply list_eq. intros j.
    rewrite !list_lookup_insert, !list.length_insert.
    destruct (decide (a = j /\ (a < length blocks)%nat)) as [[<- _] | Hna].
    + rewrite Ha.
      destruct (decide (b = a /\ (b < length blocks)%nat)) as [[E _] | _].
      * rewrite E in Hb. congruence.
      * reflexivity.
    + destruct (decide (b = j /\ (b < length blocks)%nat)) as [[<- _] | Hnb].
      * rewrite Hb. reflexivity.
      * reflexivity.
  - lia.
  - lia.
  - replace (Z.to_nat (idx + dir)) with b by reflexivity. exact Hrb.
  - replace (Z.to_nat (idx + dir + - dir)) with a by (unfold a; f_equal; lia).
    exact Hra.
Qed.

Section Tracks.

Lemma note_at_registerTrack id bs b k s :
  note_at (registerTrack id bs) b k s = note_at bs b k s.
Proof.
  unfold note_at, registerTrack. rewrite list_lookup_fmap.
  destruct (bs !! b) as [blk |]; [| reflexivity].
  cbn [fmap option_fmap option_map mbind option_bind].
  destruct (track_truthy id blk) eqn:Et; [reflexivity |].
  cbn [tracks]. unfold track_truthy in Et.
  destruct (tracks blk !! id) as [arr |] eqn:Eid; [discriminate |].
  destruct (decide (k = id)) as [-> | Hne].
  - rewrite lookup_insert_eq, Eid. cbn [mbind option_bind].
    unfold emptyTrack.
    destruct (replicate totalSteps None !! s) as [o |] eqn:Er; [| reflexivity].
    apply lookup_replicate in Er as [-> _]. reflexivity.
  - rewrite lookup_insert_ne by congruence. reflexivity.
Qed.

Lemma drums_at_registerTrack id bs b s :
  drums_at (registerTrack id bs) b s = drums_at bs b s.
Proof.
  unfold drums_at, registerTrack. rewrite list_lookup_fmap.
  destruct (bs !! b) as [blk |]; [| reflexivity]. cbn.
  destruct (track_truthy id blk); reflexivity.
Qed.

Lemma note_at_removeTrack id bs b k s :
  note_at (removeTrack id bs) b k s
  = if decide (k = id) then None else note_at bs b k s.
Proof.
  unfold note_at, removeTrack. rewrite list_lookup_fmap.
  destruct (bs !! b) as [blk |]; cbn.
  - destruct (decide (k = id)) as [-> | Hne].
    + rewrite lookup_delete_eq. reflexivity.
    + rewrite lookup_delete_ne by congruence. reflexivity.
  - destruct (decide (k = id)); reflexivity.
Qed.

Lemma drums_at_removeTrack id bs b s :
  drums_at (removeTrack id bs) b s = drums_at bs b s.
Proof.
  unfold drums_at, removeTrack. rewrite list_lookup_fmap.
  destruct (bs !! b) as [blk |]; reflexivity.
Qed.

End Tracks.

(** X14. registerTrack never changes what the session plays: for every
    identifier, whether it is new, already a track or the name of an
    inherited object member, every slot holds the same note and every
    step the same drum hits after the call as before, and the number
    of blocks is unchanged. *)
Theorem registerTrack_keeps_pattern (id : string) (bs : list Block) :
  length (registerTrack id bs) = length bs /\
  (forall b k s, note_at (registerTrack id bs) b k s = note_at bs b k s) /\
  (forall b s, drums_at (registerTrack id bs) b s = drums_at bs b s).
Proof.
  split; [unfold registerTrack; apply length_map |].
  split; [intros; apply note_at_registerTrack |].
  intros; apply drums_at_registerTrack.
Qed.

(** X15. removeTrack is the inverse of registerTrack on a new track,
    but not the other way round: registering an identifier that no
    block has and removing it again restores the blocks exactly, while
    removing a track and registering it again leaves the track empty in
    every block and all other tracks and the drum hits as they were. *)
Theorem removeTrack_registerTrack (id : string) (bs : list Block) :
  ((forall b, b ∈ bs -> tracks b !! id = None) ->
   removeTrack id (registerTrack id bs) = bs) /\
  (forall b k s,
      note_at (registerTrack id (removeTrack id bs)) b k s
      = if decide (k = id) then None else note_at bs b k s) /\
  (forall b s,
      drums_at (registerTrack id (removeTrack id bs)) b s = drums_at bs b s).
Proof.
  split; [| split].
  - intros Hnone. unfold removeTrack, registerTrack.
    rewrite map_map. rewrite <- (map_id bs) at 2.
    apply map_ext_in. intros blk Hin.
    apply list_elem_of_In in Hin. specialize (Hnone blk Hin).
    destruct blk as [tr dr]. cbn [tracks drums] in *.
    unfold track_truthy. cbn [tracks]. rewrite Hnone.
    destruct (proto_member id); cbn [tracks drums]; f_equal.
    + apply delete_id. exact Hnone.
    + apply delete_insert_id. exact Hnone.
  - intros b k s. rewrite note_at_registerTrack. apply note_at_removeTrack.
  - intros b s. rewrite drums_at_registerTrack. apply drums_at_removeTrack.
Qed.
(** ** The look-ahead window of one scheduler call *)


(** X17. A tick that brings no progress of the audio clock schedules
    nothing: after a call of the scheduler at time now has returned
    normally, a further call at the same or an earlier time returns at
    once with the transport state, the visual queue and the synths
    unchanged. *)
Theorem scheduler_repeated_tick `{FloatOps}
    (keysOf : gmap string (list (option Note)) -> list string)
    (drum : option DrumSynth.t)
    (fuel fuel2 : nat) (bpm : Z) (blocks : list Block) (now now2 : Q)
    (p p' : AudioEngine.Player) :
  AudioEngine.scheduler fuel keysOf drum bpm blocks now p = Some (Ok p') ->
  (now2 <= now)%Q ->
  AudioEngine.scheduler fuel2 keysOf drum bpm blocks now2 p' = Some (Ok p').
Proof.
  intros Hs Hle.
  apply scheduler_ok_iter in Hs as (_ & _ & _ & Hn).
  assert (Hle2 : (now2 + AudioEngine.lookahead
                  <= AudioEngine.nextNoteTime (AudioEngine.transport p'))%Q).
  { eapply Qle_trans; [| exact Hn]. apply Qplus_le_l. exact Hle. }
  destruct fuel2; simpl;
    destruct (Qlt_le_dec (AudioEngine.nextNoteTime (AudioEngine.transport p'))
                         (now2 + AudioEngine.lookahead)) as [Hlt | _];
    try reflexivity; exfalso; apply (Qlt_not_le _ _ Hlt Hle2).
Qed.

(** ** Synths and tracks stay in step *)

Section SynthsAndTracks.

Context `{FloatOps}.
Import App SessionProps.

Lemma getSynth_None id e : getSynth id e = None <-> id ∉ synth_ids e.
Proof.
  unfold getSynth, synth_ids. induction (bassSynths e) as [| s r IH]; simpl.
  - split; [intros _ Hin; inversion Hin | reflexivity].
  - destruct (String.eqb_spec (BassSynth.sid s) id) as [E | E].
    + split; [discriminate |]. intros Hn. exfalso. apply Hn. rewrite E. left.
    + rewrite IH. rewrite not_elem_of_cons. split; [auto | tauto].
Qed.

Lemma findIndex_Some id l idx :
  findIndex id l = Some idx ->
  (map BassSynth.sid l) !! idx = Some id /\
  forall j, (j < idx)%nat -> (map BassSynth.sid l) !! j <> Some id.
Proof.
  revert idx. induction l as [| s r IH]; intros idx; simpl; [discriminate |].
  destruct (String.eqb_spec (BassSynth.sid s) id) as [E | E].
  - intros Hi. inversion Hi; subst. split; [reflexivity |]. intros j Hj. lia.
  - destruct (findIndex id r) as [i |] eqn:Ei; [| discriminate].
    cbn. intros Hi. inversion Hi; subst.
    destruct (IH i eq_refl) as [Hl Hm]. split; [exact Hl |].
    intros [| j] Hj; cbn.
    + congruence.
    + apply Hm. lia.
Qed.

Lemma findIndex_None id l :
  findIndex id l = None <-> id ∉ map BassSynth.sid l.
Proof.
  induction l as [| s r IH]; simpl.
  - split; [intros _ Hin; inversion Hin | reflexivity].
  - destruct (String.eqb_spec (BassSynth.sid s) id) as [E | E].
    + split; [discriminate |]. intros Hn. exfalso. apply Hn. rewrite E. left.
    + rewrite not_elem_of_cons. destruct (findIndex id r) as [i |]; cbn.
      * split; [discriminate |]. intros [_ Hn]. apply IH in Hn. discriminate.
      * split; [| reflexivity]. intros _. split; [congruence |].
        apply IH. reflexivity.
Qed.

Lemma map_delete {A B} (f : A -> B) (l : list A) i :
  map f (delete i l) = delete i (map f l).
Proof.
  revert i. induction l as [| x l IH]; intros [| i]; simpl; try reflexivity.
  f_equal. apply IH.
Qed.

Lemma NoDup_delete {A} (l : list A) i : NoDup l -> NoDup (delete i l).
Proof.
  intros Hn. eapply sublist_NoDup; [exact Hn | apply sublist_delete].
Qed.

Lemma length_delete_ge {A} (l : list A) i :
  (length l - 1 <= length (delete i l))%nat.
Proof.
  rewrite delete_take_drop, length_app, length_take, length_drop. lia.
Qed.

Lemma elem_of_delete_NoDup {A} (l : list A) i x y :
  NoDup l -> l !! i = Some x ->
  (y ∈ delete i l <-> y ∈ l /\ y <> x).
Proof.
  intros Hn Hx. rewrite delete_take_drop.
  assert (Hl := take_drop_middle l i x Hx).
  rewrite <- Hl in Hn.
  apply NoDup_app in Hn as (H1 & H2 & H3).
  apply NoDup_cons in H3 as [H3 H4].
  rewrite <- Hl at 3.
  rewrite !elem_of_app, elem_of_cons. split.
  - intros [Hy | Hy]; (split; [tauto |]); intros ->.
    + apply (H2 x Hy). left.
    + contradiction.
  - intros [[Hy | [Hy | Hy]] Hne]; tauto.
Qed.

Lemma track_truthy_registered id blk b' :
  b' = (if track_truthy id blk then blk
        else {| tracks := <[id := emptyTrack]> (tracks blk);
                drums := drums blk |}) ->
  track_truthy id b' = true /\
  (forall k, is_Some (tracks b' !! k) ->
             k = id \/ is_Some (tracks blk !! k)) /\
  (forall k, track_truthy k blk = true -> track_truthy k b' = true).
Proof.
  intros ->. destruct (track_truthy id blk) eqn:Et.
  - split; [exact Et |]. split; [auto | auto].
  - split; [| split].
    + unfold track_truthy. cbn [tracks]. rewrite lookup_insert_eq. reflexivity.
    + intros k. cbn [tracks].
      destruct (decide (k = id)) as [-> | Hne]; [auto |].
      rewrite lookup_insert_ne by congruence. auto.
    + intros k. unfold track_truthy. cbn [tracks].
      destruct (decide (k = id)) as [-> | Hne].
      * rewrite lookup_insert_eq. reflexivity.
      * rewrite lookup_insert_ne by congruence. auto.
Qed.


Lemma dom_is_Some (b b' : Block) k :
  dom (tracks b') = dom (tracks b) ->
  (is_Some (tracks b' !! k) <-> is_Some (tracks b !! k)).
Proof.
  intros Hd. rewrite <- !elem_of_dom, Hd. reflexivity.
Qed.

Lemma in_step_blocks w bs' :
  in_step w -> bs' <> [] -> keys_from bs' (blocks w) ->
  in_step (with_blocks w bs').
Proof.
  intros (e & He & Hn & Hne & Ht & Hs) Hne' Hk.
  exists e. cbn [with_blocks audioEngine blocks].
  split; [exact He |]. split; [exact Hn |]. split; [exact Hne' |]. split.
  - intros b' k Hb' Hsome. destruct (Hk b' Hb') as (b & Hb & Hd).
    apply (Ht b k Hb). apply (dom_is_Some b b' k Hd). exact Hsome.
  - intros b' id Hb' Hid. destruct (Hk b' Hb') as (b & Hb & Hd).
    apply track_truthy_dom with (id := id) in Hd. rewrite Hd. auto.
Qed.

Lemma keys_from_sub bs' bs :
  (forall b, b ∈ bs' -> b ∈ bs) -> keys_from bs' bs.
Proof. intros Hsub b' Hb'. exists b'. auto. Qed.

Lemma clearBlock_keys idx bs : keys_from (clearBlock idx bs) bs.
Proof.
  unfold clearBlock. destruct (bs !! idx) as [b |] eqn:E.
  - intros b' Hb'.
    apply list_elem_of_lookup in Hb' as [j Hj].
    rewrite list_lookup_insert in Hj.
    destruct (decide (idx = j /\ (idx < length bs)%nat)) as [[<- _] | _].
    + inversion Hj; subst. exists b. split.
      * eapply list_elem_of_lookup_2; eauto.
      * apply clearedBlock_dom.
    + exists b'. split; [eapply list_elem_of_lookup_2; eauto | reflexivity].
  - apply keys_from_sub. auto.
Qed.

Lemma in_step_op w o : in_step w -> in_step (apply_session_op w o).
Proof.
  intros Hin. destruct o as [id | id | | idx | idx | idx];
    cbn [apply_session_op].
  - (* addBassSynth *)
    destruct Hin as (e & He & Hn & Hne & Ht & Hs). rewrite He.
    unfold addBassSynth_guarded.
    destruct (getSynth id e) as [s |] eqn:Eg; cbn [snd].
    + exists e. auto.
    + apply getSynth_None in Eg.
      eexists. unfold addBassSynth.
      cbn [with_blocks with_engine audioEngine blocks].
      split; [reflexivity |].
      unfold synth_ids in *. cbn [bassSynths]. rewrite map_app. cbn [map].
      change (BassSynth.sid (BassSynth.create id (ctx e))) with id.
      split.
      { apply NoDup_app. split; [exact Hn |]. split.
        - intros x Hx Hx'. apply list_elem_of_singleton in Hx'. subst.
          contradiction.
        - apply NoDup_singleton. }
      split.
      { unfold registerTrack. intros Hnil. apply Hne.
        destruct (blocks w); [reflexivity | discriminate]. }
      split.
      * intros b' k Hb' Hsome. unfold registerTrack in Hb'.
        apply list_elem_of_fmap in Hb' as (blk & Hb' & Hblk).
        destruct (track_truthy_registered id blk b' Hb') as (_ & Hkeys & _).
        apply elem_of_app.
        destruct (Hkeys k Hsome) as [-> | Hold].
        -- right. left.
        -- left. eauto.
      * intros b' id' Hb' Hid'. unfold registerTrack in Hb'.
        apply list_elem_of_fmap in Hb' as (blk & Hb' & Hblk).
        destruct (track_truthy_registered id blk b' Hb') as (Hnew & _ & Hold).
        apply elem_of_app in Hid' as [Hid' | Hid'].
        -- apply Hold. auto.
        -- apply list_elem_of_singleton in Hid'. subst. exact Hnew.
  - (* removeSynth *)
    destruct Hin as (e & He & Hn & Hne & Ht & Hs). rewrite He.
    unfold removeSynth.
    destruct (findIndex id (bassSynths e)) as [i |] eqn:Ef; cbn [snd].
    + apply findIndex_Some in Ef as [Hi _].
      eexists. cbn [with_blocks with_engine audioEngine blocks].
      split; [reflexivity |].
      unfold synth_ids in *. cbn [bassSynths]. rewrite map_delete.
      split; [apply NoDup_delete; exact Hn |].
      split.
      { unfold removeTrack. intros Hnil. apply Hne.
        destruct (blocks w); [reflexivity | discriminate]. }
      split.
      * intros b' k Hb' Hsome. unfold removeTrack in Hb'.
        apply list_elem_of_fmap in Hb' as (blk & -> & Hblk).
        cbn [tracks] in Hsome.
        apply (elem_of_delete_NoDup _ i id k Hn Hi).
        destruct (decide (k = id)) as [-> | Hne'].
        -- rewrite lookup_delete_eq in Hsome. destruct Hsome; discriminate.
        -- rewrite lookup_delete_ne in Hsome by congruence. split; eauto.
      * intros b' id' Hb' Hid'. unfold removeTrack in Hb'.
        apply list_elem_of_fmap in Hb' as (blk & -> & Hblk).
        apply (elem_of_delete_NoDup _ i id id' Hn Hi) in Hid' as [Hid' Hne'].
        specialize (Hs blk id' Hblk Hid').
        unfold track_truthy in *. cbn [tracks].
        rewrite lookup_delete_ne by congruence. exact Hs.
    + exists e. auto.
  - (* addBlock *)
    assert (Hne : blocks w <> []) by (destruct Hin as (e & _ & _ & Hne & _); exact Hne).
    apply in_step_blocks; [exact Hin | |].
    + unfold addBlock. intros Hnil. apply app_eq_nil in Hnil as [_ Hnil].
      discriminate.
    + unfold addBlock. intros b' Hb'.
      apply elem_of_app in Hb' as [Hb' | Hb'].
      * exists b'. auto.
      * apply list_elem_of_singleton in Hb'. subst b'.
        destruct (blocks w) as [| b0 rest] eqn:Eb; [congruence |].
        exists b0. split; [left |]. cbn [tracks]. apply dom_fmap_L.
  - (* removeBlock *)
    assert (Hne : blocks w <> []) by (destruct Hin as (e & _ & _ & Hne & _); exact Hne).
    apply in_step_blocks; [exact Hin | |].
    + unfold removeBlock.
      destruct (Nat.leb_spec (length (blocks w)) 1) as [Hl | Hl].
      * unfold clearBlock.
        destruct (blocks w !! 0%nat) as [b |] eqn:E0.
        -- intros Hnil. apply (f_equal length) in Hnil.
           rewrite list.length_insert in Hnil.
           destruct (blocks w); [congruence | discriminate].
        -- exact Hne.
      * unfold splice1. intros Hnil. apply (f_equal length) in Hnil.
        pose proof (length_delete_ge (blocks w)
                      (Z.to_nat (if idx <? 0
                                 then Z.max (Z.of_nat (length (blocks w)) + idx) 0
                                 else Z.min idx (Z.of_nat (length (blocks w)))))).
        cbn [length] in Hnil. lia.
    + unfold removeBlock.
      destruct (length (blocks w) <=? 1)%nat.
      * apply clearBlock_keys.
      * apply keys_from_sub. intros b. apply elem_of_splice1.
  - (* duplicateBlock *)
    assert (Hne : blocks w <> []) by (destruct Hin as (e & _ & _ & Hne & _); exact Hne).
    apply in_step_blocks; [exact Hin | |].
    + unfold duplicateBlock. destruct (blocks_get idx (blocks w)); [| exact Hne].
      intros Hnil. apply (f_equal length) in Hnil.
      rewrite length_splice_in in Hnil. discriminate.
    + unfold duplicateBlock.
      destruct (blocks_get idx (blocks w)) as [org |] eqn:E.
      * apply blocks_get_Some in E as [_ E].
        apply keys_from_sub. intros b Hb.
        apply elem_of_splice_in in Hb as [-> | Hb]; [| exact Hb].
        rewrite copyBlock_same. eapply list_elem_of_lookup_2; eauto.
      * apply keys_from_sub. auto.
  - (* clearBlock *)
    assert (Hne : blocks w <> []) by (destruct Hin as (e & _ & _ & Hne & _); exact Hne).
    apply in_step_blocks; [exact Hin | | apply clearBlock_keys].
    unfold clearBlock. destruct (blocks w !! idx); [| exact Hne].
    intros Hnil. apply (f_equal length) in Hnil.
    rewrite list.length_insert in Hnil.
    destruct (blocks w); [congruence | discriminate].
Qed.

End SynthsAndTracks.
Section SynthMenu.

Context `{FloatOps}.
Import App SessionProps.

Lemma getSynth_delete id id' l idx ctx0 :
  findIndex id l = Some idx -> id' <> id ->
  getSynth id' {| ctx := ctx0; bassSynths := delete idx l |}
  = getSynth id' {| ctx := ctx0; bassSynths := l |}.
Proof.
  unfold getSynth. cbn [bassSynths].
  revert idx. induction l as [| s r IH]; intros idx; simpl; [discriminate |].
  destruct (String.eqb_spec (BassSynth.sid s) id) as [E | E].
  - intros Hi Hne. inversion Hi; subst. simpl.
    destruct (String.eqb_spec (BassSynth.sid s) id'); [congruence | reflexivity].
  - destruct (findIndex id r) as [i |] eqn:Ei; [| discriminate].
    cbn. intros Hi Hne. inversion Hi; subst. simpl.
    destruct (String.eqb (BassSynth.sid s) id'); [reflexivity |].
    apply IH; auto.
Qed.

Lemma removeSynth_found id w e idx :
  findIndex id (bassSynths e) = Some idx ->
  removeSynth id w e
  = (true,
     with_blocks
       (with_engine w {| ctx := ctx e; bassSynths := delete idx (bassSynths e) |})
       (removeTrack id (blocks w))).
Proof. intros Hf. unfold removeSynth. rewrite Hf. reflexivity. Qed.

Lemma elem_of_findIndex id l :
  id ∈ map BassSynth.sid l -> exists idx, findIndex id l = Some idx.
Proof.
  intros Hin. destruct (findIndex id l) as [idx |] eqn:E; [eauto |].
  apply findIndex_None in E. contradiction.
Qed.


Lemma registered_refl ids bs : registered ids bs bs.
Proof.
  split; [reflexivity |]. split; [reflexivity |]. split.
  - intros i b Hb. exists b. auto.
  - intros i b Hb. exists b. auto.
Qed.

Lemma registered_step ids bs bs' id :
  registered ids bs bs' -> id ∈ ids ->
  registered ids bs (registerTrack id bs').
Proof.
  intros (Hn & Hd & Hf & Hb) Hid. split; [| split; [| split]].
  - intros b k s. rewrite note_at_registerTrack. apply Hn.
  - intros b s. rewrite drums_at_registerTrack. apply Hd.
  - intros i b Hi. destruct (Hf i b Hi) as (b' & Hi' & Hk).
    unfold registerTrack. rewrite list_lookup_fmap, Hi'. cbn.
    eexists. split; [reflexivity |].
    intros k Hsome. specialize (Hk k Hsome).
    destruct (track_truthy id b'); [exact Hk |]. cbn [tracks].
    destruct (decide (k = id)) as [-> | Hne].
    + rewrite lookup_insert_eq. eauto.
    + rewrite lookup_insert_ne by congruence. exact Hk.
  - intros i b2 Hi. unfold registerTrack in Hi.
    rewrite list_lookup_fmap in Hi.
    destruct (bs' !! i) as [b' |] eqn:Ei; [| discriminate].
    cbn in Hi. inversion Hi; subst b2. clear Hi.
    destruct (Hb i b' Ei) as (b & Hbi & Hk).
    exists b. split; [exact Hbi |].
    intros k Hsome.
    destruct (track_truthy id b'); [auto |]. cbn [tracks] in Hsome.
    destruct (decide (k = id)) as [-> | Hne]; [auto |].
    rewrite lookup_insert_ne in Hsome by congruence. auto.
Qed.


Lemma sync_fold (all : list string) (bs0 : list Block) ids :
  forall w e,
    audioEngine w = Some e ->
    (forall k, k ∈ ids -> k ∈ all) ->
    registered all bs0 (blocks w) ->
    exists e',
      audioEngine (fold_left sync_step ids w) = Some e' /\
      (forall k, k ∈ synth_ids e' <-> k ∈ synth_ids e \/ k ∈ ids) /\
      (NoDup (synth_ids e) -> NoDup (synth_ids e')) /\
      registered all bs0 (blocks (fold_left sync_step ids w)) /\
      bpm (fold_left sync_step ids w) = bpm w /\
      drumSynth (fold_left sync_step ids w) = drumSynth w.
Proof.
  induction ids as [| id ids IH]; intros w e He Hsub Hreg; cbn [fold_left].
  - exists e. split; [exact He |]. split.
    + intros k. split; [auto |]. intros [Hk | Hk]; [exact Hk | inversion Hk].
    + auto.
  - assert (Hid : id ∈ all) by (apply Hsub; left).
    assert (Hsub' : forall k, k ∈ ids -> k ∈ all)
      by (intros k Hk; apply Hsub; right; exact Hk).
    unfold sync_step at 2 4 6 8. rewrite He.
    unfold addBassSynth_guarded.
    destruct (getSynth id e) as [s |] eqn:Eg; cbn [snd].
    + destruct (IH w e He Hsub' Hreg) as (e' & He' & Hk & Hn & Hr & Hb & Hd).
      exists e'. split; [exact He' |]. split; [| auto].
      intros k. rewrite Hk, elem_of_cons.
      assert (Hin : id ∈ synth_ids e).
      { destruct (decide (id ∈ synth_ids e)) as [Hin | Hnin]; [exact Hin |].
        apply getSynth_None in Hnin. congruence. }
      split; [tauto |]. intros [Hk' | [-> | Hk']]; auto.
    + apply getSynth_None in Eg.
      set (e1 := {| ctx := ctx e;
                    bassSynths := bassSynths e ++ [BassSynth.create id (ctx e)] |}).
      destruct (IH (addBassSynth id w e) e1 eq_refl Hsub')
        as (e' & He' & Hk & Hn & Hr & Hb & Hd).
      { unfold addBassSynth. cbn [with_blocks blocks].
        apply registered_step; assumption. }
      exists e'. split; [exact He' |].
      assert (Hids : synth_ids e1 = synth_ids e ++ [id]).
      { unfold synth_ids, e1. cbn [bassSynths]. rewrite map_app. reflexivity. }
      split; [| split; [| auto]].
      * intros k. rewrite Hk, Hids, elem_of_app, list_elem_of_singleton,
          elem_of_cons. tauto.
      * intros Hnd. apply Hn. rewrite Hids. apply NoDup_app.
        split; [exact Hnd |]. split; [| apply NoDup_singleton].
        intros x Hx Hx'. apply list_elem_of_singleton in Hx'. subst.
        contradiction.
Qed.

End SynthMenu.
Section SynthMenuTheorems.

Context `{FloatOps}.
Import App SessionProps.


(** X19. removeSynth(id) on an engine with distinct synth identifiers,
    one of which is id: the call returns true; afterwards getSynth(id)
    finds nothing, every other identifier finds the synth it found
    before, the track id is gone from every block (all its notes are
    lost) and every other track and all drum hits are as before. *)
Theorem removeSynth_removes_synth_and_track (id : string) (w : World) (e : Engine) :
  NoDup (synth_ids e) ->
  id ∈ synth_ids e ->
  exists e',
    fst (removeSynth id w e) = true /\
    audioEngine (snd (removeSynth id w e)) = Some e' /\
    getSynth id e' = None /\
    (forall id', id' <> id -> getSynth id' e' = getSynth id' e) /\
    (forall b k s,
        note_at (blocks (snd (removeSynth id w e))) b k s
        = if decide (k = id) then None else note_at (blocks w) b k s) /\
    (forall b s,
        drums_at (blocks (snd (removeSynth id w e))) b s
        = drums_at (blocks w) b s).
Proof.
  intros Hn Hin.
  destruct (elem_of_findIndex id (bassSynths e) Hin) as [idx Hf].
  rewrite (removeSynth_found id w e idx Hf).
  cbn [fst snd with_blocks with_engine audioEngine blocks].
  eexists. split; [reflexivity |]. split; [reflexivity |].
  pose proof (findIndex_Some id _ idx Hf) as [Hidx _].
  split; [| split; [| split]].
  - apply getSynth_None. unfold synth_ids. cbn [bassSynths].
    rewrite map_delete. intros Hid.
    apply (elem_of_delete_NoDup _ idx id id Hn Hidx) in Hid as [_ Hne].
    congruence.
  - intros id' Hne.
    rewrite (getSynth_delete id id' (bassSynths e) idx (ctx e) Hf Hne).
    destruct e; reflexivity.
  - intros b k s. apply note_at_removeTrack.
  - intros b s. apply drums_at_removeTrack.
Qed.


(** X21. syncWithMatrix, run by the CSV load handler after a
    successful import, brings the synth list in line with the tracks:
    afterwards the identifiers of the synths are exactly the track keys
    that occur in the blocks, distinct if they were distinct before;
    the track keys that occur in the blocks are the same as before;
    and no note, no drum hit, not the tempo and not the drum synth is
    changed. *)
Theorem syncWithMatrix_matches_tracks
    (activeIds : list string) (w : World) (e : Engine) :
  active_ids (blocks w) activeIds ->
  let w' := syncWithMatrix activeIds w e in
  exists e',
    audioEngine w' = Some e' /\
    (forall k, k ∈ synth_ids e' <-> k ∈ activeIds) /\
    (NoDup (synth_ids e) -> NoDup (synth_ids e')) /\
    active_ids (blocks w') activeIds /\
    (forall b k s, note_at (blocks w') b k s = note_at (blocks w) b k s) /\
    (forall b s, drums_at (blocks w') b s = drums_at (blocks w) b s) /\
    bpm w' = bpm w /\ drumSynth w' = drumSynth w.
Proof.
  intros Hact w'. unfold w', syncWithMatrix.
  set (kept := List.filter _ (bassSynths e)).
  set (w0 := with_engine w {| ctx := ctx e; bassSynths := kept |}).
  change (fold_left _ activeIds w0) with (fold_left sync_step activeIds w0).
  destruct (sync_fold activeIds (blocks w) activeIds w0
              {| ctx := ctx e; bassSynths := kept |} eq_refl
              (fun k Hk => Hk) (registered_refl _ _))
    as (e' & He' & Hk & Hn & (Hnotes & Hdrums & Hfwd & Hbwd) & Hbpm & Hds).
  assert (Hkept : forall k, k ∈ map BassSynth.sid kept ->
                            k ∈ activeIds /\ k ∈ synth_ids e).
  { intros k Hin. apply list_elem_of_fmap in Hin as (s & -> & Hs).
    unfold kept in Hs. apply list_elem_of_In, filter_In in Hs as [Hs Hex].
    apply existsb_exists in Hex as (x & Hx & Heq).
    apply String.eqb_eq in Heq. subst x. split.
    - apply list_elem_of_In. exact Hx.
    - unfold synth_ids. apply list_elem_of_fmap. exists s. split; [reflexivity |].
      apply list_elem_of_In. exact Hs. }
  exists e'. split; [exact He' |]. split; [| split; [| split; [| auto]]].
  - intros k. rewrite Hk. unfold synth_ids at 1. cbn [bassSynths].
    split; [| auto]. intros [Hin | Hin]; [apply Hkept; exact Hin | exact Hin].
  - intros Hnd. apply Hn. unfold synth_ids in *. cbn [bassSynths].
    unfold kept. clear -Hnd.
    induction (bassSynths e) as [| s r IH]; [constructor |].
    cbn [map] in Hnd. apply NoDup_cons in Hnd as [Hs Hr].
    cbn [List.filter]. destruct (existsb _ activeIds).
    + cbn [map]. apply NoDup_cons. split; [| auto].
      intros Hin. apply Hs.
      apply list_elem_of_fmap in Hin as (s' & Heq & Hin).
      apply list_elem_of_In, filter_In in Hin as [Hin _].
      apply list_elem_of_fmap. exists s'. split; [exact Heq |].
      apply list_elem_of_In. exact Hin.
    + auto.
  - intros k. rewrite (Hact k). split.
    + intros (b & Hb & Hsome).
      apply list_elem_of_lookup in Hb as [i Hi].
      destruct (Hfwd i b Hi) as (b' & Hi' & Hkeys).
      exists b'. split; [eapply list_elem_of_lookup_2; eauto | auto].
    + intros (b' & Hb' & Hsome).
      apply list_elem_of_lookup in Hb' as [i Hi'].
      destruct (Hbwd i b' Hi') as (b & Hi & Hkeys).
      destruct (Hkeys k Hsome) as [Hin | Hold].
      * apply Hact. exact Hin.
      * exists b. split; [eapply list_elem_of_lookup_2; eauto | exact Hold].
Qed.

End SynthMenuTheorems.
(** ** The note editor *)

Section Editor.

Context `{FloatOps}.
Import UIController.
Local Open Scope nat_scope.

Lemma eqb_drum view : view <> "drum"%string -> String.eqb view "drum" = false.
Proof. intros Hne. apply String.eqb_neq. exact Hne. Qed.

(** The track of the view exists after [placeNote] has looked for it. *)
Lemma view_track_ready view bs eb blk step :
  full_grid bs -> proto_member view = false ->
  bs !! eb = Some blk -> step < totalSteps ->
  let bs1 := if track_truthy view blk then bs else registerTrack view bs in
  full_grid bs1 /\ length bs1 = length bs /\
  (forall b k s, note_at bs1 b k s = note_at bs b k s) /\
  (forall b s, drums_at bs1 b s = drums_at bs b s) /\
  is_Some (entry bs1 eb view step).
Proof.
  intros Hf Hp Hb Hs bs1. unfold bs1.
  destruct (track_truthy view blk) eqn:Et.
  - split; [exact Hf |]. split; [reflexivity |].
    split; [reflexivity |]. split; [reflexivity |].
    unfold track_truthy in Et. rewrite Hp in Et.
    destruct (tracks blk !! view) as [arr |] eqn:Ea; [| discriminate].
    unfold entry. rewrite Hb. cbn. rewrite Ea. cbn.
    apply lookup_lt_is_Some. destruct (Hf _ _ Hb) as [_ Hl].
    rewrite (Hl _ _ Ea). exact Hs.
  - split; [apply registerTrack_full_grid; exact Hf |].
    split; [apply registerTrack_length |].
    split; [intros; apply note_at_registerTrack |].
    split; [intros; apply drums_at_registerTrack |].
    apply registerTrack_entry_some; auto.
    eapply lookup_lt_Some; eauto.
Qed.

Lemma placeNote_ok n st now engine bs blk :
  full_grid bs ->
  activeView st <> "drum"%string ->
  proto_member (activeView st) = false ->
  bs !! editingBlock st = Some blk ->
  selectedStep st < totalSteps ->
  (forall e, engine = Some e ->
             res_ok (App.previewNote (activeView st) n (Num (currentOctave st))
                                     now e) = true) ->
  exists bs1 blk1,
    bs1 = (if track_truthy (activeView st) blk then bs
           else registerTrack (activeView st) bs) /\
    bs1 !! editingBlock st = Some blk1 /\
    placeNote n st now engine bs
    = Ok (option_map
            (fun e => res_state (App.previewNote (activeView st) n
                                   (Num (currentOctave st)) now e)) engine,
          <[editingBlock st :=
              App.setNote (activeView st) (selectedStep st)
                {| note := n; octave := Num (currentOctave st);
                   slide := match note_at bs (editingBlock st) (activeView st)
                                          (selectedStep st) with
                            | Some p => slide p
                            | None => false
                            end;
                   accent := match note_at bs (editingBlock st) (activeView st)
                                           (selectedStep st) with
                             | Some p => accent p
                             | None => false
                             end |} blk1]> bs1).
Proof.
  intros Hf Hd Hp Hb Hs Hprev.
  destruct (view_track_ready _ bs _ blk _ Hf Hp Hb Hs)
    as (Hf1 & Hl1 & Hn1 & Hd1 & Hsome).
  set (bs1 := if track_truthy (activeView st) blk then bs
              else registerTrack (activeView st) bs) in *.
  assert (Hlt : editingBlock st < length bs1).
  { rewrite Hl1. eapply lookup_lt_Some; eauto. }
  destruct (lookup_lt_is_Some_2 bs1 _ Hlt) as [blk1 Hb1].
  exists bs1, blk1. split; [reflexivity |]. split; [exact Hb1 |].
  unfold placeNote. rewrite (eqb_drum _ Hd).
  assert (Hpre :
    match engine with
    | Some e => res_map Some (App.previewNote (activeView st) n
                                (Num (currentOctave st)) now e)
    | None => Ok None
    end
    = Ok (option_map
            (fun e => res_state (App.previewNote (activeView st) n
                                   (Num (currentOctave st)) now e)) engine)).
  { destruct engine as [e |]; [| reflexivity].
    specialize (Hprev e eq_refl). cbn [option_map].
    destruct (App.previewNote (activeView st) n (Num (currentOctave st)) now e);
      [reflexivity | discriminate]. }
  rewrite Hpre, Hb. fold bs1. rewrite Hb1.
  rewrite <- (Hn1 (editingBlock st) (activeView st) (selectedStep st)).
  unfold note_at at 1 2. rewrite Hb1. cbn [mbind option_bind].
  reflexivity.
Qed.

(** A preview changes neither the identifier nor the parameters of a
    synth. *)
Lemma play_keeps_config note oct time sl ac (s : BassSynth.t) :
  exists f, res_state (BassSynth.play note oct time sl ac s)
            = BassSynth.with_lastFreq s f.
Proof.
  unfold BassSynth.play.
  destruct (negb (BassSynth.fxChain s)).
  { exists (BassSynth.lastFreq s). destruct s; reflexivity. }
  destruct (BassSynth.noteIndex note) as [idx |].
  2: { exists (BassSynth.lastFreq s). destruct s; reflexivity. }
  cbv zeta.
  repeat match goal with
         | |- context [if ?c then Throw _ else _] => destruct c
         end; eexists; reflexivity.
Qed.

Lemma same_config_refl (l : list BassSynth.t) :
  Forall2 (fun s s' => exists f, s' = BassSynth.with_lastFreq s f) l l.
Proof.
  induction l as [| s r IH]; constructor; [| exact IH].
  exists (BassSynth.lastFreq s). destruct s; reflexivity.
Qed.

Lemma update_synth_play id note oct time sl ac (l : list BassSynth.t) :
  Forall2 (fun s s' => exists f, s' = BassSynth.with_lastFreq s f) l
          (res_state (App.update_synth id (BassSynth.play note oct time sl ac) l)).
Proof.
  induction l as [| s r IH]; cbn [App.update_synth res_state]; [constructor |].
  destruct (String.eqb (BassSynth.sid s) id).
  - destruct (play_keeps_config note oct time sl ac s) as [f Hf].
    destruct (BassSynth.play note oct time sl ac s) as [s' | s'];
      cbn [res_map res_state] in *; subst s';
      (constructor; [exists f; reflexivity | apply same_config_refl]).
  - destruct (App.update_synth id (BassSynth.play note oct time sl ac) r);
      cbn [res_map res_state] in *;
      (constructor; [| exact IH]);
      exists (BassSynth.lastFreq s); destruct s; reflexivity.
Qed.

Lemma previewNote_synths id note oct now (e : App.Engine) :
  App.ctx (res_state (App.previewNote id note oct now e)) = App.ctx e /\
  Forall2 (fun s s' => exists f, s' = BassSynth.with_lastFreq s f)
          (App.bassSynths e)
          (App.bassSynths (res_state (App.previewNote id note oct now e))).
Proof.
  pose proof same_config_refl as Hrefl.
  unfold App.previewNote.
  destruct (App.getSynth id e); [| split; [reflexivity | apply Hrefl]].
  destruct (App.ctx e) eqn:Ec; [| split; [exact Ec | apply Hrefl]].
  pose proof (update_synth_play id note oct now false false (App.bassSynths e))
    as Hu.
  destruct (App.update_synth id (BassSynth.play note oct now false false)
                             (App.bassSynths e));
    cbn [res_map res_state App.ctx App.bassSynths] in *; split; auto.
Qed.

End Editor.

(** The effect of [placeNote] on the grid when the preview does not
    raise. *)
Lemma placeNote_effect `{FloatOps}
    (n : string) (st : UIController.AppState) (now : Q)
    (engine : option App.Engine) (bs : list Block) :
  full_grid bs ->
  UIController.activeView st <> "drum"%string ->
  proto_member (UIController.activeView st) = false ->
  (UIController.editingBlock st < length bs)%nat ->
  (UIController.selectedStep st < totalSteps)%nat ->
  (forall e, engine = Some e ->
             res_ok (App.previewNote (UIController.activeView st) n
                       (Num (UIController.currentOctave st)) now e) = true) ->
  exists bs',
    UIController.placeNote n st now engine bs
    = Ok (option_map
            (fun e => res_state (App.previewNote (UIController.activeView st) n
                                   (Num (UIController.currentOctave st)) now e))
            engine, bs') /\
    full_grid bs' /\ length bs' = length bs /\
    note_at bs' (UIController.editingBlock st) (UIController.activeView st)
            (UIController.selectedStep st)
    = Some {| note := n;
              octave := Num (UIController.currentOctave st);
              slide := match note_at bs (UIController.editingBlock st)
                                     (UIController.activeView st)
                                     (UIController.selectedStep st) with
                       | Some p => slide p
                       | None => false
                       end;
              accent := match note_at bs (UIController.editingBlock st)
                                      (UIController.activeView st)
                                      (UIController.selectedStep st) with
                        | Some p => accent p
                        | None => false
                        end |} /\
    (forall b k s,
        ~ (b = UIController.editingBlock st /\ k = UIController.activeView st /\
           s = UIController.selectedStep st) ->
        note_at bs' b k s = note_at bs b k s) /\
    (forall b s, drums_at bs' b s = drums_at bs b s).
Proof.
  intros Hf Hd Hp Hlt Hs Hprev.
  destruct (lookup_lt_is_Some_2 bs _ Hlt) as [blk Hb].
  destruct (placeNote_ok n st now engine bs blk Hf Hd Hp Hb Hs Hprev)
    as (bs1 & blk1 & Hbs1 & Hb1 & Hplace).
  destruct (view_track_ready _ bs _ blk _ Hf Hp Hb Hs)
    as (Hf1 & Hl1 & Hn1 & Hd1 & Hsome).
  rewrite <- Hbs1 in Hf1, Hl1, Hn1, Hd1, Hsome.
  eexists. split; [exact Hplace |].
  match goal with |- context [<[_ := App.setNote _ _ ?x _]> _] => set (new := x) end.
  destruct (setNote_entry bs1 _ blk1 (UIController.activeView st) _ new
              Hf1 Hb1 Hs) as (Hf2 & Hl2 & Hdr2 & He2).
  split; [exact Hf2 |]. split; [rewrite Hl2; exact Hl1 |]. split; [| split].
  - rewrite note_at_entry, He2. rewrite decide_True by auto.
    destruct Hsome as [o Ho]. rewrite Ho. reflexivity.
  - intros b k s Hne. rewrite note_at_entry, He2.
    rewrite decide_False by exact Hne.
    rewrite <- note_at_entry. apply Hn1.
  - intros b s. rewrite drums_at_entry, Hdr2, <- drums_at_entry. apply Hd1.
Qed.

(** X22. placeNote(note) on a bass view, called at audio-clock time
    now: with the edited block in range and the selected step below
    16, and when the preview of the note (previewNote, which lets the
    synth of the view play it) does not raise, the call returns
    normally with the engine as the preview left it, the selected slot
    holds the pitch with the current octave and with the slide and
    accent flags of the note that was there before (both off when the
    slot was empty), and every other slot, every drum step and the
    number of blocks are unchanged.  Without an audio engine nothing is
    previewed and the same holds. *)
Theorem placeNote_writes_selected_slot `{FloatOps}
    (n : string) (st : UIController.AppState) (now : Q)
    (engine : option App.Engine) (bs : list Block) :
  full_grid bs ->
  UIController.activeView st <> "drum"%string ->
  proto_member (UIController.activeView st) = false ->
  (UIController.editingBlock st < length bs)%nat ->
  (UIController.selectedStep st < totalSteps)%nat ->
  (forall e, engine = Some e ->
             res_ok (App.previewNote (UIController.activeView st) n
                       (Num (UIController.currentOctave st)) now e) = true) ->
  exists bs',
    UIController.placeNote n st now engine bs
    = Ok (option_map
            (fun e => res_state (App.previewNote (UIController.activeView st) n
                                   (Num (UIController.currentOctave st)) now e))
            engine, bs') /\
    full_grid bs' /\ length bs' = length bs /\
    note_at bs' (UIController.editingBlock st) (UIController.activeView st)
            (UIController.selectedStep st)
    = Some {| note := n;
              octave := Num (UIController.currentOctave st);
              slide := match note_at bs (UIController.editingBlock st)
                                     (UIController.activeView st)
                                     (UIController.selectedStep st) with
                       | Some p => slide p
                       | None => false
                       end;
              accent := match note_at bs (UIController.editingBlock st)
                                      (UIController.activeView st)
                                      (UIController.selectedStep st) with
                        | Some p => accent p
                        | None => false
                        end |} /\
    (forall b k s,
        ~ (b = UIController.editingBlock st /\ k = UIController.activeView st /\
           s = UIController.selectedStep st) ->
        note_at bs' b k s = note_at bs b k s) /\
    (forall b s, drums_at bs' b s = drums_at bs b s).
Proof. apply placeNote_effect. Qed.

(** X23. Toggling a flag twice restores the pattern: when
    toggleNoteMod(prop) returns normally, a second call with the same
    property and the same selection also returns normally and leaves
    the blocks exactly as they were before the first call. *)
Theorem toggleNoteMod_twice
    (prop : UIController.NoteMod) (st : UIController.AppState)
    (bs bs1 : list Block) :
  UIController.toggleNoteMod prop st bs = Ok bs1 ->
  UIController.toggleNoteMod prop st bs1 = Ok bs.
Proof.
  unfold UIController.toggleNoteMod.
  destruct (String.eqb (UIController.activeView st) "drum").
  { intros Hok. inversion Hok; subst. reflexivity. }
  destruct (bs !! UIController.editingBlock st) as [b |] eqn:Eb; [| discriminate].
  destruct (tracks b !! UIController.activeView st) as [arr |] eqn:Ea.
  - destruct (mjoin (arr !! UIController.selectedStep st)) as [n |] eqn:En.
    + intros Hok. inversion Hok; subst bs1. clear Hok.
      assert (Hlt : (UIController.editingBlock st < length bs)%nat)
        by (eapply lookup_lt_Some; eauto).
      rewrite list_lookup_insert_eq by exact Hlt.
      assert (Hslot : arr !! UIController.selectedStep st = Some (Some n)).
      { destruct (arr !! UIController.selectedStep st) as [[m |] |];
          cbn in En; congruence. }
      assert (Hin : (UIController.selectedStep st < length arr)%nat)
        by (eapply lookup_lt_Some; eauto).
      assert (Hset : forall v, array_set None arr (UIController.selectedStep st) v
                               = <[UIController.selectedStep st := v]> arr).
      { intros v. unfold array_set.
        destruct (Nat.ltb_spec (UIController.selectedStep st) (length arr));
          [reflexivity | lia]. }
      set (b1 := App.setNote (UIController.activeView st)
                   (UIController.selectedStep st) (UIController.toggled prop n) b).
      assert (Ht1 : tracks b1 !! UIController.activeView st
                    = Some (<[UIController.selectedStep st :=
                                Some (UIController.toggled prop n)]> arr)).
      { unfold b1, App.setNote. cbn [tracks].
        rewrite lookup_alter_eq, Ea. cbn. rewrite Hset. reflexivity. }
      rewrite Ht1, list_lookup_insert_eq by exact Hin.
      cbn [mjoin option_join mbind option_bind].
      change (mjoin (Some (Some (UIController.toggled prop n))))
        with (Some (UIController.toggled prop n)).
      cbn iota. f_equal. unfold b1.
      rewrite list_insert_insert_eq. apply list_insert_id.
      rewrite Eb. f_equal.
      destruct b as [tr dr]. unfold App.setNote. cbn [tracks drums] in *.
      f_equal.
      rewrite alter_alter_eq. symmetry. apply alter_id. intros arr0 Harr0.
      rewrite Ea in Harr0. inversion Harr0; subst arr0.
      cbn. rewrite Hset. unfold array_set.
      rewrite list.length_insert.
      destruct (Nat.ltb_spec (UIController.selectedStep st) (length arr));
        [| lia].
      rewrite list_insert_insert_eq. apply list_insert_id.
      rewrite Hslot. f_equal. f_equal.
      destruct prop, n; cbn; rewrite negb_involutive; reflexivity.
    + intros Hok. inversion Hok; subst bs1. rewrite Eb, Ea, En. reflexivity.
  - destruct (proto_member (UIController.activeView st)) eqn:Ep; [| discriminate].
    intros Hok. inversion Hok; subst bs1. rewrite Eb, Ea. reflexivity.
Qed.
Section EditorDelete.

Import UIController.
Local Open Scope nat_scope.

Lemma clearNote_entry (cur : list Block) b blk id s :
  full_grid cur -> cur !! b = Some blk -> s < totalSteps ->
  let cur' := <[b := {| tracks := alter (fun arr => array_set None arr s None)
                                        id (tracks blk);
                        drums := drums blk |}]> cur in
  length cur' = length cur /\
  (forall b' s', drum_entry cur' b' s' = drum_entry cur b' s') /\
  (forall b' k' s',
      note_at cur' b' k' s'
      = if decide (b' = b /\ k' = id /\ s' = s) then None
        else note_at cur b' k' s').
Proof.
  intros Hf Hb Hs cur'.
  assert (Hlt : b < length cur) by (eapply lookup_lt_Some; eauto).
  split; [apply list.length_insert |]. split.
  - intros b' s'. unfold drum_entry, cur'.
    destruct (decide (b = b')) as [<- | Hne].
    + rewrite list_lookup_insert_eq by exact Hlt. rewrite Hb. reflexivity.
    + rewrite list_lookup_insert_ne by exact Hne. reflexivity.
  - intros b' k' s'. unfold note_at, cur'.
    destruct (decide (b = b')) as [<- | Hne].
    + rewrite list_lookup_insert_eq by exact Hlt. rewrite Hb.
      cbn [mbind option_bind tracks].
      destruct (decide (k' = id)) as [-> | Hk].
      * rewrite lookup_alter_eq.
        destruct (tracks blk !! id) as [arr |] eqn:Ek;
          cbn [fmap option_fmap option_map mbind option_bind].
        -- destruct (Hf _ _ Hb) as [_ Ht].
           unfold array_set. rewrite (Ht _ _ Ek).
           destruct (Nat.ltb_spec s totalSteps); [| lia].
           destruct (decide (s' = s)) as [-> | Hs'].
           ++ rewrite list_lookup_insert_eq by (rewrite (Ht _ _ Ek); exact Hs).
              rewrite decide_True by done. reflexivity.
           ++ rewrite list_lookup_insert_ne by congruence.
              rewrite decide_False by naive_solver. reflexivity.
        -- destruct (decide _); reflexivity.
      * rewrite lookup_alter_ne by congruence.
        rewrite decide_False by naive_solver. reflexivity.
    + rewrite list_lookup_insert_ne by exact Hne.
      rewrite decide_False by naive_solver. reflexivity.
Qed.

End EditorDelete.

(** X24. The delete button undoes placeNote.  Under the conditions of
    placeNote (a bass view, the edited block in range, the selected
    step below 16, and a preview of the note that does not raise),
    placing a note and then pressing delete with the same selection
    both return normally; afterwards the selected slot is empty and
    every other slot and every drum step is as it was before the note
    was placed. *)
Theorem deleteNote_after_placeNote `{FloatOps}
    (n : string) (st : UIController.AppState) (now : Q)
    (engine : option App.Engine) (bs : list Block) :
  full_grid bs ->
  UIController.activeView st <> "drum"%string ->
  proto_member (UIController.activeView st) = false ->
  (UIController.editingBlock st < length bs)%nat ->
  (UIController.selectedStep st < totalSteps)%nat ->
  (forall e, engine = Some e ->
             res_ok (App.previewNote (UIController.activeView st) n
                       (Num (UIController.currentOctave st)) now e) = true) ->
  exists engine' bs1 bs2,
    UIController.placeNote n st now engine bs = Ok (engine', bs1) /\
    UIController.deleteNote st bs1 = Ok bs2 /\
    length bs2 = length bs /\
    (forall b k s,
        note_at bs2 b k s
        = if decide (b = UIController.editingBlock st /\
                     k = UIController.activeView st /\
                     s = UIController.selectedStep st)
          then None else note_at bs b k s) /\
    (forall b s, drums_at bs2 b s = drums_at bs b s).
Proof.
  intros Hf Hd Hp Hlt Hs Hprev.
  destruct (placeNote_effect n st now engine bs Hf Hd Hp Hlt Hs Hprev)
    as (bs1 & Hplace & Hf1 & Hl1 & Hnew & Hframe & Hdr).
  eexists. exists bs1.
  assert (Hlt1 : (UIController.editingBlock st < length bs1)%nat) by lia.
  destruct (lookup_lt_is_Some_2 bs1 _ Hlt1) as [blk1 Hb1].
  assert (Htr : track_truthy (UIController.activeView st) blk1 = true).
  { unfold track_truthy. unfold note_at in Hnew. rewrite Hb1 in Hnew.
    cbn [mbind option_bind] in Hnew.
    destruct (tracks blk1 !! UIController.activeView st); [reflexivity |].
    discriminate. }
  destruct (clearNote_entry bs1 _ blk1 (UIController.activeView st) _
              Hf1 Hb1 Hs) as (Hl2 & Hdr2 & Hn2).
  eexists. split; [exact Hplace |]. split.
  { unfold UIController.deleteNote.
    rewrite (eqb_drum _ Hd), Hb1, Htr. reflexivity. }
  split; [rewrite Hl2; exact Hl1 |]. split.
  - intros b k s. rewrite Hn2.
    destruct (decide (b = UIController.editingBlock st /\
                      k = UIController.activeView st /\
                      s = UIController.selectedStep st)) as [_ | Hne];
      [reflexivity |].
    apply Hframe. exact Hne.
  - intros b s. rewrite drums_at_entry, Hdr2, <- drums_at_entry. apply Hdr.
Qed.
Section EditorSession.

Context `{FloatOps}.
Import App Wf UIController.
Local Open Scope nat_scope.

Lemma valid_blocks_full_grid ids nch (bs : list Block) :
  Forall (valid_block ids nch) bs -> full_grid bs.
Proof.
  intros Hall b blk Hb.
  rewrite Forall_forall in Hall.
  assert (Hin : blk ∈ bs) by (eapply list_elem_of_lookup_2; eauto).
  destruct (Hall blk Hin) as (Hd & _ & Ht). split; [exact Hd |].
  intros k arr Hk. apply (Ht k arr Hk).
Qed.

Lemma valid_block_registered ids nch id blk :
  In id ids -> valid_block ids nch blk ->
  valid_block ids nch
    (if track_truthy id blk then blk
     else {| tracks := <[id := emptyTrack]> (tracks blk); drums := drums blk |}).
Proof.
  intros Hid Hv. destruct (track_truthy id blk); [exact Hv |].
  destruct Hv as (Hd & Hh & Ht). split; [exact Hd |]. split; [exact Hh |].
  intros k arr. cbn [tracks].
  destruct (decide (k = id)) as [-> | Hne].
  - rewrite lookup_insert_eq. intros Harr. inversion Harr; subst arr.
    split; [exact Hid |]. split; [apply length_replicate |].
    intros s n Hs. unfold emptyTrack in Hs.
    apply lookup_replicate in Hs as [Hs _]. discriminate.
  - rewrite lookup_insert_ne by congruence. apply Ht.
Qed.

Lemma valid_block_setNote ids nch id s n blk :
  s < totalSteps -> valid_note n -> valid_block ids nch blk ->
  valid_block ids nch (setNote id s n blk).
Proof.
  intros Hs Hn (Hd & Hh & Ht). split; [exact Hd |]. split; [exact Hh |].
  intros k arr. unfold setNote. cbn [tracks]. intros Hk.
  apply lookup_alter_Some in Hk as [(-> & arr0 & Hk0 & ->) | [_ Hk]];
    [| apply Ht; exact Hk].
  destruct (Ht _ _ Hk0) as (Hin & Hl & Hnotes).
  unfold array_set. rewrite Hl.
  destruct (Nat.ltb_spec s totalSteps); [| lia].
  split; [exact Hin |]. split; [rewrite list.length_insert; exact Hl |].
  intros s' m Hm.
  destruct (decide (s = s')) as [<- | Hne].
  - rewrite list_lookup_insert_eq in Hm by (rewrite Hl; exact Hs).
    inversion Hm; subst. exact Hn.
  - rewrite list_lookup_insert_ne in Hm by exact Hne. eapply Hnotes; eauto.
Qed.

(** X25. A note placed with the editor keeps the session valid.  In a
    session that satisfies the validity conditions of the CSV round
    trip, placeNote on the view of one of the bass synths, with one of
    the twelve pitch names, a non-negative current octave, the edited
    block in range and the selected step below 16, and when the
    preview of the note does not raise (the synth accepts the
    frequency of the note and its own parameters), returns normally,
    and the session with the engine after the preview and the new
    blocks satisfies the same conditions again. *)
Theorem placeNote_keeps_session_valid
    (n : string) (st : AppState) (now : Q) (w : World) (e : Engine)
    (d : DrumSynth.t) :
  valid_session w e d ->
  In (activeView st) (map BassSynth.sid (bassSynths e)) ->
  activeView st <> "drum"%string ->
  valid_pitch n ->
  (0 <= currentOctave st)%Z ->
  editingBlock st < length (blocks w) ->
  selectedStep st < totalSteps ->
  res_ok (previewNote (activeView st) n (Num (currentOctave st)) now e) = true ->
  exists e' bs',
    placeNote n st now (audioEngine w) (blocks w) = Ok (Some e', bs') /\
    valid_session (with_blocks (with_engine w e') bs') e' d.
Proof.
  intros Hv Hview Hd Hpitch Hoct Hlt Hs Hprev.
  destruct Hv as [He Hds Hbpm Hsy Hdr Hbl].
  assert (Hp : proto_member (activeView st) = false).
  { apply in_map_iff in Hview as (s & Hsid & Hin).
    apply list_elem_of_In in Hin.
    rewrite Forall_forall in Hsy. destruct (Hsy s Hin) as [Hid _].
    rewrite Hsid in Hid. apply Hid. }
  pose proof (valid_blocks_full_grid _ _ _ Hbl) as Hf.
  destruct (lookup_lt_is_Some_2 (blocks w) _ Hlt) as [blk Hb].
  destruct (placeNote_ok n st now (audioEngine w) (blocks w) blk
              Hf Hd Hp Hb Hs)
    as (bs1 & blk1 & Hbs1 & Hb1 & Hplace).
  { intros e0 He0. rewrite He in He0. inversion He0; subst e0. exact Hprev. }
  rewrite He in Hplace at 2. cbn [option_map] in Hplace.
  set (e' := res_state (previewNote (activeView st) n
                          (Num (currentOctave st)) now e)) in *.
  exists e'. eexists. split; [exact Hplace |].
  destruct (previewNote_synths (activeView st) n (Num (currentOctave st)) now e)
    as [_ Hsame]. fold e' in Hsame.
  assert (Hids : map BassSynth.sid (bassSynths e')
                 = map BassSynth.sid (bassSynths e)).
  { clear -Hsame. induction Hsame as [| s s' l l' [f ->] _ IH]; [reflexivity |].
    cbn [map]. rewrite IH. reflexivity. }
  assert (Hsy' : Forall valid_synth (bassSynths e')).
  { clear -Hsame Hsy.
    induction Hsame as [| s s' l l' [f ->] _ IH]; [constructor |].
    inversion Hsy; subst. constructor; [| apply IH; assumption].
    assumption. }
  assert (Hall1 : Forall (valid_block (map BassSynth.sid (bassSynths e))
                                      (length (DrumSynth.channels d))) bs1).
  { subst bs1. destruct (track_truthy (activeView st) blk); [exact Hbl |].
    unfold registerTrack. apply List.Forall_map.
    eapply Forall_impl; [exact Hbl |].
    intros b0 Hb0. apply valid_block_registered; assumption. }
  constructor;
    cbn [with_blocks with_engine audioEngine drumSynth bpm blocks];
    try assumption; [reflexivity |].
  rewrite Hids.
  apply Forall_insert; [exact Hall1 |].
  apply valid_block_setNote; [exact Hs | |].
  - split; [exact Hpitch |]. eexists. split; [reflexivity | exact Hoct].
  - rewrite Forall_forall in Hall1. apply Hall1.
    eapply list_elem_of_lookup_2; eauto.
Qed.

End EditorSession.

(** ** The drum controls *)

Section DrumControls.

Import Wf.

Lemma valid_drumSynth_update (d : DrumSynth.t) id c c' :
  valid_drumSynth d ->
  DrumSynth.channels d !! id = Some c ->
  valid_channel id c' ->
  valid_drumSynth (DrumSynth.with_channels d (<[id := c']> (DrumSynth.channels d))).
Proof.
  intros [Hm Hc] Hid Hc'. split; [exact Hm |].
  intros k ch. cbn [DrumSynth.with_channels DrumSynth.channels].
  rewrite list_lookup_insert.
  destruct (decide (id = k /\ (id < length (DrumSynth.channels d))%nat))
    as [[<- _] | _].
  - intros Hk. inversion Hk; subst. exact Hc'.
  - apply Hc.
Qed.

End DrumControls.

(** X26. The drum volume and variant controls keep the drum
    configuration valid.  On a drum synth whose channels carry their
    index as id, a non-negative variant, a volume in 0..100 and a
    colour, and for every integer v and channel index id:
    setMasterVolume(v) and setChannelVolume(id, v) return normally and
    store v clamped to 0..100; setChannelVariant(id, v) with
    0 <= v < 2^53 stores v; a channel index that does not exist changes nothing; and
    the configuration is valid again after each of the three calls.
    For the variant, which goes through parseInt, v is below 2^53. *)
Theorem drum_controls_keep_valid (d : DrumSynth.t) (id : nat) (v : Z) :
  Wf.valid_drumSynth d ->
  (exists d',
      DrumSynth.setMasterVolume (Num v) d = Ok d' /\
      Wf.valid_drumSynth d' /\
      DrumSynth.masterVolume d' = Num (Z.max 0 (Z.min 100 v)) /\
      DrumSynth.channels d' = DrumSynth.channels d) /\
  (exists d',
      DrumSynth.setChannelVolume id (Num v) d = Ok d' /\
      Wf.valid_drumSynth d' /\
      (DrumSynth.channels d !! id = None -> d' = d) /\
      (forall ch, DrumSynth.channels d' !! id = Some ch ->
                  DrumSynth.volume ch = Num (Z.max 0 (Z.min 100 v))) /\
      (forall k, k <> id ->
                 DrumSynth.channels d' !! k = DrumSynth.channels d !! k)) /\
  (0 <= v < 2 ^ 53 ->
   Wf.valid_drumSynth (DrumSynth.setChannelVariant id (Num v) d) /\
   (DrumSynth.channels d !! id = None ->
    DrumSynth.setChannelVariant id (Num v) d = d) /\
   (forall ch,
       DrumSynth.channels (DrumSynth.setChannelVariant id (Num v) d) !! id
       = Some ch ->
       DrumSynth.variant ch = Num v) /\
   (forall k, k <> id ->
              DrumSynth.channels (DrumSynth.setChannelVariant id (Num v) d) !! k
              = DrumSynth.channels d !! k)).
Proof.
  intros Hv. split; [| split].
  - unfold DrumSynth.setMasterVolume. cbn [clamp100 isNaN].
    rewrite andb_false_r. eexists. split; [reflexivity |].
    split; [| split; reflexivity].
    destruct Hv as [_ Hc]. split; [eexists; reflexivity | exact Hc].
  - unfold DrumSynth.setChannelVolume.
    destruct (DrumSynth.channels d !! id) as [c |] eqn:Ec.
    + cbn [clamp100 isNaN]. rewrite andb_false_r.
      eexists. split; [reflexivity |]. split; [| split; [| split]].
      * apply (valid_drumSynth_update d id c); [exact Hv | exact Ec |].
        destruct Hv as [_ Hc].
        destruct (Hc id c Ec) as (Hid & Hty & Hvar & Hvol & Hcol).
        split; [exact Hid |]. split; [exact Hty |]. split; [exact Hvar |].
        split; [| exact Hcol].
        eexists. split; [reflexivity |]. cbn. lia.
      * discriminate.
      * intros ch. cbn [DrumSynth.with_channels DrumSynth.channels].
        rewrite list_lookup_insert_eq by (eapply lookup_lt_Some; eauto).
        intros Hch. inversion Hch; subst. reflexivity.
      * intros k Hk. cbn [DrumSynth.with_channels DrumSynth.channels].
        apply list_lookup_insert_ne. congruence.
    + exists d. split; [reflexivity |]. split; [exact Hv |].
      split; [reflexivity |]. split; [| reflexivity].
      intros ch Hch. congruence.
  - intros H0. unfold DrumSynth.setChannelVariant.
    destruct (DrumSynth.channels d !! id) as [c |] eqn:Ec.
    + assert (Hp : parseInt_num (Num v) = Num v).
      { unfold parseInt_num. apply parseInt_num_to_string. }
      rewrite Hp. split; [| split; [| split]].
      * apply (valid_drumSynth_update d id c); [exact Hv | exact Ec |].
        destruct Hv as [_ Hc].
        destruct (Hc id c Ec) as (Hid & Hty & Hvar & Hvol & Hcol).
        split; [exact Hid |]. split; [exact Hty |]. split; [| auto].
        eexists. split; [reflexivity | exact (proj1 H0)].
      * discriminate.
      * intros ch. cbn [DrumSynth.with_channels DrumSynth.channels].
        rewrite list_lookup_insert_eq by (eapply lookup_lt_Some; eauto).
        intros Hch. inversion Hch; subst. reflexivity.
      * intros k Hk. cbn [DrumSynth.with_channels DrumSynth.channels].
        apply list_lookup_insert_ne. congruence.
    + split; [exact Hv |]. split; [reflexivity |].
      split; [| reflexivity]. intros ch Hch. congruence.
Qed.
(** ** The exported text is a rectangular table *)

Section ExportTable.

Context `{FloatOps}.
Import App Wf.
Local Open Scope nat_scope.

Lemma headerRow_cells w e :
  split "," (headerRow w e)
  = (Z_to_string (bpm w) ++ "-"
       ++ Z_to_string (Z.of_nat (length (blocks w) * totalSteps)) ++ "-"
       ++ Z_to_string (Z.of_nat (length (bassSynths e))))%string
    :: map (fun i => Z_to_string (Z.of_nat i))
           (seq 1 (length (blocks w) * totalSteps)).
Proof.
  unfold headerRow. apply split_add_cells.
  - repeat first [ apply lacks_append | apply Z_to_string_lacks | apply lacks_cons ];
      try discriminate; reflexivity.
  - induction (seq 1 (length (blocks w) * totalSteps)) as [| i l IH];
      [constructor |].
    rewrite map_cons. constructor; [apply Z_to_string_lacks; reflexivity | exact IH].
Qed.

(** X27. The exported CSV text is a rectangular table.  For a session
    that satisfies the conditions of the CSV round trip, the trimmed
    text has one header line, one line per bass synth and one drum
    line, and every line has exactly 1 + 16 * (number of blocks)
    comma-separated cells; the cells of the header after the first are
    the step numbers 1, 2, ... in order. *)
Theorem exported_csv_is_rectangular (w : World) (e : Engine) (d : DrumSynth.t) :
  valid_session w e d ->
  exists header rows,
    split (ascii_of_nat 10) (trim (exportToCSV w)) = header :: rows /\
    length rows = S (length (bassSynths e)) /\
    Forall (fun line =>
              length (split "," line) = S (length (blocks w) * totalSteps))
           (header :: rows) /\
    tail (split "," header)
    = map (fun i => Z_to_string (Z.of_nat i))
          (seq 1 (length (blocks w) * totalSteps)).
Proof.
  intros Hv. destruct (exported_lines w e d Hv) as [_ Hlines].
  eexists. eexists. split; [exact Hlines |].
  destruct Hv as [He Hds Hbpm Hsy Hdr Hbl].
  split; [| split].
  - rewrite length_app, length_map. cbn [length]. lia.
  - constructor.
    + rewrite headerRow_cells. cbn [length].
      rewrite length_map, length_seq. reflexivity.
    + apply Forall_app. split.
      * apply List.Forall_map. eapply Forall_impl; [exact Hsy |].
        intros s Hs. rewrite (split_bassRow _ _ Hs). cbn [length]. f_equal.
        apply length_concat_chunks. intros blk.
        unfold bassCells. rewrite length_map, length_seq. reflexivity.
      * constructor; [| constructor].
        rewrite (split_drumRow _ _ Hdr). cbn [length]. f_equal.
        apply length_concat_chunks. intros blk. apply drumCells_length.
  - rewrite headerRow_cells. reflexivity.
Qed.

End ExportTable.
(** ** What an import does to tempo and block count *)

Section ImportShape.

Context `{FloatOps}.
Import App CsvProps.
Local Open Scope nat_scope.

(** The tempo and the number of blocks of a session. *)
Local Abbreviation shape w := (bpm w, length (blocks w)).

Lemma and_then_shape {S} (P : S -> Prop) (r : Res S) (k : S -> Res S) :
  P (res_state r) ->
  (forall s, P s -> P (res_state (k s))) ->
  P (res_state (and_then r k)).
Proof. destruct r; cbn; auto. Qed.

Lemma importBassCell_length id cells bs sg :
  length (importBassCell id cells bs sg) = length bs.
Proof.
  unfold importBassCell.
  destruct (cells !! S sg) as [noteData |]; [| reflexivity].
  destruct (is_empty noteData || String.eqb noteData "0"); [reflexivity |].
  destruct (length (split "-" noteData) =? 4); [| reflexivity].
  destruct (bs !! (sg / totalSteps)); [| reflexivity].
  destruct (noteMapRev_at _) as [noteChar |]; [| reflexivity].
  destruct (is_empty noteChar); [reflexivity |].
  apply list.length_insert.
Qed.

Lemma importDrumCell_length cells bs sg :
  length (importDrumCell cells bs sg) = length bs.
Proof.
  unfold importDrumCell.
  destruct (cells !! S sg) as [binary |]; [| reflexivity].
  destruct (is_empty binary); [reflexivity |].
  destruct (bs !! (sg / totalSteps)); [| reflexivity].
  apply list.length_insert.
Qed.

Lemma fold_length {A} (f : list Block -> A -> list Block) (l : list A) bs :
  (forall bs x, length (f bs x) = length bs) ->
  length (fold_left f l bs) = length bs.
Proof.
  intros Hf. revert bs. induction l as [| x l IH]; intros bs; cbn.
  - reflexivity.
  - rewrite IH. apply Hf.
Qed.

Lemma res_map_state {S T} (f : S -> T) (r : Res S) :
  res_state (res_map f r) = f (res_state r).
Proof. destruct r; reflexivity. Qed.

Lemma importBass_shape total cells w :
  shape (res_state (importBass total cells w)) = shape w.
Proof.
  unfold importBass.
  destruct (audioEngine w) as [e |] eqn:He; [| reflexivity].
  set (id := nth 0 (split ":" (nth 0 cells "")) "").
  set (w1 := match getSynth id e with Some _ => w | None => addBassSynth id w e end).
  assert (H1 : shape w1 = shape w).
  { unfold w1. destruct (getSynth id e); [reflexivity |].
    unfold addBassSynth. cbn [with_blocks with_engine bpm blocks].
    rewrite registerTrack_length. reflexivity. }
  apply (and_then_shape (fun s => shape s = shape w)).
  - destruct (audioEngine w1) as [e1 |]; [| exact H1].
    destruct (10 <=? _); [| exact H1].
    rewrite res_map_state. exact H1.
  - intros s Hs. cbn [res_state with_blocks bpm blocks].
    rewrite fold_length by (intros; apply importBassCell_length).
    rewrite registerTrack_length. exact Hs.
Qed.

Lemma importDrums_shape total cells w :
  shape (res_state (importDrums total cells w)) = shape w.
Proof.
  unfold importDrums.
  apply (and_then_shape (fun s => shape s = shape w)).
  - destruct (drumSynth w) as [d |]; [| reflexivity].
    rewrite res_map_state. reflexivity.
  - intros s Hs. cbn [res_state with_blocks bpm blocks].
    rewrite fold_length by (intros; apply importDrumCell_length). exact Hs.
Qed.

Lemma importLine_shape total line w :
  shape (res_state (importLine total line w)) = shape w.
Proof.
  unfold importLine.
  destruct (startsWith "drums" _); [apply importDrums_shape |].
  destruct (includes ":" _); [apply importBass_shape | reflexivity].
Qed.

Lemma importLines_shape total lines r :
  shape (res_state (fold_left (fun r line => and_then r (importLine total line))
                              lines r))
  = shape (res_state r).
Proof.
  revert r. induction lines as [| line lines IH]; intros r; cbn [fold_left].
  - reflexivity.
  - rewrite IH.
    apply (and_then_shape (fun s => shape s = shape (res_state r)));
      [reflexivity |].
    intros s Hs. rewrite importLine_shape. exact Hs.
Qed.

(** X28. importFromCSV either changes nothing or replaces tempo and
    blocks as the header says.  When the two leading fields of the
    header are not both numbers, when the text is empty or has fewer
    than two lines, or when there is no audio engine, the call returns
    false and the session is untouched.  In every other case, whether
    the call then returns true or false, the session has the tempo of
    the header and exactly ceil(total / 16) blocks (none at all when
    total is zero or negative). *)
Theorem importFromCSV_header_decides (csvData : string) (w : World) :
  (fst (importFromCSV csvData w) = false /\ snd (importFromCSV csvData w) = w) \/
  (exists bpm' total,
      parseInt_opt (header_fields csvData !! 0) = Num bpm' /\
      parseInt_opt (header_fields csvData !! 1) = Num total /\
      bpm (snd (importFromCSV csvData w)) = bpm' /\
      length (blocks (snd (importFromCSV csvData w)))
      = Z.to_nat (ceil_div total 16)).
Proof.
  unfold importFromCSV.
  destruct (is_empty csvData); [left; auto |].
  destruct (audioEngine w) as [e |]; [| left; auto].
  destruct (length (split (ascii_of_nat 10) (trim csvData)) <? 2);
    [left; auto |].
  fold (header_fields csvData).
  destruct (parseInt_opt (header_fields csvData !! 0)) as [| bpm'];
    [left; auto |].
  destruct (parseInt_opt (header_fields csvData !! 1)) as [| total];
    [left; auto |].
  right. exists bpm', total. split; [reflexivity |]. split; [reflexivity |].
  cbn [snd].
  match goal with
  | |- context [fold_left ?f ?l ?r] =>
      pose proof (importLines_shape total l r) as Hshape
  end.
  cbn [res_state bpm blocks] in Hshape.
  injection Hshape as Hb Hl. split; [exact Hb |].
  rewrite Hl, iter_addBlock. apply length_replicate.
Qed.

End ImportShape.
(** ** The positions visited by the playback *)

Section PlaybackOrder.

Context `{FloatOps}.
Import AudioEngine.
Local Open Scope nat_scope.

Variable bpm : Z.
Variable blocks : list Block.

Local Abbreviation step := (scheduleStep bpm blocks).

Lemma succ_div_mod n :
  (S n mod 16 = if 16 <=? S (n mod 16) then 0 else S (n mod 16)) /\
  (S n / 16 = if 16 <=? S (n mod 16) then S (n / 16) else n / 16).
Proof.
  pose proof (Nat.div_mod_eq n 16) as Hn.
  pose proof (Nat.mod_upper_bound n 16 ltac:(lia)) as Hr.
  destruct (Nat.leb_spec 16 (S (n mod 16))) as [Hw | Hw].
  - assert (E : S n = 16 * S (n / 16) + 0) by lia.
    split.
    + symmetry. apply (Nat.mod_unique (S n) 16 (S (n / 16)) 0); [lia | exact E].
    + symmetry. apply (Nat.div_unique (S n) 16 (S (n / 16)) 0); [lia | exact E].
  - assert (E : S n = 16 * (n / 16) + S (n mod 16)) by lia.
    split.
    + symmetry. apply (Nat.mod_unique (S n) 16 (n / 16) (S (n mod 16))); [lia | exact E].
    + symmetry. apply (Nat.div_unique (S n) 16 (n / 16) (S (n mod 16))); [lia | exact E].
Qed.

Lemma succ_mod_len a len :
  0 < len ->
  S a mod len = if len <=? S (a mod len) then 0 else S (a mod len).
Proof.
  intros Hlen.
  pose proof (Nat.div_mod_eq a len) as Ha.
  pose proof (Nat.mod_upper_bound a len ltac:(lia)) as Hr.
  destruct (Nat.leb_spec len (S (a mod len))) as [Hw | Hw].
  - symmetry. apply (Nat.mod_unique (S a) len (S (a / len)) 0); [lia |]. nia.
  - symmetry. apply (Nat.mod_unique (S a) len (a / len) (S (a mod len))); [lia |].
    nia.
Qed.

Lemma iter_position n st b0 :
  0 < length blocks ->
  currentPlayStep st = 0 -> currentPlayBlock st = b0 -> b0 < length blocks ->
  currentPlayStep (Nat.iter n step st) = n mod 16 /\
  currentPlayBlock (Nat.iter n step st) = (b0 + n / 16) mod length blocks.
Proof.
  intros Hlen Hs Hb Hlt. induction n as [| n [IHs IHb]].
  - change (Nat.iter 0 step st) with st. rewrite Hs, Hb. split; [reflexivity |].
    rewrite Nat.Div0.div_0_l, Nat.add_0_r. symmetry. apply Nat.mod_small. exact Hlt.
  - rewrite Nat.iter_succ.
    destruct (succ_div_mod n) as [Hm Hd].
    set (s := Nat.iter n step st) in *.
    unfold scheduleStep, advanceNote, pushVisual.
    cbn [currentPlayStep currentPlayBlock].
    rewrite IHs, IHb, Hm, Hd. change totalSteps with 16.
    destruct (16 <=? S (n mod 16)).
    + split; [reflexivity |].
      replace (b0 + S (n / 16)) with (S (b0 + n / 16)) by lia.
      rewrite (succ_mod_len _ _ Hlen). reflexivity.
    + split; reflexivity.
Qed.

Lemma queue_positions n st b0 i e :
  0 < length blocks ->
  currentPlayStep st = 0 -> currentPlayBlock st = b0 -> b0 < length blocks ->
  visualQueue st = [] ->
  visualQueue (Nat.iter n step st) !! i = Some e ->
  ev_step e = i mod 16 /\ ev_block e = (b0 + i / 16) mod length blocks.
Proof.
  intros Hlen Hs Hb Hlt Hq. rewrite iter_queue, Hq. cbn [app].
  rewrite list_lookup_fmap.
  destruct (seq 0 n !! i) as [j |] eqn:Ej; [| discriminate].
  apply lookup_seq in Ej as [-> _]. cbn. intros He. inversion He.
  cbn [ev_step ev_block next_event].
  apply iter_position; assumption.
Qed.

End PlaybackOrder.


(** ** The properties on the demo session *)

Lemma demo_full_grid : full_grid (App.blocks Demo.world).
Proof.
  apply (valid_blocks_full_grid
           (map BassSynth.sid (App.bassSynths Demo.engine))
           (length (DrumSynth.channels (DrumSynth.init DrumSynth.initial)))).
  apply demo_session_valid.
Qed.

Lemma demo_track_keys (b : Block) (k : string) :
  b ∈ App.blocks Demo.world -> is_Some (tracks b !! k) -> k = "bass-1"%string.
Proof.
  intros Hb [arr Hk]. apply list_elem_of_singleton in Hb. subst b.
  change (tracks Demo.block1)
    with ({[ "bass-1"%string := <[2%nat := Some Demo.C3]> emptyTrack ]}
          : gmap string (list (option Note))) in Hk.
  apply lookup_singleton_Some in Hk as [<- _]. reflexivity.
Qed.

Lemma demo_in_step : @SessionProps.in_step IntFloat.ops Demo.world.
Proof.
  exists Demo.engine. split; [reflexivity |].
  split; [apply NoDup_singleton |]. split; [discriminate |]. split.
  - intros b k Hb Hk. rewrite (demo_track_keys b k Hb Hk). left.
  - intros b id Hb Hid.
    apply list_elem_of_singleton in Hb. apply list_elem_of_singleton in Hid.
    subst. reflexivity.
Qed.

Lemma paste_invariant_iff_witness :
  block_invariant (snd (pasteFromClipboard 0 (Some freshBlock) initial)) <->
  (forall b, b ∈ initial -> dom (tracks freshBlock) = dom (tracks b)) /\
  (forall k arr, tracks freshBlock !! k = Some arr -> length arr = totalSteps).
Proof.
  apply (paste_invariant_iff 0 freshBlock initial). exact initial_invariant.
Defined.

Lemma stale_clipboard_breaks_same_keys_witness :
  fst (copyToClipboard 0 initial None) = true /\
  fst (pasteFromClipboard 0 (snd (copyToClipboard 0 initial None))
                          (registerTrack "bass-2" initial)) = true /\
  length (snd (pasteFromClipboard 0 (snd (copyToClipboard 0 initial None))
                                  (registerTrack "bass-2" initial)))
  = S (length initial) /\
  ~ same_keys (snd (pasteFromClipboard 0 (snd (copyToClipboard 0 initial None))
                                       (registerTrack "bass-2" initial))).
Proof.
  apply (stale_clipboard_breaks_same_keys 0 0 "bass-2" initial None).
  - simpl. lia.
  - reflexivity.
  - intros b Hb. apply list_elem_of_singleton in Hb. subst b. reflexivity.
Defined.

Lemma moveBlock_exchanges_witness :
  fst (moveBlock 0 1 (Some <$> Demo.two_blocks)) = true /\
  length (snd (moveBlock 0 1 (Some <$> Demo.two_blocks)))
  = length (Some <$> Demo.two_blocks) /\
  snd (moveBlock 0 1 (Some <$> Demo.two_blocks)) !! Z.to_nat (0 + 1)
  = (Some <$> Demo.two_blocks) !! Z.to_nat 0 /\
  snd (moveBlock 0 1 (Some <$> Demo.two_blocks)) !! Z.to_nat 0
  = (Some <$> Demo.two_blocks) !! Z.to_nat (0 + 1) /\
  (forall j, j <> Z.to_nat 0 -> j <> Z.to_nat (0 + 1) ->
             snd (moveBlock 0 1 (Some <$> Demo.two_blocks)) !! j
             = (Some <$> Demo.two_blocks) !! j) /\
  snd (moveBlock 0 1 (Some <$> Demo.two_blocks)) ≡ₚ (Some <$> Demo.two_blocks) /\
  moveBlock (0 + 1) (- (1)) (snd (moveBlock 0 1 (Some <$> Demo.two_blocks)))
  = (true, Some <$> Demo.two_blocks).
Proof.
  apply (moveBlock_exchanges 0 1 (Some <$> Demo.two_blocks)); simpl; lia.
Defined.




Lemma removeSynth_removes_synth_and_track_witness :
  exists e',
    fst (@App.removeSynth IntFloat.ops "bass-1" Demo.world Demo.engine) = true /\
    App.audioEngine (snd (@App.removeSynth IntFloat.ops "bass-1" Demo.world
                                           Demo.engine)) = Some e' /\
    App.getSynth "bass-1" e' = None /\
    (forall id', id' <> "bass-1"%string ->
                 App.getSynth id' e' = App.getSynth id' Demo.engine) /\
    (forall b k s,
        note_at (App.blocks (snd (@App.removeSynth IntFloat.ops "bass-1"
                                                   Demo.world Demo.engine))) b k s
        = if decide (k = "bass-1"%string) then None
          else note_at (App.blocks Demo.world) b k s) /\
    (forall b s,
        drums_at (App.blocks (snd (@App.removeSynth IntFloat.ops "bass-1"
                                                    Demo.world Demo.engine))) b s
        = drums_at (App.blocks Demo.world) b s).
Proof.
  apply (@removeSynth_removes_synth_and_track IntFloat.ops "bass-1"
           Demo.world Demo.engine).
  - apply NoDup_singleton.
  - left.
Defined.


Lemma syncWithMatrix_matches_tracks_witness :
  exists e',
    App.audioEngine (@App.syncWithMatrix IntFloat.ops ["bass-1"%string]
                                         Demo.world Demo.engine) = Some e' /\
    (forall k, k ∈ @SessionProps.synth_ids IntFloat.ops e'
               <-> k ∈ ["bass-1"%string]) /\
    (NoDup (@SessionProps.synth_ids IntFloat.ops Demo.engine) ->
     NoDup (@SessionProps.synth_ids IntFloat.ops e')) /\
    SessionProps.active_ids
      (App.blocks (@App.syncWithMatrix IntFloat.ops ["bass-1"%string]
                                       Demo.world Demo.engine))
      ["bass-1"%string] /\
    (forall b k s,
        note_at (App.blocks (@App.syncWithMatrix IntFloat.ops ["bass-1"%string]
                                                 Demo.world Demo.engine)) b k s
        = note_at (App.blocks Demo.world) b k s) /\
    (forall b s,
        drums_at (App.blocks (@App.syncWithMatrix IntFloat.ops ["bass-1"%string]
                                                  Demo.world Demo.engine)) b s
        = drums_at (App.blocks Demo.world) b s) /\
    App.bpm (@App.syncWithMatrix IntFloat.ops ["bass-1"%string]
                                 Demo.world Demo.engine) = App.bpm Demo.world /\
    App.drumSynth (@App.syncWithMatrix IntFloat.ops ["bass-1"%string]
                                       Demo.world Demo.engine)
    = App.drumSynth Demo.world.
Proof.
  apply (@syncWithMatrix_matches_tracks IntFloat.ops ["bass-1"%string]
           Demo.world Demo.engine).
  intros k. split.
  - intros Hk. apply list_elem_of_singleton in Hk. subst k.
    exists Demo.block1. split; [left |]. eexists. reflexivity.
  - intros (b & Hb & Hk). rewrite (demo_track_keys b k Hb Hk). left.
Defined.




Lemma demo_drums_valid : Wf.valid_drumSynth (DrumSynth.init DrumSynth.initial).
Proof. apply demo_session_valid. Qed.


Lemma exported_csv_is_rectangular_witness :
  exists header rows,
    split (ascii_of_nat 10) (trim (@App.exportToCSV IntFloat.ops Demo.world))
    = header :: rows /\
    length rows = S (length (App.bassSynths Demo.engine)) /\
    Forall (fun line =>
              length (split "," line)
              = S (length (App.blocks Demo.world) * totalSteps))
           (header :: rows) /\
    tail (split "," header)
    = map (fun i => Z_to_string (Z.of_nat i))
          (seq 1 (length (App.blocks Demo.world) * totalSteps)).
Proof.
  apply (@exported_csv_is_rectangular IntFloat.ops Demo.world Demo.engine
           (DrumSynth.init DrumSynth.initial)).
  exact demo_session_valid.
Defined.


Lemma scheduler_repeated_tick_witness :
  exists p',
    AudioEngine.scheduler 2 Demo.keysOf (Some (DrumSynth.init DrumSynth.initial))
      174 initial (1 # 20)
      {| AudioEngine.transport := AudioEngine.startPlayback 0 0;
         AudioEngine.synths := App.bassSynths Demo.engine |}
    = Some (Ok p') /\
    AudioEngine.scheduler 0 Demo.keysOf (Some (DrumSynth.init DrumSynth.initial))
      174 initial (1 # 25) p'
    = Some (Ok p').
Proof.
  assert (Hok : option_map res_ok
                  (AudioEngine.scheduler 2 Demo.keysOf
                     (Some (DrumSynth.init DrumSynth.initial)) 174 initial (1 # 20)
                     {| AudioEngine.transport := AudioEngine.startPlayback 0 0;
                        AudioEngine.synths := App.bassSynths Demo.engine |})
                = Some true) by (vm_compute; reflexivity).
  destruct (AudioEngine.scheduler 2 Demo.keysOf
              (Some (DrumSynth.init DrumSynth.initial)) 174 initial (1 # 20)
              {| AudioEngine.transport := AudioEngine.startPlayback 0 0;
                 AudioEngine.synths := App.bassSynths Demo.engine |})
    as [[p' | p'] |] eqn:E; try discriminate Hok.
  exists p'. split; [reflexivity |].
  apply (@scheduler_repeated_tick IntFloat.ops Demo.keysOf
           (Some (DrumSynth.init DrumSynth.initial)) 2 0 174 initial
           (1 # 20) (1 # 25)
           {| AudioEngine.transport := AudioEngine.startPlayback 0 0;
              AudioEngine.synths := App.bassSynths Demo.engine |} p' E).
  vm_compute. discriminate.
Defined.

Lemma placeNote_writes_selected_slot_witness :
  exists bs',
    UIController.placeNote "D" Demo.editor 0 (Some Demo.engine)
                           (App.blocks Demo.world)
    = Ok (Some (res_state (App.previewNote "bass-1" "D" (Num 3) 0 Demo.engine)),
          bs') /\
    full_grid bs' /\ length bs' = length (App.blocks Demo.world) /\
    note_at bs' 0 "bass-1" 2
    = Some {| note := "D"; octave := Num 3; slide := false; accent := true |} /\
    (forall b k s,
        ~ (b = 0%nat /\ k = "bass-1"%string /\ s = 2%nat) ->
        note_at bs' b k s = note_at (App.blocks Demo.world) b k s) /\
    (forall b s, drums_at bs' b s = drums_at (App.blocks Demo.world) b s).
Proof.
  apply (@placeNote_writes_selected_slot IntFloat.ops "D" Demo.editor 0
           (Some Demo.engine) (App.blocks Demo.world)).
  - exact demo_full_grid.
  - discriminate.
  - reflexivity.
  - simpl. lia.
  - simpl. unfold totalSteps. lia.
  - intros e He. inversion He; subst e. vm_compute. reflexivity.
Defined.

Lemma deleteNote_after_placeNote_witness :
  exists engine' bs1 bs2,
    UIController.placeNote "D" Demo.editor 0 (Some Demo.engine)
                           (App.blocks Demo.world) = Ok (engine', bs1) /\
    UIController.deleteNote Demo.editor bs1 = Ok bs2 /\
    length bs2 = length (App.blocks Demo.world) /\
    (forall b k s,
        note_at bs2 b k s
        = if decide (b = 0%nat /\ k = "bass-1"%string /\ s = 2%nat)
          then None else note_at (App.blocks Demo.world) b k s) /\
    (forall b s, drums_at bs2 b s = drums_at (App.blocks Demo.world) b s).
Proof.
  apply (@deleteNote_after_placeNote IntFloat.ops "D" Demo.editor 0
           (Some Demo.engine) (App.blocks Demo.world)).
  - exact demo_full_grid.
  - discriminate.
  - reflexivity.
  - simpl. lia.
  - simpl. unfold totalSteps. lia.
  - intros e He. inversion He; subst e. vm_compute. reflexivity.
Defined.

Lemma placeNote_keeps_session_valid_witness :
  exists e' bs',
    UIController.placeNote "D" Demo.editor 0 (App.audioEngine Demo.world)
                           (App.blocks Demo.world) = Ok (Some e', bs') /\
    @Wf.valid_session IntFloat.ops
      (App.with_blocks (App.with_engine Demo.world e') bs') e'
      (DrumSynth.init DrumSynth.initial).
Proof.
  apply (@placeNote_keeps_session_valid IntFloat.ops "D" Demo.editor 0
           Demo.world Demo.engine (DrumSynth.init DrumSynth.initial)).
  - exact demo_session_valid.
  - left. reflexivity.
  - discriminate.
  - right. right. left. reflexivity.
  - simpl. lia.
  - simpl. lia.
  - simpl. unfold totalSteps. lia.
  - vm_compute. reflexivity.
Defined.


Lemma toggleNoteMod_twice_witness :
  exists bs1,
    UIController.toggleNoteMod UIController.ModSlide Demo.editor
                               (App.blocks Demo.world) = Ok bs1 /\
    UIController.toggleNoteMod UIController.ModSlide Demo.editor bs1
    = Ok (App.blocks Demo.world).
Proof.
  destruct (UIController.toggleNoteMod UIController.ModSlide Demo.editor
                                       (App.blocks Demo.world))
    as [bs1 | bs1] eqn:E; [| vm_compute in E; discriminate E].
  exists bs1. split; [reflexivity |].
  exact (toggleNoteMod_twice UIController.ModSlide Demo.editor
           (App.blocks Demo.world) bs1 E).
Defined.

Lemma drum_controls_keep_valid_witness :
  (exists d',
      DrumSynth.setMasterVolume (Num 120) (DrumSynth.init DrumSynth.initial)
      = Ok d' /\
      Wf.valid_drumSynth d' /\
      DrumSynth.masterVolume d' = Num (Z.max 0 (Z.min 100 120)) /\
      DrumSynth.channels d'
      = DrumSynth.channels (DrumSynth.init DrumSynth.initial)) /\
  (exists d',
      DrumSynth.setChannelVolume 3 (Num 120) (DrumSynth.init DrumSynth.initial)
      = Ok d' /\
      Wf.valid_drumSynth d' /\
      (DrumSynth.channels (DrumSynth.init DrumSynth.initial) !! 3%nat = None ->
       d' = DrumSynth.init DrumSynth.initial) /\
      (forall ch, DrumSynth.channels d' !! 3%nat = Some ch ->
                  DrumSynth.volume ch = Num (Z.max 0 (Z.min 100 120))) /\
      (forall k, k <> 3%nat ->
                 DrumSynth.channels d' !! k
                 = DrumSynth.channels (DrumSynth.init DrumSynth.initial) !! k)) /\
  (0 <= 120 < 2 ^ 53 ->
   Wf.valid_drumSynth
     (DrumSynth.setChannelVariant 3 (Num 120) (DrumSynth.init DrumSynth.initial)) /\
   (DrumSynth.channels (DrumSynth.init DrumSynth.initial) !! 3%nat = None ->
    DrumSynth.setChannelVariant 3 (Num 120) (DrumSynth.init DrumSynth.initial)
    = DrumSynth.init DrumSynth.initial) /\
   (forall ch,
       DrumSynth.channels
         (DrumSynth.setChannelVariant 3 (Num 120)
                                      (DrumSynth.init DrumSynth.initial)) !! 3%nat
       = Some ch ->
       DrumSynth.variant ch = Num 120) /\
   (forall k, k <> 3%nat ->
              DrumSynth.channels
                (DrumSynth.setChannelVariant 3 (Num 120)
                                             (DrumSynth.init DrumSynth.initial)) !! k
              = DrumSynth.channels (DrumSynth.init DrumSynth.initial) !! k)).
Proof.
  apply (drum_controls_keep_valid (DrumSynth.init DrumSynth.initial) 3 120).
  exact demo_drums_valid.
Defined.
